(** * Crossword generator: Grid, Placer, Validator, Generator, fingerprint

    A shallow embedding of the Python sources (src/grid.py, src/utils.py,
    src/word_placer.py, src/validator.py, src/generator.py, app.py) and the
    properties of the placement engine proved over it. *)

From Stdlib Require Import ZArith QArith List Bool Lia String Ascii.
From Stdlib Require Import Permutation.
Import ListNotations.
Open Scope Z_scope.

(* ===================================================================== *)
(** * Python values *)
(* ===================================================================== *)

(** A Python [str] is a sequence of Unicode code points; [enumerate(word)]
    and [len(word)] count code points, so a string is a list of them. *)
Definition char := Z.
Definition str := list char.

Fixpoint str_eqb (a b : str) : bool :=
  match a, b with
  | [], [] => true
  | x :: a', y :: b' => (x =? y) && str_eqb a' b'
  | _, _ => false
  end.

Definition len {A} (l : list A) : Z := Z.of_nat (List.length l).

(** [range(a, b)] *)
Definition range (a b : Z) : list Z :=
  map (fun k => a + Z.of_nat k) (seq 0 (Z.to_nat (b - a))).

(** [enumerate(l)] *)
Definition enumerate {A} (l : list A) : list (Z * A) :=
  combine (range 0 (len l)) l.

(** [l[i]] for a Python list: negative indices count from the end, and an
    index out of range raises IndexError ([None]). *)
Definition index {A} (l : list A) (i : Z) : option A :=
  if 0 <=? i then nth_error l (Z.to_nat i)
  else if 0 <=? len l + i then nth_error l (Z.to_nat (len l + i))
  else None.

(** [l[i] = x] for an index known to be in range. *)
Fixpoint list_set {A} (l : list A) (i : nat) (x : A) : list A :=
  match l, i with
  | [], _ => []
  | _ :: l', O => x :: l'
  | y :: l', S i' => y :: list_set l' i' x
  end.

(** [str.upper()] on the Basic Latin and Cyrillic blocks, the alphabets the
    dictionaries of this program are written in: a-z, U+0430..U+044F (а-я)
    and U+0450..U+045F (ѐ-џ, with ё = U+0451) go to their capitals, every
    other code point of these blocks is its own upper case. *)
Definition upper_char (c : char) : char :=
  if (97 <=? c) && (c <=? 122) then c - 32
  else if (1072 <=? c) && (c <=? 1103) then c - 32
  else if (1104 <=? c) && (c <=? 1119) then c - 80
  else c.

Definition upper (s : str) : str := map upper_char s.

(** Reading a UTF-8 literal of this file as a Python string. *)
Fixpoint utf8_decode (fuel : nat) (bs : list Z) : str :=
  match fuel with
  | O => []
  | S fuel' =>
    match bs with
    | [] => []
    | b0 :: r0 =>
      if b0 <? 128 then b0 :: utf8_decode fuel' r0
      else if b0 <? 224 then
        match r0 with
        | b1 :: r1 => ((b0 - 192) * 64 + (b1 - 128)) :: utf8_decode fuel' r1
        | _ => []
        end
      else if b0 <? 240 then
        match r0 with
        | b1 :: b2 :: r2 =>
          ((b0 - 224) * 4096 + (b1 - 128) * 64 + (b2 - 128))
            :: utf8_decode fuel' r2
        | _ => []
        end
      else
        match r0 with
        | b1 :: b2 :: b3 :: r3 =>
          ((b0 - 240) * 262144 + (b1 - 128) * 4096 + (b2 - 128) * 64
             + (b3 - 128)) :: utf8_decode fuel' r3
        | _ => []
        end
    end
  end.

Fixpoint string_bytes (s : string) : list Z :=
  match s with
  | EmptyString => []
  | String a s' => Z.of_nat (nat_of_ascii a) :: string_bytes s'
  end.

Definition py (s : string) : str :=
  utf8_decode (String.length s) (string_bytes s).

(** ** [float] *)

(** A Python [float] is an IEEE 754 binary64 number; it is held as the
    rational it denotes. The floats of this program are quotients [a / b]
    of two [int]s with [0 <= a <= b], the literals 0.3 and 0.7 and
    roundings of these: none is infinite or a NaN. *)
Definition float : Type := Q.

(** The integer nearest to [q], ties to the even one. *)
Definition round_half_even (q : Q) : Z :=
  let n := Qnum q in
  let d := Z.pos (Qden q) in
  let f := n / d in
  let r := 2 * (n mod d) in
  if r <? d then f
  else if d <? r then f + 1
  else if Z.even f then f else f + 1.

(** [(n / d) / 2^e] *)
Definition scale2 (n d e : Z) : Q :=
  if 0 <=? e then n # Z.to_pos (d * 2 ^ e)
  else (n * 2 ^ (- e)) # Z.to_pos d.

(** [floor(log2(n / d))] for positive [n] and [d]. *)
Definition floor_log2 (n d : Z) : Z :=
  let k := Z.log2 n - Z.log2 d in
  if Qle_bool 1 (scale2 n d k) then k else k - 1.

(** The binary64 number nearest to [q], ties to the even significand: a
    significand of 53 bits, or of fewer bits at the least exponent -1074
    (the subnormal numbers). *)
Definition binary64 (q : Q) : float :=
  let n := Qnum q in
  let d := Z.pos (Qden q) in
  if n =? 0 then 0%Q else
  let a := Z.abs n in
  let e := Z.max (floor_log2 a d - 52) (- 1074) in
  let m := round_half_even (scale2 a d e) in
  let v := if 0 <=? e then (m * 2 ^ e) # 1 else m # Z.to_pos (2 ^ (- e)) in
  if n <? 0 then (- v)%Q else v.

(** [a / b] on two [int]s, [b > 0]: the float nearest to the quotient. *)
Definition int_truediv (a b : Z) : float := binary64 (a # Z.to_pos b).

(** [round(x, 2)]: the decimal of two digits nearest to the value of the
    float [x], ties to the even last digit, and then the float nearest to
    that decimal. *)
Definition round2 (x : float) : float :=
  binary64 (round_half_even (x * (100 # 1)) # 100).

(** [a < b] on floats. *)
Definition Qltb (a b : Q) : bool := negb (Qle_bool b a).

(* ===================================================================== *)
(** * A state monad for the methods of a mutable object *)
(* ===================================================================== *)

Definition State (S A : Type) : Type := S -> A * S.

Definition ret {S A} (a : A) : State S A := fun s => (a, s).

Definition bind {S A B} (m : State S A) (k : A -> State S B) : State S B :=
  fun s => let '(a, s') := m s in k a s'.

Definition gets {S A} (f : S -> A) : State S A := fun s => (f s, s).

Definition modify {S} (f : S -> S) : State S unit := fun s => (tt, f s).

Definition eval {S A} (m : State S A) (s : S) : A := fst (m s).
Definition exec {S A} (m : State S A) (s : S) : S := snd (m s).

Declare Scope monad_scope.
Delimit Scope monad_scope with monad.
Notation "x <- m ;; k" := (bind m (fun x => k))
  (at level 61, m at next level, right associativity) : monad_scope.
Notation "m ;;; k" := (bind m (fun _ => k))
  (at level 61, right associativity) : monad_scope.
Open Scope monad_scope.

(** [for x in xs: body] where [body] may [return v] from the enclosing
    method ([Some v]); [rest] is the code after the loop. *)
Fixpoint for_return {S A R} (xs : list A) (body : A -> State S (option R))
    (rest : State S R) : State S R :=
  match xs with
  | [] => rest
  | x :: xs' =>
    r <- body x ;;
    match r with
    | Some v => ret v
    | None => for_return xs' body rest
    end
  end.

(** [for x in xs: body] without early exit. *)
Fixpoint for_each {S A} (xs : list A) (body : A -> State S unit)
    : State S unit :=
  match xs with
  | [] => ret tt
  | x :: xs' => body x ;;; for_each xs' body
  end.

(** [for x in xs: acc = body(acc, x)]: a loop that updates local
    variables [acc]. *)
Fixpoint for_fold {S A B} (xs : list A) (acc : B)
    (body : B -> A -> State S B) : State S B :=
  match xs with
  | [] => ret acc
  | x :: xs' => acc' <- body acc x ;; for_fold xs' acc' body
  end.

(** The same loops for code that can raise: [None] is the exception. *)
Definition obind {A B} (m : option A) (k : A -> option B) : option B :=
  match m with
  | Some a => k a
  | None => None
  end.

Notation "x <-? m ;; k" := (obind m (fun x => k))
  (at level 61, m at next level, right associativity) : monad_scope.

Fixpoint ofold {A B} (xs : list A) (acc : B) (body : B -> A -> option B)
    : option B :=
  match xs with
  | [] => Some acc
  | x :: xs' => acc' <-? body acc x ;; ofold xs' acc' body
  end.

Fixpoint omap {A B} (xs : list A) (f : A -> option B) : option (list B) :=
  match xs with
  | [] => Some []
  | x :: xs' => y <-? f x ;; ys <-? omap xs' f ;; Some (y :: ys)
  end.

(* ===================================================================== *)
(** * grid.py *)
(* ===================================================================== *)

(** [direction: str], ['horizontal'] or ['vertical']. *)
Inductive Direction := horizontal | vertical.

Definition Direction_eqb (a b : Direction) : bool :=
  match a, b with
  | horizontal, horizontal | vertical, vertical => true
  | _, _ => false
  end.

(** [@dataclass PlacedWord] *)
Record PlacedWord := mkPlacedWord {
  pw_word : str;
  pw_clue : str;
  pw_hint : str;
  pw_row : Z;
  pw_col : Z;
  pw_direction : Direction
}.

(** [PlacedWord.length] *)
Definition pw_length (p : PlacedWord) : Z := len (pw_word p).

(** The fields of [class Grid]: [size], [_height], [_width], [_grid],
    [_placed_words]. *)
Record Grid := mkGrid {
  grid_size : Z;
  grid_height : Z;
  grid_width : Z;
  grid_cells : list (list str);
  placed_words : list PlacedWord
}.

(** [Grid.EMPTY] *)
Definition EMPTY : str := [].

Definition is_empty (c : str) : bool := str_eqb c EMPTY.

(** [Grid.__init__(size)] *)
Definition Grid_init (size : Z) : Grid :=
  {| grid_size := size;
     grid_height := size;
     grid_width := size;
     grid_cells := map (fun _ => map (fun _ => EMPTY) (range 0 size))
                       (range 0 size);
     placed_words := [] |}.

(** The shape every method keeps: [_height] rows of [_width] cells. The
    fields are private and only written by [__init__], [set_cell],
    [place_word] and [crop_empty_edges]. *)
Definition grid_wf (g : Grid) : Prop :=
  grid_height g = len (grid_cells g) /\
  Forall (fun r => len r = grid_width g) (grid_cells g).

(** [self._grid[row][col]] behind the guard
    [0 <= row < self._height and 0 <= col < self._width], which keeps the
    access in range on a well-shaped grid. *)
Definition cell_at (cells : list (list str)) (row col : Z) : str :=
  nth (Z.to_nat col) (nth (Z.to_nat row) cells []) EMPTY.

Definition in_bounds (h w row col : Z) : bool :=
  (0 <=? row) && (row <? h) && (0 <=? col) && (col <? w).

(** [Grid.get_cell] *)
Definition get_cell (row col : Z) : State Grid str :=
  h <- gets grid_height ;;
  w <- gets grid_width ;;
  if in_bounds h w row col then
    gets (fun g => cell_at (grid_cells g) row col)
  else ret EMPTY.

Definition write_cell (row col : Z) (c : str) (g : Grid) : Grid :=
  {| grid_size := grid_size g;
     grid_height := grid_height g;
     grid_width := grid_width g;
     grid_cells :=
       list_set (grid_cells g) (Z.to_nat row)
         (list_set (nth (Z.to_nat row) (grid_cells g) []) (Z.to_nat col) c);
     placed_words := placed_words g |}.

(** [Grid.set_cell] *)
Definition set_cell (row col : Z) (c : str) : State Grid bool :=
  h <- gets grid_height ;;
  w <- gets grid_width ;;
  if in_bounds h w row col then
    modify (write_cell row col c) ;;; ret true
  else ret false.

(** [Grid._has_perpendicular_word] *)
Definition _has_perpendicular_word (row col : Z) (direction : Direction)
    : State Grid bool :=
  placed_list <- gets placed_words ;;
  for_return placed_list
    (fun placed =>
       if negb (Direction_eqb (pw_direction placed) direction) then ret None
       else
         match direction with
         | horizontal =>
           if (pw_row placed =? row) && (pw_col placed <=? col)
              && (col <? pw_col placed + pw_length placed)
           then ret (Some true) else ret None
         | vertical =>
           if (pw_col placed =? col) && (pw_row placed <=? row)
              && (row <? pw_row placed + pw_length placed)
           then ret (Some true) else ret None
         end)
    (ret false).

(** [Grid._check_adjacent_cells] *)
Definition _check_adjacent_cells (row col : Z) (direction : Direction)
    (pos_in_word word_length : Z) : State Grid bool :=
  match direction with
  | horizontal =>
    above <- get_cell (row - 1) col ;;
    below <- get_cell (row + 1) col ;;
    if negb (is_empty above) || negb (is_empty below) then
      has <- _has_perpendicular_word row col vertical ;;
      if negb has then ret false else ret true
    else ret true
  | vertical =>
    left <- get_cell row (col - 1) ;;
    right <- get_cell row (col + 1) ;;
    if negb (is_empty left) || negb (is_empty right) then
      has <- _has_perpendicular_word row col horizontal ;;
      if negb has then ret false else ret true
    else ret true
  end.

(** The cell of the [i]-th letter of a word laid from [(row, col)]. *)
Definition cell_of (row col : Z) (direction : Direction) (i : Z) : Z * Z :=
  match direction with
  | horizontal => (row, col + i)
  | vertical => (row + i, col)
  end.

(** The two checks after the loop of [can_place_word]: the cells before
    and after the word. *)
Definition end_caps (row col length : Z) (direction : Direction)
    : State Grid bool :=
  match direction with
  | horizontal =>
    before <- (if col >? 0 then
                 c <- get_cell row (col - 1) ;; ret (negb (is_empty c))
               else ret false) ;;
    if before then ret false else
    w <- gets grid_width ;;
    after <- (if col + length <? w then
                c <- get_cell row (col + length) ;; ret (negb (is_empty c))
              else ret false) ;;
    if after then ret false else ret true
  | vertical =>
    before <- (if row >? 0 then
                 c <- get_cell (row - 1) col ;; ret (negb (is_empty c))
               else ret false) ;;
    if before then ret false else
    h <- gets grid_height ;;
    after <- (if row + length <? h then
                c <- get_cell (row + length) col ;; ret (negb (is_empty c))
              else ret false) ;;
    if after then ret false else ret true
  end.

(** The body of the loop of [can_place_word] for one letter; [Some false]
    is [return False]. The local [has_intersection] is assigned and never
    read, and is left out. *)
Definition can_place_step (row col : Z) (direction : Direction) (length : Z)
    (ic : Z * char) : State Grid (option bool) :=
  let '(i, ch) := ic in
  let '(curr_row, curr_col) := cell_of row col direction i in
  current_cell <- get_cell curr_row curr_col ;;
  if negb (is_empty current_cell) && negb (str_eqb current_cell [ch])
  then ret (Some false)
  else if is_empty current_cell then
    ok <- _check_adjacent_cells curr_row curr_col direction i length ;;
    if negb ok then ret (Some false) else ret None
  else ret None.

(** [Grid.can_place_word] *)
Definition can_place_word (word : str) (row col : Z) (direction : Direction)
    : State Grid bool :=
  let word := upper word in
  let length := len word in
  if (row <? 0) || (col <? 0) then ret false else
  w <- gets grid_width ;;
  h <- gets grid_height ;;
  let out :=
    match direction with
    | horizontal => (col + length >? w) || (row >=? h)
    | vertical => (row + length >? h) || (col >=? w)
    end in
  if out then ret false else
  for_return (enumerate word) (can_place_step row col direction length)
    (end_caps row col length direction).

(** [Grid.place_word] *)
Definition place_word (word clue hint : str) (row col : Z)
    (direction : Direction) : State Grid bool :=
  let word := upper word in
  ok <- can_place_word word row col direction ;;
  if negb ok then ret false else
  for_each (enumerate word)
    (fun '(i, ch) =>
       let '(r, c) := cell_of row col direction i in
       set_cell r c [ch] ;;; ret tt) ;;;
  modify (fun g =>
    {| grid_size := grid_size g;
       grid_height := grid_height g;
       grid_width := grid_width g;
       grid_cells := grid_cells g;
       placed_words :=
         placed_words g ++
         [ {| pw_word := word; pw_clue := clue; pw_hint := hint;
              pw_row := row; pw_col := col; pw_direction := direction |} ]
    |}) ;;;
  ret true.

(** [Grid._count_intersections] *)
Definition _count_intersections (word : str) (row col : Z)
    (direction : Direction) : State Grid Z :=
  for_fold (enumerate word) 0
    (fun count '(i, ch) =>
       let '(r, c) := cell_of row col direction i in
       cell <- get_cell r c ;;
       if str_eqb cell [ch] then ret (count + 1) else ret count).

(** A candidate position [(row, col, direction, intersection_count)]. *)
Definition Position : Type := Z * Z * Direction * Z.

(** The innermost body of [get_intersections]: the letter [i] of a placed
    word against the letter [j] of the (upper-cased) candidate. *)
Definition intersection_step (word : str) (placed : PlacedWord)
    (i : Z) (placed_char : char) (intersections : list Position)
    (jc : Z * char) : State Grid (list Position) :=
  let '(j, word_char) := jc in
  if placed_char =? word_char then
    let '(new_row, new_col, new_direction) :=
      match pw_direction placed with
      | horizontal => (pw_row placed - j, pw_col placed + i, vertical)
      | vertical => (pw_row placed + i, pw_col placed - j, horizontal)
      end in
    ok <- can_place_word word new_row new_col new_direction ;;
    if ok then
      intersection_count <-
        _count_intersections word new_row new_col new_direction ;;
      ret (intersections ++
             [(new_row, new_col, new_direction, intersection_count)])
    else ret intersections
  else ret intersections.

(** [Grid.get_intersections] *)
Definition get_intersections (word : str) : State Grid (list Position) :=
  let word := upper word in
  placed_list <- gets placed_words ;;
  for_fold placed_list []
    (fun intersections placed =>
       for_fold (enumerate (pw_word placed)) intersections
         (fun intersections '(i, placed_char) =>
            for_fold (enumerate word) intersections
              (intersection_step word placed i placed_char))).

(** The bounds [(min_row, max_row, min_col, max_col)] of the non-empty
    cells, as the two nested loops of [crop_empty_edges] compute them; the
    cells are read as [self._grid[row][col]], without a guard. *)
Definition Bounds : Type := Z * Z * Z * Z.

Definition index2 (cells : list (list str)) (row col : Z) : option str :=
  r <-? index cells row ;; index r col.

Definition bounds_step (cells : list (list str)) (row : Z) (b : Bounds)
    (col : Z) : option Bounds :=
  c <-? index2 cells row col ;;
  let '(min_row, max_row, min_col, max_col) := b in
  Some (if negb (is_empty c)
        then (Z.min min_row row, Z.max max_row row,
              Z.min min_col col, Z.max max_col col)
        else b).

Definition find_bounds (g : Grid) : option Bounds :=
  ofold (range 0 (grid_height g))
    (grid_height g, 0, grid_width g, 0)
    (fun b row =>
       ofold (range 0 (grid_width g)) b (bounds_step (grid_cells g) row)).

Definition shift_word (min_row min_col : Z) (placed : PlacedWord)
    : PlacedWord :=
  {| pw_word := pw_word placed; pw_clue := pw_clue placed;
     pw_hint := pw_hint placed;
     pw_row := pw_row placed - min_row;
     pw_col := pw_col placed - min_col;
     pw_direction := pw_direction placed |}.

(** [Grid.crop_empty_edges]: the returned [(new_height, new_width)] and the
    grid after the call; [None] when a list access raises IndexError. *)
Definition crop_empty_edges (g : Grid) : option ((Z * Z) * Grid) :=
  b <-? find_bounds g ;;
  let '(min_row, max_row, min_col, max_col) := b in
  if min_row >? max_row then Some ((0, 0), g) else
  let new_height := max_row - min_row + 1 in
  let new_width := max_col - min_col + 1 in
  new_grid <-? omap (range min_row (max_row + 1))
    (fun row =>
       omap (range min_col (max_col + 1))
         (fun col => index2 (grid_cells g) row col)) ;;
  Some ((new_height, new_width),
        {| grid_size := Z.max new_height new_width;
           grid_height := new_height;
           grid_width := new_width;
           grid_cells := new_grid;
           placed_words := map (shift_word min_row min_col) (placed_words g)
        |}).

(** [Grid.to_array] *)
Definition to_array : State Grid (list (list str)) := gets grid_cells.

(** [Grid.get_placed_words] *)
Definition get_placed_words : State Grid (list PlacedWord) :=
  gets placed_words.

(** The two counters of [get_fill_density], [(total_cells, filled_cells)]. *)
Definition count_cells (cells : list (list str)) : Z * Z :=
  fold_left
    (fun acc row =>
       fold_left
         (fun '(total_cells, filled_cells) cell =>
            (total_cells + 1,
             if negb (is_empty cell) then filled_cells + 1
             else filled_cells))
         row acc)
    cells (0, 0).

(** [Grid.get_fill_density] *)
Definition get_fill_density : State Grid float :=
  cells <- gets grid_cells ;;
  let '(total_cells, filled_cells) := count_cells cells in
  if total_cells >? 0 then ret (int_truediv filled_cells total_cells)
  else ret 0%Q.

(* ===================================================================== *)
(** * utils.py *)
(* ===================================================================== *)

(** A dictionary entry [{'word': ..., 'clue': ..., 'hint': ...}]. *)
Record WordEntry := mkWordEntry {
  word : str;
  clue : str;
  hint : str
}.

(** [sorted(l, key=key, reverse=True)]: descending by key, and stable, so
    that entries with equal keys keep the order they have in [l]. *)
Fixpoint insert_desc {A} (key : A -> Z) (x : A) (l : list A) : list A :=
  match l with
  | [] => [x]
  | y :: l' => if key y >? key x then y :: insert_desc key x l' else x :: l
  end.

Definition sorted_desc {A} (key : A -> Z) (l : list A) : list A :=
  fold_right (insert_desc key) [] l.

(** [filter_words_by_length] *)
Definition filter_words_by_length (words : list WordEntry)
    (min_length max_length : Z) : list WordEntry :=
  filter (fun w => (min_length <=? len (word w)) && (len (word w) <=? max_length))
         words.

(** [get_common_letters]: the Cyrillic letters by frequency. *)
Definition get_common_letters : str :=
  py "ОЕАИНТСРВЛКМДПУЯЫЬГЗБЧЙХЖШЮЦЩЭФЪЁ".

(** [c in s] for a one-character string [c]. *)
Definition char_in (c : char) (s : str) : bool := existsb (Z.eqb c) s.

(** [calculate_word_score] *)
Definition calculate_word_score (w : str) : Z :=
  let common := get_common_letters in
  let w := upper w in
  let length_score := len w * 10 in
  let common_letter_count :=
    len (filter (fun c => char_in c (firstn 15 common)) w) in
  let common_score := common_letter_count * 5 in
  length_score + common_score.

(** [sort_words_by_score] *)
Definition sort_words_by_score (words : list WordEntry) : list WordEntry :=
  sorted_desc (fun w => calculate_word_score (word w)) words.

(** [DIFFICULTY_SETTINGS]: the keys the generator reads. *)
Record Settings := mkSettings {
  word_count : Z * Z;
  min_word_length : Z;
  max_word_length : Z
}.

Definition DIFFICULTY_SETTINGS (difficulty : str) : option Settings :=
  if str_eqb difficulty (py "easy") then Some (mkSettings (8, 10) 4 8)
  else if str_eqb difficulty (py "medium") then Some (mkSettings (10, 12) 3 10)
  else if str_eqb difficulty (py "hard") then Some (mkSettings (12, 15) 3 12)
  else None.

(* ===================================================================== *)
(** * The module [random] *)
(* ===================================================================== *)

(** The state of the generator, as the numbers it is going to draw. A run
    draws finitely many, and a stream that is used up goes on with 0. *)
Definition Random := list nat.

(** [random._randbelow(n)] for [n > 0]. *)
Definition randbelow (n : nat) (r : Random) : nat * Random :=
  match r with
  | [] => (O, [])
  | x :: r' => (Nat.modulo x n, r')
  end.

(** [random.choice(seq)] for a non-empty [seq]. *)
Definition choice {A} (seq : list A) (d : A) (r : Random) : A * Random :=
  let '(i, r') := randbelow (List.length seq) r in (nth i seq d, r').

(** [random.randint(a, b)] *)
Definition randint (a b : Z) (r : Random) : Z * Random :=
  let '(i, r') := randbelow (Z.to_nat (b - a + 1)) r in (a + Z.of_nat i, r').

(** [x[i], x[j] = x[j], x[i]] *)
Definition swap {A} (x : list A) (i j : nat) (d : A) : list A :=
  list_set (list_set x i (nth j x d)) j (nth i x d).

(** [random.shuffle(x)]:
    [for i in reversed(range(1, len(x))): j = randbelow(i + 1); swap]. *)
Fixpoint shuffle_from {A} (i : nat) (x : list A) (r : Random)
    : list A * Random :=
  match i with
  | O => (x, r)
  | S i' =>
    let '(j, r') := randbelow (S i) r in
    match x with
    | [] => (x, r')
    | d :: _ => shuffle_from i' (swap x i j d) r'
    end
  end.

Definition shuffle {A} (x : list A) (r : Random) : list A * Random :=
  shuffle_from (List.length x - 1) x r.

(* ===================================================================== *)
(** * word_placer.py *)
(* ===================================================================== *)

(** What the methods of a [WordPlacer] read and write: its fields [grid],
    [word_list] and [_used_words], and the state of the module [random]. *)
Record WordPlacer := mkWordPlacer {
  wp_grid : Grid;
  word_list : list WordEntry;
  _used_words : list str;
  wp_random : Random
}.

(** [WordPlacer.__init__(grid, word_list)] *)
Definition WordPlacer_init (grid : Grid) (words : list WordEntry)
    (r : Random) : WordPlacer :=
  {| wp_grid := grid; word_list := words; _used_words := [];
     wp_random := r |}.

(** A method of the grid, called as [self.grid.method(...)]. *)
Definition on_grid {A} (m : State Grid A) : State WordPlacer A :=
  fun p =>
    let '(a, g) := m (wp_grid p) in
    (a, {| wp_grid := g; word_list := word_list p;
           _used_words := _used_words p; wp_random := wp_random p |}).

(** A function of the module [random]. *)
Definition on_random {A} (f : Random -> A * Random) : State WordPlacer A :=
  fun p =>
    let '(a, r) := f (wp_random p) in
    (a, {| wp_grid := wp_grid p; word_list := word_list p;
           _used_words := _used_words p; wp_random := r |}).

(** [self._used_words.add(word)] *)
Definition use_word (w : str) : State WordPlacer unit :=
  modify (fun p =>
    {| wp_grid := wp_grid p; word_list := word_list p;
       _used_words := w :: _used_words p; wp_random := wp_random p |}).

(** [word in self._used_words] *)
Definition str_in (w : str) (s : list str) : bool := existsb (str_eqb w) s.

(** [WordPlacer.place_initial_word()], with [center=True]. *)
Definition place_initial_word : State WordPlacer bool :=
  words <- gets word_list ;;
  match words with
  | [] => ret false
  | first :: _ =>
    let sorted_words := sorted_desc (fun x => len (word x)) words in
    let candidates := firstn 5 sorted_words in
    word_entry <- on_random (choice candidates first) ;;
    let w := upper (word word_entry) in
    let length := len w in
    size <- gets (fun p => grid_size (wp_grid p)) ;;
    let row := size / 2 in
    let col := (size - length) / 2 in
    let col := if col <? 0 then 0 else col in
    if col + length >? size then ret false else
    success <- on_grid (place_word w (clue word_entry) (hint word_entry)
                          row col horizontal) ;;
    (if success then use_word w else ret tt) ;;;
    ret success
  end.

(** The key of the sort in [find_best_position]. *)
Definition position_score (center : Z) (position : Position) : Z :=
  let '(row, col, direction, intersection_count) := position in
  let distance_to_center := Z.abs (row - center) + Z.abs (col - center) in
  intersection_count * 10 - distance_to_center.

(** [WordPlacer.find_best_position] *)
Definition find_best_position (w : str) : State WordPlacer (option Position) :=
  intersections <- on_grid (get_intersections w) ;;
  match intersections with
  | [] => ret None
  | first :: _ =>
    size <- gets (fun p => grid_size (wp_grid p)) ;;
    let center := size / 2 in
    let sorted_positions := sorted_desc (position_score center) intersections in
    let top_positions := firstn 3 sorted_positions in
    match top_positions with
    | [] => ret None
    | _ :: _ =>
      position <- on_random (choice top_positions first) ;;
      ret (Some position)
    end
  end.

(** [available_words] of [place_remaining_words]: the entries not yet used,
    longest first. *)
Definition available_words (p : WordPlacer) : list WordEntry :=
  sorted_desc (fun x => len (word x))
    (filter (fun w => negb (str_in (upper (word w)) (_used_words p)))
            (word_list p)).

(** One round of the [while] loop of [place_remaining_words] on the entry
    [word_entry = available_words[word_index]]. [next a] is the rest of the
    loop after [word_index += 1] with [attempts = a], [again a] the rest of
    the loop on the same entry. The value is the list of the entries the
    loop takes from [available_words] from this round on. *)
Definition loop_round (target_count max_attempts : Z) (word_entry : WordEntry)
    (next again : Z -> State WordPlacer (list WordEntry)) (attempts : Z)
    : State WordPlacer (list WordEntry) :=
  placed <- on_grid get_placed_words ;;
  if (len placed <? target_count) && (attempts <? max_attempts) then
    let w := upper (word word_entry) in
    used <- gets _used_words ;;
    if str_in w used then
      seen <- next attempts ;; ret (word_entry :: seen)
    else
      best_position <- find_best_position w ;;
      match best_position with
      | Some (row, col, direction, _) =>
        success <- on_grid (place_word w (clue word_entry) (hint word_entry)
                              row col direction) ;;
        if success then
          use_word w ;;; seen <- next 0 ;; ret (word_entry :: seen)
        else
          seen <- again (attempts + 1) ;; ret (word_entry :: seen)
      | None =>
        seen <- next (attempts + 1) ;; ret (word_entry :: seen)
      end
  else ret [].

(** The rounds of the loop that stay on one entry (a position was found
    and [place_word] refused it, so [word_index] is as it was);
    [attempts < max_attempts] bounds them by [max_attempts - attempts]. *)
Fixpoint same_word (target_count max_attempts : Z) (word_entry : WordEntry)
    (next : Z -> State WordPlacer (list WordEntry)) (budget : nat)
    (attempts : Z) : State WordPlacer (list WordEntry) :=
  loop_round target_count max_attempts word_entry next
    (match budget with
     | O => fun _ => ret []
     | S budget' =>
       same_word target_count max_attempts word_entry next budget'
     end)
    attempts.

(** The [while] loop of [place_remaining_words]; [rest] is
    [available_words[word_index:]]. *)
Fixpoint place_loop (target_count max_attempts : Z) (rest : list WordEntry)
    (attempts : Z) : State WordPlacer (list WordEntry) :=
  match rest with
  | [] => ret []
  | word_entry :: rest' =>
    same_word target_count max_attempts word_entry
      (place_loop target_count max_attempts rest')
      (Z.to_nat (max_attempts - attempts)) attempts
  end.

(** [WordPlacer.place_remaining_words(target_count, max_attempts=1000)],
    with the entries the loop went through next to the returned count. *)
Definition place_remaining_words_seen (target_count max_attempts : Z)
    : State WordPlacer (Z * list WordEntry) :=
  queue <- gets available_words ;;
  seen <- place_loop target_count max_attempts queue 0 ;;
  placed <- on_grid get_placed_words ;;
  ret (len placed, seen).

Definition place_remaining_words (target_count : Z) : State WordPlacer Z :=
  r <- place_remaining_words_seen target_count 1000 ;;
  ret (fst r).

(* ===================================================================== *)
(** * validator.py *)
(* ===================================================================== *)

Definition MIN_WORDS : Z := 8.
Definition MIN_GRID_SIZE : Z := 6.
Definition MIN_FILL_DENSITY : float := binary64 (3 # 10).
Definition MAX_FILL_DENSITY : float := binary64 (7 # 10).

(** The messages [validate_crossword] collects. *)
Inductive ValidationError :=
| TooFewWords (n : Z)
| OutsideGrid (w : str)
| OutsideRow (w : str)
| LetterMismatch (row col : Z) (expected : char) (actual : str)
| NotConnected
| DensityTooLow (density : float)
| DensityTooHigh (density : float)
| DuplicateWord (w : str)
| WordTooShort (w : str).

(** The body of the inner loop of [check_intersections]. *)
Definition check_letter (grid_array : list (list str))
    (grid_height grid_width : Z) (placed : PlacedWord)
    (errors : list ValidationError) (ic : Z * char)
    : list ValidationError :=
  let '(i, expected_char) := ic in
  let '(actual_row, actual_col) :=
    cell_of (pw_row placed) (pw_col placed) (pw_direction placed) i in
  if (actual_row <? 0) || (actual_row >=? grid_height)
     || (actual_col <? 0) || (actual_col >=? grid_width)
  then errors ++ [OutsideGrid (pw_word placed)]
  else if actual_col >=? len (nth (Z.to_nat actual_row) grid_array [])
  then errors ++ [OutsideRow (pw_word placed)]
  else
    let actual_char := cell_at grid_array actual_row actual_col in
    if negb (str_eqb actual_char [expected_char])
    then errors ++
         [LetterMismatch actual_row actual_col expected_char actual_char]
    else errors.

(** [Validator.check_intersections] *)
Definition check_intersections (words : list PlacedWord)
    : State Grid (list ValidationError) :=
  grid_array <- to_array ;;
  match grid_array with
  | [] => ret []
  | row0 :: _ =>
    let grid_height := len grid_array in
    let grid_width := len row0 in
    ret (fold_left
           (fun errors placed =>
              fold_left (check_letter grid_array grid_height grid_width placed)
                        (enumerate (pw_word placed)) errors)
           words [])
  end.

(** [Validator._get_word_cells]; the set as the list of its elements. *)
Definition _get_word_cells (w : PlacedWord) : list (Z * Z) :=
  map (cell_of (pw_row w) (pw_col w) (pw_direction w)) (range 0 (pw_length w)).

Definition pair_eqb (a b : Z * Z) : bool :=
  (fst a =? fst b) && (snd a =? snd b).

(** [Validator._words_intersect]: [bool(cells1 & cells2)]. *)
Definition _words_intersect (word1 word2 : PlacedWord) : bool :=
  let cells1 := _get_word_cells word1 in
  let cells2 := _get_word_cells word2 in
  existsb (fun c1 => existsb (pair_eqb c1) cells2) cells1.

(** [s.add(x)] on a set of word indices. *)
Definition set_add (x : nat) (s : list nat) : list nat :=
  if existsb (Nat.eqb x) s then s else s ++ [x].

(** [adjacency[i].add(j)] *)
Definition adjacency_add (adjacency : list (list nat)) (i j : nat)
    : list (list nat) :=
  list_set adjacency i (set_add j (nth i adjacency [])).

(** The two nested loops of [check_all_words_connected] that build
    [adjacency]. *)
Definition build_adjacency (words : list PlacedWord) : list (list nat) :=
  let indexed := combine (seq 0 (List.length words)) words in
  fold_left
    (fun adjacency '(i, word1) =>
       fold_left
         (fun adjacency '(j, word2) =>
            if (j <=? i)%nat then adjacency
            else if _words_intersect word1 word2
            then adjacency_add (adjacency_add adjacency i j) j i
            else adjacency)
         indexed adjacency)
    indexed (map (fun _ => []) (seq 0 (List.length words))).

(** The breadth-first search of [check_all_words_connected]:
    [while queue: current = queue.pop(0); for neighbor in
    adjacency[current]: ...]. Every index enters the queue at most once, so
    the loop makes at most [len(words)] rounds; [rounds] counts them down. *)
Fixpoint bfs (adjacency : list (list nat)) (rounds : nat)
    (visited queue : list nat) : list nat :=
  match rounds with
  | O => visited
  | S rounds' =>
    match queue with
    | [] => visited
    | current :: queue' =>
      let '(visited', queue'') :=
        fold_left
          (fun '(visited, queue) neighbor =>
             if existsb (Nat.eqb neighbor) visited then (visited, queue)
             else (visited ++ [neighbor], queue ++ [neighbor]))
          (nth current adjacency []) (visited, queue') in
      bfs adjacency rounds' visited' queue''
    end
  end.

(** [Validator.check_all_words_connected] *)
Definition check_all_words_connected (words : list PlacedWord) : bool :=
  if (List.length words <=? 1)%nat then true else
  let adjacency := build_adjacency words in
  let visited := bfs adjacency (List.length words) [O] [O] in
  (List.length visited =? List.length words)%nat.

(** The loop of [validate_crossword] over the words with [word_set]. *)
Fixpoint duplicate_errors (words : list PlacedWord) (word_set : list str)
    : list ValidationError :=
  match words with
  | [] => []
  | placed :: words' =>
    (if str_in (pw_word placed) word_set
     then [DuplicateWord (pw_word placed)] else [])
    ++ duplicate_errors words' (pw_word placed :: word_set)
  end.

Definition short_errors (words : list PlacedWord) : list ValidationError :=
  flat_map (fun placed =>
              if len (pw_word placed) <? 3
              then [WordTooShort (pw_word placed)] else [])
           words.

(** [Validator.validate_crossword(grid)], with [words=None]. *)
Definition validate_crossword : State Grid (bool * list ValidationError) :=
  words <- get_placed_words ;;
  let errors :=
    if len words <? MIN_WORDS then [TooFewWords (len words)] else [] in
  intersection_errors <- check_intersections words ;;
  let errors := errors ++ intersection_errors in
  let errors :=
    if negb (check_all_words_connected words)
    then errors ++ [NotConnected] else errors in
  density <- get_fill_density ;;
  let errors :=
    if Qltb density MIN_FILL_DENSITY
    then errors ++ [DensityTooLow density] else errors in
  let errors :=
    if Qltb MAX_FILL_DENSITY density
    then errors ++ [DensityTooHigh density] else errors in
  let errors := errors ++ duplicate_errors words [] in
  let errors := errors ++ short_errors words in
  ret (match errors with [] => true | _ => false end, errors).

(** [Validator._are_parallel_adjacent] *)
Definition _are_parallel_adjacent (word1 word2 : PlacedWord) : bool :=
  match pw_direction word1 with
  | horizontal =>
    if negb (Z.abs (pw_row word1 - pw_row word2) =? 1) then false else
    let range1 := range (pw_col word1) (pw_col word1 + pw_length word1) in
    let range2 := range (pw_col word2) (pw_col word2 + pw_length word2) in
    existsb (fun a => existsb (Z.eqb a) range2) range1
  | vertical =>
    if negb (Z.abs (pw_col word1 - pw_col word2) =? 1) then false else
    let range1 := range (pw_row word1) (pw_row word1 + pw_length word1) in
    let range2 := range (pw_row word2) (pw_row word2 + pw_length word2) in
    existsb (fun a => existsb (Z.eqb a) range2) range1
  end.

(** [Validator.check_no_adjacent_parallel(grid)], with [words=None]. *)
Definition check_no_adjacent_parallel : State Grid bool :=
  words <- get_placed_words ;;
  let indexed := combine (seq 0 (List.length words)) words in
  for_return indexed
    (fun '(i, word1) =>
       for_return indexed
         (fun '(j, word2) =>
            if (j <=? i)%nat then ret None
            else if negb (Direction_eqb (pw_direction word1)
                                        (pw_direction word2))
            then ret None
            else if _are_parallel_adjacent word1 word2
            then ret (Some (Some false))
            else ret None)
         (ret None))
    (ret true).

(* ===================================================================== *)
(** * generator.py *)
(* ===================================================================== *)

Definition DEFAULT_GRID_SIZE : Z := 10.
Definition MAX_REGENERATION_ATTEMPTS : nat := 10.

(** [PlacedWord.to_dict()] *)
Record WordDict := mkWordDict {
  wd_word : str;
  wd_clue : str;
  wd_hint : str;
  startRow : Z;
  startCol : Z;
  wd_direction : Direction;
  wd_length : Z
}.

Definition to_dict (p : PlacedWord) : WordDict :=
  {| wd_word := pw_word p; wd_clue := pw_clue p; wd_hint := pw_hint p;
     startRow := pw_row p; startCol := pw_col p;
     wd_direction := pw_direction p; wd_length := pw_length p |}.

Record Metadata := mkMetadata {
  md_word_count : Z;
  grid_size_md : Z * Z;
  fill_density : float
}.

(** The dictionary [generate] returns. *)
Record Crossword := mkCrossword {
  cw_grid : list (list str);
  cw_words : list WordDict;
  cw_difficulty : str;
  cw_category : str;
  metadata : Metadata
}.

(** [CrosswordGenerator._format_result] *)
Definition _format_result : State Grid Crossword :=
  placed <- get_placed_words ;;
  grid_array <- to_array ;;
  density <- get_fill_density ;;
  ret {| cw_grid := grid_array;
         cw_words := map to_dict placed;
         cw_difficulty := [];
         cw_category := [];
         metadata :=
           {| md_word_count := len placed;
              grid_size_md :=
                (len grid_array,
                 match grid_array with
                 | [] => 0
                 | row0 :: _ => len row0
                 end);
              fill_density := round2 density |} |}.

Inductive Exception := ValueError | IndexError.

(** How a call ends: with an exception or with a returned value. *)
Inductive Outcome (A : Type) :=
| Raised (e : Exception)
| Returned (a : A).
Arguments Raised {A} e.
Arguments Returned {A} a.

(** The steps of [_generate_single] before the result is formatted: the
    grid that passed every check, [None] for [return None]. The local
    [grid] and [placer.grid] are one object. *)
Definition checked_grid (words : list WordEntry) (target_count : Z)
    (r : Random) : Outcome (option Grid) * Random :=
  let grid := Grid_init DEFAULT_GRID_SIZE in
  let placer := WordPlacer_init grid words r in
  let '(ok, placer) := place_initial_word placer in
  if negb ok then (Returned None, wp_random placer) else
  let '(placed_count, placer) := place_remaining_words target_count placer in
  if placed_count <? MIN_WORDS then (Returned None, wp_random placer) else
  match crop_empty_edges (wp_grid placer) with
  | None => (Raised IndexError, wp_random placer)
  | Some ((height, width), grid) =>
    if (height <? MIN_GRID_SIZE) || (width <? MIN_GRID_SIZE)
    then (Returned None, wp_random placer) else
    let '(is_valid, errors) := eval validate_crossword grid in
    if negb is_valid then (Returned None, wp_random placer) else
    (Returned (Some grid), wp_random placer)
  end.

(** [CrosswordGenerator._generate_single]: one attempt, from the state of
    [random] to the result and the state of [random] after it. *)
Definition _generate_single (words : list WordEntry) (target_count : Z)
    (r : Random) : Outcome (option Crossword) * Random :=
  match checked_grid words target_count r with
  | (Raised e, r') => (Raised e, r')
  | (Returned None, r') => (Returned None, r')
  | (Returned (Some grid), r') =>
    (Returned (Some (eval _format_result grid)), r')
  end.

(** The fields of a [CrosswordGenerator] and the state of [random]; the
    wall-clock entry [total_time] of [_stats] is left out. *)
Record CrosswordGenerator := mkGenerator {
  dictionary : list (str * list WordEntry);
  total_generated : Z;
  successful : Z;
  failed : Z;
  gen_random : Random
}.

(** [self.dictionary[category]], [None] when the key is missing. *)
Fixpoint lookup (category : str) (d : list (str * list WordEntry))
    : option (list WordEntry) :=
  match d with
  | [] => None
  | (k, v) :: d' => if str_eqb k category then Some v else lookup category d'
  end.

(** The loop [for attempt in range(MAX_REGENERATION_ATTEMPTS)] of
    [generate]; [None] when every attempt has failed. *)
Fixpoint attempts_loop (attempts : nat) (sorted_words : list WordEntry)
    (target_count : Z) (r : Random)
    : Outcome (option Crossword) * Random :=
  match attempts with
  | O => (Returned None, r)
  | S attempts' =>
    match _generate_single sorted_words target_count r with
    | (Raised e, r') => (Raised e, r')
    | (Returned (Some result), r') => (Returned (Some result), r')
    | (Returned None, r') =>
      let '(sorted_words', r'') := shuffle sorted_words r' in
      attempts_loop attempts' sorted_words' target_count r''
    end
  end.

Definition with_labels (result : Crossword) (difficulty category : str)
    : Crossword :=
  {| cw_grid := cw_grid result; cw_words := cw_words result;
     cw_difficulty := difficulty; cw_category := category;
     metadata := metadata result |}.

(** [CrosswordGenerator.generate(category, difficulty, seed,
    excluded_words)]. [seed] is the state [random.seed(seed)] sets, when a
    seed is given. *)
Definition generate (category difficulty : str) (seed : option Random)
    (excluded_words : option (list str))
    : State CrosswordGenerator (Outcome (option Crossword)) :=
  fun self =>
    let r := match seed with Some s => s | None => gen_random self end in
    let with_random r' :=
      {| dictionary := dictionary self;
         total_generated := total_generated self;
         successful := successful self; failed := failed self;
         gen_random := r' |} in
    let settings :=
      match DIFFICULTY_SETTINGS difficulty with
      | Some s => s
      | None => mkSettings (10, 12) 3 10
      end in
    match lookup category (dictionary self) with
    | None => (Raised ValueError, with_random r)
    | Some words =>
      let words :=
        match excluded_words with
        | Some (x :: l) =>
          filter (fun w => negb (str_in (upper (word w)) (x :: l))) words
        | _ => words
        end in
      let filtered_words :=
        filter_words_by_length words (min_word_length settings)
                               (max_word_length settings) in
      if len filtered_words <? fst (word_count settings)
      then (Raised ValueError, with_random r) else
      let sorted_words := sort_words_by_score filtered_words in
      let '(target_count, r) :=
        randint (fst (word_count settings)) (snd (word_count settings)) r in
      match attempts_loop MAX_REGENERATION_ATTEMPTS sorted_words
                          target_count r with
      | (Raised e, r') => (Raised e, with_random r')
      | (Returned (Some result), r') =>
        (Returned (Some (with_labels result difficulty category)),
         {| dictionary := dictionary self;
            total_generated := total_generated self + 1;
            successful := successful self + 1;
            failed := failed self;
            gen_random := r' |})
      | (Returned None, r') =>
        (Returned None,
         {| dictionary := dictionary self;
            total_generated := total_generated self + 1;
            successful := successful self;
            failed := failed self + 1;
            gen_random := r' |})
      end
    end.

(* ===================================================================== *)
(** * app.py: the fingerprint *)
(* ===================================================================== *)

(** ** [str.encode('utf-8')] *)

(** The bytes of one code point; [None] for a surrogate (UnicodeEncodeError)
    and for a number that is no code point. *)
Definition utf8_char (c : char) : option (list Z) :=
  if c <? 0 then None
  else if c <? 128 then Some [c]
  else if c <? 2048 then Some [192 + c / 64; 128 + c mod 64]
  else if c <? 65536 then
    if (55296 <=? c) && (c <=? 57343) then None
    else Some [224 + c / 4096; 128 + (c / 64) mod 64; 128 + c mod 64]
  else if c <? 1114112 then
    Some [240 + c / 262144; 128 + (c / 4096) mod 64; 128 + (c / 64) mod 64;
          128 + c mod 64]
  else None.

Fixpoint utf8_encode (s : str) : option (list Z) :=
  match s with
  | [] => Some []
  | c :: s' =>
    bs <-? utf8_char c ;; rest <-? utf8_encode s' ;; Some (bs ++ rest)
  end.

(** ** [json.dumps(obj, sort_keys=True, ensure_ascii=False)] *)

#[warnings="-register-all"]
Inductive json :=
| JStr (s : str)
| JInt (z : Z)
| JList (l : list json)
| JDict (l : list (str * json)).

Definition hex_digit (n : Z) : char :=
  nth (Z.to_nat n) (py "0123456789abcdef") 48.

(** One character inside a JSON string: the quote, the backslash and the
    control characters are escaped, everything else stands for itself. *)
Definition json_escape (c : char) : str :=
  if c =? 34 then [92; 34]
  else if c =? 92 then py "\\"
  else if c =? 10 then py "\n"
  else if c =? 13 then py "\r"
  else if c =? 9 then py "\t"
  else if c =? 8 then py "\b"
  else if c =? 12 then py "\f"
  else if (0 <=? c) && (c <? 32)
  then py "\u00" ++ [hex_digit (c / 16); hex_digit (c mod 16)]
  else [c].

Definition json_string (s : str) : str :=
  [34] ++ flat_map json_escape s ++ [34].

Fixpoint uint_digits (u : Decimal.uint) : str :=
  match u with
  | Decimal.Nil => []
  | Decimal.D0 u' => 48 :: uint_digits u'
  | Decimal.D1 u' => 49 :: uint_digits u'
  | Decimal.D2 u' => 50 :: uint_digits u'
  | Decimal.D3 u' => 51 :: uint_digits u'
  | Decimal.D4 u' => 52 :: uint_digits u'
  | Decimal.D5 u' => 53 :: uint_digits u'
  | Decimal.D6 u' => 54 :: uint_digits u'
  | Decimal.D7 u' => 55 :: uint_digits u'
  | Decimal.D8 u' => 56 :: uint_digits u'
  | Decimal.D9 u' => 57 :: uint_digits u'
  end.

(** [repr] of an [int]. *)
Definition int_repr (z : Z) : str :=
  match Z.to_int z with
  | Decimal.Pos u => uint_digits u
  | Decimal.Neg u => 45 :: uint_digits u
  end.

(** [a <= b] on strings: by code points, a prefix first. *)
Fixpoint str_leb (a b : str) : bool :=
  match a, b with
  | [], _ => true
  | _ :: _, [] => false
  | x :: a', y :: b' =>
    if x <? y then true else if y <? x then false else str_leb a' b'
  end.

Fixpoint insert_key {A} (kv : str * A) (l : list (str * A))
    : list (str * A) :=
  match l with
  | [] => [kv]
  | kv' :: l' =>
    if str_leb (fst kv) (fst kv') then kv :: l
    else kv' :: insert_key kv l'
  end.

(** The items of a dictionary in the order of their keys. *)
Definition sort_keys {A} (l : list (str * A)) : list (str * A) :=
  fold_right insert_key [] l.

Fixpoint join (sep : str) (parts : list str) : str :=
  match parts with
  | [] => []
  | [p] => p
  | p :: rest => p ++ sep ++ join sep rest
  end.

Fixpoint json_dumps (v : json) : str :=
  match v with
  | JStr s => json_string s
  | JInt z => int_repr z
  | JList l => py "[" ++ join (py ", ") (map json_dumps l) ++ py "]"
  | JDict l =>
    let items :=
      (fix dump_items (l : list (str * json)) : list (str * str) :=
         match l with
         | [] => []
         | (k, v) :: l' => (k, json_dumps v) :: dump_items l'
         end) l in
    py "{" ++
    join (py ", ")
         (map (fun kv => json_string (fst kv) ++ py ": " ++ snd kv)
              (sort_keys items)) ++
    py "}"
  end.

(** ** [hashlib.md5] (RFC 1321) *)

Definition w32 (x : Z) : Z := x mod 4294967296.

Definition rotl (x s : Z) : Z :=
  w32 (Z.lor (Z.shiftl x s) (Z.shiftr x (32 - s))).

Definition not32 (x : Z) : Z := Z.lxor x 4294967295.

Definition md5_K : list Z :=
  [3614090360; 3905402710; 606105819; 3250441966;
   4118548399; 1200080426; 2821735955; 4249261313;
   1770035416; 2336552879; 4294925233; 2304563134;
   1804603682; 4254626195; 2792965006; 1236535329;
   4129170786; 3225465664; 643717713; 3921069994;
   3593408605; 38016083; 3634488961; 3889429448;
   568446438; 3275163606; 4107603335; 1163531501;
   2850285829; 4243563512; 1735328473; 2368359562;
   4294588738; 2272392833; 1839030562; 4259657740;
   2763975236; 1272893353; 4139469664; 3200236656;
   681279174; 3936430074; 3572445317; 76029189;
   3654602809; 3873151461; 530742520; 3299628645;
   4096336452; 1126891415; 2878612391; 4237533241;
   1700485571; 2399980690; 4293915773; 2240044497;
   1873313359; 4264355552; 2734768916; 1309151649;
   4149444226; 3174756917; 718787259; 3951481745].

Definition md5_S : list Z :=
  [7; 12; 17; 22; 7; 12; 17; 22; 7; 12; 17; 22; 7; 12; 17; 22;
   5; 9; 14; 20; 5; 9; 14; 20; 5; 9; 14; 20; 5; 9; 14; 20;
   4; 11; 16; 23; 4; 11; 16; 23; 4; 11; 16; 23; 4; 11; 16; 23;
   6; 10; 15; 21; 6; 10; 15; 21; 6; 10; 15; 21; 6; 10; 15; 21].

Definition md5_state : Type := Z * Z * Z * Z.

(** One of the 64 operations on the block [M] of 16 words. *)
Definition md5_op (M : list Z) (st : md5_state) (i : Z) : md5_state :=
  let '(A, B, C, D) := st in
  let '(F, g) :=
    if i <? 16 then (Z.lor (Z.land B C) (Z.land (not32 B) D), i)
    else if i <? 32 then
      (Z.lor (Z.land D B) (Z.land (not32 D) C), (5 * i + 1) mod 16)
    else if i <? 48 then (Z.lxor (Z.lxor B C) D, (3 * i + 5) mod 16)
    else (Z.lxor C (Z.lor B (not32 D)), (7 * i) mod 16) in
  let F := w32 (F + A + nth (Z.to_nat i) md5_K 0 + nth (Z.to_nat g) M 0) in
  (D, w32 (B + rotl F (nth (Z.to_nat i) md5_S 0)), B, C).

Definition md5_block (st : md5_state) (M : list Z) : md5_state :=
  let '(A0, B0, C0, D0) := st in
  let '(A, B, C, D) := fold_left (md5_op M) (range 0 64) st in
  (w32 (A0 + A), w32 (B0 + B), w32 (C0 + C), w32 (D0 + D)).

(** Little-endian words of a byte sequence. *)
Fixpoint le_words (n : nat) (bs : list Z) : list Z :=
  match n with
  | O => []
  | S n' =>
    match bs with
    | b0 :: b1 :: b2 :: b3 :: rest =>
      (b0 + 256 * b1 + 65536 * b2 + 16777216 * b3) :: le_words n' rest
    | _ => []
    end
  end.

Fixpoint md5_blocks (n : nat) (st : md5_state) (bs : list Z) : md5_state :=
  match n with
  | O => st
  | S n' => md5_blocks n' (md5_block st (le_words 16 bs)) (skipn 64 bs)
  end.

Definition le_bytes (k : nat) (x : Z) : list Z :=
  map (fun i => (x / 2 ^ (8 * Z.of_nat i)) mod 256) (seq 0 k).

(** The message, the byte 0x80, zeros up to 56 modulo 64, and the length
    in bits in 8 bytes. *)
Definition md5_pad (msg : list Z) : list Z :=
  let n := len msg in
  let zeros := (55 - n) mod 64 in
  msg ++ [128] ++ map (fun _ => 0) (range 0 zeros)
      ++ le_bytes 8 ((8 * n) mod 2 ^ 64).

Definition md5_digest (msg : list Z) : list Z :=
  let padded := md5_pad msg in
  let '(A, B, C, D) :=
    md5_blocks (List.length padded / 64)
               (1732584193, 4023233417, 2562383102, 271733878) padded in
  le_bytes 4 A ++ le_bytes 4 B ++ le_bytes 4 C ++ le_bytes 4 D.

Definition byte_hex (b : Z) : str := [hex_digit (b / 16); hex_digit (b mod 16)].

(** [hashlib.md5(data).hexdigest()] *)
Definition md5_hexdigest (msg : list Z) : str :=
  flat_map byte_hex (md5_digest msg).

(** ** [generate_crossword_id] *)

Definition direction_str (d : Direction) : str :=
  match d with
  | horizontal => py "horizontal"
  | vertical => py "vertical"
  end.

(** [crossword_content] *)
Definition crossword_content (grid : list (list str)) (words : list WordDict)
    : json :=
  JDict
    [(py "grid", JList (map (fun row => JList (map JStr row)) grid));
     (py "words",
      JList (map (fun w =>
                    JDict [(py "word", JStr (wd_word w));
                           (py "startRow", JInt (startRow w));
                           (py "startCol", JInt (startCol w));
                           (py "direction",
                            JStr (direction_str (wd_direction w)))])
                 words))].

(** [generate_crossword_id(grid, words)]; [None] when [encode] raises. *)
Definition generate_crossword_id (grid : list (list str))
    (words : list WordDict) : option str :=
  let content_str := json_dumps (crossword_content grid words) in
  data <-? utf8_encode content_str ;;
  Some (firstn 16 (md5_hexdigest data)).

(* ===================================================================== *)
(** * Facts about the monad and the loops *)
(* ===================================================================== *)

Section StateFacts.
Context {S : Type}.

(** A computation that leaves the state as it found it. *)
Definition readonly {A} (m : State S A) : Prop := forall s, exec m s = s.

Lemma readonly_run {A} (m : State S A) s :
  readonly m -> m s = (eval m s, s).
Proof.
  intros H. unfold eval. rewrite <- (H s) at 3. unfold exec.
  destruct (m s); reflexivity.
Qed.

Lemma readonly_ret {A} (a : A) : readonly (ret (S:=S) a).
Proof. intros s; reflexivity. Qed.

Lemma readonly_gets {A} (f : S -> A) : readonly (gets f).
Proof. intros s; reflexivity. Qed.

Lemma readonly_bind {A B} (m : State S A) (k : A -> State S B) :
  readonly m -> (forall a, readonly (k a)) -> readonly (bind m k).
Proof.
  intros Hm Hk s. unfold exec, bind.
  rewrite (readonly_run m s Hm). apply Hk.
Qed.

Lemma eval_bind {A B} (m : State S A) (k : A -> State S B) s :
  readonly m -> eval (bind m k) s = eval (k (eval m s)) s.
Proof.
  intros Hm. unfold eval at 1. unfold bind.
  rewrite (readonly_run m s Hm). reflexivity.
Qed.

Lemma readonly_if {A} (b : bool) (m1 m2 : State S A) :
  readonly m1 -> readonly m2 -> readonly (if b then m1 else m2).
Proof. destruct b; auto. Qed.

Lemma readonly_for_return {A R} (xs : list A) body (rest : State S R) :
  (forall x, readonly (body x)) -> readonly rest ->
  readonly (for_return xs body rest).
Proof.
  intros Hb Hr. induction xs as [|x xs IH]; simpl; [exact Hr|].
  apply readonly_bind; [apply Hb|].
  intros [v|]; [apply readonly_ret | exact IH].
Qed.

Lemma readonly_for_fold {A B} (xs : list A) (acc : B) body :
  (forall b x, readonly (body b x)) ->
  readonly (for_fold (S:=S) xs acc body).
Proof.
  intros Hb. revert acc.
  induction xs as [|x xs IH]; intros acc; simpl; [apply readonly_ret|].
  apply readonly_bind; [apply Hb | intros a; apply IH].
Qed.

(** The first [return] of a loop whose body only reads. *)
Fixpoint first_return {A R} (xs : list A) (f : A -> option R) : option R :=
  match xs with
  | [] => None
  | x :: xs' => match f x with Some v => Some v | None => first_return xs' f end
  end.

Lemma eval_for_return {A R} (xs : list A) body (rest : State S R) s :
  (forall x, readonly (body x)) ->
  eval (for_return xs body rest) s =
  match first_return xs (fun x => eval (body x) s) with
  | Some v => v
  | None => eval rest s
  end.
Proof.
  intros Hb. induction xs as [|x xs IH]; simpl; [reflexivity|].
  rewrite eval_bind by apply Hb.
  destruct (eval (body x) s); [reflexivity | exact IH].
Qed.

Lemma first_return_ext {A R} (xs : list A) (f f' : A -> option R) :
  (forall x, f x = f' x) -> first_return xs f = first_return xs f'.
Proof.
  intros H. induction xs as [|x xs IH]; simpl; [reflexivity|].
  rewrite H, IH. reflexivity.
Qed.

Lemma first_return_None {A R} (xs : list A) (f : A -> option R) :
  first_return xs f = None <-> Forall (fun x => f x = None) xs.
Proof.
  induction xs as [|x xs IH]; simpl.
  - split; auto.
  - destruct (f x) eqn:E.
    + split; [discriminate | intros H; inversion H; congruence].
    + rewrite IH. split; intros H; [constructor; auto | inversion H; auto].
Qed.

Lemma first_return_Some {A R} (xs : list A) (f : A -> option R) v :
  first_return xs f = Some v -> exists x, In x xs /\ f x = Some v.
Proof.
  induction xs as [|x xs IH]; simpl; [discriminate|].
  destruct (f x) eqn:E.
  - intros H; inversion H; subst. exists x; auto.
  - intros H. destruct (IH H) as [y [Hy Hf]]. exists y; auto.
Qed.

Lemma first_return_hit {A R} (xs : list A) (f : A -> option R) x v :
  In x xs -> f x = Some v -> exists v', first_return xs f = Some v'.
Proof.
  induction xs as [|y xs IH]; simpl; [tauto|].
  intros [->|Hin] Hf.
  - rewrite Hf. eauto.
  - destruct (f y); eauto.
Qed.
End StateFacts.

Create HintDb readonly.
#[local] Hint Resolve readonly_ret readonly_gets readonly_bind readonly_if
  readonly_for_return readonly_for_fold : readonly.

(** ** Lists, ranges and [enumerate] *)

Lemma str_eqb_eq (a b : str) : str_eqb a b = true <-> a = b.
Proof.
  revert b. induction a as [|x a IH]; intros [|y b]; simpl;
    try (split; [discriminate | discriminate]); [tauto|].
  rewrite andb_true_iff, Z.eqb_eq, IH.
  split; [intros [-> ->]; reflexivity | intros H; inversion H; auto].
Qed.

Lemma str_eqb_refl (a : str) : str_eqb a a = true.
Proof. apply str_eqb_eq; reflexivity. Qed.

Lemma is_empty_true (c : str) : is_empty c = true <-> c = EMPTY.
Proof. apply str_eqb_eq. Qed.

Lemma is_empty_false (c : str) : is_empty c = false <-> c <> EMPTY.
Proof.
  rewrite <- is_empty_true. destruct (is_empty c); split; congruence.
Qed.

Lemma len_nonneg {A} (l : list A) : 0 <= len l.
Proof. unfold len; lia. Qed.

Lemma len_cons {A} (x : A) (l : list A) : len (x :: l) = 1 + len l.
Proof. unfold len. simpl List.length. lia. Qed.

Lemma len_nil {A} : len (@nil A) = 0.
Proof. reflexivity. Qed.

Lemma len_app {A} (l l' : list A) : len (l ++ l') = len l + len l'.
Proof. unfold len. rewrite length_app. lia. Qed.

Lemma range_length a b : List.length (range a b) = Z.to_nat (b - a).
Proof. unfold range. rewrite length_map, length_seq. reflexivity. Qed.

Lemma nth_error_range a b k :
  (k < Z.to_nat (b - a))%nat -> nth_error (range a b) k = Some (a + Z.of_nat k).
Proof.
  intros H. unfold range. rewrite nth_error_map, nth_error_seq.
  destruct (Nat.ltb_spec k (Z.to_nat (b - a))); [reflexivity | lia].
Qed.

Lemma in_range a b x : In x (range a b) <-> a <= x < b.
Proof.
  unfold range. rewrite in_map_iff. split.
  - intros [k [<- Hk]]. apply in_seq in Hk. lia.
  - intros H. exists (Z.to_nat (x - a)). split; [lia|].
    apply in_seq. lia.
Qed.

Lemma nth_error_combine {A B} (r : list A) (l : list B) k :
  nth_error (combine r l) k =
  match nth_error r k, nth_error l k with
  | Some a, Some b => Some (a, b)
  | _, _ => None
  end.
Proof.
  revert l k. induction r as [|a r IH]; intros [|b l] [|k]; simpl;
    try reflexivity.
  - destruct (nth_error r k); reflexivity.
  - apply IH.
Qed.

Lemma nth_error_enumerate {A} (l : list A) k :
  nth_error (enumerate l) k =
  match nth_error l k with
  | Some x => Some (Z.of_nat k, x)
  | None => None
  end.
Proof.
  unfold enumerate. rewrite nth_error_combine.
  destruct (nth_error l k) eqn:E.
  - assert (Hk : (k < List.length l)%nat)
      by (apply nth_error_Some; congruence).
    rewrite nth_error_range by (unfold len; lia). reflexivity.
  - destruct (nth_error (range 0 (len l)) k); reflexivity.
Qed.

Lemma in_enumerate {A} (l : list A) i x :
  In (i, x) (enumerate l) <->
  exists k, i = Z.of_nat k /\ nth_error l k = Some x.
Proof.
  split.
  - intros H. apply In_nth_error in H. destruct H as [k Hk].
    rewrite nth_error_enumerate in Hk.
    destruct (nth_error l k) eqn:E; [|discriminate].
    inversion Hk; subst. eauto.
  - intros [k [-> Hk]]. apply nth_error_In with (n := k).
    rewrite nth_error_enumerate, Hk. reflexivity.
Qed.

Lemma upper_char_idem c : upper_char (upper_char c) = upper_char c.
Proof.
  unfold upper_char.
  repeat match goal with
         | |- context [if ?b then _ else _] => destruct b eqn:?
         end; lia.
Qed.

Lemma upper_idem (s : str) : upper (upper s) = upper s.
Proof.
  unfold upper. rewrite map_map. apply map_ext. apply upper_char_idem.
Qed.

(* ===================================================================== *)
(** * Grid: the reading methods *)
(* ===================================================================== *)

Lemma readonly_get_cell row col : readonly (get_cell row col).
Proof.
  unfold get_cell. repeat (apply readonly_bind; [auto with readonly|]; intros).
  auto with readonly.
Qed.

Lemma readonly__has_perpendicular_word row col direction :
  readonly (_has_perpendicular_word row col direction).
Proof.
  unfold _has_perpendicular_word.
  apply readonly_bind; [auto with readonly|]. intros l.
  apply readonly_for_return; [|auto with readonly].
  intros p. destruct direction; repeat apply readonly_if; auto with readonly.
Qed.

Lemma readonly__check_adjacent_cells row col direction i n :
  readonly (_check_adjacent_cells row col direction i n).
Proof.
  unfold _check_adjacent_cells.
  destruct direction;
    (apply readonly_bind; [apply readonly_get_cell|]; intros;
     apply readonly_bind; [apply readonly_get_cell|]; intros;
     apply readonly_if; [|auto with readonly];
     apply readonly_bind; [apply readonly__has_perpendicular_word|]; intros;
     auto with readonly).
Qed.

Lemma readonly_end_caps row col n direction :
  readonly (end_caps row col n direction).
Proof.
  assert (Hc : forall (b : bool) r c,
             readonly (if b then x <- get_cell r c ;; ret (negb (is_empty x))
                       else ret false)).
  { intros. apply readonly_if; [|auto with readonly].
    apply readonly_bind; [apply readonly_get_cell | auto with readonly]. }
  unfold end_caps.
  destruct direction;
    (apply readonly_bind; [apply Hc|]; intros;
     apply readonly_if; [auto with readonly|];
     apply readonly_bind; [auto with readonly|]; intros;
     apply readonly_bind; [apply Hc|]; intros;
     auto with readonly).
Qed.

Lemma readonly_can_place_step row col direction n ic :
  readonly (can_place_step row col direction n ic).
Proof.
  unfold can_place_step. destruct ic as [i ch].
  destruct (cell_of row col direction i) as [r c].
  apply readonly_bind; [apply readonly_get_cell|]. intros cur.
  apply readonly_if; [auto with readonly|].
  apply readonly_if; [|auto with readonly].
  apply readonly_bind; [apply readonly__check_adjacent_cells|].
  intros; auto with readonly.
Qed.

Lemma readonly_can_place_word word row col direction :
  readonly (can_place_word word row col direction).
Proof.
  unfold can_place_word.
  apply readonly_if; [auto with readonly|].
  apply readonly_bind; [auto with readonly|]. intros w.
  apply readonly_bind; [auto with readonly|]. intros h.
  apply readonly_if; [auto with readonly|].
  apply readonly_for_return.
  - apply readonly_can_place_step.
  - apply readonly_end_caps.
Qed.

Lemma readonly__count_intersections word row col direction :
  readonly (_count_intersections word row col direction).
Proof.
  unfold _count_intersections. apply readonly_for_fold.
  intros count [i ch]. destruct (cell_of row col direction i) as [r c].
  apply readonly_bind; [apply readonly_get_cell|].
  intros; auto with readonly.
Qed.

Lemma readonly_intersection_step word placed i pc acc jc :
  readonly (intersection_step word placed i pc acc jc).
Proof.
  unfold intersection_step. destruct jc as [j wc].
  apply readonly_if; [|auto with readonly].
  destruct (pw_direction placed);
    (apply readonly_bind; [apply readonly_can_place_word|]; intros;
     apply readonly_if; [|auto with readonly];
     apply readonly_bind; [apply readonly__count_intersections|];
     intros; auto with readonly).
Qed.

Lemma readonly_get_intersections word : readonly (get_intersections word).
Proof.
  unfold get_intersections.
  apply readonly_bind; [auto with readonly|]. intros l.
  apply readonly_for_fold. intros acc p.
  apply readonly_for_fold. intros acc' [i pc].
  apply readonly_for_fold. intros acc'' jc.
  apply readonly_intersection_step.
Qed.

#[local] Hint Resolve readonly_get_cell readonly__has_perpendicular_word
  readonly__check_adjacent_cells readonly_end_caps readonly_can_place_step
  readonly_can_place_word readonly__count_intersections
  readonly_get_intersections : readonly.

(** ** What the reading methods return *)

(** The letter [get_cell] reads. *)
Definition cell (g : Grid) (row col : Z) : str := eval (get_cell row col) g.

Lemma cell_eq g row col :
  cell g row col =
  if in_bounds (grid_height g) (grid_width g) row col
  then cell_at (grid_cells g) row col else EMPTY.
Proof.
  unfold cell, get_cell, eval, bind, gets, ret; simpl.
  destruct (in_bounds _ _ _ _); reflexivity.
Qed.

Lemma cell_outside g row col :
  ~ (0 <= row < grid_height g /\ 0 <= col < grid_width g) ->
  cell g row col = EMPTY.
Proof.
  intros H. rewrite cell_eq. unfold in_bounds.
  destruct (0 <=? row) eqn:E1; simpl; [|reflexivity].
  destruct (row <? grid_height g) eqn:E2; simpl; [|reflexivity].
  destruct (0 <=? col) eqn:E3; simpl; [|reflexivity].
  destruct (col <? grid_width g) eqn:E4; simpl; [|reflexivity].
  exfalso. apply H. lia.
Qed.

Lemma cell_nonempty_inside g row col :
  cell g row col <> EMPTY ->
  0 <= row < grid_height g /\ 0 <= col < grid_width g.
Proof.
  intros H.
  destruct (Z_le_dec 0 row), (Z_lt_dec row (grid_height g)),
    (Z_le_dec 0 col), (Z_lt_dec col (grid_width g));
    try (exfalso; apply H; apply cell_outside; lia).
  lia.
Qed.

Definition perpendicular (d : Direction) : Direction :=
  match d with
  | horizontal => vertical
  | vertical => horizontal
  end.

(** The committed word [p] runs through the cell [(row, col)]. *)
Definition runs_through (p : PlacedWord) (row col : Z) : Prop :=
  match pw_direction p with
  | horizontal =>
    pw_row p = row /\ pw_col p <= col < pw_col p + pw_length p
  | vertical =>
    pw_col p = col /\ pw_row p <= row < pw_row p + pw_length p
  end.

Definition has_perpendicular (g : Grid) (row col : Z) (d : Direction) : bool :=
  eval (_has_perpendicular_word row col d) g.

Lemma has_perpendicular_true g row col d :
  has_perpendicular g row col d = true <->
  exists p, In p (placed_words g) /\ pw_direction p = d /\
            runs_through p row col.
Proof.
  unfold has_perpendicular, _has_perpendicular_word.
  rewrite eval_bind by auto with readonly.
  unfold gets at 1, eval at 2; simpl.
  set (body := fun placed : PlacedWord => _).
  assert (Hro : forall x, readonly (body x)).
  { intros p; subst body; simpl.
    destruct d; repeat apply readonly_if; auto with readonly. }
  rewrite eval_for_return by exact Hro.
  assert (Hb : forall p, eval (body p) g = Some true \/ eval (body p) g = None).
  { intros p; subst body; simpl.
    destruct (negb (Direction_eqb (pw_direction p) d)); [right; reflexivity|].
    destruct d; match goal with |- context [if ?b then _ else _] =>
      destruct b end; auto. }
  assert (Hs : forall p, eval (body p) g = Some true <->
                         pw_direction p = d /\ runs_through p row col).
  { intros p; subst body; simpl. unfold runs_through.
    destruct (pw_direction p) eqn:Ep, d; simpl;
      try (split; [discriminate | intros [? _]; discriminate]).
    - destruct ((pw_row p =? row) && (pw_col p <=? col)
                && (col <? pw_col p + pw_length p)) eqn:E.
      + split; [|reflexivity]. intros _. split; [reflexivity|].
        rewrite !andb_true_iff in E. lia.
      + split; [discriminate|]. intros [_ H].
        rewrite !andb_false_iff in E. lia.
    - destruct ((pw_col p =? col) && (pw_row p <=? row)
                && (row <? pw_row p + pw_length p)) eqn:E.
      + split; [|reflexivity]. intros _. split; [reflexivity|].
        rewrite !andb_true_iff in E. lia.
      + split; [discriminate|]. intros [_ H].
        rewrite !andb_false_iff in E. lia. }
  destruct (first_return (placed_words g) (fun x => eval (body x) g)) eqn:E.
  - apply first_return_Some in E. destruct E as [p [Hin Hp]].
    destruct (Hb p) as [Hp'|Hp']; [|congruence].
    assert (b = true) by congruence. subst b.
    split; [|reflexivity]. intros _. exists p. split; [exact Hin|].
    apply Hs; exact Hp.
  - unfold ret, eval; simpl. split; [discriminate|].
    intros [p [Hin Hp]]. apply Hs in Hp.
    apply first_return_None in E. rewrite Forall_forall in E.
    specialize (E p Hin). simpl in E. congruence.
Qed.

(** The two neighbours of a cell across the direction of the word. *)
Definition side_cells (row col : Z) (d : Direction) : (Z * Z) * (Z * Z) :=
  match d with
  | horizontal => ((row - 1, col), (row + 1, col))
  | vertical => ((row, col - 1), (row, col + 1))
  end.

Definition adjacent_ok (g : Grid) (row col : Z) (d : Direction) : bool :=
  let '((r1, c1), (r2, c2)) := side_cells row col d in
  (is_empty (cell g r1 c1) && is_empty (cell g r2 c2))
  || has_perpendicular g row col (perpendicular d).

Lemma eval__check_adjacent_cells g row col d i n :
  eval (_check_adjacent_cells row col d i n) g = adjacent_ok g row col d.
Proof.
  unfold _check_adjacent_cells, adjacent_ok, has_perpendicular.
  destruct d; simpl;
    rewrite eval_bind by auto with readonly;
    rewrite eval_bind by auto with readonly;
    fold (cell g (row - 1) col); fold (cell g (row + 1) col);
    fold (cell g row (col - 1)); fold (cell g row (col + 1)).
  - destruct (is_empty (cell g (row - 1) col)),
      (is_empty (cell g (row + 1) col)); simpl; try reflexivity;
      rewrite eval_bind by auto with readonly;
      destruct (eval (_has_perpendicular_word row col vertical) g);
      reflexivity.
  - destruct (is_empty (cell g row (col - 1))),
      (is_empty (cell g row (col + 1))); simpl; try reflexivity;
      rewrite eval_bind by auto with readonly;
      destruct (eval (_has_perpendicular_word row col horizontal) g);
      reflexivity.
Qed.

(** What the loop body of [can_place_word] decides for one letter. *)
Definition step_result (g : Grid) (row col : Z) (d : Direction)
    (i : Z) (ch : char) : option bool :=
  let '(r, c) := cell_of row col d i in
  let cur := cell g r c in
  if negb (is_empty cur) && negb (str_eqb cur [ch]) then Some false
  else if is_empty cur then
    if adjacent_ok g r c d then None else Some false
  else None.

Lemma eval_can_place_step g row col d n i ch :
  eval (can_place_step row col d n (i, ch)) g = step_result g row col d i ch.
Proof.
  unfold can_place_step, step_result.
  destruct (cell_of row col d i) as [r c].
  rewrite eval_bind by auto with readonly. fold (cell g r c).
  destruct (negb (is_empty (cell g r c)) && negb (str_eqb (cell g r c) [ch]));
    [reflexivity|].
  destruct (is_empty (cell g r c)); [|reflexivity].
  rewrite eval_bind by auto with readonly.
  rewrite eval__check_adjacent_cells.
  destruct (adjacent_ok g r c d); reflexivity.
Qed.

Lemma step_result_cases g row col d i ch :
  step_result g row col d i ch = Some false \/
  step_result g row col d i ch = None.
Proof.
  unfold step_result. destruct (cell_of row col d i) as [r c].
  repeat match goal with |- context [if ?b then _ else _] => destruct b end;
    auto.
Qed.

(** A letter can go to its cell: the cell holds it already, or is empty
    and passes the adjacency check. *)
Definition letter_ok (g : Grid) (row col : Z) (d : Direction) (i : Z)
    (ch : char) : Prop :=
  let '(r, c) := cell_of row col d i in
  cell g r c = [ch] \/ (cell g r c = EMPTY /\ adjacent_ok g r c d = true).

Lemma step_result_None g row col d i ch :
  step_result g row col d i ch = None <-> letter_ok g row col d i ch.
Proof.
  unfold step_result, letter_ok. destruct (cell_of row col d i) as [r c].
  destruct (is_empty (cell g r c)) eqn:Ee; simpl.
  - apply is_empty_true in Ee. rewrite Ee.
    destruct (adjacent_ok g r c d); split; try discriminate; auto.
    + intros [H|[_ H]]; discriminate.
  - apply is_empty_false in Ee.
    destruct (str_eqb (cell g r c) [ch]) eqn:Es; simpl.
    + apply str_eqb_eq in Es. split; auto.
    + split; [discriminate|]. intros [H|[H _]]; [|contradiction].
      apply str_eqb_eq in H. congruence.
Qed.

Definition cell_p (g : Grid) (rc : Z * Z) : str := cell g (fst rc) (snd rc).

(** The word of length [n] laid from [(row, col)] stays on the board. *)
Definition fits (g : Grid) (row col : Z) (d : Direction) (n : Z) : Prop :=
  0 <= row /\ 0 <= col /\
  match d with
  | horizontal => col + n <= grid_width g /\ row < grid_height g
  | vertical => row + n <= grid_height g /\ col < grid_width g
  end.

Lemma eval_end_caps g row col n d :
  0 <= row -> 0 <= col -> 0 <= n ->
  (eval (end_caps row col n d) g = true <->
   cell_p g (cell_of row col d (-1)) = EMPTY /\
   cell_p g (cell_of row col d n) = EMPTY).
Proof.
  intros Hr Hc Hn.
  assert (Hg : forall (b : bool) r c,
    eval (if b then x <- get_cell r c ;; ret (negb (is_empty x))
          else ret false) g = (b && negb (is_empty (cell g r c)))).
  { intros [|] r c; [|reflexivity].
    rewrite eval_bind by auto with readonly. reflexivity. }
  assert (Hro : forall (b : bool) r c,
    readonly (if b then x <- get_cell r c ;; ret (negb (is_empty x))
              else ret false)).
  { intros. apply readonly_if; auto with readonly. }
  unfold end_caps, cell_p.
  destruct d; simpl;
    rewrite eval_bind by apply Hro; rewrite Hg.
  - replace (col + -1) with (col - 1) by lia.
    destruct (col >? 0) eqn:E0; simpl.
    + destruct (is_empty (cell g row (col - 1))) eqn:E1; simpl.
      * apply is_empty_true in E1.
        rewrite eval_bind by auto with readonly.
        rewrite eval_bind by apply Hro. rewrite Hg.
        unfold gets, eval at 2; simpl.
        destruct (col + n <? grid_width g) eqn:E2; simpl.
        -- destruct (is_empty (cell g row (col + n))) eqn:E3; simpl.
           ++ apply is_empty_true in E3. unfold ret, eval; simpl. tauto.
           ++ apply is_empty_false in E3. unfold ret, eval; simpl.
              split; [discriminate | tauto].
        -- unfold ret, eval; simpl. split; [|reflexivity]. intros _.
           split; [exact E1|]. apply cell_outside. lia.
      * apply is_empty_false in E1. unfold ret, eval; simpl.
        split; [discriminate | tauto].
    + rewrite eval_bind by auto with readonly.
      rewrite eval_bind by apply Hro. rewrite Hg.
      unfold gets, eval at 2; simpl.
      assert (Hb : cell g row (col - 1) = EMPTY)
        by (apply cell_outside; lia).
      destruct (col + n <? grid_width g) eqn:E2; simpl.
      * destruct (is_empty (cell g row (col + n))) eqn:E3; simpl.
        -- apply is_empty_true in E3. unfold ret, eval; simpl. tauto.
        -- apply is_empty_false in E3. unfold ret, eval; simpl.
           split; [discriminate | tauto].
      * unfold ret, eval; simpl. split; [|reflexivity]. intros _.
        split; [exact Hb|]. apply cell_outside. lia.
  - replace (row + -1) with (row - 1) by lia.
    destruct (row >? 0) eqn:E0; simpl.
    + destruct (is_empty (cell g (row - 1) col)) eqn:E1; simpl.
      * apply is_empty_true in E1.
        rewrite eval_bind by auto with readonly.
        rewrite eval_bind by apply Hro. rewrite Hg.
        unfold gets, eval at 2; simpl.
        destruct (row + n <? grid_height g) eqn:E2; simpl.
        -- destruct (is_empty (cell g (row + n) col)) eqn:E3; simpl.
           ++ apply is_empty_true in E3. unfold ret, eval; simpl. tauto.
           ++ apply is_empty_false in E3. unfold ret, eval; simpl.
              split; [discriminate | tauto].
        -- unfold ret, eval; simpl. split; [|reflexivity]. intros _.
           split; [exact E1|]. apply cell_outside. lia.
      * apply is_empty_false in E1. unfold ret, eval; simpl.
        split; [discriminate | tauto].
    + rewrite eval_bind by auto with readonly.
      rewrite eval_bind by apply Hro. rewrite Hg.
      unfold gets, eval at 2; simpl.
      assert (Hb : cell g (row - 1) col = EMPTY)
        by (apply cell_outside; lia).
      destruct (row + n <? grid_height g) eqn:E2; simpl.
      * destruct (is_empty (cell g (row + n) col)) eqn:E3; simpl.
        -- apply is_empty_true in E3. unfold ret, eval; simpl. tauto.
        -- apply is_empty_false in E3. unfold ret, eval; simpl.
           split; [discriminate | tauto].
      * unfold ret, eval; simpl. split; [|reflexivity]. intros _.
        split; [exact Hb|]. apply cell_outside. lia.
Qed.

(** The value of [can_place_word] once the two bound tests have passed. *)
Definition place_scan (g : Grid) (word : str) (row col : Z) (d : Direction)
    : bool :=
  match first_return (enumerate word)
          (fun ic => step_result g row col d (fst ic) (snd ic)) with
  | Some v => v
  | None => eval (end_caps row col (len word) d) g
  end.

Definition out_of_board (g : Grid) (row col : Z) (d : Direction) (n : Z)
    : bool :=
  (row <? 0) || (col <? 0) ||
  match d with
  | horizontal => (col + n >? grid_width g) || (row >=? grid_height g)
  | vertical => (row + n >? grid_height g) || (col >=? grid_width g)
  end.

Lemma out_of_board_false g row col d n :
  out_of_board g row col d n = false <-> fits g row col d n.
Proof.
  unfold out_of_board, fits. rewrite !orb_false_iff.
  destruct d; rewrite !orb_false_iff; lia.
Qed.

Lemma eval_can_place_word g word row col d :
  eval (can_place_word word row col d) g =
  if out_of_board g row col d (len (upper word)) then false
  else place_scan g (upper word) row col d.
Proof.
  unfold can_place_word, out_of_board.
  destruct ((row <? 0) || (col <? 0)); simpl; [reflexivity|].
  rewrite eval_bind by auto with readonly.
  rewrite eval_bind by auto with readonly.
  change (eval (gets grid_width) g) with (grid_width g).
  change (eval (gets grid_height) g) with (grid_height g).
  destruct d;
    (match goal with |- context [if ?b then ret false else _] =>
       destruct b eqn:E end; [reflexivity|];
     rewrite eval_for_return by (intros; apply readonly_can_place_step);
     unfold place_scan;
     erewrite first_return_ext;
     [reflexivity | intros [i ch]; apply eval_can_place_step]).
Qed.

(** [can_place_word] returns true exactly when the four conditions hold:
    bounds, cell compatibility with the adjacency rule on the cells still
    empty, and the two end caps. *)
Lemma can_place_word_true g word row col d :
  eval (can_place_word word row col d) g = true <->
  fits g row col d (len (upper word)) /\
  (forall k ch, nth_error (upper word) k = Some ch ->
                letter_ok g row col d (Z.of_nat k) ch) /\
  cell_p g (cell_of row col d (-1)) = EMPTY /\
  cell_p g (cell_of row col d (len (upper word))) = EMPTY.
Proof.
  rewrite eval_can_place_word.
  destruct (out_of_board g row col d (len (upper word))) eqn:Eo.
  - split; [discriminate|]. intros [Hf _].
    apply out_of_board_false in Hf. congruence.
  - apply out_of_board_false in Eo. unfold place_scan.
    destruct (first_return _ _) eqn:Ef.
    + apply first_return_Some in Ef. destruct Ef as [[i ch] [Hin Hs]].
      simpl in Hs.
      destruct (step_result_cases g row col d i ch) as [H|H];
        [|congruence].
      assert (b = false) by congruence. subst b.
      split; [discriminate|]. intros [_ [Hl _]].
      apply in_enumerate in Hin. destruct Hin as [k [-> Hk]].
      apply Hl in Hk. apply step_result_None in Hk. congruence.
    + apply first_return_None in Ef. rewrite Forall_forall in Ef.
      destruct Eo as [Hr [Hc Hd]].
      rewrite eval_end_caps by (auto using len_nonneg).
      split.
      * intros Hcaps. split; [unfold fits; auto|]. split; [|exact Hcaps].
        intros k ch Hk. apply step_result_None.
        apply (Ef (Z.of_nat k, ch)). apply in_enumerate. eauto.
      * intros [_ [Hl Hcaps]]. exact Hcaps.
Qed.

(** ** Writing cells *)

Lemma length_list_set {A} (l : list A) i x :
  List.length (list_set l i x) = List.length l.
Proof.
  revert i. induction l as [|y l IH]; intros [|i]; simpl; auto.
Qed.

Lemma nth_list_set {A} (l : list A) i j x d :
  nth j (list_set l i x) d =
  if ((i =? j)%nat && (i <? List.length l)%nat)%bool then x else nth j l d.
Proof.
  revert i j. induction l as [|y l IH]; intros i j.
  - simpl. rewrite andb_false_r. destruct i; reflexivity.
  - destruct i as [|i], j as [|j]; simpl; auto.
Qed.

Lemma Forall_list_set {A} (P : A -> Prop) (l : list A) i x :
  Forall P l -> P x -> Forall P (list_set l i x).
Proof.
  intros Hl Hx. revert i.
  induction Hl as [|y l Hy Hl IH]; intros [|i]; simpl; auto.
Qed.

Lemma wf_row_len g row :
  grid_wf g -> 0 <= row < grid_height g ->
  len (nth (Z.to_nat row) (grid_cells g) []) = grid_width g.
Proof.
  intros [Hh Hw] Hr. rewrite Forall_forall in Hw. apply Hw.
  apply nth_In. unfold len in Hh. lia.
Qed.

Lemma grid_wf_write_cell g row col c :
  grid_wf g -> 0 <= row < grid_height g -> grid_wf (write_cell row col c g).
Proof.
  intros Hwf Hr. pose proof (wf_row_len g row Hwf Hr) as Hrow.
  destruct Hwf as [Hh Hw]. unfold grid_wf, write_cell; simpl. split.
  - unfold len. rewrite length_list_set. exact Hh.
  - apply Forall_list_set; [exact Hw|].
    unfold len in *. rewrite length_list_set. exact Hrow.
Qed.

Lemma cell_write_cell g row col c r' c' :
  grid_wf g ->
  0 <= row < grid_height g -> 0 <= col < grid_width g ->
  cell (write_cell row col c g) r' c' =
  if (r' =? row) && (c' =? col) then c else cell g r' c'.
Proof.
  intros Hwf Hr Hc. pose proof (wf_row_len g row Hwf Hr) as Hrow.
  destruct Hwf as [Hh Hw].
  rewrite !cell_eq. unfold write_cell; simpl.
  destruct (in_bounds (grid_height g) (grid_width g) r' c') eqn:Eb.
  - unfold in_bounds in Eb. rewrite !andb_true_iff in Eb.
    unfold cell_at. rewrite nth_list_set.
    unfold len in *.
    destruct (Z.eqb_spec r' row) as [->|Hne]; simpl.
    + replace (Z.to_nat row =? Z.to_nat row)%nat with true
        by (symmetry; apply Nat.eqb_refl).
      replace (Z.to_nat row <? List.length (grid_cells g))%nat with true
        by (symmetry; apply Nat.ltb_lt; lia).
      simpl. rewrite nth_list_set.
      destruct (Z.eqb_spec c' col) as [->|Hnc].
      * replace (Z.to_nat col =? Z.to_nat col)%nat with true
          by (symmetry; apply Nat.eqb_refl).
        replace (Z.to_nat col <? _)%nat with true
          by (symmetry; apply Nat.ltb_lt; lia).
        reflexivity.
      * replace (Z.to_nat col =? Z.to_nat c')%nat with false
          by (symmetry; apply Nat.eqb_neq; lia).
        reflexivity.
    + replace (Z.to_nat row =? Z.to_nat r')%nat with false
        by (symmetry; apply Nat.eqb_neq; lia).
      reflexivity.
  - destruct ((r' =? row) && (c' =? col)) eqn:E; [|reflexivity].
    rewrite andb_true_iff, !Z.eqb_eq in E. destruct E; subst.
    unfold in_bounds in Eb. rewrite !andb_false_iff in Eb. lia.
Qed.

Lemma run_set_cell g row col c :
  set_cell row col c g =
  if in_bounds (grid_height g) (grid_width g) row col
  then (true, write_cell row col c g) else (false, g).
Proof.
  unfold set_cell, bind, gets, modify, ret; simpl.
  destruct (in_bounds _ _ _ _); reflexivity.
Qed.

(** The letter-writing loop of [place_word]. *)
Definition write_letters (ics : list (Z * char)) (row col : Z)
    (d : Direction) : State Grid unit :=
  for_each ics
    (fun '(i, ch) =>
       let '(r, c) := cell_of row col d i in
       set_cell r c [ch] ;;; ret tt).

Definition on_board (g : Grid) (rc : Z * Z) : Prop :=
  0 <= fst rc < grid_height g /\ 0 <= snd rc < grid_width g.

Lemma in_bounds_true h w r c :
  in_bounds h w r c = true <-> 0 <= r < h /\ 0 <= c < w.
Proof. unfold in_bounds. rewrite !andb_true_iff. lia. Qed.

Lemma cell_of_inj row col d i j :
  cell_of row col d i = cell_of row col d j -> i = j.
Proof. destruct d; simpl; intros H; inversion H; lia. Qed.

Lemma exec_write_letters ics row col d g :
  grid_wf g ->
  NoDup (map fst ics) ->
  (forall i ch, In (i, ch) ics -> on_board g (cell_of row col d i)) ->
  let g' := exec (write_letters ics row col d) g in
  grid_wf g' /\
  grid_size g' = grid_size g /\ grid_height g' = grid_height g /\
  grid_width g' = grid_width g /\ placed_words g' = placed_words g /\
  (forall i ch, In (i, ch) ics -> cell_p g' (cell_of row col d i) = [ch]) /\
  (forall r c, (forall i ch, In (i, ch) ics -> cell_of row col d i <> (r, c)) ->
               cell g' r c = cell g r c).
Proof.
  revert g. induction ics as [|[i ch] ics IH]; intros g Hwf Hnd Hin g';
    subst g'.
  - unfold exec, ret; simpl. split; [exact Hwf|].
    repeat (split; [reflexivity|]).
    split; [intros ? ? [] | intros; reflexivity].
  - inversion Hnd as [|? ? Hni Hnd']; subst.
    pose proof (Hin i ch (or_introl eq_refl)) as Hb.
    destruct (cell_of row col d i) as [r0 c0] eqn:Ec. unfold on_board in Hb.
    simpl in Hb. destruct Hb as [Hb1 Hb2].
    set (g1 := write_cell r0 c0 [ch] g).
    assert (Hstep : exec (write_letters ((i, ch) :: ics) row col d) g =
                    exec (write_letters ics row col d) g1).
    { unfold write_letters; simpl. unfold exec, bind. rewrite Ec.
      rewrite run_set_cell.
      replace (in_bounds (grid_height g) (grid_width g) r0 c0) with true
        by (symmetry; apply in_bounds_true; lia).
      reflexivity. }
    rewrite Hstep.
    assert (Hwf1 : grid_wf g1) by (apply grid_wf_write_cell; auto).
    specialize (IH g1 Hwf1 Hnd').
    assert (Hin1 : forall j c, In (j, c) ics ->
                               on_board g1 (cell_of row col d j)).
    { intros j c Hj. apply (Hin j c). right; exact Hj. }
    specialize (IH Hin1). simpl in IH.
    destruct IH as (W & S1 & H1 & W1 & P1 & C1 & C2).
    split; [exact W|]. split; [exact S1|]. split; [exact H1|].
    split; [exact W1|]. split; [exact P1|]. split.
    + intros j c [Hj|Hj].
      * inversion Hj; subst j c. unfold cell_p. rewrite Ec. simpl.
        rewrite C2.
        -- unfold g1. rewrite cell_write_cell by auto.
           rewrite !Z.eqb_refl. reflexivity.
        -- intros j c Hj' Heq. rewrite <- Ec in Heq.
           apply cell_of_inj in Heq. subst j. apply Hni.
           apply in_map_iff. exists (i, c); auto.
      * apply C1; exact Hj.
    + intros r c Hno. rewrite C2.
      * unfold g1. rewrite cell_write_cell by auto.
        destruct ((r =? r0) && (c =? c0)) eqn:E; [|reflexivity].
        rewrite andb_true_iff, !Z.eqb_eq in E. destruct E; subst.
        exfalso. apply (Hno i ch); [left; reflexivity | exact Ec].
      * intros j c' Hj. apply (Hno j c'). right; exact Hj.
Qed.

Lemma map_fst_enumerate {A} (l : list A) :
  map fst (enumerate l) = range 0 (len l).
Proof.
  unfold enumerate.
  assert (H : List.length (range 0 (len l)) = List.length l)
    by (rewrite range_length; unfold len; lia).
  revert H. generalize (range 0 (len l)) as r.
  induction l as [|x l IH]; intros [|y r] H; simpl in *; try discriminate;
    auto.
  f_equal. apply IH. lia.
Qed.

Lemma NoDup_range a b : NoDup (range a b).
Proof.
  unfold range. generalize (Z.to_nat (b - a)) as n. intros n.
  assert (H : forall s k, NoDup (map (fun k => a + Z.of_nat k) (seq s k))).
  { intros s k. revert s. induction k as [|k IH]; intros s; simpl.
    - constructor.
    - constructor; [|apply IH].
      rewrite in_map_iff. intros [j [Hj Hin]]. apply in_seq in Hin. lia. }
  apply H.
Qed.

Lemma NoDup_enumerate {A} (l : list A) : NoDup (map fst (enumerate l)).
Proof. rewrite map_fst_enumerate. apply NoDup_range. Qed.

(** ** [place_word] *)

(** [self._placed_words.append(placed_word)] *)
Definition add_placed (p : PlacedWord) (g : Grid) : Grid :=
  {| grid_size := grid_size g;
     grid_height := grid_height g;
     grid_width := grid_width g;
     grid_cells := grid_cells g;
     placed_words := placed_words g ++ [p] |}.

(** The state [place_word] leaves when [can_place_word] allows the word. *)
Definition committed (word clue hint : str) (row col : Z) (d : Direction)
    (g : Grid) : Grid :=
  add_placed (mkPlacedWord (upper word) clue hint row col d)
    (exec (write_letters (enumerate (upper word)) row col d) g).

Lemma eval_can_place_word_upper g word row col d :
  eval (can_place_word (upper word) row col d) g =
  eval (can_place_word word row col d) g.
Proof. rewrite !eval_can_place_word, upper_idem. reflexivity. Qed.

Lemma run_place_word g word clue hint row col d :
  place_word word clue hint row col d g =
  if eval (can_place_word word row col d) g
  then (true, committed word clue hint row col d g)
  else (false, g).
Proof.
  unfold place_word, bind at 1.
  rewrite (readonly_run _ g (readonly_can_place_word (upper word) row col d)).
  rewrite eval_can_place_word_upper.
  destruct (eval (can_place_word word row col d) g); simpl; [|reflexivity].
  unfold bind, committed, add_placed, exec, write_letters, modify, ret.
  destruct (for_each _ _ g) as [u g1]. reflexivity.
Qed.

Lemma cell_add_placed p g r c : cell (add_placed p g) r c = cell g r c.
Proof. rewrite !cell_eq. reflexivity. Qed.

Lemma fits_on_board g row col d n k :
  fits g row col d n -> 0 <= k < n -> on_board g (cell_of row col d k).
Proof.
  unfold fits, on_board. intros [Hr [Hc Hd]] Hk.
  destruct d; simpl; lia.
Qed.

(** What a successful [place_word] leaves behind. *)
Lemma committed_spec g word clue hint row col d :
  grid_wf g ->
  eval (can_place_word word row col d) g = true ->
  let g' := committed word clue hint row col d g in
  grid_wf g' /\
  grid_size g' = grid_size g /\ grid_height g' = grid_height g /\
  grid_width g' = grid_width g /\
  placed_words g' =
    placed_words g ++ [mkPlacedWord (upper word) clue hint row col d] /\
  (forall k ch, nth_error (upper word) k = Some ch ->
                cell_p g' (cell_of row col d (Z.of_nat k)) = [ch]) /\
  (forall r c,
     (forall k, 0 <= k < len (upper word) -> cell_of row col d k <> (r, c)) ->
     cell g' r c = cell g r c).
Proof.
  intros Hwf Hcan g'. apply can_place_word_true in Hcan.
  destruct Hcan as [Hfits _].
  assert (Hin : forall i ch, In (i, ch) (enumerate (upper word)) ->
                             on_board g (cell_of row col d i)).
  { intros i ch Hi. apply in_enumerate in Hi. destruct Hi as [k [-> Hk]].
    apply (fits_on_board g row col d (len (upper word))); [exact Hfits|].
    assert (k < List.length (upper word))%nat
      by (apply nth_error_Some; congruence).
    unfold len; lia. }
  pose proof (exec_write_letters (enumerate (upper word)) row col d g Hwf
                (NoDup_enumerate _) Hin) as H.
  simpl in H. destruct H as (W & S1 & H1 & W1 & P1 & C1 & C2).
  subst g'. unfold committed.
  set (g1 := exec (write_letters (enumerate (upper word)) row col d) g) in *.
  split; [exact W|].
  split; [exact S1|]. split; [exact H1|]. split; [exact W1|].
  split; [simpl; rewrite P1; reflexivity|]. split.
  - intros k ch Hk. unfold cell_p. rewrite cell_add_placed.
    apply (C1 (Z.of_nat k) ch). apply in_enumerate. eauto.
  - intros r c Hno. rewrite cell_add_placed. apply C2.
    intros i ch Hi. apply in_enumerate in Hi. destruct Hi as [k [-> Hk]].
    apply Hno.
    assert (k < List.length (upper word))%nat
      by (apply nth_error_Some; congruence).
    unfold len; lia.
Qed.

Lemma grid_wf_init size : 0 <= size -> grid_wf (Grid_init size).
Proof.
  intros Hs. unfold grid_wf, Grid_init; simpl. split.
  - unfold len. rewrite length_map, range_length. lia.
  - apply Forall_forall. intros r Hr. apply in_map_iff in Hr.
    destruct Hr as [x [<- Hx]]. apply in_range in Hx.
    unfold len. rewrite length_map, range_length. lia.
Qed.

Lemma nth_map_const {A B} (l : list A) (v d : B) k :
  (k < List.length l)%nat -> nth k (map (fun _ => v) l) d = v.
Proof.
  revert k. induction l as [|x l IH]; intros [|k] H; simpl in *;
    try lia; auto. apply IH. lia.
Qed.

Lemma cell_init size r c : cell (Grid_init size) r c = EMPTY.
Proof.
  rewrite cell_eq. simpl.
  destruct (in_bounds size size r c) eqn:E; [|reflexivity].
  apply in_bounds_true in E. unfold cell_at.
  rewrite nth_map_const by (rewrite range_length; lia).
  apply nth_map_const. rewrite range_length; lia.
Qed.

(* ===================================================================== *)
(** * Grid: placement predicate and commitment *)
(* ===================================================================== *)

(** The grid of the test suite: a 10 x 10 grid with "АТОМ" at (5, 0),
    horizontal. *)
Definition grid_atom : Grid :=
  exec (place_word (py "АТОМ") (py "Частица") (py "Подсказка") 5 0 horizontal)
       (Grid_init 10).

(** C10. [can_place_word] is a pure predicate: on every grid state and for
    every (word, row, col, direction) the call returns a Boolean and the
    state after the call (cells, dimensions, size, placed-word list) is the
    state before it. *)
Theorem can_place_word_pure :
  forall (g : Grid) (word : str) (row col : Z) (direction : Direction),
    exists b : bool, can_place_word word row col direction g = (b, g).
Proof.
  intros g word row col direction.
  exists (eval (can_place_word word row col direction) g).
  apply readonly_run. apply readonly_can_place_word.
Qed.

(** C4. [can_place_word] returns False whenever some letter of the word
    would go to a cell that is now empty, one of the two neighbours of that
    cell across the direction of the word (above or below for a horizontal
    word, left or right for a vertical one) is not empty, and no committed
    word of the perpendicular direction runs through the cell. On the
    10 x 10 grid with "АТОМ" at (5, 0) horizontal,
    [can_place_word("ДОМ", 6, 0, horizontal)] is False. *)
Theorem can_place_word_rejects_side_touch :
  (forall (g : Grid) (word : str) (row col : Z) (direction : Direction)
          (k : nat) (ch : char) (r c : Z),
     nth_error (upper word) k = Some ch ->
     cell_of row col direction (Z.of_nat k) = (r, c) ->
     cell g r c = EMPTY ->
     cell_p g (fst (side_cells r c direction)) <> EMPTY \/
     cell_p g (snd (side_cells r c direction)) <> EMPTY ->
     (forall p, In p (placed_words g) ->
                pw_direction p = perpendicular direction ->
                ~ runs_through p r c) ->
     eval (can_place_word word row col direction) g = false) /\
  eval (can_place_word (py "ДОМ") 6 0 horizontal) grid_atom = false.
Proof.
  split; [|vm_compute; reflexivity].
  intros g word row col direction k ch r c Hk Hcell Hempty Hside Hperp.
  destruct (eval (can_place_word word row col direction) g) eqn:Hcan;
    [|reflexivity].
  exfalso. apply can_place_word_true in Hcan.
  destruct Hcan as [_ [Hl _]]. specialize (Hl k ch Hk).
  unfold letter_ok in Hl. rewrite Hcell in Hl.
  destruct Hl as [Hl|[_ Hl]]; [rewrite Hempty in Hl; discriminate|].
  unfold adjacent_ok in Hl. unfold cell_p in Hside.
  destruct (side_cells r c direction) as [[r1 c1] [r2 c2]]. simpl in Hside.
  apply orb_true_iff in Hl. destruct Hl as [Hl|Hl].
  - apply andb_true_iff in Hl. destruct Hl as [H1 H2].
    apply is_empty_true in H1, H2. tauto.
  - apply has_perpendicular_true in Hl. destruct Hl as [p [Hin [Hd Hr]]].
    exact (Hperp p Hin Hd Hr).
Qed.

Lemma can_place_word_rejects_side_touch_witness :
  eval (can_place_word (py "ДОМ") 6 0 horizontal) grid_atom = false.
Proof.
  apply (proj1 can_place_word_rejects_side_touch grid_atom (py "ДОМ") 6 0
           horizontal 0%nat 1044 6 0).
  - reflexivity.
  - reflexivity.
  - vm_compute; reflexivity.
  - left. vm_compute. discriminate.
  - intros p Hin Hd. vm_compute in Hin.
    destruct Hin as [<-|[]]. simpl in Hd. discriminate.
Defined.

(* ===================================================================== *)
(** * Grid: the intersection search *)
(* ===================================================================== *)

Lemma for_fold_invariant {S A B} (P : B -> Prop) (xs : list A) (acc : B)
    (body : B -> A -> State S B) s :
  (forall b x, readonly (body b x)) ->
  P acc ->
  (forall b x, In x xs -> P b -> P (eval (body b x) s)) ->
  P (eval (for_fold xs acc body) s).
Proof.
  intros Hro. revert acc.
  induction xs as [|x xs IH]; intros acc Hacc Hstep; simpl.
  - exact Hacc.
  - rewrite eval_bind by apply Hro. apply IH.
    + apply Hstep; [left; reflexivity | exact Hacc].
    + intros b y Hy. apply Hstep. right; exact Hy.
Qed.

(** The letter of the word at offset [i] is already in its cell. *)
Definition crosses (g : Grid) (row col : Z) (d : Direction)
    (ic : Z * char) : bool :=
  str_eqb (cell_p g (cell_of row col d (fst ic))) [snd ic].

Lemma eval__count_intersections g word row col d :
  eval (_count_intersections word row col d) g =
  len (filter (crosses g row col d) (enumerate word)).
Proof.
  unfold _count_intersections.
  assert (H : forall xs c,
    eval (for_fold xs c
            (fun count '(i, ch) =>
               let '(r, c0) := cell_of row col d i in
               cell <- get_cell r c0 ;;
               if str_eqb cell [ch] then ret (count + 1) else ret count)) g =
    c + len (filter (crosses g row col d) xs)).
  { induction xs as [|[i ch] xs IH]; intros c; simpl.
    - rewrite len_nil. unfold eval, ret; simpl. lia.
    - rewrite eval_bind.
      2:{ destruct (cell_of row col d i) as [r c0].
          apply readonly_bind; [apply readonly_get_cell|].
          intros; auto with readonly. }
      unfold crosses at 1, cell_p; simpl.
      destruct (cell_of row col d i) as [r c0] eqn:Ec; simpl.
      rewrite eval_bind by auto with readonly. fold (cell g r c0).
      destruct (str_eqb (cell g r c0) [ch]); rewrite IH;
        rewrite ?len_cons; cbv beta iota delta [eval ret fst]; lia. }
  rewrite H. lia.
Qed.

(** The cells of every committed word hold its letters. *)
Definition consistent (g : Grid) : Prop :=
  forall p, In p (placed_words g) ->
  forall k ch, nth_error (pw_word p) k = Some ch ->
    cell_p g (cell_of (pw_row p) (pw_col p) (pw_direction p) (Z.of_nat k))
    = [ch].

(** The candidate [(row, col, d)] comes from pairing the letter [j] of the
    word with the letter [i] of the committed word [p]. *)
Definition paired_with (word : str) (p : PlacedWord) (i j : nat)
    (row col : Z) (d : Direction) : Prop :=
  (exists ch, nth_error (pw_word p) i = Some ch /\
              nth_error word j = Some ch) /\
  d = perpendicular (pw_direction p) /\
  cell_of row col d (Z.of_nat j) =
  cell_of (pw_row p) (pw_col p) (pw_direction p) (Z.of_nat i).

Definition candidate_ok (g : Grid) (word : str) (t : Position) : Prop :=
  let '(row, col, d, n) := t in
  eval (can_place_word word row col d) g = true /\
  n = len (filter (crosses g row col d) (enumerate (upper word))) /\
  exists p i j, In p (placed_words g) /\
                paired_with (upper word) p i j row col d.

Lemma get_intersections_candidates g word :
  Forall (candidate_ok g word) (eval (get_intersections word) g).
Proof.
  unfold get_intersections.
  rewrite eval_bind by auto with readonly.
  change (eval (gets placed_words) g) with (placed_words g).
  apply for_fold_invariant.
  - intros acc p. apply readonly_for_fold. intros acc' [i pc].
    apply readonly_for_fold. intros; apply readonly_intersection_step.
  - constructor.
  - intros acc p Hp Hacc. apply for_fold_invariant.
    + intros acc' [i pc]. apply readonly_for_fold.
      intros; apply readonly_intersection_step.
    + exact Hacc.
    + intros acc' [i pc] Hi Hacc'. apply for_fold_invariant.
      * intros; apply readonly_intersection_step.
      * exact Hacc'.
      * intros acc'' [j wc] Hj Hacc''.
        apply in_enumerate in Hi. destruct Hi as [ki [-> Hki]].
        apply in_enumerate in Hj. destruct Hj as [kj [-> Hkj]].
        unfold intersection_step.
        destruct (pc =? wc) eqn:Eq; [|exact Hacc''].
        apply Z.eqb_eq in Eq. subst wc.
        set (pos := match pw_direction p with
                    | horizontal =>
                      (pw_row p - Z.of_nat kj, pw_col p + Z.of_nat ki, vertical)
                    | vertical =>
                      (pw_row p + Z.of_nat ki, pw_col p - Z.of_nat kj,
                       horizontal)
                    end).
        assert (Hpair : let '(r, c, d) := pos in
                        paired_with (upper word) p ki kj r c d).
        { subst pos. unfold paired_with.
          destruct (pw_direction p); simpl;
            (split; [exists pc; auto|]; split; [reflexivity|]; f_equal; lia). }
        destruct pos as [[r c] d].
        rewrite eval_bind by auto with readonly.
        destruct (eval (can_place_word (upper word) r c d) g) eqn:Ecan;
          [|exact Hacc''].
        rewrite eval_bind by auto with readonly.
        unfold ret, eval at 1; simpl.
        apply Forall_app. split; [exact Hacc''|].
        constructor; [|constructor].
        unfold candidate_ok. split.
        -- rewrite <- eval_can_place_word_upper. exact Ecan.
        -- split; [apply eval__count_intersections|].
           exists p, ki, kj. split; [exact Hp | exact Hpair].
Qed.

Lemma len_filter_pos {A} (f : A -> bool) (l : list A) x :
  In x l -> f x = true -> 1 <= len (filter f l).
Proof.
  intros Hin Hf. assert (H : In x (filter f l)) by (apply filter_In; auto).
  unfold len. destruct (filter f l); [destruct H | simpl; lia].
Qed.

(** The grid with the single word АТОМ holds the letters of that word. *)
Lemma consistent_grid_atom : consistent grid_atom.
Proof.
  intros p Hp k ch Hk.
  assert (E : placed_words grid_atom =
              [mkPlacedWord (py "АТОМ") (py "Частица") (py "Подсказка")
                            5 0 horizontal]) by (vm_compute; reflexivity).
  rewrite E in Hp. destruct Hp as [<-|[]].
  do 4 (destruct k as [|k];
        [injection Hk as <-; vm_compute; reflexivity|]).
  destruct k; discriminate Hk.
Qed.

(** C5. On a grid whose cells hold the letters of its committed words,
    every tuple (row, col, direction, crossings) that [get_intersections]
    returns for a word satisfies [can_place_word(word, row, col, direction)],
    comes from a committed word [p] it was paired against (a letter of [p]
    equal to a letter of the word, the word laid so that the two letters
    share a cell) and runs in the direction opposite to that of [p], and
    crossings is the number of cells of the word whose present letter is the
    letter of the word, which is at least 1. *)
Theorem get_intersections_sound :
  forall (g : Grid) (word : str),
    consistent g ->
    forall (row col : Z) (direction : Direction) (crossings : Z),
      In (row, col, direction, crossings) (eval (get_intersections word) g) ->
      eval (can_place_word word row col direction) g = true /\
      (exists p i j,
         In p (placed_words g) /\
         paired_with (upper word) p i j row col direction /\
         direction <> pw_direction p) /\
      crossings =
        len (filter (crosses g row col direction) (enumerate (upper word))) /\
      1 <= crossings.
Proof.
  intros g word Hcons row col direction crossings Hin.
  pose proof (get_intersections_candidates g word) as H.
  rewrite Forall_forall in H. specialize (H _ Hin).
  unfold candidate_ok in H. destruct H as [Hcan [Hn [p [i [j [Hp Hpair]]]]]].
  split; [exact Hcan|]. split; [|split; [exact Hn|]].
  - exists p, i, j. split; [exact Hp|]. split; [exact Hpair|].
    destruct Hpair as [_ [Hd _]]. rewrite Hd.
    destruct (pw_direction p); discriminate.
  - rewrite Hn. destruct Hpair as [[ch [Hi Hj]] [Hd Hcell]].
    apply len_filter_pos with (x := (Z.of_nat j, ch)).
    + apply in_enumerate. eauto.
    + unfold crosses; simpl. rewrite Hcell.
      rewrite (Hcons p Hp i ch Hi). apply str_eqb_refl.
Qed.

Lemma get_intersections_sound_witness :
  consistent grid_atom /\
  In (2, 1, vertical, 1) (eval (get_intersections (py "ТЕСТ")) grid_atom) /\
  (eval (can_place_word (py "ТЕСТ") 2 1 vertical) grid_atom = true /\
   (exists p i j,
      In p (placed_words grid_atom) /\
      paired_with (upper (py "ТЕСТ")) p i j 2 1 vertical /\
      vertical <> pw_direction p) /\
   1 = len (filter (crosses grid_atom 2 1 vertical)
                   (enumerate (upper (py "ТЕСТ")))) /\
   1 <= 1).
Proof.
  assert (Hc : consistent grid_atom) by exact consistent_grid_atom.
  assert (Hin : In (2, 1, vertical, 1)
                   (eval (get_intersections (py "ТЕСТ")) grid_atom))
    by (vm_compute; right; left; reflexivity).
  split; [exact Hc|]. split; [exact Hin|].
  exact (get_intersections_sound grid_atom (py "ТЕСТ") Hc 2 1 vertical 1 Hin).
Defined.

(* ===================================================================== *)
(** * Grid: cropping *)
(* ===================================================================== *)

Lemma index_inside {A} (l : list A) i d :
  0 <= i < len l -> index l i = Some (nth (Z.to_nat i) l d).
Proof.
  intros H. unfold index.
  destruct (Z.leb_spec 0 i); [|lia].
  apply nth_error_nth'. unfold len in H. lia.
Qed.

Lemma index_empty {A} i : index (@nil A) i = None.
Proof.
  unfold index. change (len (@nil A)) with 0. simpl.
  destruct (0 <=? i) eqn:E; [destruct (Z.to_nat i); reflexivity|].
  reflexivity.
Qed.

Lemma index2_inside g row col :
  grid_wf g -> 0 <= row < grid_height g -> 0 <= col < grid_width g ->
  index2 (grid_cells g) row col = Some (cell_at (grid_cells g) row col).
Proof.
  intros Hwf Hr Hc. pose proof (wf_row_len g row Hwf Hr) as Hrow.
  destruct Hwf as [Hh _]. unfold index2, cell_at.
  rewrite (index_inside _ row []) by lia. simpl.
  apply index_inside. lia.
Qed.

Lemma ofold_total {A B} (xs : list A) (b : B) body f :
  (forall b x, In x xs -> body b x = Some (f b x)) ->
  ofold xs b body = Some (fold_left f xs b).
Proof.
  revert b. induction xs as [|x xs IH]; intros b H; simpl; [reflexivity|].
  rewrite H by (left; reflexivity). simpl. apply IH.
  intros b' y Hy. apply H. right; exact Hy.
Qed.

Lemma omap_total {A B} (xs : list A) (f : A -> option B) h :
  (forall x, In x xs -> f x = Some (h x)) ->
  omap xs f = Some (map h xs).
Proof.
  induction xs as [|x xs IH]; intros H; simpl; [reflexivity|].
  rewrite H by (left; reflexivity). simpl.
  rewrite IH by (intros y Hy; apply H; right; exact Hy). reflexivity.
Qed.

(** One step of the scan on a cell that is there. *)
Definition bstep (cells : list (list str)) (b : Bounds) (rc : Z * Z)
    : Bounds :=
  let '(min_row, max_row, min_col, max_col) := b in
  if negb (is_empty (cell_at cells (fst rc) (snd rc)))
  then (Z.min min_row (fst rc), Z.max max_row (fst rc),
        Z.min min_col (snd rc), Z.max max_col (snd rc))
  else b.

(** The cells in the order the two loops visit them. *)
Definition all_cells (h w : Z) : list (Z * Z) :=
  flat_map (fun row => map (pair row) (range 0 w)) (range 0 h).

Lemma in_all_cells h w r c :
  In (r, c) (all_cells h w) <-> 0 <= r < h /\ 0 <= c < w.
Proof.
  unfold all_cells. rewrite in_flat_map. split.
  - intros [row [Hrow Hin]]. apply in_map_iff in Hin.
    destruct Hin as [col [Heq Hcol]]. inversion Heq; subst.
    apply in_range in Hrow, Hcol. lia.
  - intros [Hr Hc]. exists r. split; [apply in_range; lia|].
    apply in_map. apply in_range; lia.
Qed.

Lemma fold_left_map {A B C} (f : C -> B -> C) (h : A -> B) (l : list A)
    (b : C) :
  fold_left f (map h l) b = fold_left (fun b x => f b (h x)) l b.
Proof.
  revert b. induction l as [|x l IH]; intros b; simpl; auto.
Qed.

Lemma fold_left_nested {A B C} (f : C -> A * B -> C) (rows : list A)
    (cols : list B) (b : C) :
  fold_left (fun b row => fold_left (fun b col => f b (row, col)) cols b)
            rows b =
  fold_left f (flat_map (fun row => map (pair row) cols) rows) b.
Proof.
  revert b. induction rows as [|r rows IH]; intros b; simpl; [reflexivity|].
  rewrite fold_left_app, <- IH. f_equal.
  rewrite fold_left_map. reflexivity.
Qed.

Definition scan_bounds (g : Grid) : Bounds :=
  fold_left (bstep (grid_cells g))
            (all_cells (grid_height g) (grid_width g))
            (grid_height g, 0, grid_width g, 0).

Lemma find_bounds_wf g :
  grid_wf g -> find_bounds g = Some (scan_bounds g).
Proof.
  intros Hwf. unfold find_bounds, scan_bounds, all_cells.
  rewrite <- fold_left_nested.
  apply ofold_total. intros b row Hrow. apply in_range in Hrow.
  apply ofold_total. intros b' col Hcol. apply in_range in Hcol.
  unfold bounds_step. rewrite index2_inside by (auto; lia). simpl.
  unfold bstep; simpl. destruct b' as [[[a1 a2] a3] a4]. reflexivity.
Qed.

(** The bounds after a scan from [b0] over the cells [L]: they extend
    [b0], cover every non-empty cell of [L], and each of them is the one of
    [b0] or is reached by a non-empty cell of [L]. *)
Definition filled (cells : list (list str)) (r c : Z) : Prop :=
  cell_at cells r c <> EMPTY.

Lemma bstep_fold_spec cells L b0 :
  let '(mr0, xr0, mc0, xc0) := b0 in
  let '(mr, xr, mc, xc) := fold_left (bstep cells) L b0 in
  (mr <= mr0 /\ xr0 <= xr /\ mc <= mc0 /\ xc0 <= xc) /\
  (forall r c, In (r, c) L -> filled cells r c ->
               mr <= r <= xr /\ mc <= c <= xc) /\
  (mr = mr0 \/ exists c, In (mr, c) L /\ filled cells mr c) /\
  (xr = xr0 \/ exists c, In (xr, c) L /\ filled cells xr c) /\
  (mc = mc0 \/ exists r, In (r, mc) L /\ filled cells r mc) /\
  (xc = xc0 \/ exists r, In (r, xc) L /\ filled cells r xc).
Proof.
  revert b0. induction L as [|[r0 c0] L IH]; intros [[[mr0 xr0] mc0] xc0].
  - simpl. repeat split; try lia; auto; try (intros ? ? []).
  - simpl fold_left.
    change (bstep cells (mr0, xr0, mc0, xc0) (r0, c0))
      with (if negb (is_empty (cell_at cells r0 c0))
            then (Z.min mr0 r0, Z.max xr0 r0, Z.min mc0 c0, Z.max xc0 c0)
            else (mr0, xr0, mc0, xc0)).
    destruct (is_empty (cell_at cells r0 c0)) eqn:E; simpl negb; cbv iota.
    + apply is_empty_true in E.
      specialize (IH (mr0, xr0, mc0, xc0)). simpl in IH.
      destruct (fold_left (bstep cells) L (mr0, xr0, mc0, xc0))
        as [[[mr xr] mc] xc].
      destruct IH as (H1 & H2 & H3 & H4 & H5 & H6).
      split; [exact H1|]. split.
      { intros r c [Heq|Hin] Hf; [|apply H2; auto].
        inversion Heq; subst. unfold filled in Hf. contradiction. }
      split; [destruct H3 as [?|[c [? ?]]]; [left|right; exists c]; simpl; auto|].
      split; [destruct H4 as [?|[c [? ?]]]; [left|right; exists c]; simpl; auto|].
      split; [destruct H5 as [?|[c [? ?]]]; [left|right; exists c]; simpl; auto|].
      destruct H6 as [?|[c [? ?]]]; [left|right; exists c]; simpl; auto.
    + apply is_empty_false in E.
      specialize (IH (Z.min mr0 r0, Z.max xr0 r0, Z.min mc0 c0, Z.max xc0 c0)).
      simpl in IH.
      destruct (fold_left (bstep cells) L _) as [[[mr xr] mc] xc].
      destruct IH as (H1 & H2 & H3 & H4 & H5 & H6).
      split; [lia|]. split.
      { intros r c [Heq|Hin] Hf; [|apply H2; auto].
        inversion Heq; subst. lia. }
      split.
      { destruct H3 as [H3|[c [? ?]]]; [|right; exists c; simpl; auto].
        destruct (Z.min_spec mr0 r0) as [[_ Hm]|[_ Hm]]; [left; lia|].
        right. exists c0. subst mr. rewrite Hm. simpl; auto. }
      split.
      { destruct H4 as [H4|[c [? ?]]]; [|right; exists c; simpl; auto].
        destruct (Z.max_spec xr0 r0) as [[_ Hm]|[_ Hm]]; [|left; lia].
        right. exists c0. subst xr. rewrite Hm. simpl; auto. }
      split.
      { destruct H5 as [H5|[r [? ?]]]; [|right; exists r; simpl; auto].
        destruct (Z.min_spec mc0 c0) as [[_ Hm]|[_ Hm]]; [left; lia|].
        right. exists r0. subst mc. rewrite Hm. simpl; auto. }
      { destruct H6 as [H6|[r [? ?]]]; [|right; exists r; simpl; auto].
        destruct (Z.max_spec xc0 c0) as [[_ Hm]|[_ Hm]]; [|left; lia].
        right. exists r0. subst xc. rewrite Hm. simpl; auto. }
Qed.

Lemma nth_map_range {B} (F : Z -> B) a b k d :
  (k < Z.to_nat (b - a))%nat ->
  nth k (map F (range a b)) d = F (a + Z.of_nat k).
Proof.
  intros H. apply nth_error_nth.
  rewrite nth_error_map, nth_error_range by exact H. reflexivity.
Qed.

Lemma range_cons a b : a < b -> range a b = a :: range (a + 1) b.
Proof.
  intros H. unfold range.
  replace (Z.to_nat (b - a)) with (S (Z.to_nat (b - (a + 1)))) by lia.
  simpl. f_equal; [lia|].
  rewrite <- seq_shift, map_map. apply map_ext. intros k. lia.
Qed.

Lemma map_nth_range {A} (l : list A) d :
  map (fun i => nth (Z.to_nat i) l d) (range 0 (len l)) = l.
Proof.
  apply nth_ext with (d := d) (d' := d).
  - rewrite length_map, range_length. unfold len. lia.
  - intros k Hk. rewrite length_map, range_length in Hk.
    rewrite nth_map_range by exact Hk. f_equal. lia.
Qed.

(** The grid [crop_empty_edges] leaves for the bounds
    [(min_row, max_row, min_col, max_col)]. *)
Definition cropped (g : Grid) (b : Bounds) : Grid :=
  let '(min_row, max_row, min_col, max_col) := b in
  let new_height := max_row - min_row + 1 in
  let new_width := max_col - min_col + 1 in
  {| grid_size := Z.max new_height new_width;
     grid_height := new_height;
     grid_width := new_width;
     grid_cells :=
       map (fun row =>
              map (fun col => cell_at (grid_cells g) row col)
                  (range min_col (max_col + 1)))
           (range min_row (max_row + 1));
     placed_words := map (shift_word min_row min_col) (placed_words g) |}.

Definition bounds_inside (g : Grid) (b : Bounds) : Prop :=
  let '(min_row, max_row, min_col, max_col) := b in
  0 <= min_row /\ max_row < grid_height g /\
  0 <= min_col /\ max_col < grid_width g.

Lemma crop_empty_edges_wf g :
  grid_wf g ->
  let '(min_row, max_row, min_col, max_col) := scan_bounds g in
  (min_row > max_row -> crop_empty_edges g = Some ((0, 0), g)) /\
  (min_row <= max_row ->
   bounds_inside g (scan_bounds g) ->
   crop_empty_edges g =
   Some ((max_row - min_row + 1, max_col - min_col + 1),
         cropped g (scan_bounds g))).
Proof.
  intros Hwf. unfold crop_empty_edges. rewrite (find_bounds_wf g Hwf).
  simpl obind. unfold bounds_inside.
  destruct (scan_bounds g) as [[[mr xr] mc] xc]. split.
  - intros H. destruct (Z.gtb_spec mr xr); [reflexivity | lia].
  - intros H (H1 & H2 & H3 & H4).
    destruct (Z.gtb_spec mr xr); [lia|].
    rewrite omap_total
      with (h := fun row => map (fun col => cell_at (grid_cells g) row col)
                                (range mc (xc + 1))).
    + reflexivity.
    + intros row Hrow. apply in_range in Hrow. apply omap_total.
      intros col Hcol. apply in_range in Hcol.
      apply index2_inside; auto; lia.
Qed.

(** On a grid with a non-empty cell the bounds are those of a rectangle
    inside the grid, and each side of the rectangle holds a non-empty
    cell. *)
Definition tight (g : Grid) (b : Bounds) : Prop :=
  let '(min_row, max_row, min_col, max_col) := b in
  0 <= min_row /\ min_row <= max_row /\ max_row < grid_height g /\
  0 <= min_col /\ min_col <= max_col /\ max_col < grid_width g /\
  (exists c, min_col <= c <= max_col /\ filled (grid_cells g) min_row c) /\
  (exists c, min_col <= c <= max_col /\ filled (grid_cells g) max_row c) /\
  (exists r, min_row <= r <= max_row /\ filled (grid_cells g) r min_col) /\
  (exists r, min_row <= r <= max_row /\ filled (grid_cells g) r max_col).

Lemma scan_bounds_tight g :
  0 < grid_height g ->
  let '(min_row, max_row, min_col, max_col) := scan_bounds g in
  min_row <= max_row -> tight g (scan_bounds g).
Proof.
  intros Hh.
  pose proof (bstep_fold_spec (grid_cells g)
                (all_cells (grid_height g) (grid_width g))
                (grid_height g, 0, grid_width g, 0)) as H.
  unfold scan_bounds. simpl in H.
  destruct (fold_left _ _ _) as [[[mr xr] mc] xc].
  destruct H as (_ & Hcov & A1 & A2 & A3 & A4). intros Hle.
  assert (B1 : exists c, In (mr, c) (all_cells (grid_height g) (grid_width g))
                         /\ filled (grid_cells g) mr c).
  { destruct A1 as [->|A1]; [|exact A1].
    destruct A2 as [->|[c [Hin _]]]; [lia|].
    apply in_all_cells in Hin. lia. }
  destruct B1 as [c1 [Hin1 Hf1]].
  pose proof (Hcov _ _ Hin1 Hf1) as Hc1. apply in_all_cells in Hin1.
  assert (B2 : exists c, mc <= c <= xc /\ filled (grid_cells g) xr c).
  { destruct A2 as [->|[c [Hin Hf]]].
    - assert (mr = 0) by lia. subst mr. exists c1. split; [lia | exact Hf1].
    - exists c. split; [|exact Hf]. apply (Hcov _ _ Hin Hf). }
  assert (B3 : exists r, In (r, mc) (all_cells (grid_height g) (grid_width g))
                         /\ filled (grid_cells g) r mc).
  { destruct A3 as [->|A3]; [lia | exact A3]. }
  destruct B3 as [r3 [Hin3 Hf3]].
  pose proof (Hcov _ _ Hin3 Hf3) as Hc3. apply in_all_cells in Hin3.
  assert (B4 : exists r, mr <= r <= xr /\ filled (grid_cells g) r xc).
  { destruct A4 as [->|[r [Hin Hf]]].
    - assert (c1 = 0) by lia. subst c1. exists mr. split; [lia | exact Hf1].
    - exists r. split; [|exact Hf]. apply (Hcov _ _ Hin Hf). }
  assert (Hxr : xr < grid_height g).
  { destruct A2 as [->|[c [Hin _]]]; [lia|].
    apply in_all_cells in Hin. lia. }
  assert (Hxc : xc < grid_width g).
  { destruct A4 as [->|[r [Hin _]]]; [lia|].
    apply in_all_cells in Hin. lia. }
  unfold tight. repeat split; try lia.
  - exists c1. split; [lia | exact Hf1].
  - exact B2.
  - exists r3. split; [lia | exact Hf3].
  - exact B4.
Qed.

Lemma grid_wf_cropped g b :
  let '(min_row, max_row, min_col, max_col) := b in
  min_row <= max_row -> min_col <= max_col -> grid_wf (cropped g b).
Proof.
  destruct b as [[[mr xr] mc] xc]. intros H1 H2.
  unfold grid_wf, cropped; simpl. split.
  - unfold len. rewrite length_map, range_length. lia.
  - apply Forall_forall. intros r Hr. apply in_map_iff in Hr.
    destruct Hr as [x [<- _]]. unfold len.
    rewrite length_map, range_length. lia.
Qed.

Lemma cell_at_cropped g mr xr mc xc r c :
  0 <= r < xr - mr + 1 -> 0 <= c < xc - mc + 1 ->
  cell_at (grid_cells (cropped g (mr, xr, mc, xc))) r c =
  cell_at (grid_cells g) (mr + r) (mc + c).
Proof.
  intros Hr Hc. unfold cropped; simpl. unfold cell_at at 1.
  rewrite nth_map_range by lia. rewrite nth_map_range by lia.
  f_equal; lia.
Qed.

Lemma scan_bounds_cropped g mr xr mc xc :
  tight g (mr, xr, mc, xc) ->
  scan_bounds (cropped g (mr, xr, mc, xc)) = (0, xr - mr, 0, xc - mc).
Proof.
  intros (T1 & T2 & T3 & T4 & T5 & T6 &
          [c1 [Hc1 F1]] & [c2 [Hc2 F2]] & [r3 [Hr3 F3]] & [r4 [Hr4 F4]]).
  set (g1 := cropped g (mr, xr, mc, xc)).
  assert (Hh1 : grid_height g1 = xr - mr + 1) by reflexivity.
  assert (Hw1 : grid_width g1 = xc - mc + 1) by reflexivity.
  assert (Hfill : forall r c, mr <= r <= xr -> mc <= c <= xc ->
            filled (grid_cells g) r c ->
            In (r - mr, c - mc) (all_cells (grid_height g1) (grid_width g1))
            /\ filled (grid_cells g1) (r - mr) (c - mc)).
  { intros r c Hr Hc Hf. split.
    - apply in_all_cells. rewrite Hh1, Hw1. lia.
    - unfold filled, g1. rewrite cell_at_cropped by lia.
      replace (mr + (r - mr)) with r by lia.
      replace (mc + (c - mc)) with c by lia. exact Hf. }
  pose proof (bstep_fold_spec (grid_cells g1)
                (all_cells (grid_height g1) (grid_width g1))
                (grid_height g1, 0, grid_width g1, 0)) as H.
  unfold scan_bounds. cbv beta iota zeta in H. fold g1.
  destruct (fold_left _ _ _) as [[[m x] n] y].
  destruct H as (_ & Hcov & A1 & A2 & A3 & A4).
  destruct (Hfill mr c1) as [I1 G1]; [lia | lia | exact F1 |].
  destruct (Hfill xr c2) as [I2 G2]; [lia | lia | exact F2 |].
  destruct (Hfill r3 mc) as [I3 G3]; [lia | lia | exact F3 |].
  destruct (Hfill r4 xc) as [I4 G4]; [lia | lia | exact F4 |].
  pose proof (Hcov _ _ I1 G1) as K1. pose proof (Hcov _ _ I2 G2) as K2.
  pose proof (Hcov _ _ I3 G3) as K3. pose proof (Hcov _ _ I4 G4) as K4.
  assert (Hm : 0 <= m).
  { destruct A1 as [->|[c [Hin _]]]; [rewrite Hh1; lia|].
    apply in_all_cells in Hin. lia. }
  assert (Hx : x <= xr - mr).
  { destruct A2 as [->|[c [Hin _]]]; [lia|].
    apply in_all_cells in Hin. rewrite Hh1 in Hin. lia. }
  assert (Hn : 0 <= n).
  { destruct A3 as [->|[r [Hin _]]]; [rewrite Hw1; lia|].
    apply in_all_cells in Hin. lia. }
  assert (Hy : y <= xc - mc).
  { destruct A4 as [->|[r [Hin _]]]; [lia|].
    apply in_all_cells in Hin. rewrite Hw1 in Hin. lia. }
  repeat f_equal; lia.
Qed.

Lemma rebuild_wf g :
  grid_wf g ->
  map (fun row =>
         map (fun col => cell_at (grid_cells g) row col)
             (range 0 (grid_width g)))
      (range 0 (grid_height g)) = grid_cells g.
Proof.
  intros Hwf. pose proof Hwf as [Hh Hw].
  transitivity (map (fun i => nth (Z.to_nat i) (grid_cells g) [])
                    (range 0 (len (grid_cells g))));
    [|apply map_nth_range].
  rewrite Hh.
  apply map_ext_in. intros row Hrow. apply in_range in Hrow.
  rewrite <- (wf_row_len g row Hwf) by lia.
  unfold cell_at. apply map_nth_range.
Qed.

Lemma shift_word_0 l : map (shift_word 0 0) l = l.
Proof.
  transitivity (map (fun p : PlacedWord => p) l); [|apply map_id].
  apply map_ext. intros [w cl hi r c d].
  unfold shift_word; simpl. f_equal; lia.
Qed.

Lemma cropped_full g :
  grid_wf g ->
  grid_size g = Z.max (grid_height g) (grid_width g) ->
  cropped g (0, grid_height g - 1, 0, grid_width g - 1) = g.
Proof.
  intros Hwf Hs. destruct g as [s h w cells pl]. unfold cropped; simpl in *.
  replace (h - 1 - 0 + 1) with h by lia.
  replace (w - 1 - 0 + 1) with w by lia.
  replace (h - 1 + 1) with h by lia. replace (w - 1 + 1) with w by lia.
  rewrite shift_word_0.
  pose proof (rebuild_wf _ Hwf) as Hr. simpl in Hr. rewrite Hr.
  rewrite <- Hs. reflexivity.
Qed.

(** Cropping a grid that was just cropped around its non-empty cells. *)
Lemma crop_cropped g :
  tight g (scan_bounds g) ->
  let g1 := cropped g (scan_bounds g) in
  crop_empty_edges g1 =
  Some ((grid_height g1, grid_width g1), g1).
Proof.
  intros Ht g1. subst g1.
  destruct (scan_bounds g) as [[[mr xr] mc] xc] eqn:Eb.
  pose proof Ht as (T1 & T2 & T3 & T4 & T5 & T6 & _).
  set (g1 := cropped g (mr, xr, mc, xc)).
  assert (Hwf1 : grid_wf g1)
    by (apply (grid_wf_cropped g (mr, xr, mc, xc)); lia).
  pose proof (crop_empty_edges_wf g1 Hwf1) as Hc.
  pose proof (scan_bounds_cropped g mr xr mc xc Ht) as Hs. fold g1 in Hs.
  rewrite Hs in Hc. destruct Hc as [_ Hc].
  rewrite Hc.
  - f_equal.
    assert (Hfull : cropped g1 (0, xr - mr, 0, xc - mc) = g1).
    { replace (xr - mr) with (grid_height g1 - 1) by (simpl; lia).
      replace (xc - mc) with (grid_width g1 - 1) by (simpl; lia).
      apply cropped_full; [exact Hwf1 | reflexivity]. }
    rewrite Hfull. f_equal. simpl. f_equal; lia.
  - lia.
  - unfold bounds_inside. simpl. lia.
Qed.

(** The shapes a [Grid] object can have: [size] rows of [size] cells after
    [Grid(size)] with [size >= 0], no rows at all after [Grid(size)] with a
    negative [size], and at least one row and one column after a crop. *)
Definition grid_shape (g : Grid) : Prop :=
  (grid_wf g /\ (grid_height g = 0 -> grid_width g = 0)) \/
  (grid_height g < 0 /\ grid_width g < 0 /\ grid_cells g = []).

Lemma crop_empty_edges_no_rows g :
  grid_wf g -> grid_height g = 0 -> grid_width g = 0 ->
  crop_empty_edges g = None.
Proof.
  intros [Hh _] H0 W0. destruct g as [s h w cells pl]. simpl in *. subst.
  destruct cells; [|discriminate]. reflexivity.
Qed.

Lemma crop_empty_edges_negative g :
  grid_height g < 0 -> grid_width g < 0 -> grid_cells g = [] ->
  crop_empty_edges g = None.
Proof.
  intros Hh Hw Hc. unfold crop_empty_edges, find_bounds.
  assert (Hr : range 0 (grid_height g) = []).
  { unfold range. replace (Z.to_nat (grid_height g - 0)) with O by lia.
    reflexivity. }
  rewrite Hr. simpl.
  destruct (Z.gtb_spec (grid_height g) 0); [lia|].
  rewrite (range_cons (grid_height g)) by lia. simpl.
  rewrite (range_cons (grid_width g)) by lia. simpl.
  rewrite Hc. unfold index2. rewrite index_empty. reflexivity.
Qed.

Lemma crop_empty_edges_shape g hw g1 :
  grid_shape g -> crop_empty_edges g = Some (hw, g1) ->
  crop_empty_edges g1 = Some (hw, g1) /\ grid_shape g1.
Proof.
  intros [[Hwf H0]|[Hh [Hw Hc]]] Hcrop.
  2:{ rewrite crop_empty_edges_negative in Hcrop by auto. discriminate. }
  destruct (Z.eq_dec (grid_height g) 0) as [Hz|Hnz].
  { rewrite crop_empty_edges_no_rows in Hcrop by auto. discriminate. }
  assert (Hpos : 0 < grid_height g).
  { destruct Hwf as [Hh _]. pose proof (len_nonneg (grid_cells g)). lia. }
  pose proof (crop_empty_edges_wf g Hwf) as Hc.
  pose proof (scan_bounds_tight g Hpos) as Ht.
  destruct (scan_bounds g) as [[[mr xr] mc] xc] eqn:Eb.
  destruct Hc as [Hc1 Hc2].
  destruct (Z_gt_le_dec mr xr) as [Hgt|Hle].
  - rewrite Hc1 in Hcrop by exact Hgt. inversion Hcrop; subst.
    split; [apply Hc1; exact Hgt|]. left; auto.
  - specialize (Ht Hle).
    assert (Hin : bounds_inside g (mr, xr, mc, xc)).
    { unfold tight in Ht. unfold bounds_inside. lia. }
    rewrite (Hc2 Hle Hin) in Hcrop. inversion Hcrop; subst. clear Hcrop.
    rewrite <- Eb in Ht.
    pose proof (crop_cropped g Ht) as Hcc. rewrite Eb in Hcc, Ht.
    simpl in Hcc. split.
    + rewrite Hcc. reflexivity.
    + left. unfold tight in Ht. split.
      * apply (grid_wf_cropped g (mr, xr, mc, xc)); lia.
      * simpl. lia.
Qed.

(** The states of a [Grid] object: what the constructor builds and what
    the mutating methods make of it. *)
Inductive grid_state : Grid -> Prop :=
| gs_init : forall size, grid_state (Grid_init size)
| gs_set_cell : forall g row col c,
    grid_state g -> grid_state (exec (set_cell row col c) g)
| gs_place_word : forall g word clue hint row col d,
    grid_state g ->
    grid_state (exec (place_word word clue hint row col d) g)
| gs_crop : forall g hw g1,
    grid_state g -> crop_empty_edges g = Some (hw, g1) -> grid_state g1.

Lemma grid_shape_init size : grid_shape (Grid_init size).
Proof.
  destruct (Z_le_gt_dec 0 size) as [H|H].
  - left. split; [apply grid_wf_init; exact H | auto].
  - right. simpl. repeat split; try lia.
    unfold range. replace (Z.to_nat (size - 0)) with O by lia. reflexivity.
Qed.

Lemma grid_shape_set_cell g row col c :
  grid_shape g -> grid_shape (exec (set_cell row col c) g).
Proof.
  intros Hs. unfold exec. rewrite run_set_cell.
  destruct (in_bounds _ _ _ _) eqn:E; [|exact Hs]. simpl.
  apply in_bounds_true in E.
  destruct Hs as [[Hwf H0]|[Hh _]]; [|lia].
  left. split; [apply grid_wf_write_cell; tauto | exact H0].
Qed.

Lemma grid_shape_place_word g word clue hint row col d :
  grid_shape g -> grid_shape (exec (place_word word clue hint row col d) g).
Proof.
  intros Hs. unfold exec. rewrite run_place_word.
  destruct (eval (can_place_word word row col d) g) eqn:E; [|exact Hs].
  simpl. destruct Hs as [[Hwf H0]|[Hh [Hw _]]].
  - pose proof (committed_spec g word clue hint row col d Hwf E) as H.
    cbv zeta in H. destruct H as (W & _ & H1 & W1 & _).
    left. split; [exact W|]. rewrite H1, W1. exact H0.
  - apply can_place_word_true in E. destruct E as [[Hr [Hc Hd]] _].
    pose proof (len_nonneg (upper word)). destruct d; lia.
Qed.

Lemma grid_state_shape g : grid_state g -> grid_shape g.
Proof.
  induction 1.
  - apply grid_shape_init.
  - apply grid_shape_set_cell; assumption.
  - apply grid_shape_place_word; assumption.
  - eapply crop_empty_edges_shape; eassumption.
Qed.

(** C2. In every state of a Grid object, [place_word] changes the grid if
    and only if [can_place_word] holds for the same arguments. When it does
    not hold, [place_word] returns False and the state is unchanged; when
    it holds, [place_word] returns True, every letter of the upper-cased
    word is in its cell, every other cell and the dimensions are as before,
    and exactly one PlacedWord is appended. *)
Theorem place_word_mutates_iff_can_place :
  forall (g : Grid) (word clue hint : str) (row col : Z)
         (direction : Direction),
    grid_state g ->
    let can := eval (can_place_word word row col direction) g in
    let ok := eval (place_word word clue hint row col direction) g in
    let g' := exec (place_word word clue hint row col direction) g in
    (g' <> g <-> can = true) /\
    (can = false -> ok = false /\ g' = g) /\
    (can = true ->
       ok = true /\
       placed_words g' =
         placed_words g ++
         [mkPlacedWord (upper word) clue hint row col direction] /\
       (forall k ch, nth_error (upper word) k = Some ch ->
          cell_p g' (cell_of row col direction (Z.of_nat k)) = [ch]) /\
       (forall r c,
          (forall k, 0 <= k < len (upper word) ->
                     cell_of row col direction k <> (r, c)) ->
          cell g' r c = cell g r c) /\
       grid_height g' = grid_height g /\ grid_width g' = grid_width g /\
       grid_size g' = grid_size g).
Proof.
  intros g word clue hint row col direction Hst can ok g'.
  subst ok g'.
  change (eval (place_word word clue hint row col direction) g)
    with (fst (place_word word clue hint row col direction g)).
  change (exec (place_word word clue hint row col direction) g)
    with (snd (place_word word clue hint row col direction g)).
  rewrite run_place_word. fold can.
  destruct can eqn:Hcan; subst can; simpl.
  - assert (Hwf : grid_wf g).
    { destruct (grid_state_shape g Hst) as [[Hwf _]|(Hh & Hw & _)];
        [exact Hwf|].
      apply can_place_word_true in Hcan. destruct Hcan as [Hfit _].
      unfold fits in Hfit. destruct direction; lia. }
    pose proof (committed_spec g word clue hint row col direction Hwf Hcan)
      as H. cbv zeta in H. destruct H as (W & S1 & H1 & W1 & P1 & C1 & C2).
    split; [|split; [discriminate|]].
    + split; [reflexivity|]. intros _ Heq.
      rewrite Heq in P1. apply (f_equal (@List.length _)) in P1.
      rewrite length_app in P1. simpl in P1. lia.
    + intros _. repeat (split; [assumption || reflexivity|]). assumption.
  - split; [|split; [auto | discriminate]].
    split; [intros H; exfalso; apply H; reflexivity | discriminate].
Qed.

Lemma place_word_mutates_iff_can_place_witness :
  grid_state (Grid_init 10) /\
  (exec (place_word (py "АТОМ") (py "Частица") (py "Подсказка") 5 0 horizontal)
        (Grid_init 10) <> Grid_init 10
   <-> eval (can_place_word (py "АТОМ") 5 0 horizontal) (Grid_init 10) = true).
Proof.
  assert (Hst : grid_state (Grid_init 10)) by apply gs_init.
  split; [exact Hst|].
  exact (proj1 (place_word_mutates_iff_can_place (Grid_init 10) (py "АТОМ")
                  (py "Частица") (py "Подсказка") 5 0 horizontal Hst)).
Defined.

(** The grid of the crop test: "ТЕСТ" at (5, 5), horizontal. *)
Definition grid_test : Grid :=
  exec (place_word (py "ТЕСТ") (py "Проверка") (py "Подсказка") 5 5 horizontal)
       (Grid_init 10).

(** On a grid with a row [crop_empty_edges] returns: the scan finds its
    bounds inside the board (or no letter at all), and no access is out of
    range. *)
Lemma crop_empty_edges_returns g :
  grid_wf g -> 0 < grid_height g ->
  exists hw g1, crop_empty_edges g = Some (hw, g1).
Proof.
  intros Hwf Hpos.
  pose proof (crop_empty_edges_wf g Hwf) as C.
  pose proof (scan_bounds_tight g Hpos) as T.
  destruct (scan_bounds g) as [[[mr xr] mc] xc].
  destruct C as [C1 C2].
  destruct (Z_gt_le_dec mr xr) as [Hgt|Hle].
  - rewrite (C1 Hgt). eauto.
  - specialize (T Hle). unfold tight in T.
    destruct T as (T1 & T2 & T3 & T4 & T5 & T6 & _).
    rewrite C2; [eauto | exact Hle | unfold bounds_inside; lia].
Qed.

(** C8. [crop_empty_edges] is idempotent: on every state of a Grid object
    with a row the call returns, and on every state, when a call of
    [crop_empty_edges] returns [(height, width)] and leaves the state
    [g1], a second call right after it returns the same [(height, width)]
    and leaves [g1] as it is: board, dimensions, size and the origins of
    all placed words. *)
Theorem crop_empty_edges_idempotent :
  forall (g : Grid),
    grid_state g ->
    (0 < grid_height g ->
     exists hw g1, crop_empty_edges g = Some (hw, g1)) /\
    (forall (hw : Z * Z) (g1 : Grid),
       crop_empty_edges g = Some (hw, g1) ->
       crop_empty_edges g1 = Some (hw, g1)).
Proof.
  intros g Hs. pose proof (grid_state_shape g Hs) as Hshape. split.
  - intros Hpos. destruct Hshape as [[Hwf _]|(Hneg & _)]; [|lia].
    apply crop_empty_edges_returns; assumption.
  - intros hw g1 Hc.
    exact (proj1 (crop_empty_edges_shape g hw g1 Hshape Hc)).
Qed.

Lemma crop_empty_edges_idempotent_witness :
  grid_state grid_test /\
  exists g1,
    crop_empty_edges grid_test = Some ((1, 4), g1) /\
    crop_empty_edges g1 = Some ((1, 4), g1) /\
    map (fun p => (pw_row p, pw_col p)) (placed_words g1) = [(0, 0)].
Proof.
  assert (Hs : grid_state grid_test) by (apply gs_place_word; apply gs_init).
  split; [exact Hs|].
  destruct (crop_empty_edges_idempotent grid_test Hs) as [Hret Hidem].
  destruct (Hret ltac:(vm_compute; reflexivity)) as (hw & g1 & E).
  exists g1.
  assert (Hhw : hw = (1, 4)) by (vm_compute in E; congruence).
  subst hw. split; [exact E|]. split.
  - apply Hidem. exact E.
  - vm_compute in E. inversion E. reflexivity.
Defined.

(* ===================================================================== *)
(** * Grid: repeated words *)
(* ===================================================================== *)

(** The states reached from an empty grid by calls of [place_word]. *)
Inductive placed_from_empty : Grid -> Prop :=
| pfe_init : forall size, placed_from_empty (Grid_init size)
| pfe_place : forall g word clue hint row col d,
    placed_from_empty g ->
    placed_from_empty (exec (place_word word clue hint row col d) g).

(** No two committed words have the same word string. *)
Definition distinct_words (g : Grid) : Prop :=
  NoDup (map pw_word (placed_words g)).

(** C7, as stated, does not hold. [place_word] itself accepts a word that
    is on the grid already: after
    "АТОМ" at (5, 0), "атом" at (0, 0) is placed as well, and the list of
    placed words holds "АТОМ" twice. *)
Lemma place_word_repeats_word :
  ~ (forall g, placed_from_empty g -> distinct_words g).
Proof.
  intros H.
  specialize (H (exec (place_word (py "атом") (py "Частица") (py "Подсказка")
                         0 0 horizontal) grid_atom)).
  assert (E : map pw_word
                (placed_words
                   (exec (place_word (py "атом") (py "Частица")
                            (py "Подсказка") 0 0 horizontal) grid_atom))
              = [py "АТОМ"; py "АТОМ"]) by (vm_compute; reflexivity).
  unfold distinct_words in H. rewrite E in H.
  assert (Hn : NoDup [py "АТОМ"; py "АТОМ"]).
  { apply H. apply pfe_place. apply pfe_place. apply pfe_init. }
  inversion Hn as [|? ? Hnot _]. apply Hnot. left; reflexivity.
Qed.

(* ===================================================================== *)
(** * Sorting *)
(* ===================================================================== *)

Section SortedDesc.
Context {A : Type} (key : A -> Z).

Lemma insert_desc_perm x l : Permutation (insert_desc key x l) (x :: l).
Proof.
  induction l as [|y l IH]; simpl; [reflexivity|].
  destruct (key y >? key x); [|reflexivity].
  rewrite IH. apply perm_swap.
Qed.

Lemma sorted_desc_perm l : Permutation (sorted_desc key l) l.
Proof.
  induction l as [|x l IH]; simpl; [reflexivity|].
  rewrite insert_desc_perm. constructor. exact IH.
Qed.

Lemma sorted_desc_In l x : In x (sorted_desc key l) <-> In x l.
Proof.
  split; apply Permutation_in;
    [apply sorted_desc_perm | symmetry; apply sorted_desc_perm].
Qed.

(** Every element is followed only by elements whose key is not
    larger. *)
Fixpoint descending (l : list A) : Prop :=
  match l with
  | [] => True
  | x :: l' => (forall y, In y l' -> key y <= key x) /\ descending l'
  end.

Lemma insert_desc_descending x l :
  descending l -> descending (insert_desc key x l).
Proof.
  induction l as [|y l IH]; simpl; [intros _; split; [intros ? []|exact I]|].
  intros [Hy Hl]. destruct (Z.gtb_spec (key y) (key x)) as [Hgt|Hle]; simpl.
  - split; [|apply IH; exact Hl].
    intros z Hz. apply (Permutation_in _ (insert_desc_perm x l)) in Hz.
    destruct Hz as [<-|Hz]; [lia | apply Hy; exact Hz].
  - split; [|split; assumption].
    intros z [<-|Hz]; [exact Hle|]. specialize (Hy z Hz). lia.
Qed.

Lemma sorted_desc_descending l : descending (sorted_desc key l).
Proof.
  induction l as [|x l IH]; simpl; [exact I|].
  apply insert_desc_descending. exact IH.
Qed.

(** Stability: the elements with a given key come in the order of the
    input. *)
Lemma insert_desc_stable k x l :
  descending l ->
  filter (fun y => key y =? k) (insert_desc key x l) =
  filter (fun y => key y =? k) (x :: l).
Proof.
  induction l as [|y l IH]; [reflexivity|]. intros [Hy Hl].
  simpl insert_desc.
  destruct (Z.gtb_spec (key y) (key x)) as [Hgt|Hle]; [|reflexivity].
  simpl. rewrite (IH Hl). simpl.
  destruct (Z.eqb_spec (key y) k), (Z.eqb_spec (key x) k);
    try reflexivity. lia.
Qed.

Lemma sorted_desc_stable k l :
  filter (fun y => key y =? k) (sorted_desc key l) =
  filter (fun y => key y =? k) l.
Proof.
  induction l as [|x l IH]; [reflexivity|]. simpl sorted_desc.
  rewrite insert_desc_stable by apply sorted_desc_descending.
  simpl. rewrite IH. reflexivity.
Qed.
End SortedDesc.

(* ===================================================================== *)
(** * The Placer *)
(* ===================================================================== *)

Lemma exec_bind {S A B} (m : State S A) (k : A -> State S B) s :
  exec (bind m k) s = exec (k (eval m s)) (exec m s).
Proof. unfold exec, eval, bind. destruct (m s); reflexivity. Qed.

Lemma eval_bind_any {S A B} (m : State S A) (k : A -> State S B) s :
  eval (bind m k) s = eval (k (eval m s)) (exec m s).
Proof. unfold exec, eval, bind. destruct (m s); reflexivity. Qed.

Definition with_grid (g : Grid) (p : WordPlacer) : WordPlacer :=
  {| wp_grid := g; word_list := word_list p;
     _used_words := _used_words p; wp_random := wp_random p |}.

Definition with_random (r : Random) (p : WordPlacer) : WordPlacer :=
  {| wp_grid := wp_grid p; word_list := word_list p;
     _used_words := _used_words p; wp_random := r |}.

Lemma exec_on_grid {A} (m : State Grid A) p :
  exec (on_grid m) p = with_grid (exec m (wp_grid p)) p.
Proof. unfold exec, on_grid. destruct (m (wp_grid p)); reflexivity. Qed.

Lemma eval_on_grid {A} (m : State Grid A) p :
  eval (on_grid m) p = eval m (wp_grid p).
Proof. unfold eval, on_grid. destruct (m (wp_grid p)); reflexivity. Qed.

Lemma with_grid_same p : with_grid (wp_grid p) p = p.
Proof. destruct p; reflexivity. Qed.

Lemma exec_on_grid_readonly {A} (m : State Grid A) p :
  readonly m -> exec (on_grid m) p = p.
Proof. intros H. rewrite exec_on_grid, H. apply with_grid_same. Qed.

Lemma exec_on_random {A} (f : Random -> A * Random) p :
  exec (on_random f) p = with_random (snd (f (wp_random p))) p.
Proof. unfold exec, on_random. destruct (f (wp_random p)); reflexivity. Qed.

Lemma eval_on_random {A} (f : Random -> A * Random) p :
  eval (on_random f) p = fst (f (wp_random p)).
Proof. unfold eval, on_random. destruct (f (wp_random p)); reflexivity. Qed.

Lemma randbelow_lt n r : (0 < n)%nat -> (fst (randbelow n r) < n)%nat.
Proof.
  intros H. destruct r as [|x r]; simpl; [exact H|].
  apply Nat.mod_upper_bound. lia.
Qed.

Lemma choice_In {A} (seq : list A) d r :
  seq <> [] -> In (fst (choice seq d r)) seq.
Proof.
  intros H. unfold choice.
  pose proof (randbelow_lt (List.length seq) r) as Hlt.
  destruct (randbelow (List.length seq) r) as [i r']. simpl in *.
  apply nth_In. apply Hlt. destruct seq; [contradiction | simpl; lia].
Qed.

Lemma firstn_In {A} n (l : list A) x : In x (firstn n l) -> In x l.
Proof.
  revert l. induction n as [|n IH]; intros [|y l]; simpl; try tauto.
  intros [->|H]; auto.
Qed.

(** [find_best_position] only draws from [random], and the position it
    returns is one of those [get_intersections] lists. *)
Lemma find_best_position_spec w p :
  exists r,
    exec (find_best_position w) p = with_random r p /\
    forall pos, eval (find_best_position w) p = Some pos ->
                In pos (eval (get_intersections w) (wp_grid p)).
Proof.
  unfold find_best_position.
  rewrite exec_bind, eval_bind_any.
  rewrite exec_on_grid_readonly by apply readonly_get_intersections.
  rewrite eval_on_grid.
  destruct (eval (get_intersections w) (wp_grid p)) as [|first l] eqn:E.
  - exists (wp_random p). split; [destruct p; reflexivity|]. discriminate.
  - rewrite exec_bind, eval_bind_any.
    change (exec (gets (fun p0 => grid_size (wp_grid p0))) p) with p.
    set (c := eval (gets (fun p0 => grid_size (wp_grid p0))) p / 2).
    set (sp := sorted_desc (position_score c) (first :: l)).
    destruct (firstn 3 sp) as [|t tl] eqn:Et.
    + exists (wp_random p). split; [destruct p; reflexivity|]. discriminate.
    + rewrite exec_bind, eval_bind_any.
      rewrite exec_on_random, eval_on_random.
      exists (snd (choice (t :: tl) first (wp_random p))).
      split; [reflexivity|]. unfold ret, eval at 1; simpl.
      intros pos Hpos. inversion Hpos; subst pos.
      assert (Hin : In (fst (choice (t :: tl) first (wp_random p))) (t :: tl))
        by (apply choice_In; discriminate).
      assert (Hin2 : In (fst (choice (t :: tl) first (wp_random p))) sp)
        by (apply (firstn_In 3); rewrite Et; exact Hin).
      unfold sp in Hin2. apply sorted_desc_In in Hin2. exact Hin2.
Qed.

Lemma placed_words_write_letters ics row col d g :
  placed_words (exec (write_letters ics row col d) g) = placed_words g.
Proof.
  revert g. induction ics as [|[i ch] ics IH]; intros g; [reflexivity|].
  unfold write_letters; simpl. rewrite exec_bind.
  fold (write_letters ics row col d). rewrite IH.
  destruct (cell_of row col d i) as [r c].
  rewrite exec_bind. change (exec (ret tt) ?s) with s.
  unfold exec. rewrite run_set_cell.
  destruct (in_bounds _ _ _ _); reflexivity.
Qed.

Lemma placed_words_committed w cl hi row col d g :
  placed_words (committed w cl hi row col d g) =
  placed_words g ++ [mkPlacedWord (upper w) cl hi row col d].
Proof.
  unfold committed, add_placed; simpl.
  rewrite placed_words_write_letters. reflexivity.
Qed.

Lemma str_in_true w l : str_in w l = true <-> In w l.
Proof.
  unfold str_in. rewrite existsb_exists. split.
  - intros [x [Hx He]]. apply str_eqb_eq in He. subst; exact Hx.
  - intros H. exists w. split; [exact H | apply str_eqb_refl].
Qed.

Section PlacerInvariant.
(** A property of grids that every [place_word] keeps. *)
Variable G : Grid -> Prop.
Hypothesis G_place_word :
  forall g w cl hi row col d,
    G g -> G (exec (place_word w cl hi row col d) g).

(** The grid is as [G] wants it, every committed word is in
    [_used_words], and no word is committed twice. *)
Definition placer_ok (p : WordPlacer) : Prop :=
  G (wp_grid p) /\
  (forall q, In q (placed_words (wp_grid p)) ->
             In (pw_word q) (_used_words p)) /\
  NoDup (map pw_word (placed_words (wp_grid p))).

Lemma placer_ok_with_random r p : placer_ok p -> placer_ok (with_random r p).
Proof. intros H; exact H. Qed.

(** Placing an unused word and marking it used. *)
Lemma placer_ok_place w cl hi row col d p :
  placer_ok p ->
  ~ In (upper w) (_used_words p) ->
  let p1 := exec (on_grid (place_word w cl hi row col d)) p in
  if eval (on_grid (place_word w cl hi row col d)) p
  then placer_ok (exec (use_word (upper w)) p1)
  else placer_ok p1.
Proof.
  intros (HG & Hcov & Hnd) Hnew p1. subst p1.
  rewrite eval_on_grid, exec_on_grid.
  pose proof (G_place_word (wp_grid p) w cl hi row col d HG) as HG'.
  change (eval (place_word w cl hi row col d) (wp_grid p))
    with (fst (place_word w cl hi row col d (wp_grid p))).
  change (exec (place_word w cl hi row col d) (wp_grid p))
    with (snd (place_word w cl hi row col d (wp_grid p))) in *.
  rewrite run_place_word in *.
  destruct (eval (can_place_word w row col d) (wp_grid p));
    cbn [fst snd] in *.
  - unfold placer_ok, use_word, modify, exec; cbn [snd wp_grid with_grid
      _used_words]. rewrite placed_words_committed.
    split; [exact HG'|]. split.
    + intros q Hq. apply in_app_or in Hq. destruct Hq as [Hq|[<-|[]]].
      * right. apply Hcov; exact Hq.
      * left. reflexivity.
    + rewrite map_app. simpl.
      apply NoDup_app_remove_l with (l := []). simpl.
      apply Permutation_NoDup
        with (l := upper w :: map pw_word (placed_words (wp_grid p))).
      * apply Permutation_cons_append.
      * constructor; [|exact Hnd].
        intros Hin. apply in_map_iff in Hin. destruct Hin as [q [Hq Hin]].
        apply Hnew. rewrite <- Hq. apply Hcov; exact Hin.
  - rewrite with_grid_same. repeat split; assumption.
Qed.

Lemma loop_round_ok target_count max_attempts e next again attempts p :
  (forall a p', placer_ok p' -> placer_ok (exec (next a) p')) ->
  (forall a p', placer_ok p' -> placer_ok (exec (again a) p')) ->
  placer_ok p ->
  placer_ok (exec (loop_round target_count max_attempts e next again
                     attempts) p).
Proof.
  intros Hnext Hagain Hp. unfold loop_round.
  rewrite exec_bind.
  rewrite exec_on_grid_readonly by apply readonly_gets.
  destruct ((len _ <? target_count) && (attempts <? max_attempts));
    [|exact Hp].
  rewrite exec_bind. change (exec (gets _used_words) p) with p.
  change (eval (gets _used_words) p) with (_used_words p).
  destruct (str_in (upper (word e)) (_used_words p)) eqn:Eu.
  - rewrite exec_bind. apply Hnext. exact Hp.
  - assert (Hnew : ~ In (upper (word e)) (_used_words p)).
    { intros H. apply str_in_true in H. congruence. }
    rewrite exec_bind.
    destruct (find_best_position_spec (upper (word e)) p) as [r [Hr _]].
    rewrite Hr.
    destruct (eval (find_best_position (upper (word e))) p)
      as [[[[row col] d] k]|].
    + rewrite exec_bind.
      pose proof (placer_ok_place (upper (word e)) (clue e) (hint e)
                    row col d (with_random r p)
                    (placer_ok_with_random r p Hp)) as Hpl.
      simpl in Hpl. specialize (Hpl ltac:(rewrite upper_idem; exact Hnew)).
      rewrite upper_idem in Hpl.
      destruct (eval (on_grid (place_word (upper (word e)) (clue e)
                                 (hint e) row col d)) (with_random r p)).
      * rewrite exec_bind, exec_bind. apply Hnext. exact Hpl.
      * rewrite exec_bind. apply Hagain. exact Hpl.
    + rewrite exec_bind. apply Hnext. apply placer_ok_with_random. exact Hp.
Qed.

Lemma same_word_ok target_count max_attempts e next budget :
  (forall a p', placer_ok p' -> placer_ok (exec (next a) p')) ->
  forall attempts p,
    placer_ok p ->
    placer_ok (exec (same_word target_count max_attempts e next budget
                       attempts) p).
Proof.
  intros Hnext. induction budget as [|b IH]; intros attempts p Hp; simpl;
    apply loop_round_ok; auto.
Qed.

Lemma place_loop_ok target_count max_attempts rest :
  forall attempts p,
    placer_ok p ->
    placer_ok (exec (place_loop target_count max_attempts rest attempts) p).
Proof.
  induction rest as [|e rest IH]; intros attempts p Hp; simpl.
  - exact Hp.
  - apply same_word_ok; auto.
Qed.

Lemma place_remaining_words_ok target_count p :
  placer_ok p -> placer_ok (exec (place_remaining_words target_count) p).
Proof.
  intros Hp. unfold place_remaining_words, place_remaining_words_seen.
  rewrite !exec_bind.
  change (exec (gets available_words) p) with p.
  rewrite exec_on_grid_readonly by apply readonly_gets.
  change (exec (ret ?x) ?s) with s.
  apply place_loop_ok. exact Hp.
Qed.

Lemma place_initial_word_ok p :
  G (wp_grid p) ->
  placed_words (wp_grid p) = [] -> _used_words p = [] ->
  placer_ok (exec place_initial_word p).
Proof.
  intros HG Hpl Hu.
  assert (Hp : placer_ok p).
  { unfold placer_ok. rewrite Hpl. repeat split; auto.
    - intros q [].
    - constructor. }
  unfold place_initial_word. rewrite exec_bind.
  change (exec (gets word_list) p) with p.
  destruct (eval (gets word_list) p) as [|first l]; [exact Hp|].
  rewrite exec_bind, exec_on_random.
  set (p1 := with_random _ p).
  set (e := eval (on_random _) p).
  rewrite exec_bind.
  change (exec (gets (fun p0 => grid_size (wp_grid p0))) p1) with p1.
  match goal with |- context [if ?b then ret false else _] =>
    destruct b end; [exact Hp|].
  rewrite exec_bind.
  match goal with |- context [on_grid (place_word ?w ?cl ?hi ?row ?col ?d)] =>
    pose proof (placer_ok_place w cl hi row col d p1
                  (placer_ok_with_random _ p Hp)) as Hplace
  end.
  simpl in Hplace. rewrite upper_idem in Hplace.
  specialize (Hplace ltac:(rewrite Hu; intros [])).
  match goal with |- context [eval (on_grid ?m) p1] =>
    destruct (eval (on_grid m) p1)
  end; rewrite exec_bind; exact Hplace.
Qed.
End PlacerInvariant.

Definition prefix_of {A} (l1 l2 : list A) : Prop := exists l3, l2 = l1 ++ l3.

Lemma prefix_of_nil {A} (l : list A) : prefix_of [] l.
Proof. exists l; reflexivity. Qed.

Lemma prefix_of_cons {A} (x : A) l1 l2 :
  prefix_of l1 l2 -> prefix_of (x :: l1) (x :: l2).
Proof. intros [l3 ->]. exists l3; reflexivity. Qed.

(** A position that [find_best_position] returns is accepted by
    [place_word]. *)
Lemma place_after_find w cl hi p row col d k :
  eval (find_best_position (upper w)) p = Some (row, col, d, k) ->
  forall r,
    eval (on_grid (place_word (upper w) cl hi row col d)) (with_random r p)
    = true.
Proof.
  intros Hf r.
  destruct (find_best_position_spec (upper w) p) as [r' [_ Hin]].
  specialize (Hin _ Hf).
  pose proof (get_intersections_candidates (wp_grid p) (upper w)) as Hc.
  rewrite Forall_forall in Hc. specialize (Hc _ Hin).
  destruct Hc as [Hcan _].
  rewrite eval_on_grid. simpl wp_grid.
  change (eval (place_word (upper w) cl hi row col d) (wp_grid p))
    with (fst (place_word (upper w) cl hi row col d (wp_grid p))).
  rewrite run_place_word, Hcan. reflexivity.
Qed.

Lemma loop_round_seen target_count max_attempts e next again rest attempts p :
  (forall a p', prefix_of (eval (next a) p') rest) ->
  prefix_of (eval (loop_round target_count max_attempts e next again
                     attempts) p) (e :: rest).
Proof.
  intros Hnext. unfold loop_round.
  rewrite eval_bind_any.
  rewrite exec_on_grid_readonly by apply readonly_gets.
  destruct ((len _ <? target_count) && (attempts <? max_attempts));
    [|apply prefix_of_nil].
  rewrite eval_bind_any. change (exec (gets _used_words) p) with p.
  destruct (str_in (upper (word e)) (eval (gets _used_words) p)).
  - rewrite eval_bind_any. apply prefix_of_cons. apply Hnext.
  - rewrite eval_bind_any.
    destruct (find_best_position_spec (upper (word e)) p) as [r [Hr _]].
    rewrite Hr.
    destruct (eval (find_best_position (upper (word e))) p)
      as [[[[row col] d] k]|] eqn:Ef.
    + rewrite eval_bind_any.
      rewrite (place_after_find (word e) (clue e) (hint e) p row col d k Ef).
      rewrite eval_bind_any, eval_bind_any.
      apply prefix_of_cons. apply Hnext.
    + rewrite eval_bind_any. apply prefix_of_cons. apply Hnext.
Qed.

Lemma place_loop_seen target_count max_attempts rest :
  forall attempts p,
    prefix_of (eval (place_loop target_count max_attempts rest attempts) p)
              rest.
Proof.
  induction rest as [|e rest IH]; intros attempts p; simpl.
  - apply prefix_of_nil.
  - generalize (Z.to_nat (max_attempts - attempts)). intros budget.
    destruct budget; simpl; apply loop_round_seen; exact IH.
Qed.

(** The rounds on one entry are bounded by [attempts < max_attempts]
    alone: with [max_attempts - attempts] of them allowed, the loop has
    left the entry or stopped before they are used up, and allowing more
    changes nothing. *)
Lemma loop_round_again target_count max_attempts e next again1 again2
      attempts :
  (forall p, again1 (attempts + 1) p = again2 (attempts + 1) p) ->
  forall p,
    loop_round target_count max_attempts e next again1 attempts p =
    loop_round target_count max_attempts e next again2 attempts p.
Proof.
  intros H p. unfold loop_round, bind.
  destruct (on_grid get_placed_words p) as [placed p1].
  destruct ((len placed <? target_count) && (attempts <? max_attempts));
    [|reflexivity].
  destruct (gets _used_words p1) as [used p2].
  destruct (str_in (upper (word e)) used); [reflexivity|].
  destruct (find_best_position (upper (word e)) p2) as [[pos|] p3];
    [|reflexivity].
  destruct pos as [[[row col] direction] k].
  destruct (on_grid (place_word (upper (word e)) (clue e) (hint e)
                       row col direction) p3) as [[|] p4]; [reflexivity|].
  rewrite H. reflexivity.
Qed.

Lemma same_word_budget_enough target_count max_attempts e next :
  forall budget attempts more p,
    max_attempts - attempts <= Z.of_nat budget ->
    same_word target_count max_attempts e next (budget + more) attempts p =
    same_word target_count max_attempts e next budget attempts p.
Proof.
  induction budget as [|budget IH]; intros attempts more p Hb.
  - assert (E : (attempts <? max_attempts) = false) by (apply Z.ltb_ge; lia).
    assert (Hstop : forall again,
              loop_round target_count max_attempts e next again attempts p =
              (let '(_, p1) := on_grid get_placed_words p in ([], p1))).
    { intros again. unfold loop_round, bind.
      destruct (on_grid get_placed_words p) as [placed p1].
      rewrite E, andb_false_r. reflexivity. }
    simpl. destruct more; simpl; rewrite !Hstop; reflexivity.
  - simpl. apply loop_round_again. intros p'. apply IH. lia.
Qed.

(** C7, amended. A Grid does not refuse a word that is placed already;
    the Placer does: in every grid the Placer builds from an empty grid
    ([place_initial_word], then [place_remaining_words]), no two committed
    PlacedWords have the same upper-case word string. *)
Theorem placer_never_repeats_word :
  forall (size : Z) (words : list WordEntry) (r : Random) (target_count : Z),
    let p0 := WordPlacer_init (Grid_init size) words r in
    let p1 := exec place_initial_word p0 in
    let p2 := exec (place_remaining_words target_count) p1 in
    distinct_words (wp_grid p1) /\ distinct_words (wp_grid p2).
Proof.
  intros size words r target_count p0 p1 p2.
  assert (H1 : placer_ok (fun _ => True) p1).
  { apply place_initial_word_ok; auto. }
  assert (H2 : placer_ok (fun _ => True) p2).
  { apply place_remaining_words_ok; auto. }
  split; [apply H1 | apply H2].
Qed.

(* ===================================================================== *)
(** * The working queue of the Placer *)
(* ===================================================================== *)

Definition unused (p : WordPlacer) (w : WordEntry) : bool :=
  negb (str_in (upper (word w)) (_used_words p)).

Definition word_length (w : WordEntry) : Z := len (word w).
Definition word_score (w : WordEntry) : Z := calculate_word_score (word w).

(** The entries the main loop of [place_remaining_words] goes through are
    the first entries of the unused part of the score-ranked word list. *)
Definition walks_in_score_order (p : WordPlacer) (target_count : Z) : Prop :=
  prefix_of (snd (eval (place_remaining_words_seen target_count 1000) p))
            (filter (unused p) (sorted_desc word_score (word_list p))).

Definition entry (s : string) : WordEntry := mkWordEntry (py s) [] [].

(** C6, as stated, does not hold. A ranked list on which the loop does not
    follow the ranking: by score
    "РЕАКТОР" (105), "АТОМ" (60), "ЖЁЛЧЬ" (55); with "РЕАКТОР" on the grid
    the loop takes "ЖЁЛЧЬ" before "АТОМ". *)
Lemma placer_queue_not_by_score :
  let ranked := sort_words_by_score
                  [entry "ЖЁЛЧЬ"; entry "АТОМ"; entry "РЕАКТОР"] in
  let p1 := exec place_initial_word
                 (WordPlacer_init (Grid_init 10) ranked [0%nat]) in
  ranked = [entry "РЕАКТОР"; entry "АТОМ"; entry "ЖЁЛЧЬ"] /\
  snd (eval (place_remaining_words_seen 10 1000) p1)
    = [entry "ЖЁЛЧЬ"; entry "АТОМ"] /\
  ~ walks_in_score_order p1 10.
Proof.
  cbv zeta.
  assert (E1 : sort_words_by_score
                 [entry "ЖЁЛЧЬ"; entry "АТОМ"; entry "РЕАКТОР"]
               = [entry "РЕАКТОР"; entry "АТОМ"; entry "ЖЁЛЧЬ"])
    by (vm_compute; reflexivity).
  rewrite E1. split; [reflexivity|].
  set (p1 := exec place_initial_word _).
  assert (E2 : snd (eval (place_remaining_words_seen 10 1000) p1)
               = [entry "ЖЁЛЧЬ"; entry "АТОМ"])
    by (vm_compute; reflexivity).
  split; [exact E2|].
  unfold walks_in_score_order. rewrite E2.
  assert (E3 : filter (unused p1) (sorted_desc word_score (word_list p1))
               = [entry "АТОМ"; entry "ЖЁЛЧЬ"])
    by (vm_compute; reflexivity).
  rewrite E3. intros [l3 H]. vm_compute in H. discriminate.
Qed.

(** C6, amended. The main loop of [place_remaining_words] goes through
    [available_words] from its first entry on: the entries it takes, in
    order, are the first entries of that list. [available_words] holds the
    entries of the given list whose word is not used yet, sorted by
    descending word length, entries of equal length in the order of the
    given list (which is the score ranking on the first attempt of
    [generate]). *)
Theorem placer_queue_by_length :
  forall (p : WordPlacer) (target_count max_attempts : Z),
    prefix_of (snd (eval (place_remaining_words_seen target_count
                            max_attempts) p))
              (available_words p) /\
    Permutation (available_words p) (filter (unused p) (word_list p)) /\
    descending word_length (available_words p) /\
    (forall n,
       filter (fun w => word_length w =? n) (available_words p) =
       filter (fun w => word_length w =? n)
              (filter (unused p) (word_list p))).
Proof.
  intros p target_count max_attempts. split; [|split; [|split]].
  - unfold place_remaining_words_seen.
    rewrite eval_bind_any. change (exec (gets available_words) p) with p.
    change (eval (gets available_words) p) with (available_words p).
    rewrite eval_bind_any, eval_bind_any. unfold ret, eval at 1; simpl.
    apply place_loop_seen.
  - apply sorted_desc_perm.
  - apply sorted_desc_descending.
  - intros n. apply (sorted_desc_stable word_length).
Qed.

(* ===================================================================== *)
(** * The Validator *)
(* ===================================================================== *)

(** [grid[row][col]], read with indices that are not negative. *)
Definition read_cell (grid : list (list str)) (rc : Z * Z) : option str :=
  if (0 <=? fst rc) && (0 <=? snd rc) then
    match nth_error grid (Z.to_nat (fst rc)) with
    | Some r => nth_error r (Z.to_nat (snd rc))
    | None => None
    end
  else None.

(** What [check_letter] appends. *)
Definition letter_errors (grid_array : list (list str))
    (grid_height grid_width : Z) (placed : PlacedWord) (ic : Z * char)
    : list ValidationError :=
  check_letter grid_array grid_height grid_width placed [] ic.

Lemma check_letter_app grid_array h w placed errors ic :
  check_letter grid_array h w placed errors ic =
  errors ++ letter_errors grid_array h w placed ic.
Proof.
  unfold letter_errors, check_letter. destruct ic as [i ch].
  destruct (cell_of _ _ _ i) as [r c].
  repeat match goal with |- context [if ?b then _ else _] => destruct b end;
    simpl; rewrite ?app_nil_r; reflexivity.
Qed.

Lemma fold_check_letter_nil grid_array h w placed ics errors :
  fold_left (check_letter grid_array h w placed) ics errors = [] ->
  errors = [] /\
  Forall (fun ic => letter_errors grid_array h w placed ic = []) ics.
Proof.
  revert errors. induction ics as [|ic ics IH]; intros errors H; simpl in H.
  - split; [exact H | constructor].
  - apply IH in H. destruct H as [H1 H2].
    rewrite check_letter_app in H1. apply app_eq_nil in H1.
    destruct H1 as [H1 H3]. split; [exact H1|]. constructor; assumption.
Qed.

Lemma fold_check_words_nil grid_array h w words errors :
  fold_left
    (fun errors placed =>
       fold_left (check_letter grid_array h w placed)
                 (enumerate (pw_word placed)) errors)
    words errors = [] ->
  errors = [] /\
  Forall (fun placed =>
            Forall (fun ic => letter_errors grid_array h w placed ic = [])
                   (enumerate (pw_word placed))) words.
Proof.
  revert errors. induction words as [|p ws IH]; intros errors H; simpl in H.
  - split; [exact H | constructor].
  - apply IH in H. destruct H as [H1 H2].
    apply fold_check_letter_nil in H1. destruct H1 as [H1 H3].
    split; [exact H1|]. constructor; assumption.
Qed.

Lemma letter_errors_nil grid_array placed i ch row0 rest :
  grid_array = row0 :: rest ->
  letter_errors grid_array (len grid_array) (len row0) placed (i, ch) = [] ->
  read_cell grid_array
    (cell_of (pw_row placed) (pw_col placed) (pw_direction placed) i)
  = Some [ch].
Proof.
  intros Hg. unfold letter_errors, check_letter, read_cell.
  destruct (cell_of _ _ _ i) as [r c]. simpl fst; simpl snd.
  destruct ((r <? 0) || (r >=? len grid_array) || (c <? 0)
            || (c >=? len row0)) eqn:E1; [discriminate|].
  rewrite !orb_false_iff in E1. destruct E1 as [[[E1 E2] E3] E4].
  destruct (c >=? len (nth (Z.to_nat r) grid_array [])) eqn:E5;
    [discriminate|].
  destruct (str_eqb (cell_at grid_array r c) [ch]) eqn:E6; [|discriminate].
  intros _. apply str_eqb_eq in E6.
  assert (Hr : 0 <= r < len grid_array) by lia.
  assert (Hc : 0 <= c < len (nth (Z.to_nat r) grid_array [])) by lia.
  destruct (Z.leb_spec 0 r); [|lia]. destruct (Z.leb_spec 0 c); [|lia].
  simpl. unfold len in Hr, Hc.
  rewrite (nth_error_nth' grid_array []) by lia.
  rewrite (nth_error_nth' _ EMPTY) by lia.
  f_equal. exact E6.
Qed.

(** No error from [check_intersections] on a grid with rows: every letter
    of every word is in its cell. *)
Definition letters_in_grid (grid : list (list str))
    (words : list PlacedWord) : Prop :=
  forall p, In p words ->
  forall k ch, nth_error (pw_word p) k = Some ch ->
    read_cell grid
      (cell_of (pw_row p) (pw_col p) (pw_direction p) (Z.of_nat k))
    = Some [ch].

Lemma check_intersections_nil g words :
  grid_cells g <> [] ->
  eval (check_intersections words) g = [] ->
  letters_in_grid (grid_cells g) words.
Proof.
  intros Hne H. unfold check_intersections in H.
  rewrite eval_bind in H by apply readonly_gets.
  change (eval to_array g) with (grid_cells g) in H.
  destruct (grid_cells g) as [|row0 rest] eqn:Eg; [contradiction|].
  unfold ret, eval in H; simpl fst in H.
  apply fold_check_words_nil in H. destruct H as [_ H].
  rewrite Forall_forall in H.
  intros p Hp k ch Hk. specialize (H p Hp). rewrite Forall_forall in H.
  apply (letter_errors_nil (row0 :: rest) p (Z.of_nat k) ch row0 rest eq_refl).
  apply H. apply in_enumerate. eauto.
Qed.

Lemma duplicate_errors_nil words seen :
  duplicate_errors words seen = [] ->
  NoDup (map pw_word words) /\
  forall p, In p words -> ~ In (pw_word p) seen.
Proof.
  revert seen. induction words as [|p ws IH]; intros seen H; simpl in *.
  - split; [constructor | intros ? []].
  - apply app_eq_nil in H. destruct H as [H1 H2].
    destruct (str_in (pw_word p) seen) eqn:E; [discriminate|].
    apply IH in H2. destruct H2 as [Hnd Hseen]. split.
    + constructor; [|exact Hnd].
      intros Hin. apply in_map_iff in Hin. destruct Hin as [q [Hq Hin]].
      apply (Hseen q Hin). left. symmetry; exact Hq.
    + intros q [<-|Hq].
      * intros Hin. apply str_in_true in Hin. congruence.
      * intros Hin. apply (Hseen q Hq). right; exact Hin.
Qed.

Lemma short_errors_nil words :
  short_errors words = [] -> forall p, In p words -> 3 <= len (pw_word p).
Proof.
  induction words as [|q ws IH]; simpl; [intros _ ? []|].
  intros H. apply app_eq_nil in H. destruct H as [H1 H2].
  intros p [<-|Hp]; [|apply IH; assumption].
  destruct (Z.ltb_spec (len (pw_word q)) 3); [discriminate | lia].
Qed.

(** ** Connectivity *)

(** The two words have a cell in common. *)
Definition shares_cell (p q : PlacedWord) : Prop :=
  exists rc, In rc (_get_word_cells p) /\ In rc (_get_word_cells q).

Lemma pair_eqb_eq a b : pair_eqb a b = true <-> a = b.
Proof.
  unfold pair_eqb. destruct a, b; simpl.
  rewrite andb_true_iff, !Z.eqb_eq. split; [intros [-> ->] | intros H];
    [reflexivity | inversion H; auto].
Qed.

Lemma _words_intersect_true p q :
  _words_intersect p q = true <-> shares_cell p q.
Proof.
  unfold _words_intersect, shares_cell. rewrite existsb_exists. split.
  - intros [c1 [H1 H2]]. apply existsb_exists in H2.
    destruct H2 as [c2 [H2 He]]. apply pair_eqb_eq in He. subst c2.
    exists c1; auto.
  - intros [rc [H1 H2]]. exists rc. split; [exact H1|].
    apply existsb_exists. exists rc. split; [exact H2|].
    apply pair_eqb_eq. reflexivity.
Qed.

Lemma shares_cell_sym p q : shares_cell p q -> shares_cell q p.
Proof. intros [rc [H1 H2]]. exists rc; auto. Qed.

(** The word-intersection graph on the indices of [words]. *)
Definition linked (words : list PlacedWord) (i j : nat) : Prop :=
  exists p q, nth_error words i = Some p /\ nth_error words j = Some q /\
              shares_cell p q.

Inductive path (words : list PlacedWord) : nat -> nat -> Prop :=
| path_here : forall i, path words i i
| path_step : forall i j k,
    path words i j -> linked words j k -> path words i k.

Definition connected (words : list PlacedWord) : Prop :=
  forall i j, (i < List.length words)%nat -> (j < List.length words)%nat ->
              path words i j.

Lemma linked_sym words i j : linked words i j -> linked words j i.
Proof.
  intros (p & q & Hp & Hq & Hs). exists q, p.
  split; [exact Hq|]. split; [exact Hp | apply shares_cell_sym; exact Hs].
Qed.

Lemma path_trans words i j k :
  path words i j -> path words j k -> path words i k.
Proof.
  intros H1 H2. induction H2; [exact H1|].
  eapply path_step; [apply IHpath; exact H1 | eassumption].
Qed.

Lemma path_sym words i j : path words i j -> path words j i.
Proof.
  induction 1 as [|i j k H IH Hl]; [constructor|].
  apply path_trans with (j := j); [|exact IH].
  eapply path_step; [constructor | apply linked_sym; exact Hl].
Qed.

Lemma fold_left_invariant {A B} (P : B -> Prop) (f : B -> A -> B) l b :
  P b -> (forall b x, In x l -> P b -> P (f b x)) -> P (fold_left f l b).
Proof.
  revert b. induction l as [|x l IH]; intros b Hb Hf; simpl; [exact Hb|].
  apply IH.
  - apply Hf; [left; reflexivity | exact Hb].
  - intros b' y Hy. apply Hf. right; exact Hy.
Qed.

Lemma in_combine_seq {A} (l : list A) s i x :
  In (i, x) (combine (seq s (List.length l)) l) ->
  nth_error l (i - s) = Some x /\ (s <= i)%nat.
Proof.
  revert s. induction l as [|y l IH]; intros s H; simpl in H; [destruct H|].
  destruct H as [H|H].
  - inversion H; subst. rewrite Nat.sub_diag. simpl. auto.
  - apply IH in H. destruct H as [H1 H2].
    replace (i - s)%nat with (S (i - S s)) by lia. simpl. split; [exact H1|lia].
Qed.

Lemma in_indexed {A} (l : list A) i x :
  In (i, x) (combine (seq 0 (List.length l)) l) -> nth_error l i = Some x.
Proof.
  intros H. apply in_combine_seq in H. rewrite Nat.sub_0_r in H. apply H.
Qed.

(** Every entry of [adjacency] is an edge of the graph. *)
Definition adjacency_sound (words : list PlacedWord)
    (adjacency : list (list nat)) : Prop :=
  forall a b, In b (nth a adjacency []) -> linked words a b.

Lemma set_add_In x s y : In y (set_add x s) -> y = x \/ In y s.
Proof.
  unfold set_add. destruct (existsb (Nat.eqb x) s); [auto|].
  intros H. apply in_app_or in H. destruct H as [H|[H|[]]]; auto.
Qed.

Lemma adjacency_add_sound words adjacency i j :
  adjacency_sound words adjacency -> linked words i j ->
  adjacency_sound words (adjacency_add adjacency i j).
Proof.
  intros Hs Hl a b Hin. unfold adjacency_add in Hin.
  rewrite nth_list_set in Hin.
  destruct ((i =? a)%nat && (i <? List.length adjacency)%nat) eqn:E.
  - apply andb_true_iff in E. destruct E as [E _].
    apply Nat.eqb_eq in E. subst a.
    apply set_add_In in Hin. destruct Hin as [->|Hin]; [exact Hl|].
    apply Hs; exact Hin.
  - apply Hs; exact Hin.
Qed.

Lemma build_adjacency_sound words :
  adjacency_sound words (build_adjacency words).
Proof.
  unfold build_adjacency.
  apply fold_left_invariant.
  - intros a b Hin.
    assert (H : nth a (map (fun _ : nat => @nil nat)
                         (seq 0 (List.length words))) [] = []).
    { destruct (Nat.lt_ge_cases a (List.length words)).
      - apply nth_map_const. rewrite length_seq. exact H.
      - apply nth_overflow. rewrite length_map, length_seq. exact H. }
    rewrite H in Hin. destruct Hin.
  - intros adj [i word1] Hi Hadj. apply fold_left_invariant; [exact Hadj|].
    intros adj' [j word2] Hj Hadj'.
    destruct (j <=? i)%nat; [exact Hadj'|].
    destruct (_words_intersect word1 word2) eqn:E; [|exact Hadj'].
    apply _words_intersect_true in E.
    apply in_indexed in Hi, Hj.
    assert (Hl : linked words i j) by (exists word1, word2; auto).
    apply adjacency_add_sound; [|apply linked_sym; exact Hl].
    apply adjacency_add_sound; [exact Hadj' | exact Hl].
Qed.

(** What the search keeps true: no index is visited twice, every visited
    index is a word reached from word 0, and the queue holds visited
    indices. *)
Definition bfs_ok (words : list PlacedWord) (visited queue : list nat)
    : Prop :=
  NoDup visited /\
  (forall v, In v visited -> path words 0 v) /\
  incl queue visited.

Lemma bfs_sound words adjacency rounds :
  adjacency_sound words adjacency ->
  forall visited queue,
    bfs_ok words visited queue ->
    bfs_ok words (bfs adjacency rounds visited queue) [].
Proof.
  intros Hadj. induction rounds as [|rounds IH]; intros visited queue Hok.
  - simpl. destruct Hok as (H1 & H2 & _). repeat split; auto.
    intros ? [].
  - simpl. destruct queue as [|current queue'].
    + exact Hok.
    + destruct Hok as (H1 & H2 & H3).
      assert (Hcur : path words 0 current).
      { apply H2. apply H3. left; reflexivity. }
      set (step := fun '(visited, queue) neighbor =>
                     if existsb (Nat.eqb neighbor) visited
                     then (visited, queue)
                     else (visited ++ [neighbor], queue ++ [neighbor])).
      assert (Hfold : let vq := fold_left step (nth current adjacency [])
                                      (visited, queue') in
                      bfs_ok words (fst vq) (snd vq)).
      { apply fold_left_invariant
          with (P := fun vq => bfs_ok words (fst vq) (snd vq)).
        - simpl. repeat split; auto.
          intros x Hx. apply H3. right; exact Hx.
        - intros [v q] nb Hnb (K1 & K2 & K3). simpl in *.
          destruct (existsb (Nat.eqb nb) v) eqn:E; simpl.
          + repeat split; auto.
          + assert (Hnv : ~ In nb v).
            { intros Hin. apply not_true_iff_false in E. apply E.
              apply existsb_exists. exists nb. split; [exact Hin|].
              apply Nat.eqb_refl. }
            repeat split.
            * apply NoDup_app_remove_l with (l := []). simpl.
              apply Permutation_NoDup with (l := nb :: v);
                [apply Permutation_cons_append | constructor; auto].
            * intros x Hx. apply in_app_or in Hx.
              destruct Hx as [Hx|[<-|[]]]; [apply K2; exact Hx|].
              eapply path_step; [exact Hcur | apply Hadj; exact Hnb].
            * intros x Hx. apply in_app_or in Hx. apply in_or_app.
              destruct Hx as [Hx|Hx]; [left; apply K3; exact Hx | right; exact Hx]. }
      simpl in Hfold.
      destruct (fold_left step (nth current adjacency []) (visited, queue'))
        as [v' q'] eqn:Ef.
      apply IH. exact Hfold.
Qed.

Lemma path_end_lt words i j :
  (i < List.length words)%nat -> path words i j ->
  (j < List.length words)%nat.
Proof.
  intros Hi H. induction H as [|i j k _ _ Hl]; [exact Hi|].
  destruct Hl as (p & q & _ & Hq & _).
  apply nth_error_Some. congruence.
Qed.

Lemma check_all_words_connected_sound words :
  check_all_words_connected words = true -> connected words.
Proof.
  unfold check_all_words_connected.
  destruct (List.length words <=? 1)%nat eqn:E.
  - intros _ i j Hi Hj. apply Nat.leb_le in E.
    replace j with i by lia. constructor.
  - apply Nat.leb_gt in E. intros H. apply Nat.eqb_eq in H.
    set (visited := bfs (build_adjacency words) (List.length words) [O] [O])
      in *.
    assert (Hok : bfs_ok words visited []).
    { apply bfs_sound; [apply build_adjacency_sound|].
      repeat split.
      - constructor; [intros [] | constructor].
      - intros v [<-|[]]. constructor.
      - intros x Hx; exact Hx. }
    destruct Hok as (Hnd & Hpath & _).
    assert (Hall : forall i, (i < List.length words)%nat -> In i visited).
    { intros i Hi.
      apply (@NoDup_length_incl _ visited (seq 0 (List.length words)) Hnd).
      - rewrite length_seq. lia.
      - intros v Hv. apply in_seq. split; [lia|]. simpl.
        apply (path_end_lt words 0 v); [lia | apply Hpath; exact Hv].
      - apply in_seq. lia. }
    intros i j Hi Hj.
    apply path_trans with (j := O).
    + apply path_sym. apply Hpath. apply Hall. exact Hi.
    + apply Hpath. apply Hall. exact Hj.
Qed.

(** The search is over after [len(words)] rounds: every index enters
    [visited] and the queue together, [visited] holds no index twice and
    only indices of words, so with [rounds] at least the number of indices
    not yet visited plus the length of the queue, the queue is empty when
    [rounds] reaches 0, and more rounds give the same [visited]. *)
Lemma bfs_rounds_enough words adjacency :
  adjacency_sound words adjacency -> (0 < List.length words)%nat ->
  forall rounds visited queue,
    bfs_ok words visited queue ->
    (List.length queue + List.length words
     <= rounds + List.length visited)%nat ->
    forall more,
      bfs adjacency (rounds + more) visited queue =
      bfs adjacency rounds visited queue.
Proof.
  intros Hadj Hpos.
  assert (Hbound : forall visited queue, bfs_ok words visited queue ->
            (List.length visited <= List.length words)%nat).
  { intros visited queue (Hnd & Hpath & _).
    rewrite <- (length_seq (List.length words) 0).
    apply NoDup_incl_length; [exact Hnd|].
    intros v Hv. apply in_seq. split; [lia|]. simpl.
    apply (path_end_lt words 0 v); [exact Hpos | apply Hpath; exact Hv]. }
  induction rounds as [|rounds IH]; intros visited queue Hok Hlen more.
  - pose proof (Hbound _ _ Hok) as Hb.
    destruct queue as [|current queue']; [|simpl in Hlen; lia].
    destruct more; reflexivity.
  - simpl. destruct queue as [|current queue']; [reflexivity|].
    pose proof Hok as (H1 & H2 & H3).
    assert (Hcur : path words 0 current).
    { apply H2. apply H3. left; reflexivity. }
    set (step := fun '(visited, queue) neighbor =>
                   if existsb (Nat.eqb neighbor) visited
                   then (visited, queue)
                   else (visited ++ [neighbor], queue ++ [neighbor])).
    assert (Hfold : let vq := fold_left step (nth current adjacency [])
                                    (visited, queue') in
                    bfs_ok words (fst vq) (snd vq) /\
                    (List.length (snd vq) + List.length visited
                     = List.length (fst vq) + List.length queue')%nat).
    { apply fold_left_invariant
        with (P := fun vq =>
                bfs_ok words (fst vq) (snd vq) /\
                (List.length (snd vq) + List.length visited
                 = List.length (fst vq) + List.length queue')%nat).
      - simpl. split; [|lia]. repeat split; auto.
        intros x Hx. apply H3. right; exact Hx.
      - intros [v q] nb Hnb [(K1 & K2 & K3) K4]. simpl in *.
        destruct (existsb (Nat.eqb nb) v) eqn:E; simpl.
        + repeat split; auto.
        + assert (Hnv : ~ In nb v).
          { intros Hin. apply not_true_iff_false in E. apply E.
            apply existsb_exists. exists nb. split; [exact Hin|].
            apply Nat.eqb_refl. }
          split; [repeat split|].
          * apply NoDup_app_remove_l with (l := []). simpl.
            apply Permutation_NoDup with (l := nb :: v);
              [apply Permutation_cons_append | constructor; auto].
          * intros x Hx. apply in_app_or in Hx.
            destruct Hx as [Hx|[<-|[]]]; [apply K2; exact Hx|].
            eapply path_step; [exact Hcur | apply Hadj; exact Hnb].
          * intros x Hx. apply in_app_or in Hx. apply in_or_app.
            destruct Hx as [Hx|Hx];
              [left; apply K3; exact Hx | right; exact Hx].
          * rewrite !length_app. simpl. lia. }
    simpl in Hfold.
    destruct (fold_left step (nth current adjacency []) (visited, queue'))
      as [v' q'] eqn:Ef.
    simpl in Hfold. destruct Hfold as [Hok' Hlen'].
    apply IH; [exact Hok'|]. simpl in Hlen. lia.
Qed.

(** [check_all_words_connected] with [len(words)] rounds is the search run
    until its queue is empty. *)
Lemma check_all_words_connected_rounds words more :
  (1 < List.length words)%nat ->
  bfs (build_adjacency words) (List.length words + more) [O] [O] =
  bfs (build_adjacency words) (List.length words) [O] [O].
Proof.
  intros H. apply (bfs_rounds_enough words).
  - apply build_adjacency_sound.
  - lia.
  - repeat split.
    + constructor; [intros [] | constructor].
    + intros v [<-|[]]. constructor.
    + intros x Hx; exact Hx.
  - simpl. lia.
Qed.

(** ** Density *)

(** The float [get_fill_density] computes on a board. *)
Definition density_of (cells : list (list str)) : float :=
  let '(total_cells, filled_cells) := count_cells cells in
  if total_cells >? 0 then int_truediv filled_cells total_cells else 0%Q.

Lemma readonly_get_fill_density : readonly get_fill_density.
Proof.
  unfold get_fill_density. apply readonly_bind; [apply readonly_gets|].
  intros cells. destruct (count_cells cells) as [t f].
  destruct (t >? 0); apply readonly_ret.
Qed.

Lemma eval_get_fill_density g :
  eval get_fill_density g = density_of (grid_cells g).
Proof.
  unfold get_fill_density, density_of.
  rewrite eval_bind by apply readonly_gets.
  change (eval (gets grid_cells) g) with (grid_cells g).
  destruct (count_cells (grid_cells g)) as [t f].
  destruct (t >? 0); reflexivity.
Qed.

(** [0.3 <= x <= 0.7] on floats. *)
Definition in_density_window (x : float) : Prop :=
  (MIN_FILL_DENSITY <= x)%Q /\ (x <= MAX_FILL_DENSITY)%Q.

Lemma Qltb_false a b : Qltb a b = false -> (b <= a)%Q.
Proof.
  unfold Qltb. intros H. apply negb_false_iff in H.
  apply Qle_bool_iff. exact H.
Qed.

Lemma round_half_even_ge (q : Q) (m : Z) :
  (m * Z.pos (Qden q) <= Qnum q) -> m <= round_half_even q.
Proof.
  intros H. unfold round_half_even.
  assert (Hf : m <= Qnum q / Z.pos (Qden q))
    by (apply Z.div_le_lower_bound; lia).
  repeat match goal with |- context [if ?b then _ else _] => destruct b end;
    lia.
Qed.

Lemma round_half_even_le (q : Q) (m : Z) :
  (Qnum q <= m * Z.pos (Qden q)) -> round_half_even q <= m.
Proof.
  intros H. unfold round_half_even.
  set (n := Qnum q) in *. set (d := Z.pos (Qden q)) in *.
  assert (Hd : 0 < d) by (unfold d; lia).
  pose proof (Z.div_mod n d ltac:(lia)) as Hdm.
  pose proof (Z.mod_pos_bound n d Hd) as Hm.
  assert (Hf : n / d <= m).
  { apply Z.div_le_upper_bound; lia. }
  destruct (Z.eq_dec (n / d) m) as [He|Hne].
  - assert (n mod d = 0) by nia.
    replace (2 * (n mod d)) with 0 by lia.
    destruct (Z.ltb_spec 0 d); lia.
  - repeat match goal with |- context [if ?b then _ else _] =>
      destruct b end; lia.
Qed.

(** A value above [m - 1/2] rounds to [m] at least. *)
Lemma round_half_even_ge_half (q : Q) (m : Z) :
  (2 * m - 1) * Z.pos (Qden q) < 2 * Qnum q -> m <= round_half_even q.
Proof.
  intros H. unfold round_half_even.
  set (n := Qnum q) in *. set (d := Z.pos (Qden q)) in *.
  assert (Hd : 0 < d) by (unfold d; lia).
  pose proof (Z.div_mod n d ltac:(lia)) as Hdm.
  pose proof (Z.mod_pos_bound n d Hd) as Hm.
  assert (Hf : m - 1 <= n / d) by (apply Z.div_le_lower_bound; nia).
  destruct (Z.eq_dec (n / d) (m - 1)) as [He|Hne].
  - assert (d < 2 * (n mod d)) by nia.
    destruct (Z.ltb_spec (2 * (n mod d)) d); [lia|].
    destruct (Z.ltb_spec d (2 * (n mod d))); lia.
  - repeat match goal with |- context [if ?b then _ else _] =>
      destruct b end; lia.
Qed.

Definition in_density_windowb (x : float) : bool :=
  Qle_bool MIN_FILL_DENSITY x && Qle_bool x MAX_FILL_DENSITY.

(** The floats nearest to 0.30, 0.31, ..., 0.70 lie between the floats 0.3
    and 0.7. *)
Lemma hundredths_window k :
  30 <= k <= 70 -> in_density_window (binary64 (k # 100)).
Proof.
  intros H.
  assert (Hall : forallb (fun k => in_density_windowb (binary64 (k # 100)))
                         (range 30 71) = true) by (vm_compute; reflexivity).
  rewrite forallb_forall in Hall.
  specialize (Hall k ltac:(apply in_range; lia)).
  apply andb_true_iff in Hall. destruct Hall as [H1 H2].
  split; apply Qle_bool_iff; assumption.
Qed.

Example float_0_3 :
  MIN_FILL_DENSITY = 5404319552844595 # 18014398509481984.
Proof. vm_compute. reflexivity. Qed.

Example float_0_7 :
  MAX_FILL_DENSITY = 6305039478318694 # 9007199254740992.
Proof. vm_compute. reflexivity. Qed.

(** 26 / 80 is the float just above 0.325, and [round] takes it up;
    3 / 8 is a float, and the tie goes to the even digit. *)
Example round2_of_26_80 :
  (int_truediv 26 80 == 5854679515581645 # 18014398509481984)%Q /\
  (325 # 1000 < int_truediv 26 80)%Q /\
  round2 (int_truediv 26 80) = binary64 (33 # 100) /\
  round2 (int_truediv 3 8) = binary64 (38 # 100) /\
  round2 (int_truediv 1 8) = binary64 (12 # 100).
Proof. repeat split; vm_compute; reflexivity. Qed.

Lemma round2_window x : in_density_window x -> in_density_window (round2 x).
Proof.
  intros [H1 H2]. unfold round2. apply hundredths_window.
  rewrite float_0_3 in H1. rewrite float_0_7 in H2.
  destruct x as [n d]. unfold Qle in H1, H2. cbn [Qnum Qden] in H1, H2.
  split;
    [apply round_half_even_ge_half | apply round_half_even_le];
    unfold Qmult; cbn [Qnum Qden]; rewrite Pos2Z.inj_mul; lia.
Qed.

(** The quotient [filled_cells / total_cells] itself. *)
Definition exact_density (cells : list (list str)) : Q :=
  let '(total_cells, filled_cells) := count_cells cells in
  if total_cells >? 0 then filled_cells # Z.to_pos total_cells else 0%Q.

Definition exact_window (q : Q) : Prop := (3 # 10 <= q)%Q /\ (q <= 7 # 10)%Q.

(** On a board of [h] rows of [w] cells the counters end at [h * w] cells,
    of which at most that many are filled. *)
Lemma count_row row t f :
  let '(t', f') :=
    fold_left
      (fun '(total_cells, filled_cells) (cell : str) =>
         (total_cells + 1,
          if negb (is_empty cell) then filled_cells + 1 else filled_cells))
      row (t, f) in
  t' = t + len row /\ f <= f' <= f + len row.
Proof.
  revert t f. induction row as [|cell row IH]; intros t f.
  - simpl. change (len (@nil str)) with 0. lia.
  - simpl fold_left.
    specialize (IH (t + 1)
                   (if negb (is_empty cell) then f + 1 else f)).
    destruct (fold_left _ row _) as [t' f']. rewrite len_cons.
    destruct (negb (is_empty cell)); lia.
Qed.

Lemma count_cells_rows cells w :
  Forall (fun r => len r = w) cells -> 0 <= w ->
  fst (count_cells cells) = len cells * w /\
  0 <= snd (count_cells cells) <= len cells * w.
Proof.
  intros Hrows Hw. unfold count_cells.
  set (inner := fun acc (row : list str) => fold_left _ row acc).
  assert (H : forall t f,
            let '(t', f') := fold_left inner cells (t, f) in
            t' = t + len cells * w /\ f <= f' <= f + len cells * w).
  { induction Hrows as [|row cells Hrow _ IH]; intros t f.
    - simpl. change (len (@nil (list str))) with 0. lia.
    - simpl fold_left. unfold inner at 2.
      pose proof (count_row row t f) as Hr.
      destruct (fold_left _ row (t, f)) as [t1 f1].
      specialize (IH t1 f1).
      destruct (fold_left inner cells (t1, f1)) as [t' f'].
      rewrite len_cons. nia. }
  specialize (H 0 0). destruct (fold_left inner cells (0, 0)) as [t' f'].
  simpl. lia.
Qed.

(** On a board of at most 100 cells the comparisons of the float density
    with the floats 0.3 and 0.7 are those of the quotient with 3/10 and
    7/10. *)
Lemma small_density_exact t f :
  0 < t <= 100 -> 0 <= f <= t ->
  in_density_window (int_truediv f t) -> exact_window (f # Z.to_pos t).
Proof.
  intros Ht Hf [H1 H2].
  assert (Hall :
    forallb (fun t =>
      forallb (fun f =>
        implb (in_density_windowb (int_truediv f t))
              (Qle_bool (3 # 10) (f # Z.to_pos t)
               && Qle_bool (f # Z.to_pos t) (7 # 10)))
        (range 0 (t + 1)))
      (range 1 101) = true) by (vm_compute; reflexivity).
  rewrite forallb_forall in Hall.
  specialize (Hall t ltac:(apply in_range; lia)).
  rewrite forallb_forall in Hall.
  specialize (Hall f ltac:(apply in_range; lia)).
  assert (Hw : in_density_windowb (int_truediv f t) = true).
  { unfold in_density_windowb. apply andb_true_iff.
    split; apply Qle_bool_iff; assumption. }
  rewrite Hw in Hall. simpl in Hall. apply andb_true_iff in Hall.
  destruct Hall as [E1 E2]. split; apply Qle_bool_iff; assumption.
Qed.

Lemma exact_density_window cells h w :
  len cells = h -> Forall (fun r => len r = w) cells ->
  0 < h <= 10 -> 0 < w <= 10 ->
  in_density_window (density_of cells) -> exact_window (exact_density cells).
Proof.
  intros Hh Hrows Hhb Hwb. unfold density_of, exact_density.
  destruct (count_cells_rows cells w Hrows ltac:(lia)) as [Ht Hf].
  destruct (count_cells cells) as [t f]. simpl in Ht, Hf.
  rewrite Hh in *. assert (0 < t <= 100) by nia.
  destruct (Z.gtb_spec t 0); [|lia].
  apply small_density_exact; lia.
Qed.

(** ** [validate_crossword] *)

Lemma readonly_check_intersections words :
  readonly (check_intersections words).
Proof.
  unfold check_intersections. apply readonly_bind; [apply readonly_gets|].
  intros [|row0 rest]; apply readonly_ret.
Qed.

Lemma app_if_nil {A} (b : bool) (l : list A) (x : A) :
  (if b then l ++ [x] else l) = [] -> b = false /\ l = [].
Proof.
  destruct b; intros H; [|auto].
  apply app_eq_nil in H. destruct H; discriminate.
Qed.

Lemma is_nil_true {A} (l : list A) :
  match l with [] => true | _ => false end = true -> l = [].
Proof. destruct l; [reflexivity | discriminate]. Qed.

(** What a grid has when [validate_crossword] finds no error. *)
Lemma validate_crossword_true g :
  fst (eval validate_crossword g) = true ->
  MIN_WORDS <= len (placed_words g) /\
  eval (check_intersections (placed_words g)) g = [] /\
  check_all_words_connected (placed_words g) = true /\
  in_density_window (density_of (grid_cells g)) /\
  duplicate_errors (placed_words g) [] = [] /\
  short_errors (placed_words g) = [].
Proof.
  unfold validate_crossword.
  rewrite eval_bind by apply readonly_gets.
  change (eval get_placed_words g) with (placed_words g).
  rewrite eval_bind by apply readonly_check_intersections.
  rewrite eval_bind by apply readonly_get_fill_density.
  rewrite eval_get_fill_density.
  unfold ret, eval at 1. simpl fst.
  set (words := placed_words g).
  set (inter := eval (check_intersections words) g).
  set (d := density_of (grid_cells g)).
  intros H. apply is_nil_true in H.
  apply app_eq_nil in H. destruct H as [H Hshort].
  apply app_eq_nil in H. destruct H as [H Hdup].
  apply app_if_nil in H. destruct H as [Hhigh H].
  apply app_if_nil in H. destruct H as [Hlow H].
  apply app_if_nil in H. destruct H as [Hconn H].
  apply app_eq_nil in H. destruct H as [Hcount Hinter].
  split; [|split; [exact Hinter|split; [|split; [|split; assumption]]]].
  - destruct (Z.ltb_spec (len words) MIN_WORDS); [discriminate | lia].
  - apply negb_false_iff in Hconn. exact Hconn.
  - split; [apply Qltb_false; exact Hlow | apply Qltb_false; exact Hhigh].
Qed.

(* ===================================================================== *)
(** * The Generator *)
(* ===================================================================== *)

Lemma omap_length {A B} (xs : list A) (f : A -> option B) ys :
  omap xs f = Some ys -> List.length ys = List.length xs.
Proof.
  revert ys. induction xs as [|x xs IH]; intros ys H; simpl in H.
  - inversion H; reflexivity.
  - destruct (f x); simpl in H; [|discriminate].
    destruct (omap xs f) eqn:E; simpl in H; [|discriminate].
    inversion H; subst. simpl. f_equal. apply IH. reflexivity.
Qed.

Lemma omap_Forall {A B} (xs : list A) (f : A -> option B) ys :
  omap xs f = Some ys ->
  Forall (fun y => exists x, In x xs /\ f x = Some y) ys.
Proof.
  revert ys. induction xs as [|x xs IH]; intros ys H; simpl in H.
  - inversion H; constructor.
  - destruct (f x) eqn:Ex; simpl in H; [|discriminate].
    destruct (omap xs f) eqn:E; simpl in H; [|discriminate].
    inversion H; subst. constructor.
    + exists x. split; [left; reflexivity | exact Ex].
    + specialize (IH l eq_refl). rewrite Forall_forall in *.
      intros y Hy. destruct (IH y Hy) as [x' [Hx' Hf]].
      exists x'. split; [right; exact Hx' | exact Hf].
Qed.

(** A crop that returns positive sizes leaves a grid of that shape. *)
Lemma crop_empty_edges_result g h w g1 :
  crop_empty_edges g = Some ((h, w), g1) -> 0 < h -> 0 < w ->
  grid_wf g1 /\ grid_height g1 = h /\ grid_width g1 = w.
Proof.
  unfold crop_empty_edges. intros H Hh Hw.
  destruct (find_bounds g) as [[[[mr xr] mc] xc]|]; simpl in H;
    [|discriminate].
  destruct (mr >? xr); [inversion H; lia|].
  destruct (omap _ _) as [new_grid|] eqn:E; simpl in H; [|discriminate].
  inversion H; subst. clear H. simpl.
  split; [|split; reflexivity]. unfold grid_wf; simpl. split.
  - apply omap_length in E. unfold len. rewrite E, range_length. lia.
  - apply omap_Forall in E. rewrite Forall_forall in *.
    intros row Hrow. destruct (E row Hrow) as [x [_ Hx]].
    apply omap_length in Hx. unfold len. rewrite Hx, range_length. lia.
Qed.

(** What [checked_grid] has checked when it returns a grid. *)
Lemma checked_grid_spec words target_count r g r' :
  checked_grid words target_count r = (Returned (Some g), r') ->
  let p2 := exec (place_remaining_words target_count)
              (exec place_initial_word
                 (WordPlacer_init (Grid_init DEFAULT_GRID_SIZE) words r)) in
  exists h w,
    crop_empty_edges (wp_grid p2) = Some ((h, w), g) /\
    MIN_GRID_SIZE <= h /\ MIN_GRID_SIZE <= w /\
    fst (eval validate_crossword g) = true.
Proof.
  intros H p2. subst p2. unfold checked_grid in H. unfold exec.
  destruct (place_initial_word _) as [ok p1]. simpl snd.
  destruct ok; simpl in H; [|discriminate].
  destruct (place_remaining_words target_count p1) as [n p2]. simpl snd.
  destruct (n <? MIN_WORDS); [discriminate|].
  destruct (crop_empty_edges (wp_grid p2)) as [[[h w] g1]|]; [|discriminate].
  destruct ((h <? MIN_GRID_SIZE) || (w <? MIN_GRID_SIZE)) eqn:E;
    [discriminate|].
  apply orb_false_iff in E. destruct E as [E1 E2].
  destruct (eval validate_crossword g1) as [valid errors] eqn:Ev.
  destruct valid; simpl in H; [|discriminate].
  inversion H; subst. exists h, w.
  split; [reflexivity|].
  destruct (Z.ltb_spec h MIN_GRID_SIZE); [discriminate|].
  destruct (Z.ltb_spec w MIN_GRID_SIZE); [discriminate|].
  rewrite Ev. repeat split; auto.
Qed.

(** [PlacedWord.to_dict] read back. *)
Definition from_dict (w : WordDict) : PlacedWord :=
  mkPlacedWord (wd_word w) (wd_clue w) (wd_hint w) (startRow w) (startCol w)
               (wd_direction w).

Lemma from_dict_to_dict l : map from_dict (map to_dict l) = l.
Proof.
  rewrite map_map. transitivity (map (fun p : PlacedWord => p) l);
    [|apply map_id].
  apply map_ext. intros []; reflexivity.
Qed.

(** The postconditions of the validator on a returned crossword. *)
Definition well_formed (c : Crossword) : Prop :=
  let words := map from_dict (cw_words c) in
  8 <= len (cw_words c) /\
  (forall w, In w (cw_words c) -> 3 <= len (wd_word w)) /\
  NoDup (map wd_word (cw_words c)) /\
  connected words /\
  exact_window (exact_density (cw_grid c)) /\
  in_density_window (density_of (cw_grid c)) /\
  in_density_window (fill_density (metadata c)) /\
  6 <= fst (grid_size_md (metadata c)) /\
  6 <= snd (grid_size_md (metadata c)) /\
  letters_in_grid (cw_grid c) words.

Lemma format_result_well_formed g h w :
  grid_wf g -> grid_height g = h -> grid_width g = w ->
  MIN_GRID_SIZE <= h <= DEFAULT_GRID_SIZE ->
  MIN_GRID_SIZE <= w <= DEFAULT_GRID_SIZE ->
  fst (eval validate_crossword g) = true ->
  well_formed (eval _format_result g).
Proof.
  intros Hwf Hh Hw [H6h H10h] [H6w H10w] Hv.
  unfold MIN_GRID_SIZE, DEFAULT_GRID_SIZE in *.
  apply validate_crossword_true in Hv.
  destruct Hv as (V1 & V2 & V3 & V4 & V5 & V6).
  unfold _format_result.
  rewrite eval_bind by apply readonly_gets.
  rewrite eval_bind by apply readonly_gets.
  rewrite eval_bind by apply readonly_get_fill_density.
  rewrite eval_get_fill_density.
  change (eval get_placed_words g) with (placed_words g).
  change (eval to_array g) with (grid_cells g).
  unfold ret, eval; simpl fst.
  assert (Hne : grid_cells g <> []).
  { destruct Hwf as [Hlen _]. intros E. rewrite E in Hlen.
    change (len (@nil (list str))) with 0 in Hlen. lia. }
  unfold well_formed; simpl.
  rewrite from_dict_to_dict.
  split; [unfold len in *; rewrite length_map; exact V1|].
  split.
  { intros wd Hwd. apply in_map_iff in Hwd. destruct Hwd as [p [<- Hp]].
    simpl. apply (short_errors_nil _ V6 p Hp). }
  split.
  { rewrite map_map. simpl.
    apply (duplicate_errors_nil _ [] V5). }
  split; [apply check_all_words_connected_sound; exact V3|].
  split.
  { destruct Hwf as [Hlen Hrows]. subst h w.
    apply (exact_density_window _ (grid_height g) (grid_width g));
      [symmetry; exact Hlen | exact Hrows | lia | lia | exact V4]. }
  split; [exact V4|].
  split; [apply round2_window; exact V4|].
  split; [destruct Hwf as [Hlen _]; lia|].
  split.
  { destruct (grid_cells g) as [|row0 rest] eqn:Eg; [contradiction|].
    destruct Hwf as [_ Hrows]. rewrite Eg in Hrows.
    inversion Hrows; subst. lia. }
  apply check_intersections_nil; assumption.
Qed.

(** The grid of the Placer stays a square of [n] rows of [n] cells. *)
Definition square (n : Z) (g : Grid) : Prop :=
  grid_wf g /\ grid_height g = n /\ grid_width g = n.

Lemma square_place_word n g w cl hi row col d :
  square n g -> square n (exec (place_word w cl hi row col d) g).
Proof.
  intros (Hwf & Hh & Hw). unfold exec. rewrite run_place_word.
  destruct (eval (can_place_word w row col d) g) eqn:Hcan;
    [|simpl; split; [exact Hwf | split; assumption]].
  destruct (committed_spec g w cl hi row col d Hwf Hcan)
    as (Hwf' & _ & Hh' & Hw' & _).
  simpl. split; [exact Hwf' | split; congruence].
Qed.

Lemma placer_grid_square words r target_count :
  square DEFAULT_GRID_SIZE
    (wp_grid (exec (place_remaining_words target_count)
                (exec place_initial_word
                   (WordPlacer_init (Grid_init DEFAULT_GRID_SIZE)
                                    words r)))).
Proof.
  apply (place_remaining_words_ok (square DEFAULT_GRID_SIZE)
           (square_place_word DEFAULT_GRID_SIZE)).
  apply (place_initial_word_ok (square DEFAULT_GRID_SIZE)
           (square_place_word DEFAULT_GRID_SIZE));
    [|reflexivity|reflexivity].
  split; [|split; reflexivity].
  apply grid_wf_init. unfold DEFAULT_GRID_SIZE. lia.
Qed.

(** A crop leaves no more rows and columns than there were. *)
Lemma crop_empty_edges_inside g h w g1 :
  grid_wf g -> 0 < grid_height g ->
  crop_empty_edges g = Some ((h, w), g1) -> 0 < h ->
  h <= grid_height g /\ w <= grid_width g.
Proof.
  intros Hwf Hpos Hc Hh.
  pose proof (crop_empty_edges_wf g Hwf) as C.
  pose proof (scan_bounds_tight g Hpos) as T.
  destruct (scan_bounds g) as [[[mr xr] mc] xc].
  destruct C as [C1 C2].
  destruct (Z_gt_le_dec mr xr) as [Hgt|Hle].
  - rewrite (C1 Hgt) in Hc. inversion Hc. lia.
  - specialize (T Hle). unfold tight in T.
    destruct T as (T1 & T2 & T3 & T4 & T5 & T6 & _).
    rewrite C2 in Hc; [|exact Hle|unfold bounds_inside; lia].
    inversion Hc. lia.
Qed.

Lemma generate_single_well_formed words target_count r c r' :
  _generate_single words target_count r = (Returned (Some c), r') ->
  well_formed c.
Proof.
  unfold _generate_single. intros H.
  destruct (checked_grid words target_count r) as [[e|[g|]] r1] eqn:E;
    inversion H; subst.
  apply checked_grid_spec in E. destruct E as (h & w & Hc & H6h & H6w & Hv).
  unfold MIN_GRID_SIZE in *.
  destruct (crop_empty_edges_result _ h w g Hc) as (Hwf & Hh & Hw);
    [lia | lia |].
  destruct (placer_grid_square words r target_count) as (Swf & Sh & Sw).
  destruct (crop_empty_edges_inside _ h w g Swf ltac:(rewrite Sh; reflexivity)
              Hc ltac:(lia)) as [Bh Bw].
  rewrite Sh in Bh. rewrite Sw in Bw.
  apply (format_result_well_formed g h w); auto;
    unfold MIN_GRID_SIZE; lia.
Qed.

Lemma attempts_loop_single attempts :
  forall words target_count r c r',
    attempts_loop attempts words target_count r = (Returned (Some c), r') ->
    exists words' r0 r1,
      _generate_single words' target_count r0 = (Returned (Some c), r1).
Proof.
  induction attempts as [|n IH]; intros words t r c r' H; simpl in H.
  - discriminate.
  - destruct (_generate_single words t r) as [[e|[c1|]] r1] eqn:E.
    + discriminate.
    + inversion H; subst. eauto.
    + destruct (shuffle words r1) as [words' r2]. eapply IH. exact H.
Qed.

(** What [generate] returns comes from one attempt, with the two labels
    set. *)
Lemma generate_single self category difficulty seed excluded c :
  eval (generate category difficulty seed excluded) self
    = Returned (Some c) ->
  exists words target_count r0 r1 c0,
    _generate_single words target_count r0 = (Returned (Some c0), r1) /\
    c = with_labels c0 difficulty category.
Proof.
  unfold generate, eval. intros H.
  destruct (lookup category (dictionary self)) as [words|];
    [|discriminate].
  match type of H with context [if ?b then _ else _] => destruct b end;
    [discriminate|].
  destruct (randint _ _ _) as [t r].
  destruct (attempts_loop _ _ t r) as [[e|[c0|]] r1] eqn:E;
    simpl in H; try discriminate.
  inversion H; subst.
  apply attempts_loop_single in E. destruct E as (ws & r0 & r2 & E).
  exists ws, t, r0, r2, c0. auto.
Qed.

Definition science : list (str * list WordEntry) :=
  [(py "Наука",
    map entry ["РОСТ"; "АРКА"; "МОЗГ"; "САТУРН"; "ПОЛЮС"; "СТЕПЬ"; "ЛАЗЕР";
               "РОТА"; "РЕАКТОР"; "НАУКА"; "ВАКУУМ"; "СИГНАЛ"]%string)].

(** A generator over [science], with [random] about to draw
    1, 1, 0, 0, ... *)
Definition science_generator : CrosswordGenerator :=
  mkGenerator science 0 0 0 [1; 1]%nat.

(** C1. Every crossword [generate] returns satisfies the postconditions
    of the validator: at least 8 words, every word of length at least 3, no
    word string twice, a connected word-intersection graph, a fill density
    between 0.30 and 0.70 (the quotient of filled cells of the returned
    grid between 3/10 and 7/10, and the float the validator has compared
    and its rounding in [metadata] between the floats 0.3 and 0.7), both
    components of [metadata.grid_size] at
    least 6, and for every word the letters of the grid read from
    (startRow, startCol) along its direction are the letters of the
    word. *)
Theorem generate_well_formed :
  forall (self : CrosswordGenerator) (category difficulty : str)
         (seed : option Random) (excluded_words : option (list str))
         (c : Crossword),
    eval (generate category difficulty seed excluded_words) self
      = Returned (Some c) ->
    well_formed c.
Proof.
  intros self category difficulty seed excluded c H.
  apply generate_single in H.
  destruct H as (ws & t & r0 & r1 & c0 & Hs & ->).
  apply generate_single_well_formed in Hs. exact Hs.
Qed.

Lemma generate_well_formed_witness :
  exists c,
    eval (generate (py "Наука") (py "easy") None None) science_generator
      = Returned (Some c) /\
    well_formed c.
Proof.
  destruct (eval (generate (py "Наука") (py "easy") None None)
              science_generator) as [e|[c|]] eqn:E;
    try (vm_compute in E; discriminate).
  exists c. split; [reflexivity|].
  apply (generate_well_formed science_generator (py "Наука") (py "easy")
           None None c E).
Defined.

(* ===================================================================== *)
(** * Words side by side *)
(* ===================================================================== *)

(** The word [p] has a letter in the cell [rc]. *)
Definition covers (p : PlacedWord) (rc : Z * Z) : Prop :=
  exists k, 0 <= k < pw_length p /\
            cell_of (pw_row p) (pw_col p) (pw_direction p) k = rc.

Lemma runs_through_covers p r c : runs_through p r c <-> covers p (r, c).
Proof.
  unfold runs_through, covers. destruct (pw_direction p); simpl; split.
  - intros [<- H]. exists (c - pw_col p). split; [lia | f_equal; lia].
  - intros [k [Hk He]]. inversion He; subst. lia.
  - intros [<- H]. exists (r - pw_row p). split; [lia | f_equal; lia].
  - intros [k [Hk He]]. inversion He; subst. lia.
Qed.

Lemma nth_error_in_range {A} (l : list A) k :
  0 <= k < len l -> exists x, nth_error l (Z.to_nat k) = Some x.
Proof.
  intros H. destruct (nth_error l (Z.to_nat k)) eqn:E; [eauto|].
  apply nth_error_None in E. unfold len in H. lia.
Qed.

Lemma consistent_covers g p rc :
  consistent g -> In p (placed_words g) -> covers p rc ->
  cell_p g rc <> EMPTY.
Proof.
  intros Hc Hp [k [Hk He]].
  destruct (nth_error_in_range (pw_word p) k Hk) as [ch Hch].
  specialize (Hc p Hp _ _ Hch). rewrite Z2Nat.id in Hc by lia.
  rewrite He in Hc. rewrite Hc. discriminate.
Qed.

(** Two non-empty cells next to each other along [d] lie on one committed
    word of direction [d]. *)
Definition touch_ok (g : Grid) : Prop :=
  forall d r c,
    cell g r c <> EMPTY -> cell_p g (cell_of r c d 1) <> EMPTY ->
    exists p, In p (placed_words g) /\ pw_direction p = d /\
              covers p (r, c) /\ covers p (cell_of r c d 1).

(** What the grids built by [place_word] from an empty grid keep. *)
Definition grid_inv (g : Grid) : Prop :=
  grid_wf g /\ consistent g /\ touch_ok g.

Lemma grid_inv_init size : 0 <= size -> grid_inv (Grid_init size).
Proof.
  intros Hs. split; [apply grid_wf_init; exact Hs|]. split.
  - intros p [].
  - intros d r c H. exfalso. apply H. apply cell_init.
Qed.

(** A cell is one of the [n] cells of a word laid from [(row, col)], or
    none of them. *)
Lemma on_word_dec row col d n r c :
  (exists k, 0 <= k < n /\ cell_of row col d k = (r, c)) \/
  (forall k, 0 <= k < n -> cell_of row col d k <> (r, c)).
Proof.
  destruct d; simpl.
  - destruct (Z.eq_dec r row) as [->|Hne].
    + destruct (Z_le_dec col c), (Z_lt_dec c (col + n));
        try (right; intros k Hk He; inversion He; lia).
      left. exists (c - col). split; [lia | f_equal; lia].
    + right. intros k Hk He. inversion He; lia.
  - destruct (Z.eq_dec c col) as [->|Hne].
    + destruct (Z_le_dec row r), (Z_lt_dec r (row + n));
        try (right; intros k Hk He; inversion He; lia).
      left. exists (r - row). split; [lia | f_equal; lia].
    + right. intros k Hk He. inversion He; lia.
Qed.

Section PlaceKeepsInvariant.
Variables (g : Grid) (w cl hi : str) (row col : Z) (d : Direction).
Hypothesis Hinv : grid_inv g.
Hypothesis Hcan : eval (can_place_word w row col d) g = true.

Let n := len (upper w).
Let g' := committed w cl hi row col d g.
Let X := mkPlacedWord (upper w) cl hi row col d.

Lemma pk_facts :
  fits g row col d n /\
  (forall k, 0 <= k < n ->
     exists ch, nth_error (upper w) (Z.to_nat k) = Some ch /\
                letter_ok g row col d k ch /\
                cell_p g' (cell_of row col d k) = [ch]) /\
  cell_p g (cell_of row col d (-1)) = EMPTY /\
  cell_p g (cell_of row col d n) = EMPTY /\
  placed_words g' = placed_words g ++ [X] /\
  grid_wf g' /\
  (forall r c, (forall k, 0 <= k < n -> cell_of row col d k <> (r, c)) ->
               cell g' r c = cell g r c).
Proof.
  destruct Hinv as [Hwf _].
  pose proof (committed_spec g w cl hi row col d Hwf Hcan) as H.
  cbv zeta in H. destruct H as (W & _ & _ & _ & P1 & C1 & C2).
  pose proof (proj1 (can_place_word_true g w row col d) Hcan)
    as (Hf & Hl & Hb & Ha).
  split; [exact Hf|].
  split; [|split; [exact Hb|split; [exact Ha|split; [exact P1|
           split; [exact W | exact C2]]]]].
  intros k Hk.
  destruct (nth_error_in_range (upper w) k Hk) as [ch Hch].
  exists ch. split; [exact Hch|].
  pose proof (Hl _ _ Hch) as L. pose proof (C1 _ _ Hch) as C.
  rewrite Z2Nat.id in L, C by lia. split; assumption.
Qed.

Lemma pk_consistent : consistent g'.
Proof.
  destruct pk_facts as (_ & Hl & _ & _ & P1 & _ & C2).
  destruct Hinv as (_ & Hc & _).
  intros p Hp k ch Hk. rewrite P1 in Hp. apply in_app_or in Hp.
  destruct Hp as [Hp|[<-|[]]].
  - specialize (Hc p Hp k ch Hk). unfold cell_p in *.
    destruct (cell_of (pw_row p) (pw_col p) (pw_direction p) (Z.of_nat k))
      as [r c] eqn:Ec. simpl in *.
    destruct (on_word_dec row col d n r c) as [[kx [Hkx Hx]]|Hno].
    + destruct (Hl kx Hkx) as (chx & _ & Lk & Ck).
      unfold letter_ok in Lk. rewrite Hx in *. simpl in Ck.
      rewrite Ck. destruct Lk as [Lk|[Lk _]].
      * rewrite Lk in Hc. exact Hc.
      * rewrite Lk in Hc. discriminate.
    + rewrite C2 by exact Hno. exact Hc.
  - simpl in *. assert (Hkn : 0 <= Z.of_nat k < n).
    { assert (k < List.length (upper w))%nat
        by (apply nth_error_Some; congruence).
      unfold n, len; lia. }
    destruct (Hl _ Hkn) as (ch' & Hch' & _ & Ck).
    rewrite Nat2Z.id in Hch'. congruence.
Qed.

(** A cell that the word fills was empty only if the cells beside it,
    across the word, are empty. *)
Lemma pk_sides k :
  0 <= k < n -> cell_p g (cell_of row col d k) = EMPTY ->
  cell_p g (fst (side_cells (fst (cell_of row col d k))
                            (snd (cell_of row col d k)) d)) = EMPTY /\
  cell_p g (snd (side_cells (fst (cell_of row col d k))
                            (snd (cell_of row col d k)) d)) = EMPTY.
Proof.
  intros Hk He. destruct pk_facts as (_ & Hl & _).
  destruct Hinv as (_ & Hc & _).
  destruct (Hl k Hk) as (ch & _ & Lk & _). unfold letter_ok in Lk.
  destruct (cell_of row col d k) as [r c] eqn:Ec. unfold cell_p in *.
  simpl in *. destruct Lk as [Lk|[_ Lk]];
    [rewrite He in Lk; discriminate|].
  unfold adjacent_ok in Lk.
  destruct (side_cells r c d) as [[r1 c1] [r2 c2]]. simpl.
  apply orb_true_iff in Lk. destruct Lk as [Lk|Lk].
  - apply andb_true_iff in Lk. destruct Lk as [L1 L2].
    apply is_empty_true in L1, L2. auto.
  - apply has_perpendicular_true in Lk. destruct Lk as (p & Hp & _ & Hr).
    apply runs_through_covers in Hr.
    exfalso. apply (consistent_covers g p (r, c) Hc Hp Hr). exact He.
Qed.

End PlaceKeepsInvariant.

Ltac off_word := let k := fresh "k" in let Hk := fresh "Hk" in
  let He := fresh "He" in intros k Hk He; inversion He; lia.

Lemma committed_touch_ok g w cl hi row col d :
  grid_inv g -> eval (can_place_word w row col d) g = true ->
  touch_ok (committed w cl hi row col d g).
Proof.
  intros Hinv Hcan.
  pose proof (pk_facts g w cl hi row col d Hinv Hcan)
    as (Hf & Hl & Hb & Ha & P1 & _ & C2).
  pose proof (pk_sides g w cl hi row col d Hinv Hcan) as Hsides.
  pose proof (on_word_dec row col d (len (upper w))) as Hdec.
  destruct Hinv as (_ & Hc & Ht).
  set (n := len (upper w)) in *.
  set (g' := committed w cl hi row col d g) in *.
  set (X := mkPlacedWord (upper w) cl hi row col d) in *.
  assert (Hnew : In X (placed_words g'))
    by (rewrite P1; apply in_or_app; right; left; reflexivity).
  (* a cell that became non-empty is a cell of the word *)
  assert (Hfill : forall r c, cell g' r c <> EMPTY -> cell g r c = EMPTY ->
            exists k, 0 <= k < n /\ cell_of row col d k = (r, c)).
  { intros r c H1 H0. destruct (Hdec r c) as [H|H]; [exact H|].
    exfalso. apply H1. rewrite (C2 _ _ H). exact H0. }
  intros d0 r c H1 H2.
  destruct (is_empty (cell g r c)) eqn:E1.
  - (* the first cell is new *)
    apply is_empty_true in E1.
    destruct (Hfill r c H1 E1) as [k [Hk Hx]].
    specialize (Hsides k Hk). unfold cell_p in Hsides. rewrite Hx in Hsides.
    simpl fst in Hsides; simpl snd in Hsides. specialize (Hsides E1).
    unfold cell_p in *.
    destruct d0, d; simpl in *; inversion Hx; subst r c.
    + (* along a horizontal word *)
      destruct (Z_lt_dec (k + 1) n) as [Hin|Hout].
      * exists X. split; [exact Hnew|]. split; [reflexivity|]. split.
        -- exists k. split; [exact Hk | reflexivity].
        -- exists (k + 1). split; [change (pw_length X) with n; lia | simpl; f_equal; lia].
      * exfalso. apply H2. rewrite C2 by off_word.
        replace (col + k + 1) with (col + n) by lia. exact Ha.
    + (* beside a vertical word *)
      exfalso. apply H2. rewrite C2 by off_word. apply Hsides.
    + (* beside a horizontal word *)
      exfalso. apply H2. rewrite C2 by off_word. apply Hsides.
    + (* along a vertical word *)
      destruct (Z_lt_dec (k + 1) n) as [Hin|Hout].
      * exists X. split; [exact Hnew|]. split; [reflexivity|]. split.
        -- exists k. split; [exact Hk | reflexivity].
        -- exists (k + 1). split; [change (pw_length X) with n; lia | simpl; f_equal; lia].
      * exfalso. apply H2. rewrite C2 by off_word.
        replace (row + k + 1) with (row + n) by lia. exact Ha.
  - apply is_empty_false in E1.
    destruct (is_empty (cell_p g (cell_of r c d0 1))) eqn:E2.
    + (* the second cell is new *)
      apply is_empty_true in E2. unfold cell_p in *.
      destruct (cell_of r c d0 1) as [r2 c2] eqn:Ec2. simpl in H2, E2.
      destruct (Hfill r2 c2 H2 E2) as [k [Hk Hx]].
      specialize (Hsides k Hk). rewrite Hx in Hsides.
      simpl fst in Hsides; simpl snd in Hsides. specialize (Hsides E2).
      destruct d0, d; simpl in *;
        injection Hx as Hx1 Hx2; injection Ec2 as Ey1 Ey2.
      * destruct (Z_le_dec 1 k) as [Hin|Hout].
        -- exists X. split; [exact Hnew|]. split; [reflexivity|]. split.
           ++ exists (k - 1).
              split; [change (pw_length X) with n; lia | simpl; f_equal; lia].
           ++ exists k. split; [exact Hk | simpl; f_equal; lia].
        -- exfalso. apply H1. rewrite C2 by off_word.
           replace r with row by lia. replace c with (col + -1) by lia.
           exact Hb.
      * exfalso. apply H1. rewrite C2 by off_word.
        replace r with r2 by lia. replace c with (c2 - 1) by lia.
        apply Hsides.
      * exfalso. apply H1. rewrite C2 by off_word.
        replace r with (r2 - 1) by lia. replace c with c2 by lia.
        apply Hsides.
      * destruct (Z_le_dec 1 k) as [Hin|Hout].
        -- exists X. split; [exact Hnew|]. split; [reflexivity|]. split.
           ++ exists (k - 1).
              split; [change (pw_length X) with n; lia | simpl; f_equal; lia].
           ++ exists k. split; [exact Hk | simpl; f_equal; lia].
        -- exfalso. apply H1. rewrite C2 by off_word.
           replace r with (row + -1) by lia. replace c with col by lia.
           exact Hb.
    + (* both cells were there before *)
      apply is_empty_false in E2.
      destruct (Ht d0 r c E1 E2) as (p & Hp & Hrest).
      exists p. split; [rewrite P1; apply in_or_app; left; exact Hp|].
      exact Hrest.
Qed.

Lemma grid_inv_place_word g w cl hi row col d :
  grid_inv g -> grid_inv (exec (place_word w cl hi row col d) g).
Proof.
  intros Hinv. unfold exec. rewrite run_place_word.
  destruct (eval (can_place_word w row col d) g) eqn:Hcan; [|exact Hinv].
  simpl. split; [|split].
  - apply (pk_facts g w cl hi row col d Hinv Hcan).
  - apply pk_consistent; assumption.
  - apply committed_touch_ok; assumption.
Qed.

(** The row of a horizontal word, the column of a vertical one. *)
Definition line (p : PlacedWord) : Z :=
  match pw_direction p with
  | horizontal => pw_row p
  | vertical => pw_col p
  end.

(** The word has a letter at the coordinate [t] along its direction. *)
Definition spans (p : PlacedWord) (t : Z) : Prop :=
  match pw_direction p with
  | horizontal => pw_col p <= t < pw_col p + pw_length p
  | vertical => pw_row p <= t < pw_row p + pw_length p
  end.

(** Two words of one direction, one row (or column) apart, with
    overlapping extents. *)
Definition parallel_adjacent (p q : PlacedWord) : Prop :=
  pw_direction p = pw_direction q /\
  Z.abs (line p - line q) = 1 /\
  exists t, spans p t /\ spans q t.

(** The cell at coordinate [t] of the line [l] of direction [d]. *)
Definition cell_on (d : Direction) (l t : Z) : Z * Z :=
  match d with
  | horizontal => (l, t)
  | vertical => (t, l)
  end.

Lemma ranges_overlap_true a n b m :
  existsb (fun x => existsb (Z.eqb x) (range b (b + m))) (range a (a + n))
  = true <->
  exists t, a <= t < a + n /\ b <= t < b + m.
Proof.
  rewrite existsb_exists. split.
  - intros [x [Hx He]]. apply existsb_exists in He.
    destruct He as [y [Hy Hxy]]. apply Z.eqb_eq in Hxy. subst y.
    apply in_range in Hx, Hy. exists x. lia.
  - intros [t [H1 H2]]. exists t. split; [apply in_range; lia|].
    apply existsb_exists. exists t. split; [apply in_range; lia|].
    apply Z.eqb_refl.
Qed.

(** [_are_parallel_adjacent] on two words of one direction. *)
Lemma _are_parallel_adjacent_true p q :
  pw_direction p = pw_direction q ->
  (_are_parallel_adjacent p q = true <-> parallel_adjacent p q).
Proof.
  intros Hd. unfold _are_parallel_adjacent, parallel_adjacent, line, spans.
  rewrite <- Hd. destruct (pw_direction p).
  - destruct (Z.eqb_spec (Z.abs (pw_row p - pw_row q)) 1) as [He|Hne]; simpl.
    + rewrite ranges_overlap_true. tauto.
    + split; [discriminate | tauto].
  - destruct (Z.eqb_spec (Z.abs (pw_col p - pw_col q)) 1) as [He|Hne]; simpl.
    + rewrite ranges_overlap_true. tauto.
    + split; [discriminate | tauto].
Qed.

(** Where two words lie side by side, a word of the other direction runs
    through both cells. *)
Definition pairs_crossed (words : list PlacedWord) : Prop :=
  forall p q, In p words -> In q words -> parallel_adjacent p q ->
  forall t, spans p t -> spans q t ->
    exists s, In s words /\
              pw_direction s = perpendicular (pw_direction p) /\
              covers s (cell_on (pw_direction p) (line p) t) /\
              covers s (cell_on (pw_direction p) (line q) t).

Lemma spans_covers p t :
  spans p t -> covers p (cell_on (pw_direction p) (line p) t).
Proof.
  unfold spans, covers, cell_on, line. destruct (pw_direction p); intros H.
  - exists (t - pw_col p). split; [lia | simpl; f_equal; lia].
  - exists (t - pw_row p). split; [lia | simpl; f_equal; lia].
Qed.

Lemma grid_inv_pairs_crossed g : grid_inv g -> pairs_crossed (placed_words g).
Proof.
  intros (_ & Hc & Ht) p q Hp Hq (Hd & Hoff & _) t Hsp Hsq.
  pose proof (consistent_covers g p _ Hc Hp (spans_covers p t Hsp)) as Na.
  pose proof (consistent_covers g q _ Hc Hq (spans_covers q t Hsq)) as Nb.
  rewrite <- Hd in Nb.
  set (d := pw_direction p) in *.
  set (a := cell_on d (line p) t) in *.
  set (b := cell_on d (line q) t) in *.
  destruct (Z.eq_dec (line q) (line p + 1)) as [Hq1|Hq1].
  - (* q is on the next line *)
    assert (Hb : b = cell_of (fst a) (snd a) (perpendicular d) 1).
    { unfold a, b, cell_on. rewrite Hq1. destruct d; reflexivity. }
    destruct (Ht (perpendicular d) (fst a) (snd a)) as (s & Hs & Hsd & C1 & C2).
    + destruct a; exact Na.
    + rewrite <- Hb. exact Nb.
    + exists s. split; [exact Hs|]. split; [exact Hsd|].
      rewrite Hb. split; [destruct a; exact C1 | exact C2].
  - (* q is on the line before *)
    assert (Hq2 : line p = line q + 1) by lia.
    assert (Ha : a = cell_of (fst b) (snd b) (perpendicular d) 1).
    { unfold a, b, cell_on. rewrite Hq2. destruct d; reflexivity. }
    destruct (Ht (perpendicular d) (fst b) (snd b)) as (s & Hs & Hsd & C1 & C2).
    + destruct b; exact Nb.
    + rewrite <- Ha. exact Na.
    + exists s. split; [exact Hs|]. split; [exact Hsd|].
      rewrite Ha. split; [exact C2 | destruct b; exact C1].
Qed.

Lemma covers_shift a b s rc :
  covers s rc -> covers (shift_word a b s) (fst rc - a, snd rc - b).
Proof.
  intros [k [Hk He]]. exists k. split; [exact Hk|].
  unfold shift_word; simpl. destruct (pw_direction s); simpl in *;
    inversion He; simpl; f_equal; lia.
Qed.

Lemma pairs_crossed_shift a b words :
  pairs_crossed words -> pairs_crossed (map (shift_word a b) words).
Proof.
  intros H p q Hp Hq (Hd & Hoff & _) t Hsp Hsq.
  apply in_map_iff in Hp, Hq.
  destruct Hp as [p0 [<- Hp0]]. destruct Hq as [q0 [<- Hq0]].
  unfold line, spans, pw_length in *. simpl in *.
  set (m := match pw_direction p0 with horizontal => b | vertical => a end).
  assert (Hpa : parallel_adjacent p0 q0).
  { split; [exact Hd|]. split.
    - unfold line. rewrite <- Hd in *. destruct (pw_direction p0); lia.
    - exists (t + m). unfold spans, pw_length, m. rewrite <- Hd in *.
      destruct (pw_direction p0); lia. }
  destruct (H p0 q0 Hp0 Hq0 Hpa (t + m)) as (s & Hs & Hsd & C1 & C2).
  - unfold spans, pw_length, m. destruct (pw_direction p0); lia.
  - unfold spans, pw_length, m. rewrite <- Hd in *.
    destruct (pw_direction p0); lia.
  - exists (shift_word a b s). split; [apply in_map; exact Hs|].
    split; [exact Hsd|].
    apply (covers_shift a b) in C1. apply (covers_shift a b) in C2.
    unfold cell_on, line, m in *. rewrite <- Hd in *.
    destruct (pw_direction p0); simpl in *.
    + replace (t + b - b) with t in * by lia. split; assumption.
    + replace (t + a - a) with t in * by lia. split; assumption.
Qed.

Lemma crop_empty_edges_words g h w g1 :
  crop_empty_edges g = Some ((h, w), g1) -> 0 < h ->
  exists a b, placed_words g1 = map (shift_word a b) (placed_words g).
Proof.
  unfold crop_empty_edges. intros H Hh.
  destruct (find_bounds g) as [[[[mr xr] mc] xc]|]; simpl in H;
    [|discriminate].
  destruct (mr >? xr); [inversion H; lia|].
  destruct (omap _ _) as [new_grid|]; simpl in H; [|discriminate].
  inversion H; subst. exists mr, mc. reflexivity.
Qed.

(** The grid the Placer builds on an empty 10 x 10 grid. *)
Lemma placer_grid_inv words r target_count :
  grid_inv (wp_grid (exec (place_remaining_words target_count)
                       (exec place_initial_word
                          (WordPlacer_init (Grid_init DEFAULT_GRID_SIZE)
                                           words r)))).
Proof.
  apply (place_remaining_words_ok grid_inv grid_inv_place_word).
  apply (place_initial_word_ok grid_inv grid_inv_place_word);
    [|reflexivity|reflexivity].
  apply grid_inv_init. unfold DEFAULT_GRID_SIZE. lia.
Qed.

Definition crossword_words (c : Crossword) : list PlacedWord :=
  map from_dict (cw_words c).

(** C3, amended. In a crossword returned by [generate], two words of one
    direction may lie one row (or column) apart with overlapping extents,
    and [generate] does not call [check_no_adjacent_parallel]; but wherever
    they do, a word of the other direction runs through both cells: for
    every coordinate that both words span, one word of the perpendicular
    direction has a letter in the cell of the first word and in the cell
    of the second word at that coordinate. *)
Theorem generate_side_by_side_crossed :
  forall (self : CrosswordGenerator) (category difficulty : str)
         (seed : option Random) (excluded_words : option (list str))
         (c : Crossword),
    eval (generate category difficulty seed excluded_words) self
      = Returned (Some c) ->
    pairs_crossed (crossword_words c).
Proof.
  intros self category difficulty seed excluded c H.
  apply generate_single in H.
  destruct H as (ws & t & r0 & r1 & c0 & Hs & ->).
  unfold _generate_single in Hs.
  destruct (checked_grid ws t r0) as [[e|[g|]] r2] eqn:E;
    inversion Hs; subst. clear Hs.
  apply checked_grid_spec in E. destruct E as (h & w & Hc & H6h & _ & _).
  unfold MIN_GRID_SIZE in H6h.
  destruct (crop_empty_edges_words _ h w g Hc) as (a & b & Hw); [lia|].
  unfold crossword_words, with_labels, _format_result; simpl.
  rewrite eval_bind by apply readonly_gets.
  rewrite eval_bind by apply readonly_gets.
  rewrite eval_bind by apply readonly_get_fill_density.
  unfold ret, eval at 1; simpl.
  change (eval get_placed_words g) with (placed_words g).
  rewrite from_dict_to_dict, Hw.
  apply pairs_crossed_shift. apply grid_inv_pairs_crossed.
  apply placer_grid_inv.
Qed.

Lemma generate_side_by_side_crossed_witness :
  exists c,
    eval (generate (py "Наука") (py "easy") None None) science_generator
      = Returned (Some c) /\
    pairs_crossed (crossword_words c).
Proof.
  destruct (eval (generate (py "Наука") (py "easy") None None)
              science_generator) as [e|[c|]] eqn:E;
    try (vm_compute in E; discriminate).
  exists c. split; [reflexivity|].
  apply (generate_side_by_side_crossed science_generator (py "Наука")
           (py "easy") None None c E).
Defined.


(** The crossword [generate] returns over [science] with the draws
    1, 1, 0, 0, ..., and the grid of that attempt. *)
Definition science_crossword : Crossword :=
  match eval (generate (py "Наука") (py "easy") None None)
             science_generator with
  | Returned (Some c) => c
  | _ => mkCrossword [] [] [] [] (mkMetadata 0 (0, 0) 0%Q)
  end.

Definition science_grid : Grid :=
  match fst (checked_grid (sort_words_by_score (snd (hd ([], []) science)))
                          9 [1%nat]) with
  | Returned (Some g) => g
  | _ => Grid_init 0
  end.

Definition reaktor : PlacedWord :=
  mkPlacedWord (py "РЕАКТОР") [] [] 3 2 vertical.
Definition rota : PlacedWord :=
  mkPlacedWord (py "РОТА") [] [] 0 1 vertical.

(** A crossword [generate] returns with two vertical words side by side:
    "РЕАКТОР" runs down column 2 from row 3 and "РОТА" down column 1 from
    row 0, and both have a letter in row 3 (on "АРКА"). The grid of that
    attempt does not pass [check_no_adjacent_parallel]. *)
Lemma science_run :
  eval (generate (py "Наука") (py "easy") None None) science_generator
    = Returned (Some science_crossword) /\
  crossword_words science_crossword =
    [mkPlacedWord (py "САТУРН") [] [] 5 1 horizontal;
     reaktor;
     mkPlacedWord (py "ВАКУУМ") [] [] 2 4 vertical;
     mkPlacedWord (py "СИГНАЛ") [] [] 2 6 vertical;
     mkPlacedWord (py "РОСТ") [] [] 9 2 horizontal;
     mkPlacedWord (py "АРКА") [] [] 3 1 horizontal;
     rota;
     mkPlacedWord (py "МОЗГ") [] [] 1 0 horizontal] /\
  parallel_adjacent reaktor rota /\
  _are_parallel_adjacent reaktor rota = true /\
  fst (checked_grid (sort_words_by_score (snd (hd ([], []) science)))
                    9 [1%nat])
    = Returned (Some science_grid) /\
  science_crossword =
    with_labels (eval _format_result science_grid) (py "easy") (py "Наука") /\
  eval check_no_adjacent_parallel science_grid = false.
Proof.
  split; [vm_compute; reflexivity|].
  split; [vm_compute; reflexivity|].
  split.
  { split; [reflexivity|]. split; [reflexivity|].
    exists 3. unfold spans, pw_length, len; simpl. lia. }
  split; [vm_compute; reflexivity|].
  split; [vm_compute; reflexivity|].
  split; vm_compute; reflexivity.
Qed.

(** C3, as stated, does not hold. Not every crossword [generate] returns is
    free of two words of one direction at perpendicular offset 1 with
    overlapping extents, and not every grid that passed the checks of an
    attempt passes [check_no_adjacent_parallel]: the crossword returned
    for [science] has "РЕАКТОР" and "РОТА" side by side. *)
Lemma generate_returns_side_by_side :
  ~ (forall (self : CrosswordGenerator) (category difficulty : str)
            (seed : option Random) (excluded_words : option (list str))
            (c : Crossword),
       eval (generate category difficulty seed excluded_words) self
         = Returned (Some c) ->
       forall p q, In p (crossword_words c) -> In q (crossword_words c) ->
                   ~ parallel_adjacent p q) /\
  ~ (forall (words : list WordEntry) (target_count : Z) (r : Random)
            (g : Grid),
       fst (checked_grid words target_count r) = Returned (Some g) ->
       eval check_no_adjacent_parallel g = true).
Proof.
  destruct science_run as (Hgen & Hwords & Hadj & _ & Hgrid & _ & Hcheck).
  split.
  - intros H.
    apply (H _ _ _ _ _ _ Hgen reaktor rota); [| |exact Hadj];
      rewrite Hwords; simpl; tauto.
  - intros H. specialize (H _ _ _ _ Hgrid). rewrite Hcheck in H.
    discriminate H.
Qed.

(* ===================================================================== *)
(** * The fingerprint *)
(* ===================================================================== *)

Definition is_lower_hex (c : char) : Prop :=
  48 <= c <= 57 \/ 97 <= c <= 102.

Lemma hex_digit_lower n : 0 <= n < 16 -> is_lower_hex (hex_digit n).
Proof.
  intros H. unfold hex_digit.
  assert (Hn : (Z.to_nat n < 16)%nat) by lia.
  revert Hn. generalize (Z.to_nat n). intros k Hk.
  do 16 (destruct k as [|k];
         [cbv; first [left; split; discriminate | right; split; discriminate]|]).
  lia.
Qed.

Lemma le_bytes_length k x : List.length (le_bytes k x) = k.
Proof. unfold le_bytes. rewrite length_map, length_seq. reflexivity. Qed.

Lemma le_bytes_range k x : Forall (fun b => 0 <= b < 256) (le_bytes k x).
Proof.
  unfold le_bytes. apply Forall_forall. intros b Hb.
  apply in_map_iff in Hb. destruct Hb as [i [<- _]].
  apply Z.mod_pos_bound. lia.
Qed.

Lemma md5_digest_bytes msg :
  List.length (md5_digest msg) = 16%nat /\
  Forall (fun b => 0 <= b < 256) (md5_digest msg).
Proof.
  unfold md5_digest. destruct (md5_blocks _ _ _) as [[[A B] C] D]. split.
  - rewrite !length_app, !le_bytes_length. reflexivity.
  - repeat (apply Forall_app; split); apply le_bytes_range.
Qed.

Lemma flat_map_byte_hex bs :
  Forall (fun b => 0 <= b < 256) bs ->
  List.length (flat_map byte_hex bs) = (2 * List.length bs)%nat /\
  Forall is_lower_hex (flat_map byte_hex bs).
Proof.
  induction 1 as [|b bs Hb _ [IH1 IH2]]; simpl.
  - split; [reflexivity | constructor].
  - split; [rewrite IH1; lia|].
    constructor; [apply hex_digit_lower; split;
                  [apply Z.div_pos; lia | apply Z.div_lt_upper_bound; lia]|].
    constructor; [apply hex_digit_lower; apply Z.mod_pos_bound; lia|].
    exact IH2.
Qed.

(** [hexdigest()] is 32 lower-case hexadecimal digits. *)
Lemma md5_hexdigest_format msg :
  List.length (md5_hexdigest msg) = 32%nat /\
  Forall is_lower_hex (md5_hexdigest msg).
Proof.
  destruct (md5_digest_bytes msg) as [Hl Hr].
  destruct (flat_map_byte_hex _ Hr) as [H1 H2].
  unfold md5_hexdigest. rewrite H1, Hl. split; [reflexivity | exact H2].
Qed.

Lemma Forall_firstn {A} (P : A -> Prop) n l :
  Forall P l -> Forall P (firstn n l).
Proof.
  intros H. apply Forall_forall. intros x Hx.
  rewrite Forall_forall in H. apply H. apply (firstn_In n). exact Hx.
Qed.

(** The text of one row of the grid and of one word in the canonical
    serialization: the keys of a word in sorted order. *)
Definition row_text (row : list str) : str :=
  py "[" ++ join (py ", ") (map json_string row) ++ py "]".

Definition word_text (w : WordDict) : str :=
  py "{" ++
  json_string (py "direction") ++ py ": "
    ++ json_string (direction_str (wd_direction w)) ++ py ", " ++
  json_string (py "startCol") ++ py ": " ++ int_repr (startCol w) ++ py ", " ++
  json_string (py "startRow") ++ py ": " ++ int_repr (startRow w) ++ py ", " ++
  json_string (py "word") ++ py ": " ++ json_string (wd_word w) ++
  py "}".

Lemma json_dumps_list l :
  json_dumps (JList l) = py "[" ++ join (py ", ") (map json_dumps l) ++ py "]".
Proof. reflexivity. Qed.

Lemma json_dumps_row row :
  json_dumps (JList (map JStr row)) = row_text row.
Proof.
  rewrite json_dumps_list, map_map. reflexivity.
Qed.

Lemma json_dumps_word w :
  json_dumps (JDict [(py "word", JStr (wd_word w));
                     (py "startRow", JInt (startRow w));
                     (py "startCol", JInt (startCol w));
                     (py "direction", JStr (direction_str (wd_direction w)))])
  = word_text w.
Proof.
  unfold word_text.
  generalize (direction_str (wd_direction w)) (wd_word w) (startRow w) (startCol w).
  intros d w0 r c.
  change (json_dumps (JDict [(py "word", JStr w0); (py "startRow", JInt r);
                             (py "startCol", JInt c);
                             (py "direction", JStr d)]))
    with (py "{" ++
          join (py ", ")
            (map (fun kv : str * str =>
                    json_string (fst kv) ++ py ": " ++ snd kv)
               (sort_keys [(py "word", json_string w0);
                           (py "startRow", int_repr r);
                           (py "startCol", int_repr c);
                           (py "direction", json_string d)])) ++ py "}").
  generalize (json_string w0) (int_repr r) (int_repr c) (json_string d).
  intros x1 x2 x3 x4.
  change (sort_keys [(py "word", x1); (py "startRow", x2);
                     (py "startCol", x3); (py "direction", x4)])
    with [(py "direction", x4); (py "startCol", x3);
          (py "startRow", x2); (py "word", x1)].
  cbn [map join fst snd]. rewrite <- !app_assoc. reflexivity.
Qed.

(** The canonical JSON text of the content: the key [grid] before the key
    [words], every string between quotes with its characters as they are
    (the quote, the backslash and the control characters escaped). *)
Lemma crossword_content_text grid words :
  json_dumps (crossword_content grid words) =
  py "{" ++
  json_string (py "grid") ++ py ": "
    ++ (py "[" ++ join (py ", ") (map row_text grid) ++ py "]") ++ py ", " ++
  json_string (py "words") ++ py ": "
    ++ (py "[" ++ join (py ", ") (map word_text words) ++ py "]") ++
  py "}".
Proof.
  unfold crossword_content.
  set (g := map (fun row => JList (map JStr row)) grid).
  set (ws := map _ words).
  transitivity (py "{" ++
  json_string (py "grid") ++ py ": " ++ json_dumps (JList g) ++ py ", " ++
  json_string (py "words") ++ py ": " ++ json_dumps (JList ws) ++ py "}").
  { generalize (JList g) (JList ws). intros a b.
    change (json_dumps (JDict [(py "grid", a); (py "words", b)]))
      with (py "{" ++
            join (py ", ")
              (map (fun kv : str * str => json_string (fst kv) ++ py ": " ++ snd kv)
                 (sort_keys [(py "grid", json_dumps a); (py "words", json_dumps b)])) ++ py "}").
    generalize (json_dumps a) (json_dumps b). intros x y.
    change (sort_keys [(py "grid", x); (py "words", y)]) with [(py "grid", x); (py "words", y)].
    cbn [map join fst snd]. rewrite <- !app_assoc. reflexivity. }
  rewrite !json_dumps_list. subst g ws. rewrite !map_map.
  rewrite (map_ext _ row_text json_dumps_row).
  rewrite (map_ext _ word_text json_dumps_word).
  reflexivity.
Qed.

(** A code point that is not a surrogate. *)
Definition scalar (c : char) : Prop :=
  0 <= c < 55296 \/ 57344 <= c < 1114112.

Lemma utf8_char_total c : scalar c -> exists bs, utf8_char c = Some bs.
Proof.
  intros H. unfold scalar in H. unfold utf8_char.
  destruct (Z.ltb_spec c 0); [lia|].
  destruct (Z.ltb_spec c 128); [eauto|].
  destruct (Z.ltb_spec c 2048); [eauto|].
  destruct (Z.ltb_spec c 65536).
  - destruct (Z.leb_spec 55296 c); destruct (Z.leb_spec c 57343);
      simpl; eauto; lia.
  - destruct (Z.ltb_spec c 1114112); [eauto | lia].
Qed.

Lemma utf8_encode_total s :
  Forall scalar s -> exists data, utf8_encode s = Some data.
Proof.
  induction 1 as [|c s Hc _ [rest IH]]; simpl; [eauto|].
  destruct (utf8_char_total c Hc) as [bs ->]. rewrite IH. simpl. eauto.
Qed.

Definition ascii_str (s : str) : Prop := Forall (fun c => 0 <= c < 128) s.

Lemma ascii_scalar s : ascii_str s -> Forall scalar s.
Proof. apply Forall_impl. intros c H. left. lia. Qed.

Lemma json_escape_scalar c : scalar c -> Forall scalar (json_escape c).
Proof.
  intros H. unfold json_escape.
  repeat match goal with
         | |- context [if ?b then _ else _] => destruct b eqn:?
         end;
    try (apply ascii_scalar; repeat constructor; lia).
  - apply andb_true_iff in Heqb6. destruct Heqb6 as [E1 E2].
    apply Z.leb_le in E1. apply Z.ltb_lt in E2.
    apply Forall_app. split; [apply ascii_scalar; repeat constructor; lia|].
    assert (Hh : forall k, 0 <= k < 16 -> scalar (hex_digit k)).
    { intros k Hk. destruct (hex_digit_lower k Hk) as [E|E]; left; lia. }
    constructor; [|constructor; [|constructor]]; apply Hh.
    + split; [apply Z.div_pos; lia | apply Z.div_lt_upper_bound; lia].
    + apply Z.mod_pos_bound. lia.
  - constructor; [exact H | constructor].
Qed.

Lemma json_string_scalar s : Forall scalar s -> Forall scalar (json_string s).
Proof.
  intros H. unfold json_string.
  apply Forall_app. split; [apply ascii_scalar; repeat constructor; lia|].
  apply Forall_app. split; [|apply ascii_scalar; repeat constructor; lia].
  apply Forall_flat_map. revert H. apply Forall_impl.
  intros c. apply json_escape_scalar.
Qed.

Lemma uint_digits_scalar u : Forall scalar (uint_digits u).
Proof.
  induction u; simpl; [constructor|..]; (constructor; [left; lia | exact IHu]).
Qed.

Lemma int_repr_scalar z : Forall scalar (int_repr z).
Proof.
  unfold int_repr. destruct (Z.to_int z);
    [|constructor; [left; lia|]]; apply uint_digits_scalar.
Qed.

Lemma join_scalar sep parts :
  Forall scalar sep -> Forall (Forall scalar) parts ->
  Forall scalar (join sep parts).
Proof.
  intros Hsep. induction 1 as [|p rest Hp Hrest IH]; [constructor|].
  simpl. destruct rest as [|q rest]; [exact Hp|].
  apply Forall_app. split; [exact Hp|].
  apply Forall_app. split; [exact Hsep | exact IH].
Qed.


Lemma join_map_scalar {A} (f : A -> str) (l : list A) :
  Forall (fun x => Forall scalar (f x)) l ->
  Forall scalar (join (py ", ") (map f l)).
Proof.
  intros H. apply join_scalar; [apply ascii_scalar; repeat constructor; lia|].
  apply Forall_map. exact H.
Qed.

(** No string of the grid and no word holds a surrogate. *)
Definition encodable (grid : list (list str)) (words : list WordDict)
    : Prop :=
  Forall (Forall (Forall scalar)) grid /\
  Forall (fun w => Forall scalar (wd_word w)) words.

Definition scalarb (c : char) : bool :=
  ((0 <=? c) && (c <? 55296)) || ((57344 <=? c) && (c <? 1114112)).

Definition encodableb (grid : list (list str)) (words : list WordDict)
    : bool :=
  forallb (forallb (forallb scalarb)) grid &&
  forallb (fun w => forallb scalarb (wd_word w)) words.

Lemma forallb_Forall {A} (f : A -> bool) (P : A -> Prop) (l : list A) :
  (forall x, f x = true -> P x) -> forallb f l = true -> Forall P l.
Proof.
  intros H Hl. apply Forall_forall. intros x Hx. apply H.
  rewrite forallb_forall in Hl. apply Hl. exact Hx.
Qed.

Lemma encodableb_true grid words :
  encodableb grid words = true -> encodable grid words.
Proof.
  assert (Hs : forall s, forallb scalarb s = true -> Forall scalar s).
  { intros s. apply forallb_Forall. intros c H.
    unfold scalarb in H. unfold scalar.
    apply orb_true_iff in H. rewrite !andb_true_iff in H. lia. }
  unfold encodableb. intros H. apply andb_true_iff in H.
  destruct H as [Hg Hw]. split.
  - revert Hg. apply forallb_Forall. intros row. apply forallb_Forall.
    exact Hs.
  - revert Hw. apply forallb_Forall. intros w. apply Hs.
Qed.

Lemma crossword_content_scalar grid words :
  encodable grid words ->
  Forall scalar (json_dumps (crossword_content grid words)).
Proof.
  intros [Hg Hw]. rewrite crossword_content_text.
  assert (Hrow : forall row, Forall (Forall scalar) row ->
                             Forall scalar (row_text row)).
  { intros row H. unfold row_text.
    repeat first [apply join_map_scalar | apply Forall_app; split];
      try (apply ascii_scalar; repeat constructor; lia).
    revert H. apply Forall_impl. intros s. apply json_string_scalar. }
  assert (Hword : forall w, Forall scalar (wd_word w) ->
                            Forall scalar (word_text w)).
  { intros w H. unfold word_text.
    repeat first [apply json_string_scalar | apply int_repr_scalar
                  | apply Forall_app; split];
      try (apply ascii_scalar; repeat constructor; lia);
      [|exact H].
    apply ascii_scalar. destruct (wd_direction w); repeat constructor; lia. }
  repeat first [apply json_string_scalar | apply join_map_scalar
                | apply Forall_app; split];
    try (apply ascii_scalar; repeat constructor; lia).
  - revert Hg. apply Forall_impl. exact Hrow.
  - revert Hw. apply Forall_impl. exact Hword.
Qed.

(** [encode] raises on a surrogate only: without one, the fingerprint is
    computed. *)
Lemma generate_crossword_id_total grid words :
  encodable grid words ->
  exists data,
    utf8_encode (json_dumps (crossword_content grid words)) = Some data /\
    generate_crossword_id grid words = Some (firstn 16 (md5_hexdigest data)).
Proof.
  intros H.
  destruct (utf8_encode_total _ (crossword_content_scalar grid words H))
    as [data E].
  exists data. split; [exact E|].
  unfold generate_crossword_id. cbv zeta. rewrite E. reflexivity.
Qed.

(** The test vectors of RFC 1321. *)
Example md5_empty : md5_hexdigest [] = py "d41d8cd98f00b204e9800998ecf8427e".
Proof. vm_compute. reflexivity. Qed.

Example md5_abc :
  md5_hexdigest (string_bytes "abc") = py "900150983cd24fb0d6963f7d28e17f72".
Proof. vm_compute. reflexivity. Qed.

Example md5_two_blocks :
  md5_hexdigest (map (fun _ => 97) (range 0 70))
  = py "0f5c6c4e740bfcc08c3c26ccb2673d46".
Proof. vm_compute. reflexivity. Qed.

(** A grid of two rows with "АТОМ" across and "ТЕСТ" down. *)
Definition small_grid : list (list str) :=
  [[py "А"; py "Т"; py "О"; py "М"]; [[]; py "Е"; []; []]].

Definition small_words : list WordDict :=
  [mkWordDict (py "АТОМ") (py "Частица") [] 0 0 horizontal 4;
   mkWordDict (py "ТЕСТ") (py "Проверка") [] 0 1 vertical 4].

Example small_content :
  json_dumps (crossword_content small_grid small_words) =
  [123] ++ [34] ++ py "grid" ++ [34] ++ py ": [["
    ++ json_string (py "А") ++ py ", " ++ json_string (py "Т") ++ py ", "
    ++ json_string (py "О") ++ py ", " ++ json_string (py "М") ++ py "], ["
    ++ json_string [] ++ py ", " ++ json_string (py "Е") ++ py ", "
    ++ json_string [] ++ py ", " ++ json_string [] ++ py "]], "
    ++ json_string (py "words") ++ py ": [{"
    ++ json_string (py "direction") ++ py ": "
    ++ json_string (py "horizontal") ++ py ", "
    ++ json_string (py "startCol") ++ py ": 0, "
    ++ json_string (py "startRow") ++ py ": 0, "
    ++ json_string (py "word") ++ py ": " ++ json_string (py "АТОМ")
    ++ py "}, {"
    ++ json_string (py "direction") ++ py ": "
    ++ json_string (py "vertical") ++ py ", "
    ++ json_string (py "startCol") ++ py ": 1, "
    ++ json_string (py "startRow") ++ py ": 0, "
    ++ json_string (py "word") ++ py ": " ++ json_string (py "ТЕСТ")
    ++ py "}]}".
Proof. vm_compute. reflexivity. Qed.

Example small_id :
  generate_crossword_id small_grid small_words = Some (py "230e830d01c881d9").
Proof. vm_compute. reflexivity. Qed.

(** C9. The fingerprint is a function of (grid, words): equal inputs give
    equal results; it is computed for every input whose strings hold no
    surrogate (on one, [encode] raises); and every result is exactly 16
    characters, each a lower-case hexadecimal digit, the first 16
    characters of the MD5 hexdigest of the UTF-8 bytes of the canonical JSON
    text (sorted keys, non-ASCII characters as they are) of
    {grid, words[{word, startRow, startCol, direction}]}. *)
Theorem generate_crossword_id_format :
  (forall grid grid' words words',
     grid = grid' -> words = words' ->
     generate_crossword_id grid words = generate_crossword_id grid' words') /\
  (forall grid words,
     encodable grid words ->
     exists id, generate_crossword_id grid words = Some id) /\
  (forall grid words id,
     generate_crossword_id grid words = Some id ->
     List.length id = 16%nat /\
     Forall is_lower_hex id /\
     exists data,
       utf8_encode (json_dumps (crossword_content grid words)) = Some data /\
       id = firstn 16 (md5_hexdigest data)).
Proof.
  split; [|split].
  - intros grid grid' words words' -> ->. reflexivity.
  - intros grid words H.
    destruct (generate_crossword_id_total grid words H) as [data [_ E]].
    eauto.
  - intros grid words id H. unfold generate_crossword_id in H.
    destruct (utf8_encode (json_dumps (crossword_content grid words)))
      as [data|] eqn:E; [|discriminate].
    cbv beta iota delta [obind] in H.
    apply (f_equal (fun o => match o with Some x => x | None => [] end)) in H.
    cbv beta iota in H. subst id.
    destruct (md5_hexdigest_format data) as [Hl Hh].
    split; [rewrite length_firstn, Hl; reflexivity|].
    split; [apply Forall_firstn; exact Hh|].
    exists data. split; reflexivity.
Qed.

Lemma generate_crossword_id_format_witness :
  encodable small_grid small_words /\
  generate_crossword_id small_grid small_words
    = Some (py "230e830d01c881d9") /\
  (exists id, generate_crossword_id small_grid small_words = Some id) /\
  List.length (py "230e830d01c881d9") = 16%nat /\
  Forall is_lower_hex (py "230e830d01c881d9").
Proof.
  assert (He : encodable small_grid small_words)
    by (apply encodableb_true; vm_compute; reflexivity).
  assert (Hid : generate_crossword_id small_grid small_words
                = Some (py "230e830d01c881d9")) by (vm_compute; reflexivity).
  destruct generate_crossword_id_format as (_ & Htotal & Hformat).
  destruct (Hformat small_grid small_words _ Hid) as (H1 & H2 & _).
  split; [exact He|]. split; [exact Hid|].
  split; [exact (Htotal small_grid small_words He)|].
  split; [exact H1 | exact H2].
Defined.

(* ===================================================================== *)
(** * Ranking of the words *)
(* ===================================================================== *)

Definition score_of (w : WordEntry) : Z := calculate_word_score (word w).

(** X1. [sort_words_by_score] returns the entries it was given, each as
    often as it was given, in the order of non-increasing score, entries of
    equal score in the order they were given. *)
Theorem sort_words_by_score_ranked :
  forall words : list WordEntry,
    Permutation (sort_words_by_score words) words /\
    descending score_of (sort_words_by_score words) /\
    (forall k,
       filter (fun w => score_of w =? k) (sort_words_by_score words) =
       filter (fun w => score_of w =? k) words).
Proof.
  intros words. unfold sort_words_by_score. split; [|split].
  - apply sorted_desc_perm.
  - apply (sorted_desc_descending score_of).
  - intros k. apply (sorted_desc_stable score_of).
Qed.

Lemma len_filter_le {A} (f : A -> bool) (l : list A) :
  0 <= len (filter f l) <= len l.
Proof.
  unfold len. pose proof (filter_length_le f l). lia.
Qed.

Lemma filter_all {A} (f : A -> bool) (l : list A) :
  List.length (filter f l) = List.length l ->
  forall x, In x l -> f x = true.
Proof.
  induction l as [|y l IH]; intros E x Hx; [destruct Hx|].
  simpl in E. pose proof (filter_length_le f l) as Hle.
  destruct (f y) eqn:Ey; simpl in E; [|lia].
  destruct Hx as [<-|Hx]; [exact Ey | apply IH; [lia | exact Hx]].
Qed.

Lemma filter_id {A} (f : A -> bool) (l : list A) :
  (forall x, In x l -> f x = true) -> filter f l = l.
Proof.
  induction l as [|y l IH]; intros H; [reflexivity|].
  simpl. rewrite (H y (or_introl eq_refl)), IH; [reflexivity|].
  intros x Hx. apply H. right; exact Hx.
Qed.

(** X2. The score of a word is ten points for each character of its upper
    case and five more for each of them among the fifteen most frequent
    letters: between 10 and 15 times the length, and 15 times the length
    exactly when every character is one of these fifteen; and the score of
    a word is the score of its upper case. *)
Theorem calculate_word_score_bounds :
  forall w : str,
    10 * len (upper w) <= calculate_word_score w <= 15 * len (upper w) /\
    calculate_word_score (upper w) = calculate_word_score w /\
    (calculate_word_score w = 15 * len (upper w) <->
     Forall (fun c => In c (py "ОЕАИНТСРВЛКМДПУ")) (upper w)).
Proof.
  intros w. unfold calculate_word_score.
  set (top := firstn 15 get_common_letters).
  pose proof (len_filter_le (fun c => char_in c top) (upper w)) as H.
  split; [lia|]. split; [rewrite upper_idem; reflexivity|].
  assert (Htop : top = py "ОЕАИНТСРВЛКМДПУ") by (vm_compute; reflexivity).
  rewrite <- Htop.
  assert (Hin : forall c, char_in c top = true <-> In c top).
  { intros c. unfold char_in. rewrite existsb_exists. split.
    - intros [x [Hx E]]. apply Z.eqb_eq in E. subst. exact Hx.
    - intros Hc. exists c. split; [exact Hc | apply Z.eqb_refl]. }
  split.
  - intros E. apply Forall_forall. intros c Hc. apply Hin.
    apply (filter_all (fun c => char_in c top) (upper w));
      [unfold len in *; lia | exact Hc].
  - intros Hall.
    rewrite (filter_id (fun c => char_in c top) (upper w)); [lia|].
    intros c Hc. apply Hin. rewrite Forall_forall in Hall. auto.
Qed.

(* ===================================================================== *)
(** * Grid: cells, crop and the invariants of placement *)
(* ===================================================================== *)

(** X3. [set_cell] and [get_cell] on a Grid object: [set_cell] returns
    True exactly for a cell of the board; then [get_cell] reads the written
    value at that cell and the old value at every other cell, and the
    dimensions and the placed words are as before. Off the board
    [set_cell] changes nothing and [get_cell] reads [EMPTY]. *)
Theorem set_cell_get_cell :
  forall (g : Grid) (row col : Z) (ch : str),
    grid_state g ->
    let inside := 0 <= row < grid_height g /\ 0 <= col < grid_width g in
    let g' := exec (set_cell row col ch) g in
    (eval (set_cell row col ch) g = true <-> inside) /\
    (~ inside -> g' = g /\ eval (get_cell row col) g = EMPTY) /\
    (inside ->
       eval (get_cell row col) g' = ch /\
       (forall r c, (r, c) <> (row, col) ->
                    eval (get_cell r c) g' = eval (get_cell r c) g) /\
       grid_height g' = grid_height g /\ grid_width g' = grid_width g /\
       grid_size g' = grid_size g /\ placed_words g' = placed_words g).
Proof.
  intros g row col ch Hst inside g'. subst g'.
  change (eval (set_cell row col ch) g) with (fst (set_cell row col ch g)).
  change (exec (set_cell row col ch) g) with (snd (set_cell row col ch g)).
  rewrite run_set_cell.
  destruct (in_bounds (grid_height g) (grid_width g) row col) eqn:E.
  - pose proof (proj1 (in_bounds_true _ _ _ _) E) as Hin.
    split; [split; [intros _; exact Hin | reflexivity]|].
    split; [intros Hn; contradiction|]. intros _.
    assert (Hwf : grid_wf g).
    { destruct (grid_state_shape g Hst) as [[Hwf _]|(Hh & _)];
        [exact Hwf | lia]. }
    cbn [fst snd].
    change (eval (get_cell row col) (write_cell row col ch g))
      with (cell (write_cell row col ch g) row col).
    rewrite cell_write_cell by (auto; lia).
    rewrite !Z.eqb_refl. split; [reflexivity|].
    split; [|repeat split].
    intros r c Hne.
    change (eval (get_cell r c) (write_cell row col ch g))
      with (cell (write_cell row col ch g) r c).
    rewrite cell_write_cell by (auto; lia).
    destruct (Z.eqb_spec r row); destruct (Z.eqb_spec c col);
      try reflexivity. subst. contradiction.
  - assert (Hout : ~ inside).
    { intros Hin. apply in_bounds_true in Hin. congruence. }
    split; [split; [discriminate | intros Hin; contradiction]|].
    split; [|intros Hin; contradiction].
    intros _. split; [reflexivity|].
    apply (cell_outside g row col). exact Hout.
Qed.

Lemma set_cell_get_cell_witness :
  grid_state (Grid_init 10) /\
  eval (set_cell 2 3 (py "Я")) (Grid_init 10) = true /\
  eval (get_cell 2 3) (exec (set_cell 2 3 (py "Я")) (Grid_init 10)) = py "Я".
Proof.
  assert (Hst : grid_state (Grid_init 10)) by apply gs_init.
  destruct (set_cell_get_cell (Grid_init 10) 2 3 (py "Я") Hst)
    as (H1 & _ & H3).
  assert (Hin : 0 <= 2 < grid_height (Grid_init 10) /\
                0 <= 3 < grid_width (Grid_init 10)) by (simpl; lia).
  split; [exact Hst|]. split; [apply H1; exact Hin|].
  exact (proj1 (H3 Hin)).
Defined.

(** ** The crop is a translation *)

Lemma scan_bounds_covers g r c :
  0 <= r < grid_height g -> 0 <= c < grid_width g ->
  filled (grid_cells g) r c ->
  let '(mr, xr, mc, xc) := scan_bounds g in
  mr <= r <= xr /\ mc <= c <= xc.
Proof.
  intros Hr Hc Hf.
  pose proof (bstep_fold_spec (grid_cells g)
                (all_cells (grid_height g) (grid_width g))
                (grid_height g, 0, grid_width g, 0)) as H.
  unfold scan_bounds. simpl in H.
  destruct (fold_left _ _ _) as [[[mr xr] mc] xc].
  destruct H as (_ & Hcov & _).
  apply Hcov; [apply in_all_cells; lia | exact Hf].
Qed.

Lemma cell_cropped g mr xr mc xc r c :
  grid_wf g -> bounds_inside g (mr, xr, mc, xc) ->
  mr <= xr -> mc <= xc ->
  cell (cropped g (mr, xr, mc, xc)) r c =
  if in_bounds (xr - mr + 1) (xc - mc + 1) r c
  then cell g (mr + r) (mc + c) else EMPTY.
Proof.
  intros Hwf Hb Hr Hc. unfold bounds_inside in Hb.
  rewrite (cell_eq (cropped g (mr, xr, mc, xc))).
  change (grid_height (cropped g (mr, xr, mc, xc))) with (xr - mr + 1).
  change (grid_width (cropped g (mr, xr, mc, xc))) with (xc - mc + 1).
  destruct (in_bounds (xr - mr + 1) (xc - mc + 1) r c) eqn:E;
    [|reflexivity].
  apply in_bounds_true in E.
  rewrite cell_at_cropped by lia.
  rewrite (cell_eq g).
  assert (E' : in_bounds (grid_height g) (grid_width g) (mr + r) (mc + c)
               = true) by (apply in_bounds_true; lia).
  rewrite E'. reflexivity.
Qed.

(** What a crop that returns has done: nothing on a board without a
    letter, and else the cut to the bounds of the letters. *)
Lemma crop_empty_edges_cases g hw g1 :
  grid_shape g -> crop_empty_edges g = Some (hw, g1) ->
  grid_wf g /\
  ((hw = (0, 0) /\ g1 = g /\ forall r c, cell g r c = EMPTY) \/
   (exists mr xr mc xc,
      scan_bounds g = (mr, xr, mc, xc) /\ tight g (mr, xr, mc, xc) /\
      hw = (xr - mr + 1, xc - mc + 1) /\
      g1 = cropped g (mr, xr, mc, xc))).
Proof.
  intros [[Hwf H0]|[Hh [Hw Hc]]] Hcrop.
  2:{ rewrite crop_empty_edges_negative in Hcrop by auto. discriminate. }
  split; [exact Hwf|].
  destruct (Z.eq_dec (grid_height g) 0) as [Hz|Hnz].
  { rewrite crop_empty_edges_no_rows in Hcrop by auto. discriminate. }
  assert (Hpos : 0 < grid_height g).
  { destruct Hwf as [Hh _]. pose proof (len_nonneg (grid_cells g)). lia. }
  pose proof (crop_empty_edges_wf g Hwf) as Hc.
  pose proof (scan_bounds_tight g Hpos) as Ht.
  pose proof (scan_bounds_covers g) as Hcov.
  destruct (scan_bounds g) as [[[mr xr] mc] xc] eqn:Eb.
  destruct Hc as [Hc1 Hc2].
  destruct (Z_gt_le_dec mr xr) as [Hgt|Hle].
  - rewrite Hc1 in Hcrop by exact Hgt. inversion Hcrop; subst.
    left. split; [reflexivity|]. split; [reflexivity|].
    intros r c. rewrite cell_eq.
    destruct (in_bounds _ _ r c) eqn:E; [|reflexivity].
    apply in_bounds_true in E.
    destruct (is_empty (cell_at (grid_cells g1) r c)) eqn:Ee.
    + apply is_empty_true. exact Ee.
    + apply is_empty_false in Ee.
      specialize (Hcov r c ltac:(lia) ltac:(lia) Ee). lia.
  - specialize (Ht Hle).
    assert (Hin : bounds_inside g (mr, xr, mc, xc)).
    { unfold tight in Ht. unfold bounds_inside. lia. }
    rewrite (Hc2 Hle Hin) in Hcrop. inversion Hcrop; subst. clear Hcrop.
    right. exists mr, xr, mc, xc.
    split; [reflexivity|]. split; [exact Ht|]. split; reflexivity.
Qed.

Lemma cell_filled g r c :
  cell g r c <> EMPTY ->
  (0 <= r < grid_height g /\ 0 <= c < grid_width g) /\
  filled (grid_cells g) r c.
Proof.
  intros H. rewrite cell_eq in H.
  destruct (in_bounds _ _ r c) eqn:E; [|contradiction].
  apply in_bounds_true in E. split; [exact E | exact H].
Qed.

Lemma cell_cropped_shift g mr xr mc xc r c :
  grid_wf g -> scan_bounds g = (mr, xr, mc, xc) ->
  tight g (mr, xr, mc, xc) ->
  cell (cropped g (mr, xr, mc, xc)) r c = cell g (r + mr) (c + mc).
Proof.
  intros Hwf Eb Ht. pose proof Ht as Ht'. unfold tight in Ht'.
  rewrite cell_cropped by (auto; unfold bounds_inside; lia).
  replace (mr + r) with (r + mr) by lia.
  replace (mc + c) with (c + mc) by lia.
  destruct (in_bounds (xr - mr + 1) (xc - mc + 1) r c) eqn:E;
    [reflexivity|].
  destruct (is_empty (cell g (r + mr) (c + mc))) eqn:Ee.
  - apply is_empty_true in Ee. symmetry. exact Ee.
  - apply is_empty_false in Ee. apply cell_filled in Ee.
    destruct Ee as [Hin Hf].
    pose proof (scan_bounds_covers g (r + mr) (c + mc)
                  (proj1 Hin) (proj2 Hin) Hf) as Hcov.
    rewrite Eb in Hcov.
    assert (in_bounds (xr - mr + 1) (xc - mc + 1) r c = true)
      by (apply in_bounds_true; lia).
    congruence.
Qed.

(** X4. A crop that returns is a translation of the board: for some
    offset, the cell (r, c) after the crop is the cell
    (r + row offset, c + column offset) before it, for every r and c, so
    that no letter is lost, and every placed word has moved by that
    offset. On a board without a letter the crop returns (0, 0) and changes
    nothing; on any other board it returns the new height and width, and
    the first and the last row and column of the new board each hold a
    letter. *)
Theorem crop_empty_edges_translation :
  forall (g : Grid) (hw : Z * Z) (g1 : Grid),
    grid_state g ->
    crop_empty_edges g = Some (hw, g1) ->
    exists a b,
      (forall r c, cell g1 r c = cell g (r + a) (c + b)) /\
      placed_words g1 = map (shift_word a b) (placed_words g) /\
      (((forall r c, cell g r c = EMPTY) /\ hw = (0, 0) /\ g1 = g) \/
       (hw = (grid_height g1, grid_width g1) /\
        0 < grid_height g1 <= grid_height g /\
        0 < grid_width g1 <= grid_width g /\
        (exists c, cell g1 0 c <> EMPTY) /\
        (exists c, cell g1 (grid_height g1 - 1) c <> EMPTY) /\
        (exists r, cell g1 r 0 <> EMPTY) /\
        (exists r, cell g1 r (grid_width g1 - 1) <> EMPTY))).
Proof.
  intros g hw g1 Hst Hc.
  destruct (crop_empty_edges_cases g hw g1 (grid_state_shape g Hst) Hc)
    as [Hwf [(-> & -> & He)|(mr & xr & mc & xc & Eb & Ht & -> & ->)]].
  - exists 0, 0. split; [intros r c; rewrite !Z.add_0_r; reflexivity|].
    split; [symmetry; apply shift_word_0|]. left. auto.
  - exists mr, mc.
    assert (Hcell : forall r c,
              cell (cropped g (mr, xr, mc, xc)) r c
              = cell g (r + mr) (c + mc))
      by (intros r c; apply cell_cropped_shift; assumption).
    split; [exact Hcell|].
    split; [reflexivity|]. right.
    change (grid_height (cropped g (mr, xr, mc, xc))) with (xr - mr + 1).
    change (grid_width (cropped g (mr, xr, mc, xc))) with (xc - mc + 1).
    unfold tight in Ht.
    destruct Ht as (T1 & T2 & T3 & T4 & T5 & T6 &
                    [c1 [B1 F1]] & [c2 [B2 F2]] & [r3 [B3 F3]] & [r4 [B4 F4]]).
    assert (Hcell' : forall r c,
              0 <= r < grid_height g -> 0 <= c < grid_width g ->
              filled (grid_cells g) r c ->
              cell (cropped g (mr, xr, mc, xc)) (r - mr) (c - mc) <> EMPTY).
    { intros r c Hr Hcc Hf. rewrite Hcell.
      replace (r - mr + mr) with r by lia.
      replace (c - mc + mc) with c by lia.
      rewrite cell_eq.
      assert (E : in_bounds (grid_height g) (grid_width g) r c = true)
        by (apply in_bounds_true; lia).
      rewrite E. exact Hf. }
    split; [reflexivity|]. split; [lia|]. split; [lia|].
    split; [|split; [|split]].
    + exists (c1 - mc). replace 0 with (mr - mr) by lia.
      apply Hcell'; [lia | lia | exact F1].
    + exists (c2 - mc). replace (xr - mr + 1 - 1) with (xr - mr) by lia.
      apply Hcell'; [lia | lia | exact F2].
    + exists (r3 - mr). replace 0 with (mc - mc) by lia.
      apply Hcell'; [lia | lia | exact F3].
    + exists (r4 - mr). replace (xc - mc + 1 - 1) with (xc - mc) by lia.
      apply Hcell'; [lia | lia | exact F4].
Qed.

Lemma crop_empty_edges_translation_witness :
  grid_state grid_test /\
  exists g1,
    crop_empty_edges grid_test = Some ((1, 4), g1) /\
    exists a b, forall r c, cell g1 r c = cell grid_test (r + a) (c + b).
Proof.
  assert (Hs : grid_state grid_test) by (apply gs_place_word; apply gs_init).
  split; [exact Hs|].
  destruct (crop_empty_edges grid_test) as [[hw g1]|] eqn:E;
    [|vm_compute in E; discriminate].
  assert (Hhw : hw = (1, 4)) by (vm_compute in E; congruence).
  subst hw. exists g1. split; [reflexivity|].
  destruct (crop_empty_edges_translation grid_test (1, 4) g1 Hs E)
    as (a & b & H & _).
  exists a, b. exact H.
Defined.

(** ** What holds on every grid built by placing and cropping *)

(** The grids built from an empty one by [place_word] and
    [crop_empty_edges] (no [set_cell] from outside the class). *)
Inductive built : Grid -> Prop :=
| built_init : forall size, built (Grid_init size)
| built_place_word : forall g word clue hint row col d,
    built g -> built (exec (place_word word clue hint row col d) g)
| built_crop : forall g hw g1,
    built g -> crop_empty_edges g = Some (hw, g1) -> built g1.

(** Every letter on the board is a letter of a placed word. *)
Definition covered (g : Grid) : Prop :=
  forall r c, cell g r c <> EMPTY ->
  exists p, In p (placed_words g) /\ covers p (r, c).

Lemma cell_of_shift a b row col d k :
  cell_of (row - a) (col - b) d k =
  (fst (cell_of row col d k) - a, snd (cell_of row col d k) - b).
Proof. destruct d; simpl; f_equal; lia. Qed.

Lemma covers_unshift a b p rc :
  covers (shift_word a b p) rc -> covers p (fst rc + a, snd rc + b).
Proof.
  intros [k [Hk E]]. exists k. split; [exact Hk|].
  unfold shift_word in E. simpl in E. rewrite cell_of_shift in E.
  destruct (cell_of (pw_row p) (pw_col p) (pw_direction p) k) as [r c].
  destruct rc as [r' c']. simpl in *. inversion E. f_equal; lia.
Qed.

Section Translated.
Variables (g g1 : Grid) (a b : Z).
Hypothesis Hcell : forall r c, cell g1 r c = cell g (r + a) (c + b).
Hypothesis Hwords : placed_words g1 = map (shift_word a b) (placed_words g).

Lemma translated_consistent : consistent g -> consistent g1.
Proof.
  intros Hc p Hp k ch Hk. rewrite Hwords in Hp. apply in_map_iff in Hp.
  destruct Hp as [q [<- Hq]]. simpl in *.
  specialize (Hc q Hq k ch Hk). rewrite cell_of_shift.
  unfold cell_p in *. simpl. rewrite Hcell.
  destruct (cell_of (pw_row q) (pw_col q) (pw_direction q) (Z.of_nat k))
    as [r c]. simpl in *.
  replace (r - a + a) with r by lia. replace (c - b + b) with c by lia.
  exact Hc.
Qed.

Lemma translated_covered : covered g -> covered g1.
Proof.
  intros Hc r c Hne. rewrite Hcell in Hne.
  destruct (Hc _ _ Hne) as [p [Hp Hcov]].
  exists (shift_word a b p). split.
  - rewrite Hwords. apply in_map. exact Hp.
  - apply (covers_shift a b) in Hcov. simpl in Hcov.
    replace (r + a - a) with r in Hcov by lia.
    replace (c + b - b) with c in Hcov by lia. exact Hcov.
Qed.

Lemma translated_touch_ok : touch_ok g -> touch_ok g1.
Proof.
  intros Ht d r c H1 H2. rewrite Hcell in H1.
  unfold cell_p in H2. rewrite Hcell in H2.
  assert (E : (fst (cell_of r c d 1) + a, snd (cell_of r c d 1) + b)
              = cell_of (r + a) (c + b) d 1)
    by (destruct d; simpl; f_equal; lia).
  destruct (Ht d (r + a) (c + b) H1) as (p & Hp & Hd & C1 & C2).
  { unfold cell_p. rewrite <- E. exact H2. }
  exists (shift_word a b p). split; [rewrite Hwords; apply in_map; exact Hp|].
  split; [exact Hd|]. split.
  - apply (covers_shift a b) in C1. simpl in C1.
    replace (r + a - a) with r in C1 by lia.
    replace (c + b - b) with c in C1 by lia. exact C1.
  - apply (covers_shift a b) in C2. rewrite <- E in C2. simpl in C2.
    replace (fst (cell_of r c d 1) + a - a) with (fst (cell_of r c d 1))
      in C2 by lia.
    replace (snd (cell_of r c d 1) + b - b) with (snd (cell_of r c d 1))
      in C2 by lia.
    destruct (cell_of r c d 1). exact C2.
Qed.

End Translated.

Lemma covered_place_word g w cl hi row col d :
  grid_inv g -> covered g ->
  covered (exec (place_word w cl hi row col d) g).
Proof.
  intros Hinv Hcov. unfold exec. rewrite run_place_word.
  destruct (eval (can_place_word w row col d) g) eqn:Hcan; [|exact Hcov].
  simpl.
  pose proof (pk_facts g w cl hi row col d Hinv Hcan)
    as (_ & _ & _ & _ & P1 & _ & C2).
  intros r c Hne.
  destruct (on_word_dec row col d (len (upper w)) r c)
    as [[k [Hk Ek]]|Hno].
  - exists (mkPlacedWord (upper w) cl hi row col d). split.
    + rewrite P1. apply in_or_app. right. left. reflexivity.
    + exists k. split; [exact Hk | exact Ek].
  - rewrite C2 in Hne by exact Hno.
    destruct (Hcov _ _ Hne) as [p [Hp Hc]].
    exists p. split; [rewrite P1; apply in_or_app; left; exact Hp | exact Hc].
Qed.

(** The invariant of a built grid, or the grid of [Grid(size)] for a
    negative [size], which has no cell and takes no word. *)
Definition built_inv (g : Grid) : Prop :=
  (grid_inv g /\ covered g) \/
  (grid_height g < 0 /\ grid_width g < 0 /\ grid_cells g = [] /\
   placed_words g = []).

Lemma built_grid_state g : built g -> grid_state g.
Proof.
  induction 1.
  - apply gs_init.
  - apply gs_place_word; assumption.
  - eapply gs_crop; eassumption.
Qed.

Lemma built_built_inv g : built g -> built_inv g.
Proof.
  induction 1 as [size|g w cl hi row col d _ IH|g hw g1 Hb IH Hc].
  - destruct (Z_le_gt_dec 0 size) as [Hs|Hs].
    + left. split; [apply grid_inv_init; exact Hs|].
      intros r c Hne. exfalso. apply Hne. apply cell_init.
    + right. simpl. repeat split; try lia.
      unfold range. replace (Z.to_nat (size - 0)) with O by lia. reflexivity.
  - destruct IH as [[Hinv Hcov]|(Hh & Hw & Hcells & Hp)].
    + left. split; [apply grid_inv_place_word; exact Hinv|].
      apply covered_place_word; assumption.
    + right. unfold exec. rewrite run_place_word.
      destruct (eval (can_place_word w row col d) g) eqn:Hcan;
        [|simpl; auto].
      apply can_place_word_true in Hcan. destruct Hcan as [Hfit _].
      unfold fits in Hfit. pose proof (len_nonneg (upper w)).
      destruct d; lia.
  - destruct IH as [[Hinv Hcov]|(Hh & Hw & Hcells & Hp)].
    2:{ rewrite crop_empty_edges_negative in Hc by auto. discriminate. }
    destruct Hinv as (Hwf & Hcons & Ht).
    pose proof (grid_state_shape g (built_grid_state g Hb)) as Hshape.
    pose proof (crop_empty_edges_shape g hw g1 Hshape Hc) as [_ Hshape1].
    destruct (crop_empty_edges_cases g hw g1 Hshape Hc)
      as [_ [(_ & -> & _)|(mr & xr & mc & xc & Eb & Htight & _ & ->)]].
    + left. split; [split; [exact Hwf | split; assumption] | exact Hcov].
    + assert (Hcell : forall r c,
                cell (cropped g (mr, xr, mc, xc)) r c
                = cell g (r + mr) (c + mc))
        by (intros r c; apply cell_cropped_shift; assumption).
      assert (Hwf1 : grid_wf (cropped g (mr, xr, mc, xc))).
      { unfold tight in Htight.
        apply (grid_wf_cropped g (mr, xr, mc, xc)); lia. }
      left. split; [split; [exact Hwf1 | split]|].
      * apply (translated_consistent g _ mr mc Hcell eq_refl Hcons).
      * apply (translated_touch_ok g _ mr mc Hcell eq_refl Ht).
      * apply (translated_covered g _ mr mc Hcell eq_refl Hcov).
Qed.

(** X5. On every grid built from an empty one by [place_word] and
    [crop_empty_edges]: every placed word reads off the board (the k-th
    letter of the word is in the k-th cell from its origin along its
    direction); every letter on the board is a letter of a placed word;
    and when two cells next to each other in a row (or in a column) both
    hold a letter, one placed horizontal (vertical) word runs through
    both. *)
Theorem built_grid_is_crossword :
  forall g : Grid,
    built g ->
    (forall p k ch,
       In p (placed_words g) -> nth_error (pw_word p) k = Some ch ->
       cell_p g (cell_of (pw_row p) (pw_col p) (pw_direction p)
                         (Z.of_nat k)) = [ch]) /\
    (forall r c,
       cell g r c <> EMPTY ->
       exists p, In p (placed_words g) /\ covers p (r, c)) /\
    (forall d r c,
       cell g r c <> EMPTY -> cell_p g (cell_of r c d 1) <> EMPTY ->
       exists p, In p (placed_words g) /\ pw_direction p = d /\
                 covers p (r, c) /\ covers p (cell_of r c d 1)).
Proof.
  intros g Hb.
  destruct (built_built_inv g Hb)
    as [[(_ & Hc & Ht) Hcov]|(Hh & Hw & _ & Hp)].
  - split; [intros p k ch Hp Hk; apply (Hc p Hp k ch Hk)|].
    split; [exact Hcov | exact Ht].
  - assert (He : forall r c, cell g r c = EMPTY)
      by (intros r c; apply cell_outside; lia).
    split; [intros p k ch Hin; rewrite Hp in Hin; destruct Hin|].
    split; intros; exfalso; auto.
Qed.

Lemma built_grid_is_crossword_witness :
  built grid_atom /\
  cell grid_atom 5 1 = py "Т" /\
  exists p, In p (placed_words grid_atom) /\ covers p (5, 1).
Proof.
  assert (Hb : built grid_atom) by (apply built_place_word; apply built_init).
  destruct (built_grid_is_crossword grid_atom Hb) as (_ & Hcov & _).
  assert (Hc : cell grid_atom 5 1 = py "Т") by (vm_compute; reflexivity).
  split; [exact Hb|]. split; [exact Hc|].
  apply Hcov. rewrite Hc. discriminate.
Defined.

(* ===================================================================== *)
(** * Grid: the intersection search is complete *)
(* ===================================================================== *)

(** A loop whose body keeps [Q] and establishes it at one element of the
    list ends with [Q]. *)
Lemma for_fold_reaches {S A B} (Q : B -> Prop) (xs : list A) (acc : B)
    (body : B -> A -> State S B) s x :
  (forall b y, readonly (body b y)) ->
  In x xs ->
  (forall b, Q (eval (body b x) s)) ->
  (forall b y, Q b -> Q (eval (body b y) s)) ->
  Q (eval (for_fold xs acc body) s).
Proof.
  intros Hro Hin Hx Hkeep. revert acc.
  induction xs as [|y xs IH]; intros acc; [destruct Hin|].
  simpl. rewrite eval_bind by exact (Hro _ _).
  destruct Hin as [->|Hin].
  - apply for_fold_invariant; [exact Hro | apply Hx |].
    intros b z _ Hb. apply Hkeep. exact Hb.
  - apply IH. exact Hin.
Qed.

Lemma intersection_step_keeps g word p i pc acc jc t :
  In t acc -> In t (eval (intersection_step word p i pc acc jc) g).
Proof.
  intros H. unfold intersection_step. destruct jc as [j wc].
  destruct (pc =? wc); [|exact H].
  destruct (match pw_direction p with
            | horizontal => _ | vertical => _ end) as [[r c] d].
  rewrite eval_bind by apply readonly_can_place_word.
  destruct (eval (can_place_word word r c d) g); [|exact H].
  rewrite eval_bind by apply readonly__count_intersections.
  unfold ret, eval at 1; simpl. apply in_or_app. left. exact H.
Qed.

Lemma get_intersections_complete g word p i j row col d :
  In p (placed_words g) ->
  paired_with (upper word) p i j row col d ->
  eval (can_place_word word row col d) g = true ->
  In (row, col, d,
      len (filter (crosses g row col d) (enumerate (upper word))))
     (eval (get_intersections word) g).
Proof.
  intros Hp [[ch [Hi Hj]] [Hd Hcell]] Hcan.
  assert (Hro3 : forall i0 pc acc jc,
            readonly (intersection_step (upper word) p i0 pc acc jc))
    by (intros; apply readonly_intersection_step).
  unfold get_intersections.
  rewrite eval_bind by apply readonly_gets.
  change (eval (gets placed_words) g) with (placed_words g).
  set (t := (row, col, d,
             len (filter (crosses g row col d) (enumerate (upper word))))).
  apply (for_fold_reaches (fun acc => In t acc) _ _ _ g p).
  - intros acc q. apply readonly_for_fold. intros acc' [i0 pc].
    apply readonly_for_fold. intros; apply readonly_intersection_step.
  - exact Hp.
  - intros acc.
    apply (for_fold_reaches (fun acc => In t acc) _ _ _ g (Z.of_nat i, ch)).
    + intros acc' [i0 pc]. apply readonly_for_fold.
      intros; apply readonly_intersection_step.
    + apply in_enumerate. exists i. split; [reflexivity | exact Hi].
    + intros acc'.
      apply (for_fold_reaches (fun acc => In t acc) _ _ _ g
               (Z.of_nat j, ch)).
      * intros; apply readonly_intersection_step.
      * apply in_enumerate. exists j. split; [reflexivity | exact Hj].
      * intros acc''. unfold intersection_step.
        rewrite Z.eqb_refl.
        assert (Epos : match pw_direction p with
                       | horizontal =>
                         (pw_row p - Z.of_nat j, pw_col p + Z.of_nat i,
                          vertical)
                       | vertical =>
                         (pw_row p + Z.of_nat i, pw_col p - Z.of_nat j,
                          horizontal)
                       end = (row, col, d)).
        { subst d. destruct (pw_direction p); simpl in *;
            injection Hcell as E1 E2; repeat (f_equal; try lia). }
        rewrite Epos.
        rewrite eval_bind by apply readonly_can_place_word.
        rewrite eval_can_place_word_upper, Hcan.
        rewrite eval_bind by apply readonly__count_intersections.
        rewrite eval__count_intersections.
        unfold ret, eval at 1; simpl. apply in_or_app. right. left.
        reflexivity.
      * intros acc'' jc. apply intersection_step_keeps.
    + intros acc' [i0 pc] Hacc'. apply for_fold_invariant.
      * intros; apply readonly_intersection_step.
      * exact Hacc'.
      * intros b jc _. apply intersection_step_keeps.
  - intros acc q Hacc. apply for_fold_invariant.
    + intros acc' [i0 pc]. apply readonly_for_fold.
      intros; apply readonly_intersection_step.
    + exact Hacc.
    + intros acc' [i0 pc] _ Hacc'. apply for_fold_invariant.
      * intros; apply readonly_intersection_step.
      * exact Hacc'.
      * intros b jc _. apply intersection_step_keeps.
Qed.

(** X6. [get_intersections] finds every crossing: a tuple
    (row, col, direction, count) is in the list it returns if and only if
    the word, laid from (row, col) in that direction, passes
    [can_place_word], some letter of it lies on an equal letter of a
    placed word of the other direction, and count is the number of its
    letters that are on the board already. Without a placed word the list
    is empty. *)
Theorem get_intersections_exact :
  forall (g : Grid) (word : str),
    (forall row col d n,
       In (row, col, d, n) (eval (get_intersections word) g) <->
       eval (can_place_word word row col d) g = true /\
       n = len (filter (crosses g row col d) (enumerate (upper word))) /\
       exists p i j, In p (placed_words g) /\
                     paired_with (upper word) p i j row col d) /\
    (placed_words g = [] -> eval (get_intersections word) g = []).
Proof.
  intros g word. split.
  - intros row col d n. split.
    + intros Hin.
      pose proof (get_intersections_candidates g word) as H.
      rewrite Forall_forall in H. exact (H _ Hin).
    + intros (Hcan & -> & p & i & j & Hp & Hpair).
      apply (get_intersections_complete g word p i j); assumption.
  - intros Hnil. unfold get_intersections.
    rewrite eval_bind by apply readonly_gets.
    change (eval (gets placed_words) g) with (placed_words g).
    rewrite Hnil. reflexivity.
Qed.

(* ===================================================================== *)
(** * Validator: the connectivity check decides connectedness *)
(* ===================================================================== *)

Lemma fold_left_reaches {A B} (P Q : B -> Prop) (f : B -> A -> B)
    (l : list A) (b : B) (x : A) :
  P b -> (forall b y, P b -> P (f b y)) ->
  In x l ->
  (forall b, P b -> Q (f b x)) ->
  (forall b y, P b -> Q b -> Q (f b y)) ->
  Q (fold_left f l b).
Proof.
  intros Hb HP Hin Hx Hkeep. revert b Hb.
  induction l as [|y l IH]; intros b Hb; [destruct Hin|].
  simpl. destruct Hin as [->|Hin].
  - assert (H : P (f b x) /\ Q (f b x)) by (split; auto).
    revert H. generalize (f b x). clear Hb b. intros b [Hb Hq].
    revert b Hb Hq. clear IH. induction l as [|z l IH]; intros b Hb Hq;
      [exact Hq|].
    simpl. apply IH; auto.
  - apply IH; auto.
Qed.

Lemma indexed_In {A} (l : list A) i x :
  nth_error l i = Some x ->
  In (i, x) (combine (seq 0 (List.length l)) l).
Proof.
  intros H.
  assert (G : forall s, In (s + i, x)%nat
                          (combine (seq s (List.length l)) l)).
  { revert i H. induction l as [|y l IH]; intros i H s;
      [destruct i; discriminate|].
    destruct i as [|i]; simpl in *.
    - inversion H; subst. left. f_equal. lia.
    - right. replace (s + S i)%nat with (S s + i)%nat by lia.
      apply IH. exact H. }
  exact (G O).
Qed.

Lemma set_add_keeps x s y : In y s -> In y (set_add x s).
Proof.
  unfold set_add. destruct (existsb (Nat.eqb x) s); [auto|].
  intros H. apply in_or_app. left; exact H.
Qed.

Lemma set_add_adds x s : In x (set_add x s).
Proof.
  unfold set_add. destruct (existsb (Nat.eqb x) s) eqn:E.
  - apply existsb_exists in E. destruct E as [y [Hy E]].
    apply Nat.eqb_eq in E. subst. exact Hy.
  - apply in_or_app. right. left. reflexivity.
Qed.

Lemma adjacency_add_length adjacency i j :
  List.length (adjacency_add adjacency i j) = List.length adjacency.
Proof. unfold adjacency_add. apply length_list_set. Qed.

Lemma adjacency_add_keeps adjacency i j a b :
  In b (nth a adjacency []) -> In b (nth a (adjacency_add adjacency i j) []).
Proof.
  intros H. unfold adjacency_add. rewrite nth_list_set.
  destruct ((i =? a)%nat && (i <? List.length adjacency)%nat) eqn:E;
    [|exact H].
  apply andb_true_iff in E. destruct E as [E _]. apply Nat.eqb_eq in E.
  subst. apply set_add_keeps. exact H.
Qed.

Lemma adjacency_add_adds adjacency i j :
  (i < List.length adjacency)%nat ->
  In j (nth i (adjacency_add adjacency i j) []).
Proof.
  intros H. unfold adjacency_add. rewrite nth_list_set.
  rewrite Nat.eqb_refl. destruct (Nat.ltb_spec i (List.length adjacency));
    [|lia]. simpl. apply set_add_adds.
Qed.

(** Two different words that share a cell are in each other's set. *)
Lemma build_adjacency_complete words i j :
  (i < j)%nat -> linked words i j ->
  In j (nth i (build_adjacency words) []) /\
  In i (nth j (build_adjacency words) []).
Proof.
  intros Hij (p & q & Hp & Hq & Hs).
  assert (Hi : (i < List.length words)%nat)
    by (apply nth_error_Some; congruence).
  assert (Hj : (j < List.length words)%nat)
    by (apply nth_error_Some; congruence).
  unfold build_adjacency.
  set (n := List.length words).
  set (indexed := combine (seq 0 n) words).
  set (P := fun adj : list (list nat) => List.length adj = n).
  set (Q := fun adj : list (list nat) =>
              In j (nth i adj []) /\ In i (nth j adj [])).
  set (inner := fun (i0 : nat) (word1 : PlacedWord)
                    (adjacency : list (list nat)) '(j0, word2) =>
                  if (j0 <=? i0)%nat then adjacency
                  else if _words_intersect word1 word2
                       then adjacency_add (adjacency_add adjacency i0 j0) j0 i0
                       else adjacency).
  assert (HPinner : forall i0 w1 adj y, P adj -> P (inner i0 w1 adj y)).
  { intros i0 w1 adj [j0 w2] Ha. unfold inner, P in *.
    destruct (j0 <=? i0)%nat; [exact Ha|].
    destruct (_words_intersect w1 w2); [|exact Ha].
    rewrite !adjacency_add_length. exact Ha. }
  assert (HQinner : forall i0 w1 adj y, Q adj -> Q (inner i0 w1 adj y)).
  { intros i0 w1 adj [j0 w2] [Q1 Q2]. unfold inner, Q in *.
    destruct (j0 <=? i0)%nat; [auto|].
    destruct (_words_intersect w1 w2); [|auto].
    split; apply adjacency_add_keeps, adjacency_add_keeps; assumption. }
  apply (fold_left_reaches P Q
           (fun adjacency '(i0, word1) =>
              fold_left (inner i0 word1) indexed adjacency)
           indexed _ (i, p)).
  - unfold P. rewrite length_map, length_seq. reflexivity.
  - intros adj [i0 w1] Ha. apply fold_left_invariant; [exact Ha|].
    intros b y _ Hb. apply HPinner. exact Hb.
  - apply indexed_In. exact Hp.
  - intros adj Ha.
    apply (fold_left_reaches P Q (inner i p) indexed adj (j, q)).
    + exact Ha.
    + intros b y Hb. apply HPinner. exact Hb.
    + apply indexed_In. exact Hq.
    + intros b Hb. unfold inner, Q.
      destruct (Nat.leb_spec j i); [lia|].
      rewrite (proj2 (_words_intersect_true p q) Hs).
      unfold P in Hb. split.
      * apply adjacency_add_keeps. apply adjacency_add_adds.
        rewrite Hb. exact Hi.
      * apply adjacency_add_adds. rewrite adjacency_add_length, Hb.
        exact Hj.
    + intros b y _ Hq'. apply HQinner. exact Hq'.
  - intros adj [i0 w1] _ Hq'. apply fold_left_invariant; [exact Hq'|].
    intros b y _ Hb. apply HQinner. exact Hb.
Qed.

(** The body of the inner loop of the search. *)
Definition bfs_step (vq : list nat * list nat) (neighbor : nat)
    : list nat * list nat :=
  let '(visited, queue) := vq in
  if existsb (Nat.eqb neighbor) visited then (visited, queue)
  else (visited ++ [neighbor], queue ++ [neighbor]).

Lemma bfs_round adjacency rounds visited current queue' :
  bfs adjacency (S rounds) visited (current :: queue') =
  bfs adjacency rounds
      (fst (fold_left bfs_step (nth current adjacency []) (visited, queue')))
      (snd (fold_left bfs_step (nth current adjacency []) (visited, queue'))).
Proof.
  simpl.
  match goal with
  | |- context [fold_left ?f (nth current adjacency []) (visited, queue')] =>
    assert (E : forall l a, fold_left f l a = fold_left bfs_step l a)
  end.
  { induction l as [|k l IH]; intros [v q]; [reflexivity|].
    simpl. rewrite IH. reflexivity. }
  rewrite E.
  destruct (fold_left bfs_step (nth current adjacency []) (visited, queue'));
    reflexivity.
Qed.

Lemma existsb_eqb_In k l : existsb (Nat.eqb k) l = true <-> In k l.
Proof.
  rewrite existsb_exists. split.
  - intros [x [Hx E]]. apply Nat.eqb_eq in E. subst. exact Hx.
  - intros H. exists k. split; [exact H | apply Nat.eqb_refl].
Qed.

Lemma bfs_step_fold nbrs : forall v q,
  let vq := fold_left bfs_step nbrs (v, q) in
  incl v (fst vq) /\ incl q (snd vq) /\
  (forall k, In k nbrs -> In k (fst vq)) /\
  (forall x, In x (fst vq) -> In x v \/ In x (snd vq)) /\
  (List.length (snd vq) + List.length v
   = List.length (fst vq) + List.length q)%nat /\
  (NoDup v -> NoDup (fst vq)) /\
  (forall x, In x (fst vq) -> In x v \/ In x nbrs).
Proof.
  induction nbrs as [|k nbrs IH]; intros v q; simpl.
  - split; [apply incl_refl|]. split; [apply incl_refl|].
    split; [intros k []|]. split; [intros x Hx; left; exact Hx|].
    split; [lia|]. split; [auto|]. intros x Hx; left; exact Hx.
  - unfold bfs_step at 2.
    destruct (existsb (Nat.eqb k) v) eqn:E.
    + apply existsb_eqb_In in E.
      destruct (IH v q) as (I1 & I2 & I3 & I4 & I5 & I6 & I7).
      repeat split; auto.
      * intros x [<-|Hx]; [apply I1; exact E | apply I3; exact Hx].
      * intros x Hx. destruct (I7 x Hx); auto.
    + assert (Hk : ~ In k v).
      { intros Hin. apply existsb_eqb_In in Hin. congruence. }
      destruct (IH (v ++ [k]) (q ++ [k])) as (I1 & I2 & I3 & I4 & I5 & I6 & I7).
      repeat split.
      * intros x Hx. apply I1. apply in_or_app. left; exact Hx.
      * intros x Hx. apply I2. apply in_or_app. left; exact Hx.
      * intros x [<-|Hx]; [|apply I3; exact Hx].
        apply I1. apply in_or_app. right. left. reflexivity.
      * intros x Hx. destruct (I4 x Hx) as [H|H]; [|right; exact H].
        apply in_app_or in H. destruct H as [H|[<-|[]]]; [left; exact H|].
        right. apply I2. apply in_or_app. right. left. reflexivity.
      * rewrite !length_app in I5. simpl in I5. lia.
      * intros Hnd. apply I6.
        apply NoDup_app_remove_l with (l := []). simpl.
        apply Permutation.Permutation_NoDup with (l := k :: v);
          [apply Permutation.Permutation_cons_append | constructor; auto].
      * intros x Hx. destruct (I7 x Hx) as [H|H]; [|auto].
        apply in_app_or in H. destruct H as [H|[<-|[]]]; auto.
Qed.

(** Every visited index that has left the queue has all its neighbours
    visited. *)
Definition bfs_closed (adjacency : list (list nat))
    (visited queue : list nat) : Prop :=
  forall v, In v visited -> ~ In v queue ->
  forall k, In k (nth v adjacency []) -> In k visited.

Lemma bfs_closed_result words adjacency :
  adjacency_sound words adjacency -> (0 < List.length words)%nat ->
  forall rounds visited queue,
    bfs_ok words visited queue ->
    (List.length queue + List.length words
     <= rounds + List.length visited)%nat ->
    bfs_closed adjacency visited queue ->
    incl visited (bfs adjacency rounds visited queue) /\
    bfs_closed adjacency (bfs adjacency rounds visited queue) [].
Proof.
  intros Hadj Hpos.
  assert (Hbound : forall visited queue, bfs_ok words visited queue ->
            (List.length visited <= List.length words)%nat).
  { intros visited queue (Hnd & Hpath & _).
    rewrite <- (length_seq (List.length words) 0).
    apply NoDup_incl_length; [exact Hnd|].
    intros v Hv. apply in_seq. split; [lia|]. simpl.
    apply (path_end_lt words 0 v); [exact Hpos | apply Hpath; exact Hv]. }
  induction rounds as [|rounds IH]; intros visited queue Hok Hlen Hcl.
  - pose proof (Hbound _ _ Hok) as Hb.
    destruct queue as [|current queue']; [|simpl in Hlen; lia].
    simpl. split; [apply incl_refl | exact Hcl].
  - destruct queue as [|current queue'].
    { simpl. split; [apply incl_refl | exact Hcl]. }
    rewrite bfs_round.
    pose proof (bfs_step_fold (nth current adjacency []) visited queue')
      as (I1 & I2 & I3 & I4 & I5 & I6 & I7).
    destruct (fold_left bfs_step (nth current adjacency [])
                        (visited, queue')) as [v' q'] eqn:Ef.
    simpl in *.
    destruct Hok as (H1 & H2 & H3).
    assert (Hcur : path words 0 current).
    { apply H2. apply H3. left; reflexivity. }
    assert (Hok' : bfs_ok words v' q').
    { split; [apply I6; exact H1|]. split.
      - intros x Hx. destruct (I7 x Hx) as [H|H]; [apply H2; exact H|].
        eapply path_step; [exact Hcur | apply Hadj; exact H].
      - intros x Hx. destruct (in_dec Nat.eq_dec x v') as [Hi|Hn];
          [exact Hi|].
        exfalso.
        assert (G : forall nbrs v q,
                  incl q v ->
                  incl (snd (fold_left bfs_step nbrs (v, q)))
                       (fst (fold_left bfs_step nbrs (v, q)))).
        { clear. induction nbrs as [|k nbrs IH]; intros v q Hq;
            [exact Hq|].
          change (fold_left bfs_step (k :: nbrs) (v, q))
            with (fold_left bfs_step nbrs (bfs_step (v, q) k)).
          assert (H : incl (snd (bfs_step (v, q) k))
                           (fst (bfs_step (v, q) k))).
          { unfold bfs_step. destruct (existsb (Nat.eqb k) v); simpl;
              [exact Hq|].
            intros y Hy. apply in_app_or in Hy. apply in_or_app.
            destruct Hy as [Hy|Hy];
              [left; apply Hq; exact Hy | right; exact Hy]. }
          destruct (bfs_step (v, q) k) as [v1 q1]. apply IH. exact H. }
        specialize (G (nth current adjacency []) visited queue').
        rewrite Ef in G. simpl in G. apply Hn. apply G; [|exact Hx].
        intros y Hy. apply H3. right; exact Hy. }
    assert (Hcl' : bfs_closed adjacency v' q').
    { intros v Hv Hnq k Hk.
      destruct (I4 v Hv) as [Hold|Hq]; [|contradiction].
      destruct (Nat.eq_dec v current) as [->|Hne].
      - apply I3. exact Hk.
      - apply I1. apply (Hcl v Hold); [|exact Hk].
        intros [Heq|Hin]; [congruence|]. apply Hnq. apply I2. exact Hin. }
    destruct (IH v' q' Hok' ltac:(lia) Hcl') as [J1 J2].
    split; [|exact J2].
    intros x Hx. apply J1. apply I1. exact Hx.
Qed.

Lemma check_all_words_connected_complete words :
  connected words -> check_all_words_connected words = true.
Proof.
  intros Hconn. unfold check_all_words_connected.
  destruct (List.length words <=? 1)%nat eqn:E; [reflexivity|].
  apply Nat.leb_gt in E. apply Nat.eqb_eq.
  set (adj := build_adjacency words).
  set (R := bfs adj (List.length words) [O] [O]).
  assert (Hok0 : bfs_ok words [O] [O]).
  { repeat split.
    - constructor; [intros [] | constructor].
    - intros v [<-|[]]. constructor.
    - intros x Hx; exact Hx. }
  assert (Hok : bfs_ok words R []).
  { apply bfs_sound; [apply build_adjacency_sound | exact Hok0]. }
  destruct (bfs_closed_result words adj (build_adjacency_sound words)
              ltac:(lia) (List.length words) [O] [O] Hok0
              ltac:(simpl; lia))
    as [Hincl Hclosed].
  { intros v [<-|[]] Hn. exfalso. apply Hn. left; reflexivity. }
  fold R in Hincl, Hclosed.
  assert (Hstep : forall a i, path words a i -> In a R -> In i R).
  { intros a i Hp. induction Hp as [i|i j k Hp IH Hl]; intros Ha;
      [exact Ha|].
    specialize (IH Ha).
    destruct (Nat.eq_dec j k) as [->|Hne]; [exact IH|].
    apply (Hclosed j IH); [intros []|].
    destruct (Nat.lt_ge_cases j k) as [Hlt|Hge].
    + apply (build_adjacency_complete words j k Hlt Hl).
    + apply (build_adjacency_complete words k j ltac:(lia)).
      apply linked_sym. exact Hl. }
  assert (Hreach : forall i, path words 0 i -> In i R).
  { intros i Hp. apply (Hstep O i Hp). apply Hincl. left; reflexivity. }
  destruct Hok as (Hnd & Hpath & _).
  apply Nat.le_antisymm.
  + rewrite <- (length_seq (List.length words) 0).
    apply NoDup_incl_length; [exact Hnd|].
    intros v Hv. apply in_seq. split; [lia|]. simpl.
    apply (path_end_lt words 0 v); [lia | apply Hpath; exact Hv].
  + rewrite <- (length_seq (List.length words) 0) at 1.
    apply NoDup_incl_length; [apply seq_NoDup|].
    intros v Hv. apply in_seq in Hv. apply Hreach.
    apply Hconn; lia.
Qed.

(** X7. [check_all_words_connected] decides whether the words are
    connected: it returns True if and only if every word can be reached
    from every other through words that share a cell. For no word and for
    one word it returns True. *)
Theorem check_all_words_connected_exact :
  forall words : list PlacedWord,
    (check_all_words_connected words = true <-> connected words) /\
    ((List.length words <= 1)%nat -> check_all_words_connected words = true).
Proof.
  intros words. split; [split|].
  - apply check_all_words_connected_sound.
  - apply check_all_words_connected_complete.
  - intros H. unfold check_all_words_connected.
    destruct (Nat.leb_spec (List.length words) 1); [reflexivity | lia].
Qed.

(* ===================================================================== *)
(** * Validator: the check for words side by side *)
(* ===================================================================== *)

Lemma parallel_adjacent_sym p q :
  parallel_adjacent p q -> parallel_adjacent q p.
Proof.
  intros (Hd & Hl & t & H1 & H2). split; [congruence|]. split; [lia|].
  exists t. split; assumption.
Qed.

Lemma parallel_adjacent_irrefl p : ~ parallel_adjacent p p.
Proof. intros (_ & Hl & _). lia. Qed.

Lemma Direction_eqb_eq a b : Direction_eqb a b = true <-> a = b.
Proof. destruct a, b; simpl; split; intros H; congruence. Qed.

(** The value of the inner loop of [check_no_adjacent_parallel] for the
    word [word1] at index [i]. *)
Definition side_by_side_after (i : nat) (word1 : PlacedWord)
    (jw : nat * PlacedWord) : option (option bool) :=
  if (fst jw <=? i)%nat then None
  else if negb (Direction_eqb (pw_direction word1) (pw_direction (snd jw)))
  then None
  else if _are_parallel_adjacent word1 (snd jw) then Some (Some false)
  else None.

Lemma eval_check_no_adjacent_parallel g :
  eval check_no_adjacent_parallel g = true <->
  forall i p j q,
    nth_error (placed_words g) i = Some p ->
    nth_error (placed_words g) j = Some q ->
    (i < j)%nat -> ~ parallel_adjacent p q.
Proof.
  unfold check_no_adjacent_parallel.
  rewrite eval_bind by apply readonly_gets.
  change (eval get_placed_words g) with (placed_words g).
  set (words := placed_words g).
  set (indexed := combine (seq 0 (List.length words)) words).
  assert (Hinner : forall i w1,
            eval (for_return indexed
                    (fun '(j, word2) =>
                       if (j <=? i)%nat then ret None
                       else if negb (Direction_eqb (pw_direction w1)
                                                   (pw_direction word2))
                       then ret None
                       else if _are_parallel_adjacent w1 word2
                       then ret (Some (Some false))
                       else ret None)
                    (ret None)) g
            = match first_return indexed (side_by_side_after i w1) with
              | Some v => v
              | None => None
              end).
  { intros i w1. rewrite eval_for_return.
    - rewrite (first_return_ext indexed _ (side_by_side_after i w1));
        [reflexivity|].
      intros [j w2]. unfold side_by_side_after. simpl.
      destruct (j <=? i)%nat; [reflexivity|].
      destruct (negb _); [reflexivity|].
      destruct (_are_parallel_adjacent w1 w2); reflexivity.
    - intros [j w2]. destruct (j <=? i)%nat; [apply readonly_ret|].
      destruct (negb _); [apply readonly_ret|].
      destruct (_are_parallel_adjacent w1 w2); apply readonly_ret. }
  rewrite eval_for_return.
  2:{ intros [i w1]. apply readonly_for_return; [|apply readonly_ret].
      intros [j w2]. destruct (j <=? i)%nat; [apply readonly_ret|].
      destruct (negb _); [apply readonly_ret|].
      destruct (_are_parallel_adjacent w1 w2); apply readonly_ret. }
  rewrite (first_return_ext indexed _
             (fun iw => match first_return indexed
                                (side_by_side_after (fst iw) (snd iw)) with
                        | Some v => v
                        | None => None
                        end)).
  2:{ intros [i w1]. apply Hinner. }
  assert (Hval : forall i w1 v,
            first_return indexed (side_by_side_after i w1) = Some v ->
            v = Some false).
  { intros i w1 v Hv. apply first_return_Some in Hv.
    destruct Hv as [[j w2] [_ Hv]]. unfold side_by_side_after in Hv.
    simpl in Hv. destruct (j <=? i)%nat; [discriminate|].
    destruct (negb _); [discriminate|].
    destruct (_are_parallel_adjacent w1 w2); congruence. }
  split.
  - intros Hres i p j q Hp Hq Hij Hadj.
    destruct (first_return indexed _) as [v|] eqn:Ef.
    { apply first_return_Some in Ef. destruct Ef as [[i0 w1] [_ Ev]].
      simpl in Ev.
      destruct (first_return indexed (side_by_side_after i0 w1)) as [v'|]
        eqn:E'; [|discriminate].
      apply Hval in E'. subst. discriminate Ev. }
    rewrite first_return_None in Ef. rewrite Forall_forall in Ef.
    specialize (Ef (i, p) (indexed_In words i p Hp)). simpl in Ef.
    destruct (first_return indexed (side_by_side_after i p)) as [v'|]
      eqn:E'.
    { apply Hval in E'. subst. discriminate. }
    rewrite first_return_None in E'. rewrite Forall_forall in E'.
    specialize (E' (j, q) (indexed_In words j q Hq)).
    unfold side_by_side_after in E'. simpl in E'.
    destruct (Nat.leb_spec j i); [lia|].
    destruct Hadj as (Hd & Hrest).
    rewrite (proj2 (Direction_eqb_eq _ _) Hd) in E'. simpl in E'.
    rewrite (proj2 (_are_parallel_adjacent_true p q Hd)) in E';
      [discriminate|].
    split; [exact Hd | exact Hrest].
  - intros Hno.
    destruct (first_return indexed _) as [v|] eqn:Ef; [|reflexivity].
    exfalso. apply first_return_Some in Ef.
    destruct Ef as [[i w1] [Hi Ev]]. simpl in Ev.
    destruct (first_return indexed (side_by_side_after i w1)) as [v'|]
      eqn:E'; [|discriminate].
    apply first_return_Some in E'. destruct E' as [[j w2] [Hj E']].
    unfold side_by_side_after in E'. simpl in E'.
    destruct (Nat.leb_spec j i); [discriminate|].
    destruct (Direction_eqb (pw_direction w1) (pw_direction w2)) eqn:Ed;
      [|discriminate].
    simpl in E'. apply Direction_eqb_eq in Ed.
    destruct (_are_parallel_adjacent w1 w2) eqn:Ea; [|discriminate].
    apply (_are_parallel_adjacent_true w1 w2 Ed) in Ea.
    apply (Hno i w1 j w2); [apply in_indexed; exact Hi
                           | apply in_indexed; exact Hj | lia | exact Ea].
Qed.

(** X8. [check_no_adjacent_parallel] returns True if and only if no two
    placed words run in one direction one row (or column) apart with a
    coordinate in common. *)
Theorem check_no_adjacent_parallel_exact :
  forall g : Grid,
    eval check_no_adjacent_parallel g = true <->
    (forall p q, In p (placed_words g) -> In q (placed_words g) ->
                 ~ parallel_adjacent p q).
Proof.
  intros g. rewrite eval_check_no_adjacent_parallel. split.
  - intros H p q Hp Hq Hadj.
    apply In_nth_error in Hp, Hq.
    destruct Hp as [i Hi]. destruct Hq as [j Hj].
    destruct (Nat.lt_trichotomy i j) as [Hlt|[->|Hgt]].
    + exact (H i p j q Hi Hj Hlt Hadj).
    + assert (p = q) by congruence. subst.
      exact (parallel_adjacent_irrefl q Hadj).
    + exact (H j q i p Hj Hi Hgt (parallel_adjacent_sym p q Hadj)).
  - intros H i p j q Hi Hj _.
    apply H; eapply nth_error_In; eassumption.
Qed.

(* ===================================================================== *)
(** * Validator: what [validate_crossword] accepts *)
(* ===================================================================== *)

Lemma duplicate_errors_NoDup words : forall seen,
  NoDup (map pw_word words) ->
  (forall p, In p words -> ~ In (pw_word p) seen) ->
  duplicate_errors words seen = [].
Proof.
  induction words as [|p words IH]; intros seen Hnd Hseen; [reflexivity|].
  simpl. inversion Hnd as [|? ? Hnot Hnd']; subst.
  destruct (str_in (pw_word p) seen) eqn:E.
  - apply str_in_true in E. exfalso.
    apply (Hseen p); [left; reflexivity | exact E].
  - simpl. apply IH; [exact Hnd'|].
    intros q Hq [Heq|Hin].
    + apply Hnot. rewrite Heq. apply in_map. exact Hq.
    + apply (Hseen q); [right; exact Hq | exact Hin].
Qed.

Lemma short_errors_long words :
  (forall p, In p words -> 3 <= len (pw_word p)) -> short_errors words = [].
Proof.
  induction words as [|p words IH]; intros H; [reflexivity|].
  unfold short_errors in *. simpl.
  destruct (Z.ltb_spec (len (pw_word p)) 3).
  - specialize (H p (or_introl eq_refl)). lia.
  - simpl. apply IH. intros q Hq. apply H. right; exact Hq.
Qed.

Lemma letter_errors_read g placed i ch row0 rest :
  grid_wf g -> grid_cells g = row0 :: rest ->
  read_cell (grid_cells g)
    (cell_of (pw_row placed) (pw_col placed) (pw_direction placed) i)
  = Some [ch] ->
  letter_errors (grid_cells g) (len (grid_cells g)) (len row0) placed (i, ch)
  = [].
Proof.
  intros [Hh Hrows] Eg Hread.
  unfold letter_errors, check_letter.
  destruct (cell_of (pw_row placed) (pw_col placed) (pw_direction placed) i)
    as [r c].
  unfold read_cell in Hread. simpl in Hread.
  destruct ((0 <=? r) && (0 <=? c)) eqn:E0; [|discriminate].
  apply andb_true_iff in E0. destruct E0 as [Er Ec].
  apply Z.leb_le in Er, Ec.
  destruct (nth_error (grid_cells g) (Z.to_nat r)) as [row|] eqn:Erow;
    [|discriminate].
  assert (Hr : (Z.to_nat r < List.length (grid_cells g))%nat)
    by (apply nth_error_Some; congruence).
  assert (Hc : (Z.to_nat c < List.length row)%nat)
    by (apply nth_error_Some; congruence).
  assert (Hrow : len row = grid_width g).
  { rewrite Forall_forall in Hrows. apply Hrows.
    eapply nth_error_In. exact Erow. }
  assert (Hrow0 : len row0 = grid_width g).
  { rewrite Forall_forall in Hrows. apply Hrows. rewrite Eg.
    left; reflexivity. }
  assert (Enth : nth (Z.to_nat r) (grid_cells g) [] = row)
    by (apply nth_error_nth; exact Erow).
  unfold len in *.
  destruct (Z.ltb_spec r 0); [lia|].
  destruct (Z.geb_spec r (Z.of_nat (List.length (grid_cells g)))); [lia|].
  destruct (Z.ltb_spec c 0); [lia|].
  destruct (Z.geb_spec c (Z.of_nat (List.length row0))); [lia|].
  simpl. rewrite Enth.
  destruct (Z.geb_spec c (Z.of_nat (List.length row))); [lia|].
  unfold cell_at. rewrite Enth.
  rewrite (nth_error_nth _ _ EMPTY Hread).
  rewrite str_eqb_refl. reflexivity.
Qed.

Lemma check_intersections_letters g words :
  grid_wf g -> grid_cells g <> [] ->
  letters_in_grid (grid_cells g) words ->
  eval (check_intersections words) g = [].
Proof.
  intros Hwf Hne Hl. unfold check_intersections.
  rewrite eval_bind by apply readonly_gets.
  change (eval to_array g) with (grid_cells g).
  destruct (grid_cells g) as [|row0 rest] eqn:Eg; [contradiction|].
  unfold ret, eval; simpl fst. rewrite <- Eg. rewrite <- Eg in Hl.
  assert (G : forall ws errors,
            errors = [] ->
            (forall p, In p ws -> In p words) ->
            fold_left
              (fun errors placed =>
                 fold_left (check_letter (grid_cells g) (len (grid_cells g))
                                         (len row0) placed)
                           (enumerate (pw_word placed)) errors)
              ws errors = []).
  { induction ws as [|p ws IH]; intros errors He Hin; [exact He|].
    cbn [fold_left].
    apply IH; [|intros q Hq; apply Hin; right; exact Hq].
    subst errors.
    assert (F : forall ics errors,
              errors = [] ->
              (forall ic, In ic ics -> In ic (enumerate (pw_word p))) ->
              fold_left (check_letter (grid_cells g) (len (grid_cells g))
                                      (len row0) p) ics errors = []).
    { induction ics as [|[i ch] ics IHi]; intros errors He Hsub;
        [exact He|].
      cbn [fold_left].
      apply IHi; [|intros ic Hic; apply Hsub; right; exact Hic].
      rewrite check_letter_app. subst errors. cbn [app].
      apply (letter_errors_read g p i ch row0 rest Hwf Eg).
      specialize (Hsub (i, ch) (or_introl eq_refl)).
      apply in_enumerate in Hsub. destruct Hsub as [k [-> Hk]].
      apply (Hl p (Hin p (or_introl eq_refl)) k ch Hk). }
    apply F; [reflexivity | auto]. }
  apply G; [reflexivity | auto].
Qed.

(** X9. On a Grid with at least one row, [validate_crossword] answers
    True, with an empty list of errors, if and only if the grid has at
    least 8 placed words, every placed word reads off the board, the words
    are connected, the fill density is a float between the floats 0.3 and
    0.7, no word string is there twice and every word has at least 3
    letters. *)
Theorem validate_crossword_exact :
  forall g : Grid,
    grid_state g -> 0 < grid_height g ->
    let words := placed_words g in
    (fst (eval validate_crossword g) = true <->
     snd (eval validate_crossword g) = []) /\
    (fst (eval validate_crossword g) = true <->
     8 <= len words /\
     letters_in_grid (grid_cells g) words /\
     connected words /\
     in_density_window (density_of (grid_cells g)) /\
     NoDup (map pw_word words) /\
     (forall p, In p words -> 3 <= len (pw_word p))).
Proof.
  intros g Hst Hpos words.
  assert (Hwf : grid_wf g).
  { destruct (grid_state_shape g Hst) as [[Hwf _]|(Hh & _)];
      [exact Hwf | lia]. }
  assert (Hne : grid_cells g <> []).
  { destruct Hwf as [Hl _]. intros E. rewrite E in Hl.
    change (len (@nil (list str))) with 0 in Hl. lia. }
  split.
  - assert (H : fst (eval validate_crossword g) =
                match snd (eval validate_crossword g) with
                | [] => true
                | _ => false
                end).
    { unfold validate_crossword.
      rewrite eval_bind by apply readonly_gets.
      rewrite eval_bind by apply readonly_check_intersections.
      rewrite eval_bind by apply readonly_get_fill_density.
      reflexivity. }
    rewrite H. destruct (snd (eval validate_crossword g));
      split; intros E; (reflexivity || discriminate).
  - split.
    + intros Hv. apply validate_crossword_true in Hv.
      destruct Hv as (V1 & V2 & V3 & V4 & V5 & V6).
      split; [exact V1|].
      split; [apply check_intersections_nil; assumption|].
      split; [apply check_all_words_connected_sound; exact V3|].
      split; [exact V4|].
      split; [apply (duplicate_errors_nil _ [] V5)|].
      apply short_errors_nil. exact V6.
    + intros (V1 & V2 & V3 & [V4 V4'] & V5 & V6).
      unfold validate_crossword.
      rewrite eval_bind by apply readonly_gets.
      change (eval get_placed_words g) with words.
      rewrite eval_bind by apply readonly_check_intersections.
      rewrite eval_bind by apply readonly_get_fill_density.
      rewrite eval_get_fill_density.
      unfold ret, eval at 1. simpl fst.
      rewrite (check_intersections_letters g words Hwf Hne V2).
      rewrite (check_all_words_connected_complete words V3).
      rewrite (duplicate_errors_NoDup words [] V5) by (intros p _ []).
      rewrite (short_errors_long words V6).
      unfold MIN_WORDS. destruct (Z.ltb_spec (len words) 8); [lia|].
      assert (E1 : Qltb (density_of (grid_cells g)) MIN_FILL_DENSITY = false).
      { unfold Qltb. apply negb_false_iff. apply Qle_bool_iff. exact V4. }
      assert (E2 : Qltb MAX_FILL_DENSITY (density_of (grid_cells g)) = false).
      { unfold Qltb. apply negb_false_iff. apply Qle_bool_iff. exact V4'. }
      rewrite E1, E2. reflexivity.
Qed.

(** The grid of an attempt that passed the checks was made by the
    methods of the class. *)
Lemma checked_grid_grid_state words target_count r g r' :
  checked_grid words target_count r = (Returned (Some g), r') ->
  grid_state g.
Proof.
  intros E. apply checked_grid_spec in E.
  destruct E as (h & w & Hc & _).
  refine (gs_crop _ _ _ _ Hc).
  apply (place_remaining_words_ok grid_state gs_place_word).
  apply (place_initial_word_ok grid_state gs_place_word);
    [apply gs_init | reflexivity | reflexivity].
Qed.

Lemma validate_crossword_exact_witness :
  grid_state science_grid /\ 0 < grid_height science_grid /\
  let words := placed_words science_grid in
  (fst (eval validate_crossword science_grid) = true <->
   snd (eval validate_crossword science_grid) = []) /\
  (fst (eval validate_crossword science_grid) = true <->
   8 <= len words /\
   letters_in_grid (grid_cells science_grid) words /\
   connected words /\
   in_density_window (density_of (grid_cells science_grid)) /\
   NoDup (map pw_word words) /\
   (forall p, In p words -> 3 <= len (pw_word p))).
Proof.
  assert (Hst : grid_state science_grid).
  { destruct science_run as (_ & _ & _ & _ & Hgrid & _).
    destruct (checked_grid (sort_words_by_score (snd (hd ([], []) science)))
                           9 [1%nat]) as [o r'] eqn:E.
    simpl in Hgrid. subst o.
    apply checked_grid_grid_state in E. exact E. }
  assert (Hpos : 0 < grid_height science_grid) by (vm_compute; reflexivity).
  split; [exact Hst|]. split; [exact Hpos|].
  exact (validate_crossword_exact science_grid Hst Hpos).
Defined.

(* ===================================================================== *)
(** * The Placer: what the main loop does to the grid *)
(* ===================================================================== *)

(** The PlacedWord of a dictionary entry. *)
Definition placed_from (e : WordEntry) (q : PlacedWord) : Prop :=
  pw_word q = upper (word e) /\ pw_clue q = clue e /\ pw_hint q = hint e.

(** From [p] to [p']: the word list is the same, words were only added to
    [_used_words] and to the grid, every added word is an entry of
    [entries] that was not used, shares a cell with a word placed before
    it, and was added while the grid had fewer than [target] words. *)
Definition grows (target : Z) (entries : list WordEntry)
    (p p' : WordPlacer) : Prop :=
  word_list p' = word_list p /\
  incl (_used_words p) (_used_words p') /\
  (exists new,
     placed_words (wp_grid p') = placed_words (wp_grid p) ++ new /\
     Forall (fun q => exists e, In e entries /\ placed_from e q /\
                                ~ In (pw_word q) (_used_words p)) new) /\
  len (placed_words (wp_grid p'))
    <= Z.max target (len (placed_words (wp_grid p))) /\
  (connected (placed_words (wp_grid p)) ->
   connected (placed_words (wp_grid p'))) /\
  (target <= len (placed_words (wp_grid p)) -> p' = p).

Lemma grows_refl target entries p : grows target entries p p.
Proof.
  split; [reflexivity|]. split; [apply incl_refl|].
  split; [exists []; split; [symmetry; apply app_nil_r | constructor]|].
  split; [lia|]. split; auto.
Qed.

Lemma grows_trans target entries p1 p2 p3 :
  grows target entries p1 p2 -> grows target entries p2 p3 ->
  grows target entries p1 p3.
Proof.
  intros (A1 & A2 & (n1 & A3 & A3') & A4 & A5 & A6)
         (B1 & B2 & (n2 & B3 & B3') & B4 & B5 & B6).
  split; [congruence|].
  split; [intros x Hx; apply B2, A2; exact Hx|].
  split.
  { exists (n1 ++ n2). split; [rewrite B3, A3, app_assoc; reflexivity|].
    apply Forall_app. split; [exact A3'|].
    revert B3'. apply Forall_impl. intros q (e & He & Hf & Hn).
    exists e. split; [exact He|]. split; [exact Hf|].
    intros Hin. apply Hn. apply A2. exact Hin. }
  split; [lia|]. split; [auto|].
  intros Ht. rewrite (A6 Ht) in *. apply B6. exact Ht.
Qed.

Lemma grows_with_random target entries r p :
  len (placed_words (wp_grid p)) < target ->
  grows target entries p (with_random r p).
Proof.
  intros Hlt. split; [reflexivity|]. split; [apply incl_refl|].
  split; [exists []; split; [symmetry; apply app_nil_r | constructor]|].
  split; [simpl; lia|]. split; [auto|]. simpl. lia.
Qed.

(** A word that shares a cell with a word of a connected list stays
    connected with it. *)
Lemma linked_app words x i j :
  linked words i j -> linked (words ++ [x]) i j.
Proof.
  intros (p & q & Hp & Hq & Hs). exists p, q.
  split; [rewrite nth_error_app1; [exact Hp|apply nth_error_Some; congruence]|].
  split; [rewrite nth_error_app1; [exact Hq|apply nth_error_Some; congruence]|].
  exact Hs.
Qed.

Lemma path_app words x i j : path words i j -> path (words ++ [x]) i j.
Proof.
  induction 1 as [i|i j k _ IH Hl]; [constructor|].
  eapply path_step; [exact IH | apply linked_app; exact Hl].
Qed.

Lemma connected_snoc words x k p :
  connected words -> nth_error words k = Some p -> shares_cell p x ->
  connected (words ++ [x]).
Proof.
  intros Hc Hk Hs.
  assert (Hkl : (k < List.length words)%nat)
    by (apply nth_error_Some; congruence).
  set (n := List.length words).
  assert (Hlink : linked (words ++ [x]) k n).
  { exists p, x. split; [rewrite nth_error_app1; assumption|].
    split; [|exact Hs].
    rewrite nth_error_app2 by (unfold n; lia).
    replace (n - List.length words)%nat with O by (unfold n; lia).
    reflexivity. }
  assert (Hto : forall i, (i < S n)%nat -> path (words ++ [x]) i k).
  { intros i Hi. destruct (Nat.eq_dec i n) as [->|Hne].
    - apply path_sym. eapply path_step; [constructor | exact Hlink].
    - apply path_app. apply Hc; unfold n in *; lia. }
  intros i j Hi Hj. rewrite length_app in Hi, Hj. simpl in Hi, Hj.
  apply path_trans with (j := k).
  - apply Hto. unfold n. lia.
  - apply path_sym. apply Hto. unfold n. lia.
Qed.

Lemma paired_shares_cell w p i j row col d cl hi :
  paired_with w p i j row col d ->
  shares_cell p (mkPlacedWord w cl hi row col d).
Proof.
  intros [[ch [Hi Hj]] [_ Hcell]].
  exists (cell_of (pw_row p) (pw_col p) (pw_direction p) (Z.of_nat i)).
  unfold _get_word_cells, pw_length. split.
  - apply in_map. apply in_range.
    assert (i < List.length (pw_word p))%nat
      by (apply nth_error_Some; congruence).
    unfold len. lia.
  - rewrite <- Hcell. simpl.
    apply (in_map (cell_of row col d)). apply in_range.
    assert (j < List.length w)%nat by (apply nth_error_Some; congruence).
    unfold len. lia.
Qed.

Lemma loop_round_grows target entries max_attempts e next again attempts p :
  In e entries ->
  (forall a p', grows target entries p' (exec (next a) p')) ->
  (forall a p', grows target entries p' (exec (again a) p')) ->
  grows target entries p
        (exec (loop_round target max_attempts e next again attempts) p).
Proof.
  intros He Hnext Hagain. unfold loop_round.
  rewrite exec_bind.
  rewrite exec_on_grid_readonly by apply readonly_gets.
  rewrite eval_on_grid.
  change (eval get_placed_words (wp_grid p)) with (placed_words (wp_grid p)).
  destruct (Z.ltb_spec (len (placed_words (wp_grid p))) target) as [Hlt|Hge];
    [|apply grows_refl].
  destruct (attempts <? max_attempts); [|apply grows_refl]. simpl.
  rewrite exec_bind. change (exec (gets _used_words) p) with p.
  change (eval (gets _used_words) p) with (_used_words p).
  destruct (str_in (upper (word e)) (_used_words p)) eqn:Eu.
  - rewrite exec_bind. apply Hnext.
  - assert (Hnew : ~ In (upper (word e)) (_used_words p)).
    { intros H. apply str_in_true in H. congruence. }
    rewrite exec_bind.
    destruct (find_best_position_spec (upper (word e)) p) as [r [Hr Hpos]].
    rewrite Hr.
    destruct (eval (find_best_position (upper (word e))) p)
      as [[[[row col] d] k]|] eqn:Ef.
    + specialize (Hpos _ eq_refl).
      pose proof (get_intersections_candidates (wp_grid p) (upper (word e)))
        as Hc.
      rewrite Forall_forall in Hc. specialize (Hc _ Hpos).
      destruct Hc as (Hcan & _ & q & i & j & Hq & Hpair).
      rewrite upper_idem in Hpair.
      rewrite exec_bind.
      rewrite eval_on_grid, exec_on_grid.
      change (wp_grid (with_random r p)) with (wp_grid p).
      change (eval (place_word (upper (word e)) (clue e) (hint e) row col d)
                   (wp_grid p))
        with (fst (place_word (upper (word e)) (clue e) (hint e) row col d
                              (wp_grid p))).
      change (exec (place_word (upper (word e)) (clue e) (hint e) row col d)
                   (wp_grid p))
        with (snd (place_word (upper (word e)) (clue e) (hint e) row col d
                              (wp_grid p))).
      rewrite run_place_word, Hcan. cbn [fst snd].
      rewrite exec_bind, exec_bind.
      set (g' := committed (upper (word e)) (clue e) (hint e) row col d
                           (wp_grid p)).
      set (p2 := exec (use_word (upper (word e)))
                      (with_grid g' (with_random r p))).
      apply grows_trans with (p2 := p2); [|apply Hnext].
      unfold p2, use_word, modify, exec. cbn [snd]. 
      assert (Hpl : placed_words g' =
                    placed_words (wp_grid p) ++
                    [mkPlacedWord (upper (word e)) (clue e) (hint e)
                                  row col d]).
      { unfold g'. rewrite placed_words_committed, upper_idem.
        reflexivity. }
      split; [reflexivity|].
      split; [intros x Hx; right; exact Hx|].
      cbn [wp_grid with_grid with_random _used_words].
      split.
      { eexists. split; [exact Hpl|]. constructor; [|constructor].
        exists e. split; [exact He|].
        split; [split; [reflexivity | split; reflexivity]|].
        exact Hnew. }
      split; [rewrite Hpl, len_app, len_cons; change (len (@nil PlacedWord))
                with 0; lia|].
      split.
      { intros Hconn. rewrite Hpl.
        apply In_nth_error in Hq. destruct Hq as [kq Hkq].
        apply (connected_snoc _ _ kq q Hconn Hkq).
        apply (paired_shares_cell _ q i j). exact Hpair. }
      intros Ht. lia.
    + rewrite exec_bind.
      apply grows_trans with (p2 := with_random r p); [|apply Hnext].
      apply grows_with_random. exact Hlt.
Qed.

Lemma same_word_grows target entries max_attempts e next budget :
  In e entries ->
  (forall a p', grows target entries p' (exec (next a) p')) ->
  forall attempts p,
    grows target entries p
          (exec (same_word target max_attempts e next budget attempts) p).
Proof.
  intros He Hnext. induction budget as [|b IH]; intros attempts p; simpl;
    apply loop_round_grows; auto.
  intros a p'. apply grows_refl.
Qed.

Lemma place_loop_grows target entries max_attempts rest :
  incl rest entries ->
  forall attempts p,
    grows target entries p
          (exec (place_loop target max_attempts rest attempts) p).
Proof.
  induction rest as [|e rest IH]; intros Hsub attempts p; simpl.
  - apply grows_refl.
  - apply same_word_grows; [apply Hsub; left; reflexivity|].
    apply IH. intros x Hx. apply Hsub. right; exact Hx.
Qed.

Lemma available_words_incl p : incl (available_words p) (word_list p).
Proof.
  intros e He. unfold available_words in He.
  apply sorted_desc_In in He. apply filter_In in He. apply He.
Qed.

Lemma place_remaining_words_grows target p :
  grows target (word_list p) p (exec (place_remaining_words target) p) /\
  eval (place_remaining_words target) p =
  len (placed_words (wp_grid (exec (place_remaining_words target) p))).
Proof.
  unfold place_remaining_words, place_remaining_words_seen.
  repeat (rewrite exec_bind || rewrite eval_bind_any).
  change (exec (gets available_words) p) with p.
  change (eval (gets available_words) p) with (available_words p).
  repeat (rewrite exec_bind || rewrite eval_bind_any).
  rewrite exec_on_grid_readonly by apply readonly_gets.
  rewrite eval_on_grid.
  change (exec (ret ?x) ?s) with s.
  split; [|reflexivity].
  apply place_loop_grows. apply available_words_incl.
Qed.

(** X10. [place_remaining_words(target_count)] only adds: the word list is
    as before, the words placed before are still there in their order, and
    every added word is an entry of the word list (its upper-cased word
    with its clue and hint) whose word was not used before. It adds words
    only while fewer than [target_count] are placed, so that it does
    nothing when [target_count] words are there already, and returns the
    number of words on the grid at the end. *)
Theorem place_remaining_words_adds :
  forall (target_count : Z) (p : WordPlacer),
    let p' := exec (place_remaining_words target_count) p in
    let placed := placed_words (wp_grid p) in
    let placed' := placed_words (wp_grid p') in
    eval (place_remaining_words target_count) p = len placed' /\
    word_list p' = word_list p /\
    incl (_used_words p) (_used_words p') /\
    (exists new,
       placed' = placed ++ new /\
       Forall (fun q => exists e, In e (word_list p) /\ placed_from e q /\
                                  ~ In (pw_word q) (_used_words p)) new) /\
    len placed' <= Z.max target_count (len placed) /\
    (target_count <= len placed -> p' = p).
Proof.
  intros target p p' placed placed'.
  destruct (place_remaining_words_grows target p)
    as [(G1 & G2 & G3 & G4 & _ & G6) Hret].
  split; [exact Hret|]. split; [exact G1|]. split; [exact G2|].
  split; [exact G3|]. split; [exact G4 | exact G6].
Qed.

(** ** The first word *)

Lemma can_place_word_empty g w row col d :
  (forall r c, cell g r c = EMPTY) ->
  (eval (can_place_word w row col d) g = true <->
   fits g row col d (len (upper w))).
Proof.
  intros He. rewrite can_place_word_true. split; [intros H; apply H|].
  intros Hf. split; [exact Hf|]. split.
  - intros k ch _. unfold letter_ok.
    destruct (cell_of row col d (Z.of_nat k)) as [r c]. right.
    split; [apply He|]. unfold adjacent_ok.
    destruct (side_cells r c d) as [[r1 c1] [r2 c2]].
    rewrite !He. reflexivity.
  - unfold cell_p. split; apply He.
Qed.

(** The steps of [place_initial_word] on a non-empty word list. *)
Lemma run_place_initial_word p first rest :
  word_list p = first :: rest ->
  let pick := choice (firstn 5 (sorted_desc (fun x => len (word x))
                                            (word_list p)))
                     first (wp_random p) in
  let e := fst pick in
  let w := upper (word e) in
  let size := grid_size (wp_grid p) in
  let row := size / 2 in
  let col := if (size - len w) / 2 <? 0 then 0 else (size - len w) / 2 in
  place_initial_word p =
  if col + len w >? size then (false, with_random (snd pick) p)
  else if eval (can_place_word w row col horizontal) (wp_grid p)
  then (true,
        {| wp_grid := committed w (clue e) (hint e) row col horizontal
                                (wp_grid p);
           word_list := word_list p;
           _used_words := w :: _used_words p;
           wp_random := snd pick |})
  else (false, with_random (snd pick) p).
Proof.
  intros Hw pick e w size row col.
  unfold place_initial_word, bind, gets. rewrite Hw. rewrite <- Hw.
  unfold on_random. fold pick.
  destruct pick as [e0 r'] eqn:Ep. simpl in e. subst e. cbn [snd].
  cbn [wp_grid]. fold w. fold size. fold row. fold col.
  destruct (col + len w >? size); [reflexivity|].
  unfold on_grid. cbn [wp_grid word_list _used_words wp_random].
  rewrite run_place_word.
  destruct (eval (can_place_word w row col horizontal) (wp_grid p)).
  - unfold use_word, modify, ret. reflexivity.
  - unfold with_random. reflexivity.
Qed.

Definition by_length (words : list WordEntry) : list WordEntry :=
  sorted_desc (fun x => len (word x)) words.

Lemma place_initial_word_cases p :
  let ok := eval place_initial_word p in
  let p' := exec place_initial_word p in
  let size := grid_size (wp_grid p) in
  word_list p' = word_list p /\
  (ok = false ->
   wp_grid p' = wp_grid p /\ _used_words p' = _used_words p) /\
  (ok = true ->
   exists e,
     In e (firstn 5 (by_length (word_list p))) /\
     len (upper (word e)) <= size /\
     eval (can_place_word (upper (word e)) (size / 2)
             ((size - len (upper (word e))) / 2) horizontal) (wp_grid p)
     = true /\
     wp_grid p' =
       committed (upper (word e)) (clue e) (hint e) (size / 2)
                 ((size - len (upper (word e))) / 2) horizontal (wp_grid p) /\
     _used_words p' = upper (word e) :: _used_words p) /\
  (word_list p <> [] ->
   (forall e, In e (word_list p) -> len (upper (word e)) <= size) ->
   (forall e, In e (word_list p) ->
      eval (can_place_word (upper (word e)) (size / 2)
              ((size - len (upper (word e))) / 2) horizontal) (wp_grid p)
      = true) ->
   ok = true).
Proof.
  intros ok p' size. subst ok p'.
  change (eval place_initial_word p) with (fst (place_initial_word p)).
  change (exec place_initial_word p) with (snd (place_initial_word p)).
  destruct (word_list p) as [|first rest] eqn:Hw.
  { assert (E : place_initial_word p = (false, p)).
    { unfold place_initial_word, bind, gets. rewrite Hw. reflexivity. }
    rewrite E. cbn [fst snd]. split; [exact Hw|].
    split; [auto|]. split; [discriminate|]. intros H; contradiction. }
  rewrite (run_place_initial_word p first rest Hw). cbv zeta.
  rewrite <- Hw.
  set (cands := firstn 5 (sorted_desc (fun x => len (word x)) (word_list p))).
  assert (Hne : cands <> []).
  { unfold cands. rewrite Hw.
    assert (Hp : Permutation
                   (sorted_desc (fun x => len (word x)) (first :: rest))
                   (first :: rest)) by apply sorted_desc_perm.
    destruct (sorted_desc (fun x => len (word x)) (first :: rest)) eqn:Es.
    - apply Permutation_nil in Hp. discriminate.
    - simpl. discriminate. }
  pose proof (choice_In cands first (wp_random p) Hne) as Hin.
  set (e := fst (choice cands first (wp_random p))) in *.
  set (w := upper (word e)).
  fold size.
  set (c0 := (size - len w) / 2).
  assert (Hcol : (if c0 <? 0 then 0 else c0) + len w <= size ->
                 len w <= size /\ (if c0 <? 0 then 0 else c0) = c0).
  { intros H. pose proof (len_nonneg w) as Hl.
    destruct (Z.ltb_spec c0 0) as [Hc|Hc].
    - split; [lia|]. exfalso. unfold c0 in Hc.
      assert (0 <= (size - len w) / 2) by (apply Z.div_pos; lia). lia.
    - split; [|reflexivity]. unfold c0 in Hc.
      destruct (Z_le_gt_dec (len w) size); [assumption|].
      assert ((size - len w) / 2 < 0)
        by (apply Z.div_lt_upper_bound; lia). lia. }
  split.
  { destruct (_ >? size); [reflexivity|].
    destruct (eval (can_place_word w _ _ horizontal) (wp_grid p));
      reflexivity. }
  split.
  { destruct (_ >? size); [intros _; split; reflexivity|].
    destruct (eval (can_place_word w _ _ horizontal) (wp_grid p));
      [discriminate | intros _; split; reflexivity]. }
  split.
  { destruct (Z.gtb_spec ((if c0 <? 0 then 0 else c0) + len w) size)
      as [Hgt|Hle]; [discriminate|].
    destruct (Hcol Hle) as [Hlen Ec]. rewrite Ec.
    destruct (eval (can_place_word w (size / 2) c0 horizontal) (wp_grid p))
      eqn:Ecan; [|discriminate].
    intros _. exists e. cbn [fst snd wp_grid _used_words].
    split; [exact Hin|]. split; [exact Hlen|].
    split; [exact Ecan|]. split; reflexivity. }
  intros _ Hshort Hcan.
  assert (He : In e (word_list p)).
  { apply (sorted_desc_In (fun x => len (word x))).
    apply (firstn_In 5). exact Hin. }
  specialize (Hshort e He). specialize (Hcan e He). fold w in Hshort, Hcan.
  fold c0 in Hcan.
  assert (Hc0 : 0 <= c0) by (apply Z.div_pos; lia).
  destruct (Z.ltb_spec c0 0); [lia|].
  assert (c0 + len w <= size).
  { unfold c0. pose proof (Z.mul_div_le (size - len w) 2 ltac:(lia)). lia. }
  destruct (Z.gtb_spec (c0 + len w) size); [lia|].
  rewrite Hcan. reflexivity.
Qed.

(** X11. [place_initial_word] returns False on an empty word list and
    changes nothing. It never changes the word list, and when it returns
    False the grid and [_used_words] are as before. When it returns True,
    it has taken one of the five longest entries, no longer than the side
    of the grid, placed its upper-cased word horizontally in row
    [size // 2] from column [(size - length) // 2] and marked it used. On
    an empty grid of side at least 1 with a non-empty list of words no
    longer than the side, it returns True. *)
Theorem place_initial_word_spec :
  forall p : WordPlacer,
    let ok := eval place_initial_word p in
    let p' := exec place_initial_word p in
    let size := grid_size (wp_grid p) in
    word_list p' = word_list p /\
    (word_list p = [] -> ok = false /\ p' = p) /\
    (ok = false ->
     wp_grid p' = wp_grid p /\ _used_words p' = _used_words p) /\
    (ok = true ->
     exists e,
       In e (firstn 5 (by_length (word_list p))) /\
       len (upper (word e)) <= size /\
       placed_words (wp_grid p') =
         placed_words (wp_grid p) ++
         [mkPlacedWord (upper (word e)) (clue e) (hint e) (size / 2)
                       ((size - len (upper (word e))) / 2) horizontal] /\
       _used_words p' = upper (word e) :: _used_words p) /\
    (forall n,
       0 < n -> wp_grid p = Grid_init n -> word_list p <> [] ->
       (forall e, In e (word_list p) -> len (upper (word e)) <= n) ->
       ok = true).
Proof.
  intros p ok p' size.
  destruct (place_initial_word_cases p) as (H1 & H2 & H3 & H4).
  split; [exact H1|]. split.
  { intros Hw. unfold ok, p', eval, exec.
    assert (E : place_initial_word p = (false, p)).
    { unfold place_initial_word, bind, gets. rewrite Hw. reflexivity. }
    rewrite E. split; reflexivity. }
  split; [exact H2|]. split.
  { intros Hok. destruct (H3 Hok) as (e & He & Hlen & _ & Hg & Hu).
    exists e. split; [exact He|]. split; [exact Hlen|].
    split; [|exact Hu]. fold p' in Hg. rewrite Hg.
    rewrite placed_words_committed, upper_idem. reflexivity. }
  intros n Hn Hg Hne Hshort. apply H4; [exact Hne | |].
  - intros e He. unfold size. rewrite Hg. simpl. apply Hshort. exact He.
  - intros e He. specialize (Hshort e He).
    apply can_place_word_empty.
    + intros r c. rewrite Hg. apply cell_init.
    + unfold size. rewrite Hg. simpl. rewrite upper_idem.
      pose proof (len_nonneg (upper (word e))) as Hl.
      assert (0 <= (n - len (upper (word e))) / 2)
        by (apply Z.div_pos; lia).
      pose proof (Z.mul_div_le (n - len (upper (word e))) 2 ltac:(lia)).
      assert (n / 2 < n) by (apply Z.div_lt_upper_bound; lia).
      assert (0 <= n / 2) by (apply Z.div_pos; lia).
      unfold fits. simpl. lia.
Qed.

Lemma place_initial_word_spec_witness :
  let p := WordPlacer_init (Grid_init 10) [entry "АТОМ"] [] in
  0 < 10 /\ wp_grid p = Grid_init 10 /\ word_list p <> [] /\
  (forall e, In e (word_list p) -> len (upper (word e)) <= 10) /\
  eval place_initial_word p = true /\
  placed_words (wp_grid (exec place_initial_word p)) =
    [mkPlacedWord (py "АТОМ") [] [] 5 3 horizontal].
Proof.
  intros p.
  assert (H0 : 0 < 10) by lia.
  assert (H1 : wp_grid p = Grid_init 10) by reflexivity.
  assert (H2 : word_list p <> []) by discriminate.
  assert (H3 : forall e, In e (word_list p) -> len (upper (word e)) <= 10).
  { intros e [<-|[]]. vm_compute. discriminate. }
  destruct (place_initial_word_spec p) as (_ & _ & _ & _ & H).
  split; [exact H0|]. split; [exact H1|]. split; [exact H2|].
  split; [exact H3|]. split; [exact (H 10 H0 H1 H2 H3)|].
  vm_compute. reflexivity.
Defined.

(** X12. The Placer keeps the words connected: when the placed words are
    connected before [place_remaining_words], they are connected after it;
    and after [place_initial_word] and [place_remaining_words] on an
    empty grid of any size, the placed words are connected. *)
Theorem placer_keeps_connected :
  (forall (target_count : Z) (p : WordPlacer),
     connected (placed_words (wp_grid p)) ->
     connected (placed_words
                  (wp_grid (exec (place_remaining_words target_count) p)))) /\
  (forall (size : Z) (words : list WordEntry) (r : Random)
          (target_count : Z),
     connected (placed_words
                  (wp_grid (exec (place_remaining_words target_count)
                              (exec place_initial_word
                                 (WordPlacer_init (Grid_init size) words
                                                  r)))))).
Proof.
  assert (H1 : forall target p,
            connected (placed_words (wp_grid p)) ->
            connected (placed_words
                         (wp_grid (exec (place_remaining_words target) p)))).
  { intros target p Hc.
    destruct (place_remaining_words_grows target p)
      as [(_ & _ & _ & _ & G5 & _) _].
    apply G5. exact Hc. }
  split; [exact H1|].
  intros size words r target. apply H1.
  set (p := WordPlacer_init (Grid_init size) words r).
  destruct (place_initial_word_cases p) as (_ & H2 & H3 & _).
  assert (Hle : (List.length (placed_words
                                (wp_grid (exec place_initial_word p))) <= 1)%nat).
  { destruct (eval place_initial_word p) eqn:E.
    - destruct (H3 eq_refl) as (e & _ & _ & _ & Hg & _).
      rewrite Hg, placed_words_committed. simpl. lia.
    - destruct (H2 eq_refl) as [Hg _]. rewrite Hg. simpl. lia. }
  intros i j Hi Hj. replace j with i by lia. constructor.
Qed.

(** ** The choice of a position *)

Lemma eval_find_best_position w p :
  eval (find_best_position w) p =
  match eval (get_intersections w) (wp_grid p) with
  | [] => None
  | first :: _ =>
    let top := firstn 3 (sorted_desc
                           (position_score (grid_size (wp_grid p) / 2))
                           (eval (get_intersections w) (wp_grid p))) in
    match top with
    | [] => None
    | _ :: _ => Some (fst (choice top first (wp_random p)))
    end
  end.
Proof.
  unfold find_best_position. rewrite eval_bind_any, eval_on_grid.
  rewrite exec_on_grid_readonly by apply readonly_get_intersections.
  destruct (eval (get_intersections w) (wp_grid p)) as [|first rest];
    [reflexivity|].
  rewrite eval_bind_any.
  change (exec (gets (fun p0 => grid_size (wp_grid p0))) p) with p.
  change (eval (gets (fun p0 => grid_size (wp_grid p0))) p)
    with (grid_size (wp_grid p)).
  cbv zeta.
  destruct (firstn 3 _) as [|t0 top]; [reflexivity|].
  rewrite eval_bind_any, eval_on_random. reflexivity.
Qed.

Lemma choice_nth {A} (seq : list A) d r :
  seq <> [] ->
  exists i, nth_error seq i = Some (fst (choice seq d r)).
Proof.
  intros Hne. unfold choice, randbelow. destruct r as [|y r0].
  - exists O. destruct seq; [contradiction | reflexivity].
  - exists (y mod List.length seq)%nat. cbn [fst].
    apply nth_error_nth'. apply Nat.mod_upper_bound.
    destruct seq; [contradiction | discriminate].
Qed.

Lemma nth_error_firstn_Some {A} n (l : list A) i x :
  nth_error (firstn n l) i = Some x ->
  (i < n)%nat /\ nth_error l i = Some x.
Proof.
  revert l i. induction n as [|n IH]; intros l i H.
  - destruct i; discriminate.
  - destruct l as [|y l]; [destruct i; discriminate|].
    destruct i as [|i]; simpl in *; [split; [lia | exact H]|].
    destruct (IH l i H). split; [lia | assumption].
Qed.

Lemma filter_none {A} (f : A -> bool) (l : list A) :
  (forall y, In y l -> f y = false) -> filter f l = [].
Proof.
  induction l as [|x l IH]; intros H; [reflexivity|].
  simpl. rewrite (H x (or_introl eq_refl)). apply IH.
  intros y Hy. apply H. right; exact Hy.
Qed.

Lemma descending_count {A} (key : A -> Z) (l : list A) : forall i x,
  descending key l -> nth_error l i = Some x ->
  (List.length (filter (fun y => key y >? key x) l) <= i)%nat.
Proof.
  induction l as [|h t IH]; intros i x Hd Hx; [destruct i; discriminate|].
  destruct Hd as [Hh Ht]. destruct i as [|i]; simpl in Hx.
  - inversion Hx; subst x.
    rewrite (filter_none (fun y => key y >? key h) (h :: t)); [simpl; lia|].
    intros y [<-|Hy]; [destruct (Z.gtb_spec (key h) (key h)); [lia|];
                       reflexivity|].
    specialize (Hh y Hy). destruct (Z.gtb_spec (key y) (key h)); [lia|].
    reflexivity.
  - specialize (IH i x Ht Hx). simpl.
    destruct (key h >? key x); simpl; lia.
Qed.

Lemma filter_length_perm {A} (f : A -> bool) l l' :
  Permutation l l' ->
  List.length (filter f l) = List.length (filter f l').
Proof.
  induction 1 as [|x l l' _ IH|x y l|l l' l'' _ IH1 _ IH2]; simpl.
  - reflexivity.
  - destruct (f x); simpl; congruence.
  - destruct (f x), (f y); reflexivity.
  - congruence.
Qed.

(** X13. [find_best_position] returns None exactly when
    [get_intersections] finds no position. A position it returns is one
    of those, and at most two of them have a higher score
    (10 x crossings - distance to the centre) than it: it is among the
    three best. The call changes nothing but the state of [random]. *)
Theorem find_best_position_top3 :
  forall (w : str) (p : WordPlacer),
    let cands := eval (get_intersections w) (wp_grid p) in
    let score := position_score (grid_size (wp_grid p) / 2) in
    (eval (find_best_position w) p = None <-> cands = []) /\
    (forall pos,
       eval (find_best_position w) p = Some pos ->
       In pos cands /\
       len (filter (fun q => score q >? score pos) cands) <= 2) /\
    (exists r, exec (find_best_position w) p = with_random r p).
Proof.
  intros w p cands score.
  assert (Hperm : Permutation (sorted_desc score cands) cands)
    by apply sorted_desc_perm.
  rewrite eval_find_best_position. fold cands. fold score. cbv zeta.
  split; [|split].
  - destruct cands as [|first rest] eqn:Ec; [split; reflexivity|].
    destruct (sorted_desc score (first :: rest)) as [|s0 srt] eqn:Es.
    + apply Permutation_nil in Hperm. discriminate.
    + simpl. split; discriminate.
  - intros pos Hpos.
    destruct cands as [|first rest] eqn:Ec; [discriminate|].
    destruct (firstn 3 (sorted_desc score (first :: rest)))
      as [|t0 top] eqn:Et; [discriminate|].
    injection Hpos as Hp.
    destruct (choice_nth (t0 :: top) first (wp_random p) ltac:(discriminate))
      as [i Hi].
    rewrite Hp in Hi. rewrite <- Et in Hi.
    apply nth_error_firstn_Some in Hi. destruct Hi as [Hi3 Hi].
    split.
    + apply (Permutation_in _ Hperm). eapply nth_error_In. exact Hi.
    + pose proof (descending_count score _ i pos
                    (sorted_desc_descending score (first :: rest)) Hi) as Hc.
      rewrite (filter_length_perm _ _ _ Hperm) in Hc.
      unfold len. lia.
  - destruct (find_best_position_spec w p) as [r [Hr _]].
    exists r. exact Hr.
Qed.

(* ===================================================================== *)
(** * The Generator: how a call ends *)
(* ===================================================================== *)

(** [DIFFICULTY_SETTINGS.get(difficulty, DIFFICULTY_SETTINGS['medium'])] *)
Definition settings_of (difficulty : str) : Settings :=
  match DIFFICULTY_SETTINGS difficulty with
  | Some s => s
  | None => mkSettings (10, 12) 3 10
  end.

(** The entries [generate] works with: those whose upper-cased word is not
    excluded and whose word has a length the difficulty permits. *)
Definition eligible (difficulty : str) (excluded_words : option (list str))
    (w : WordEntry) : bool :=
  negb (str_in (upper (word w))
          (match excluded_words with Some l => l | None => [] end)) &&
  ((min_word_length (settings_of difficulty) <=? len (word w)) &&
   (len (word w) <=? max_word_length (settings_of difficulty))).

Lemma filter_filter {A} (f g : A -> bool) (l : list A) :
  filter g (filter f l) = filter (fun x => f x && g x) l.
Proof.
  induction l as [|x l IH]; [reflexivity|]. simpl.
  destruct (f x); simpl; [destruct (g x)|]; rewrite IH; reflexivity.
Qed.

(** The words [generate] filters out of the entries of the category. *)
Lemma generate_filtered difficulty excluded_words words :
  filter_words_by_length
    match excluded_words with
    | Some (x :: l) =>
      filter (fun w => negb (str_in (upper (word w)) (x :: l))) words
    | _ => words
    end
    (min_word_length (settings_of difficulty))
    (max_word_length (settings_of difficulty))
  = filter (eligible difficulty excluded_words) words.
Proof.
  unfold filter_words_by_length, eligible.
  destruct excluded_words as [[|x l]|]; try reflexivity.
  apply filter_filter.
Qed.

Lemma In_list_set {A} (l : list A) : forall i x y,
  In y (list_set l i x) -> y = x \/ In y l.
Proof.
  induction l as [|z l IH]; intros [|i] x y H; simpl in H; auto.
  - destruct H as [H|H]; [left; congruence | right; right; exact H].
  - destruct H as [H|H]; [right; left; exact H|].
    destruct (IH _ _ _ H); [left | right; right]; assumption.
Qed.

Lemma swap_incl {A} (x : list A) i j d : In d x -> incl (swap x i j d) x.
Proof.
  intros Hd y Hy. unfold swap in Hy.
  assert (Hn : forall k, In (nth k x d) x).
  { intros k. destruct (nth_in_or_default k x d) as [H|H];
      [exact H | rewrite H; exact Hd]. }
  apply In_list_set in Hy. destruct Hy as [->|Hy]; [apply Hn|].
  apply In_list_set in Hy. destruct Hy as [->|Hy]; [apply Hn | exact Hy].
Qed.

Lemma shuffle_from_incl {A} i : forall (x : list A) r,
  incl (fst (shuffle_from i x r)) x.
Proof.
  induction i as [|i IH]; intros x r; [apply incl_refl|].
  cbn [shuffle_from]. destruct (randbelow (S (S i)) r) as [j r'].
  destruct x as [|d x']; [apply incl_refl|].
  intros y Hy. apply IH in Hy. revert y Hy.
  apply swap_incl. left. reflexivity.
Qed.

Lemma shuffle_incl {A} (x : list A) r : incl (fst (shuffle x r)) x.
Proof. apply shuffle_from_incl. Qed.

Lemma randint_range a b r : a <= b -> a <= fst (randint a b r) <= b.
Proof.
  intros Hab. unfold randint, randbelow.
  destruct r as [|x r]; simpl; [lia|].
  assert (Hn : Z.to_nat (b - a + 1) <> O) by lia.
  pose proof (Nat.mod_upper_bound x _ Hn). lia.
Qed.

(** One attempt never ends with an exception: the grid the Placer leaves
    is a square board of side 10, on which the crop stays in range. *)
Lemma checked_grid_returns words target_count r :
  exists o r', checked_grid words target_count r = (Returned o, r').
Proof.
  pose proof (placer_grid_square words r target_count) as Hsq.
  unfold exec in Hsq. unfold checked_grid.
  destruct (place_initial_word _) as [ok p1]. simpl snd in Hsq.
  destruct ok; simpl; [|eauto].
  destruct (place_remaining_words target_count p1) as [n p2].
  simpl snd in Hsq.
  destruct (n <? MIN_WORDS); [eauto|].
  destruct Hsq as (Hwf & Hh & Hw).
  destruct (crop_empty_edges_returns (wp_grid p2) Hwf) as ([h w] & g1 & E).
  { rewrite Hh. reflexivity. }
  rewrite E.
  destruct ((h <? MIN_GRID_SIZE) || (w <? MIN_GRID_SIZE)); [eauto|].
  destruct (eval validate_crossword g1) as [valid errors].
  destruct valid; simpl; eauto.
Qed.

Lemma attempts_loop_cases attempts : forall words target_count r,
  match attempts_loop attempts words target_count r with
  | (Raised _, _) => False
  | (Returned (Some c), _) =>
    exists words' r0 r1,
      incl words' words /\
      _generate_single words' target_count r0 = (Returned (Some c), r1)
  | (Returned None, _) => True
  end.
Proof.
  induction attempts as [|n IH]; intros words t r; simpl; [exact I|].
  destruct (_generate_single words t r) as [[e|[c|]] r1] eqn:E.
  - unfold _generate_single in E.
    destruct (checked_grid_returns words t r) as (o & r' & E').
    rewrite E' in E. destruct o; discriminate.
  - exists words, r, r1. split; [apply incl_refl | exact E].
  - pose proof (shuffle_incl words r1) as Hs.
    destruct (shuffle words r1) as [words' r2]. simpl in Hs.
    specialize (IH words' t r2).
    destruct (attempts_loop n words' t r2) as [[e|[c|]] r3]; auto.
    destruct IH as (ws & r0 & r4 & Hincl & Hg).
    exists ws, r0, r4. split; [|exact Hg].
    intros y Hy. apply Hs, Hincl, Hy.
Qed.

(** [generate] has too few words to work with: the category is no key of
    the dictionary, or fewer of its entries than the lower word count of
    the difficulty are eligible. *)
Definition too_few (category difficulty : str)
    (excluded_words : option (list str))
    (d : list (str * list WordEntry)) : Prop :=
  match lookup category d with
  | None => True
  | Some words =>
    len (filter (eligible difficulty excluded_words) words)
      < fst (word_count (settings_of difficulty))
  end.


(** The three ways a call of [generate] ends. *)
Lemma generate_cases category difficulty seed excluded_words self :
  let out := eval (generate category difficulty seed excluded_words) self in
  let self' :=
    exec (generate category difficulty seed excluded_words) self in
  dictionary self' = dictionary self /\
  ((too_few category difficulty excluded_words (dictionary self) /\
    out = Raised ValueError /\
    total_generated self' = total_generated self /\
    successful self' = successful self /\
    failed self' = failed self) \/
   (~ too_few category difficulty excluded_words (dictionary self) /\
    ((exists c,
        out = Returned (Some c) /\
        well_formed c /\
        cw_difficulty c = difficulty /\ cw_category c = category /\
        total_generated self' = total_generated self + 1 /\
        successful self' = successful self + 1 /\
        failed self' = failed self) \/
     (out = Returned None /\
      total_generated self' = total_generated self + 1 /\
      successful self' = successful self /\
      failed self' = failed self + 1)))).
Proof.
  intros out self'. subst out self'. unfold eval, exec, generate, too_few.
  fold (settings_of difficulty).
  destruct (lookup category (dictionary self)) as [words|].
  2:{ simpl. split; [reflexivity|]. left. auto. }
  rewrite generate_filtered.
  destruct (Z.ltb_spec (len (filter (eligible difficulty excluded_words)
                                    words))
                       (fst (word_count (settings_of difficulty))))
    as [Hlt|Hge].
  { simpl. split; [reflexivity|]. left. auto. }
  destruct (randint _ _ _) as [t r].
  pose proof (attempts_loop_cases MAX_REGENERATION_ATTEMPTS
                (sort_words_by_score
                   (filter (eligible difficulty excluded_words) words)) t r)
    as Hl.
  destruct (attempts_loop _ _ t r) as [[e|[c0|]] r1]; [contradiction | |].
  - simpl. split; [reflexivity|]. right. split; [lia|]. left.
    exists (with_labels c0 difficulty category).
    split; [reflexivity|].
    destruct Hl as (ws & r0 & r2 & _ & Hg).
    apply generate_single_well_formed in Hg.
    split; [exact Hg|]. simpl. auto.
  - simpl. split; [reflexivity|]. right. split; [lia|]. right. auto.
Qed.


(** ** Batches *)





(** ** The words of a returned crossword *)

Lemma crop_empty_edges_shifts g hw g1 :
  crop_empty_edges g = Some (hw, g1) ->
  exists a b, placed_words g1 = map (shift_word a b) (placed_words g).
Proof.
  unfold crop_empty_edges. intros H.
  destruct (find_bounds g) as [[[[mr xr] mc] xc]|]; simpl in H;
    [|discriminate].
  destruct (mr >? xr).
  - inversion H; subst. exists 0, 0. symmetry. apply shift_word_0.
  - destruct (omap _ _) as [cells|]; simpl in H; [|discriminate].
    inversion H; subst. exists mr, mc. reflexivity.
Qed.

(** The word of a [PlacedWord] made from an entry of [entries]. *)
Definition from_entries (entries : list WordEntry) (q : PlacedWord) : Prop :=
  exists e, In e entries /\ placed_from e q.

Lemma from_entries_shift entries a b l :
  Forall (from_entries entries) l ->
  Forall (from_entries entries) (map (shift_word a b) l).
Proof.
  intros H. apply Forall_forall. intros q Hq.
  apply in_map_iff in Hq. destruct Hq as (q0 & <- & Hq0).
  rewrite Forall_forall in H. destruct (H q0 Hq0) as (e & He & Hf).
  exists e. split; [exact He | exact Hf].
Qed.

(** The words the Placer has put on the board of one attempt. *)
Lemma placer_words words r target_count :
  let p2 := exec (place_remaining_words target_count)
              (exec place_initial_word
                 (WordPlacer_init (Grid_init DEFAULT_GRID_SIZE) words r)) in
  Forall (from_entries words) (placed_words (wp_grid p2)) /\
  len (placed_words (wp_grid p2)) <= Z.max target_count 1.
Proof.
  set (p0 := WordPlacer_init (Grid_init DEFAULT_GRID_SIZE) words r).
  set (p1 := exec place_initial_word p0). intros p2.
  destruct (place_initial_word_cases p0) as (H1 & H2 & H3 & _).
  fold p1 in H1, H2, H3.
  assert (Hp1 : Forall (from_entries words) (placed_words (wp_grid p1)) /\
                len (placed_words (wp_grid p1)) <= 1).
  { destruct (eval place_initial_word p0) eqn:E.
    - destruct (H3 eq_refl) as (e & He & _ & _ & Hg & _).
      rewrite Hg, placed_words_committed. simpl placed_words.
      split; [|unfold len; simpl; lia].
      constructor; [|constructor]. exists e. split.
      + apply firstn_In in He. unfold by_length in He.
        apply sorted_desc_In in He. exact He.
      + unfold placed_from. simpl. rewrite upper_idem. auto.
    - destruct (H2 eq_refl) as [Hg _]. rewrite Hg. simpl.
      split; [constructor | unfold len; simpl; lia]. }
  destruct Hp1 as [Hf1 Hl1].
  destruct (place_remaining_words_grows target_count p1)
    as [(_ & _ & (new & G3 & G3') & G4 & _) _].
  fold p2 in G3, G4. split; [|lia].
  rewrite G3. apply Forall_app. split; [exact Hf1|].
  revert G3'. apply Forall_impl. intros q (e & He & Hf & _).
  exists e. split; [|exact Hf]. rewrite H1 in He. exact He.
Qed.

Lemma cw_words_format_result g :
  cw_words (eval _format_result g) = map to_dict (placed_words g) /\
  md_word_count (metadata (eval _format_result g)) = len (placed_words g).
Proof.
  unfold _format_result.
  rewrite eval_bind by apply readonly_gets.
  rewrite eval_bind by apply readonly_gets.
  rewrite eval_bind by apply readonly_get_fill_density.
  split; reflexivity.
Qed.

Lemma generate_single_words words target_count r c r' :
  _generate_single words target_count r = (Returned (Some c), r') ->
  exists placed,
    cw_words c = map to_dict placed /\
    md_word_count (metadata c) = len placed /\
    Forall (from_entries words) placed /\
    MIN_WORDS <= len placed <= Z.max target_count 1.
Proof.
  unfold _generate_single. intros H.
  destruct (checked_grid words target_count r) as [[e|[g|]] r1] eqn:E;
    inversion H; subst.
  apply checked_grid_spec in E. destruct E as (h & w & Hc & _ & _ & Hv).
  apply validate_crossword_true in Hv. destruct Hv as (V1 & _).
  destruct (placer_words words r target_count) as [Hf Hl].
  destruct (crop_empty_edges_shifts _ _ _ Hc) as (a & b & Hw).
  destruct (cw_words_format_result g) as [F1 F2].
  exists (placed_words g). split; [exact F1|]. split; [exact F2|].
  rewrite Hw. split; [apply from_entries_shift; exact Hf|].
  rewrite Hw in V1. unfold len in *. rewrite length_map in *. lia.
Qed.

(** X16. The words of a crossword [generate] returns are words of the
    category: each one is the upper-cased word, with the clue and the hint,
    of an entry of [dictionary[category]] whose word has a length the
    difficulty permits, it is no excluded word, and its [length] is the
    number of its letters. Their number, which is [metadata.word_count],
    is at least 8 and at most the upper word count of the difficulty. *)
Theorem generate_words :
  forall (category difficulty : str) (seed : option Random)
         (excluded_words : option (list str)) (self : CrosswordGenerator)
         (c : Crossword),
    eval (generate category difficulty seed excluded_words) self
      = Returned (Some c) ->
    exists words,
      lookup category (dictionary self) = Some words /\
      md_word_count (metadata c) = len (cw_words c) /\
      8 <= len (cw_words c)
        <= snd (word_count (settings_of difficulty)) /\
      Forall (fun wd =>
                (exists e,
                   In e words /\
                   min_word_length (settings_of difficulty) <= len (word e)
                     <= max_word_length (settings_of difficulty) /\
                   wd_word wd = upper (word e) /\
                   wd_clue wd = clue e /\ wd_hint wd = hint e) /\
                (forall l, excluded_words = Some l -> ~ In (wd_word wd) l) /\
                wd_length wd = len (wd_word wd))
             (cw_words c).
Proof.
  intros category difficulty seed excluded self c H.
  unfold eval, generate in H. fold (settings_of difficulty) in H.
  destruct (lookup category (dictionary self)) as [words|];
    [|discriminate].
  rewrite generate_filtered in H.
  destruct (Z.ltb_spec (len (filter (eligible difficulty excluded) words))
                       (fst (word_count (settings_of difficulty))))
    as [Hlt|Hge]; [discriminate|].
  assert (Hcount : fst (word_count (settings_of difficulty))
                   <= snd (word_count (settings_of difficulty)) /\
                   1 <= snd (word_count (settings_of difficulty))).
  { unfold settings_of, DIFFICULTY_SETTINGS.
    repeat match goal with
           | |- context [if ?b then _ else _] => destruct b
           end; simpl; lia. }
  pose proof (randint_range _ _
                match seed with Some s => s | None => gen_random self end
                (proj1 Hcount)) as Hr.
  destruct (randint _ _ _) as [t r]. simpl fst in Hr.
  pose proof (attempts_loop_cases MAX_REGENERATION_ATTEMPTS
                (sort_words_by_score
                   (filter (eligible difficulty excluded) words)) t r) as Hl.
  destruct (attempts_loop _ _ t r) as [[e|[c0|]] r1];
    simpl in H; try discriminate.
  injection H as Hc. subst c.
  destruct Hl as (ws & r0 & r2 & Hincl & Hg).
  apply generate_single_words in Hg.
  destruct Hg as (placed & G1 & G2 & G3 & G4).
  exists words. split; [reflexivity|]. simpl cw_words. simpl metadata.
  rewrite G1. unfold len at 1 2 3. rewrite length_map. fold (len placed).
  split; [exact G2|]. unfold MIN_WORDS in G4. split; [lia|].
  apply Forall_forall. intros wd Hwd.
  apply in_map_iff in Hwd. destruct Hwd as (q & <- & Hq).
  rewrite Forall_forall in G3. destruct (G3 q Hq) as (e & He & Hw & Hcl & Hh).
  apply Hincl in He. unfold sort_words_by_score in He.
  apply sorted_desc_In in He. apply filter_In in He.
  destruct He as [He Hel]. unfold eligible in Hel.
  apply andb_true_iff in Hel. destruct Hel as [Hex Hlen].
  apply andb_true_iff in Hlen. destruct Hlen as [Hmin Hmax].
  apply Z.leb_le in Hmin. apply Z.leb_le in Hmax.
  split; [|split; [|reflexivity]].
  - exists e. simpl. auto.
  - intros l -> Hin. simpl in Hin. rewrite Hw in Hin.
    apply negb_true_iff in Hex.
    apply str_in_true in Hin. congruence.
Qed.

Lemma generate_words_witness :
  eval (generate (py "Наука") (py "easy") None None) science_generator
    = Returned (Some science_crossword) /\
  exists words,
    lookup (py "Наука") (dictionary science_generator) = Some words /\
    md_word_count (metadata science_crossword)
      = len (cw_words science_crossword) /\
    8 <= len (cw_words science_crossword)
      <= snd (word_count (settings_of (py "easy"))) /\
    Forall (fun wd =>
              (exists e,
                 In e words /\
                 min_word_length (settings_of (py "easy")) <= len (word e)
                   <= max_word_length (settings_of (py "easy")) /\
                 wd_word wd = upper (word e) /\
                 wd_clue wd = clue e /\ wd_hint wd = hint e) /\
              (forall l, None = Some l -> ~ In (wd_word wd) l) /\
              wd_length wd = len (wd_word wd))
           (cw_words science_crossword).
Proof.
  assert (H : eval (generate (py "Наука") (py "easy") None None)
                science_generator = Returned (Some science_crossword))
    by (vm_compute; reflexivity).
  split; [exact H|].
  exact (generate_words (py "Наука") (py "easy") None None
           science_generator science_crossword H).
Defined.

(* ===================================================================== *)
(** * The Placer: restarts *)
(* ===================================================================== *)

(** [WordPlacer._reset_grid] *)
Definition _reset_grid : State WordPlacer unit :=
  modify (fun p =>
    let size := grid_size (wp_grid p) in
    {| wp_grid := Grid_init size; word_list := word_list p;
       _used_words := []; wp_random := wp_random p |}).

(** [random.shuffle(self.word_list)] *)
Definition shuffle_word_list : State WordPlacer unit :=
  fun p =>
    let '(words, r) := shuffle (word_list p) (wp_random p) in
    (tt, {| wp_grid := wp_grid p; word_list := words;
            _used_words := _used_words p; wp_random := r |}).

(** The loop [for attempt in range(max_global_attempts)] of
    [place_words_with_backtracking], from [attempts] on. The locals
    [best_grid_state] and [best_placed_words] are written and never
    read. *)
Fixpoint backtracking_loop (attempts : list Z)
    (target_count max_global_attempts best_result : Z)
    : State WordPlacer Z :=
  match attempts with
  | [] => ret best_result
  | attempt :: attempts' =>
    current_count <- place_remaining_words target_count ;;
    let best_result :=
      if current_count >? best_result then current_count
      else best_result in
    if current_count >=? target_count then ret best_result else
    (if attempt <? max_global_attempts - 1
     then _reset_grid ;;; (shuffle_word_list ;;;
          (_ <- place_initial_word ;; ret tt))
     else ret tt) ;;;
    backtracking_loop attempts' target_count max_global_attempts best_result
  end.

(** [WordPlacer.place_words_with_backtracking(target_count,
    max_global_attempts)] *)
Definition place_words_with_backtracking (target_count : Z)
    (max_global_attempts : Z) : State WordPlacer Z :=
  backtracking_loop (range 0 max_global_attempts) target_count
                    max_global_attempts 0.

Lemma shuffle_from_length {A} i : forall (x : list A) r,
  List.length (fst (shuffle_from i x r)) = List.length x.
Proof.
  induction i as [|i IH]; intros x r; [reflexivity|].
  cbn [shuffle_from]. destruct (randbelow (S (S i)) r) as [j r'].
  destruct x as [|d x']; [reflexivity|].
  rewrite IH. unfold swap. rewrite !length_list_set. reflexivity.
Qed.

(** The words the Placer works with after the steps between two rounds. *)
Lemma restart_word_list p :
  let p' := exec (_reset_grid ;;; (shuffle_word_list ;;;
                  (_ <- place_initial_word ;; ret tt))) p in
  incl (word_list p') (word_list p) /\
  len (word_list p') = len (word_list p).
Proof.
  intros p'. subst p'. rewrite !exec_bind.
  change (exec (ret tt) ?s) with s.
  set (p1 := exec _reset_grid p).
  set (p2 := exec shuffle_word_list p1).
  destruct (place_initial_word_cases p2) as (H1 & _).
  rewrite H1.
  assert (H2 : word_list p2 = fst (shuffle (word_list p) (wp_random p))).
  { subst p2 p1. unfold exec, shuffle_word_list, _reset_grid, modify.
    simpl. destruct (shuffle _ _); reflexivity. }
  rewrite H2. split; [apply shuffle_incl|].
  unfold len, shuffle. rewrite shuffle_from_length. reflexivity.
Qed.

Lemma backtracking_loop_spec target_count max_global_attempts :
  forall attempts a best p,
    attempts = range a max_global_attempts -> 0 <= a ->
    best < target_count \/ best = 0 ->
    let n := eval (backtracking_loop attempts target_count
                     max_global_attempts best) p in
    let p' := exec (backtracking_loop attempts target_count
                      max_global_attempts best) p in
    best <= n /\
    incl (word_list p') (word_list p) /\
    len (word_list p') = len (word_list p) /\
    (attempts <> [] ->
     eval (place_remaining_words target_count) p <= n /\
     len (placed_words (wp_grid p')) <= n /\
     (target_count <= n -> len (placed_words (wp_grid p')) = n) /\
     (target_count <= eval (place_remaining_words target_count) p ->
      p' = exec (place_remaining_words target_count) p /\
      (best < target_count ->
       n = eval (place_remaining_words target_count) p))).
Proof.
  induction attempts as [|attempt attempts' IH]; intros a best p Hr Ha Hb.
  - simpl. unfold eval, exec, ret. simpl.
    split; [lia|]. split; [apply incl_refl|]. split; [reflexivity|].
    intros H. contradiction H. reflexivity.
  - assert (Hlt : a < max_global_attempts).
    { destruct (Z_lt_le_dec a max_global_attempts) as [H|H]; [exact H|].
      unfold range in Hr. replace (Z.to_nat (max_global_attempts - a))
        with O in Hr by lia. discriminate. }
    rewrite range_cons in Hr by exact Hlt.
    injection Hr as Hattempt Hrest.
    cbv zeta. cbn [backtracking_loop].
    rewrite exec_bind, eval_bind_any.
    destruct (place_remaining_words_grows target_count p)
      as [(G1 & _ & _ & _ & _ & _) Hret].
    set (p1 := exec (place_remaining_words target_count) p) in *.
    set (current := eval (place_remaining_words target_count) p) in *.
    assert (Hcur : 0 <= current) by (rewrite Hret; apply len_nonneg).
    set (best1 := if current >? best then current else best).
    assert (Hbest1 : best <= best1 /\ current <= best1 /\
                     (best1 = current \/ best1 = best)).
    { subst best1. destruct (Z.gtb_spec current best); lia. }
    destruct (Z.geb_spec current target_count) as [Hge|Hlt'].
    + unfold eval, exec, ret. simpl fst. simpl snd.
      assert (Hb1 : best1 = current) by lia.
      split; [lia|]. split; [rewrite G1; apply incl_refl|].
      split; [rewrite G1; reflexivity|]. intros _.
      split; [lia|]. split; [lia|]. split; [lia|].
      intros _. split; [reflexivity | intros _; exact Hb1].
    + rewrite exec_bind, eval_bind_any.
      set (between :=
             if attempt <? max_global_attempts - 1
             then _reset_grid ;;; (shuffle_word_list ;;;
                  (_ <- place_initial_word ;; ret tt))
             else ret tt).
      set (p2 := exec between p1).
      assert (Hw2 : incl (word_list p2) (word_list p) /\
                    len (word_list p2) = len (word_list p)).
      { subst p2 between. rewrite <- G1.
        destruct (attempt <? max_global_attempts - 1).
        - apply restart_word_list.
        - split; [apply incl_refl | reflexivity]. }
      assert (Hb1 : best1 < target_count \/ best1 = 0) by lia.
      specialize (IH (a + 1) best1 p2 Hrest ltac:(lia) Hb1).
      cbv zeta in IH. destruct IH as (I1 & I2 & I3 & I4).
      split; [lia|].
      split; [intros x Hx; apply Hw2, I2, Hx|].
      split; [lia|]. intros _.
      split; [lia|].
      destruct attempts' as [|a2 rest].
      * (* the last round: nothing is reset *)
        assert (Hlast : (attempt <? max_global_attempts - 1) = false).
        { apply Z.ltb_ge. subst attempt.
          destruct (Z_lt_le_dec (a + 1) max_global_attempts) as [H|H];
            [|lia].
          rewrite range_cons in Hrest by exact H. discriminate. }
        subst p2 between. rewrite Hlast.
        change (exec (ret tt) p1) with p1.
        cbn [backtracking_loop]. unfold eval, exec, ret. simpl fst.
        simpl snd. fold p1. rewrite <- Hret.
        split; [lia|]. split; [lia|]. lia.
      * destruct (I4 ltac:(discriminate)) as (J1 & J2 & J3 & _).
        split; [exact J2|]. split; [exact J3|]. lia.
Qed.

(** A Placer with "АТОМ" on the board and two more words, of which "ЛЕС"
    shares no letter with the others; [random] is about to draw
    0, 0, 0, 2, 0, 0, ... *)
Definition restart_placer : WordPlacer :=
  exec place_initial_word
       (WordPlacer_init (Grid_init 10)
                        (map entry ["АТОМ"; "ТОК"; "ЛЕС"]%string)
                        [0; 0; 0; 0; 2]%nat).

(** X17. [place_words_with_backtracking(target_count,
    max_global_attempts)] returns the largest number of words a round has
    reached, not the number of words on the grid it leaves: with at least
    one round, the number returned is at least what
    [place_remaining_words(target_count)] returns from the same state and
    at least the number of words on the grid at the end, and the two are
    equal when the number returned has reached [target_count]. When the
    first round reaches [target_count], the call does what
    [place_remaining_words] does. With no round ([max_global_attempts]
    of 0 or less) it returns 0 and changes nothing. The word list keeps
    its length and gets no new entry. The grid of the best round is not
    put back: there is a call that returns 2 and leaves one word on the
    grid. *)
Theorem place_words_with_backtracking_result :
  (forall (target_count max_global_attempts : Z) (p : WordPlacer),
     let n := eval (place_words_with_backtracking target_count
                      max_global_attempts) p in
     let p' := exec (place_words_with_backtracking target_count
                       max_global_attempts) p in
     let first := eval (place_remaining_words target_count) p in
     0 <= n /\
     incl (word_list p') (word_list p) /\
     len (word_list p') = len (word_list p) /\
     (max_global_attempts <= 0 -> n = 0 /\ p' = p) /\
     (0 < max_global_attempts ->
      first <= n /\
      len (placed_words (wp_grid p')) <= n /\
      (target_count <= n -> len (placed_words (wp_grid p')) = n) /\
      (target_count <= first ->
       n = first /\ p' = exec (place_remaining_words target_count) p))) /\
  eval (place_words_with_backtracking 3 2) restart_placer = 2 /\
  map pw_word
      (placed_words
         (wp_grid (exec (place_words_with_backtracking 3 2) restart_placer)))
    = [py "ЛЕС"].
Proof.
  split; [|split; vm_compute; reflexivity].
  intros target_count max_global_attempts p n p' first.
  subst n p' first. unfold place_words_with_backtracking.
  destruct (backtracking_loop_spec target_count max_global_attempts
              (range 0 max_global_attempts) 0 0 p eq_refl ltac:(lia)
              ltac:(lia)) as (H1 & H2 & H3 & H4).
  split; [exact H1|]. split; [exact H2|]. split; [exact H3|]. split.
  - intros Hle. unfold range.
    replace (Z.to_nat (max_global_attempts - 0)) with O by lia.
    split; reflexivity.
  - intros Hpos.
    assert (Hne : range 0 max_global_attempts <> []).
    { rewrite range_cons by exact Hpos. discriminate. }
    destruct (H4 Hne) as (J1 & J2 & J3 & J4).
    split; [exact J1|]. split; [exact J2|]. split; [exact J3|].
    intros Hf. destruct (J4 Hf) as [K1 K2].
    split; [|exact K1].
    destruct (place_remaining_words_grows target_count p) as [_ Hret].
    destruct (Z_lt_le_dec 0 target_count) as [Ht|Ht]; [apply K2; exact Ht|].
    (* a target of 0 or less: the first round has reached it *)
    rewrite K1 in J3. rewrite <- Hret in J3.
    symmetry. apply J3. lia.
Qed.

(* ===================================================================== *)
(** * utils.py: the letters two words share *)
(* ===================================================================== *)

(** A [dict] from letters to lists of positions, as its items in the
    order the keys were inserted. *)
Definition Positions := list (char * list Z).

(** [d.get(k)] *)
Fixpoint dict_get (d : Positions) (k : char) : option (list Z) :=
  match d with
  | [] => None
  | (k', v) :: d' => if k' =? k then Some v else dict_get d' k
  end.

(** [if ch not in positions: positions[ch] = []] and then
    [positions[ch].append(i)]. *)
Fixpoint add_position (positions : Positions) (ch : char) (i : Z)
    : Positions :=
  match positions with
  | [] => [(ch, [i])]
  | (k, v) :: rest =>
    if k =? ch then (k, v ++ [i]) :: rest
    else (k, v) :: add_position rest ch i
  end.

(** [get_letter_positions] *)
Definition get_letter_positions (w : str) : Positions :=
  fold_left (fun positions ic => add_position positions (snd ic) (fst ic))
            (enumerate (upper w)) [].

(** [find_common_letters]; [pos1[letter]] is the value that comes with
    the key [letter] in the items of [pos1]. *)
Definition find_common_letters (word1 word2 : str) : list (char * Z * Z) :=
  let word1 := upper word1 in
  let word2 := upper word2 in
  let pos1 := get_letter_positions word1 in
  let pos2 := get_letter_positions word2 in
  flat_map
    (fun kv =>
       let letter := fst kv in
       match dict_get pos2 letter with
       | Some ps2 =>
         flat_map (fun p1 => map (fun p2 => (letter, p1, p2)) ps2) (snd kv)
       | None => []
       end)
    pos1.

(** [[i for i, c in l if c == ch]] *)
Definition positions_of (l : list (Z * char)) (ch : char) : list Z :=
  map fst (filter (fun ic => snd ic =? ch) l).

Lemma dict_get_add d c i ch :
  dict_get (add_position d c i) ch =
  if c =? ch
  then Some (match dict_get d ch with Some v => v | None => [] end ++ [i])
  else dict_get d ch.
Proof.
  induction d as [|[k v] d IH]; simpl.
  - destruct (Z.eqb_spec c ch); reflexivity.
  - destruct (Z.eqb_spec k c) as [->|Hkc]; simpl.
    + destruct (Z.eqb_spec c ch); reflexivity.
    + destruct (Z.eqb_spec k ch) as [->|Hk].
      * destruct (Z.eqb_spec c ch); [congruence | reflexivity].
      * exact IH.
Qed.

Lemma keys_add d c i :
  map fst (add_position d c i) =
  if char_in c (map fst d) then map fst d else map fst d ++ [c].
Proof.
  induction d as [|[k v] d IH]; simpl; [reflexivity|].
  rewrite (Z.eqb_sym c k).
  destruct (Z.eqb_spec k c) as [->|Hkc]; simpl; [reflexivity|].
  rewrite IH. destruct (char_in c (map fst d)); reflexivity.
Qed.

Lemma char_in_true c s : char_in c s = true <-> In c s.
Proof.
  unfold char_in. rewrite existsb_exists. split.
  - intros [x [Hx E]]. apply Z.eqb_eq in E. subst. exact Hx.
  - intros H. exists c. split; [exact H | apply Z.eqb_refl].
Qed.

Lemma keys_add_NoDup d c i :
  NoDup (map fst d) -> NoDup (map fst (add_position d c i)).
Proof.
  intros H. rewrite keys_add.
  destruct (char_in c (map fst d)) eqn:E; [exact H|].
  apply NoDup_app; [exact H | constructor; [intros [] | constructor] |].
  intros x Hx [<-|[]].
  apply char_in_true in Hx. congruence.
Qed.

Lemma keys_add_In d c i x :
  In x (map fst (add_position d c i)) <-> In x (map fst d) \/ x = c.
Proof.
  rewrite keys_add. destruct (char_in c (map fst d)) eqn:E.
  - apply char_in_true in E. split; [auto|]. intros [H| ->]; assumption.
  - rewrite in_app_iff. simpl. split; intros [H|H]; auto.
    + destruct H as [<-|[]]. auto.
Qed.

Lemma letter_positions_fold (l : list (Z * char)) : forall d,
  let d' := fold_left (fun positions ic =>
                         add_position positions (snd ic) (fst ic)) l d in
  (NoDup (map fst d) -> NoDup (map fst d')) /\
  (forall x, In x (map fst d') <-> In x (map fst d) \/ In x (map snd l)) /\
  (forall ch,
     dict_get d' ch =
     match positions_of l ch with
     | [] => dict_get d ch
     | ps => Some (match dict_get d ch with Some v => v | None => [] end
                   ++ ps)
     end).
Proof.
  induction l as [|[i c] l IH]; intros d; cbn [fold_left].
  - simpl. split; [auto|]. split; [tauto | reflexivity].
  - cbv zeta. destruct (IH (add_position d c i)) as (I1 & I2 & I3).
    simpl fst. simpl snd. split; [|split].
    + intros H. apply I1. apply keys_add_NoDup. exact H.
    + intros x. rewrite I2, keys_add_In. simpl. intuition auto.
    + intros ch. rewrite I3, dict_get_add. unfold positions_of.
      cbn [filter]. simpl snd.
      destruct (Z.eqb_spec c ch) as [->|Hc]; cbn [map fst].
      * destruct (map fst (filter (fun ic => snd ic =? ch) l)) as [|p ps].
        -- reflexivity.
        -- rewrite <- app_assoc. reflexivity.
      * reflexivity.
Qed.

Lemma map_snd_enumerate {A} (l : list A) : map snd (enumerate l) = l.
Proof.
  unfold enumerate.
  assert (H : List.length (range 0 (len l)) = List.length l)
    by (rewrite range_length; unfold len; lia).
  revert H. generalize (range 0 (len l)) as r.
  induction l as [|x l IH]; intros [|y r] H; simpl in *; try discriminate;
    auto.
  f_equal. apply IH. lia.
Qed.

Lemma positions_of_In l ch i : In i (positions_of l ch) <-> In (i, ch) l.
Proof.
  unfold positions_of. rewrite in_map_iff. split.
  - intros [[j c] [<- H]]. apply filter_In in H. destruct H as [H E].
    simpl in E. apply Z.eqb_eq in E. subst. exact H.
  - intros H. exists (i, ch). split; [reflexivity|].
    apply filter_In. split; [exact H | apply Z.eqb_refl].
Qed.

Lemma positions_of_nil l ch :
  positions_of l ch = [] <-> ~ In ch (map snd l).
Proof.
  split.
  - intros E Hin. apply in_map_iff in Hin. destruct Hin as [[i c] [<- H]].
    simpl in E. apply (positions_of_In l c i) in H. rewrite E in H.
    exact H.
  - intros Hn. destruct (positions_of l ch) as [|i ps] eqn:E;
      [reflexivity|].
    exfalso. apply Hn. assert (H : In i (positions_of l ch))
      by (rewrite E; left; reflexivity).
    apply positions_of_In in H. apply in_map_iff. exists (i, ch). auto.
Qed.

Lemma positions_of_NoDup l ch :
  NoDup (map fst l) -> NoDup (positions_of l ch).
Proof.
  unfold positions_of. induction l as [|[i c] l IH]; simpl; intros H.
  - constructor.
  - inversion H as [|? ? Hn Hl]; subst.
    destruct (c =? ch); simpl; [|apply IH; exact Hl].
    constructor; [|apply IH; exact Hl].
    intros Hin. apply Hn. apply in_map_iff in Hin.
    destruct Hin as [x [Hx Hf]]. apply filter_In in Hf.
    apply in_map_iff. exists x. tauto.
Qed.

Lemma letter_positions_get w ch :
  dict_get (get_letter_positions w) ch =
  if char_in ch (upper w)
  then Some (positions_of (enumerate (upper w)) ch)
  else None.
Proof.
  unfold get_letter_positions.
  destruct (letter_positions_fold (enumerate (upper w)) []) as (_ & _ & H).
  cbv zeta in H. rewrite H. simpl.
  destruct (char_in ch (upper w)) eqn:E.
  - destruct (positions_of (enumerate (upper w)) ch) eqn:Ep; [|reflexivity].
    apply positions_of_nil in Ep. rewrite map_snd_enumerate in Ep.
    apply char_in_true in E. contradiction.
  - assert (Hn : ~ In ch (map snd (enumerate (upper w)))).
    { rewrite map_snd_enumerate. intros Hin. apply char_in_true in Hin.
      congruence. }
    apply positions_of_nil in Hn. rewrite Hn. reflexivity.
Qed.

Lemma letter_positions_keys w :
  NoDup (map fst (get_letter_positions w)) /\
  (forall ch, In ch (map fst (get_letter_positions w)) <-> In ch (upper w)).
Proof.
  unfold get_letter_positions.
  destruct (letter_positions_fold (enumerate (upper w)) []) as (H1 & H2 & _).
  cbv zeta in H1, H2. split; [apply H1; constructor|].
  intros ch. rewrite H2, map_snd_enumerate. simpl. tauto.
Qed.

Lemma dict_get_In (d : Positions) k v :
  NoDup (map fst d) -> (In (k, v) d <-> dict_get d k = Some v).
Proof.
  induction d as [|[k' v'] d IH]; simpl; intros H.
  - split; [intros [] | discriminate].
  - inversion H as [|? ? Hn Hd]; subst.
    destruct (Z.eqb_spec k' k) as [->|Hk].
    + split.
      * intros [E|Hin]; [congruence|].
        exfalso. apply Hn. apply in_map_iff. exists (k, v). auto.
      * intros E. left. congruence.
    + rewrite <- (IH Hd). split; [|auto].
      intros [E|Hin]; [congruence | exact Hin].
Qed.

(** X18. [get_letter_positions(word)] has one key for every letter of the
    upper-cased word and no other; the value of a letter is the list of
    the indices at which the upper-cased word has it, in ascending order
    of the enumeration, so no index twice. The empty word gives the empty
    dict. *)
Theorem get_letter_positions_spec :
  forall w : str,
    let positions := get_letter_positions w in
    NoDup (map fst positions) /\
    (forall ch, In ch (map fst positions) <-> In ch (upper w)) /\
    (forall ch,
       dict_get positions ch =
       if char_in ch (upper w)
       then Some (positions_of (enumerate (upper w)) ch)
       else None) /\
    (forall ch ps i,
       dict_get positions ch = Some ps ->
       NoDup ps /\ ps <> [] /\
       (In i ps <->
        0 <= i /\ nth_error (upper w) (Z.to_nat i) = Some ch)) /\
    (w = [] -> positions = []).
Proof.
  intros w positions. subst positions.
  destruct (letter_positions_keys w) as [K1 K2].
  split; [exact K1|]. split; [exact K2|].
  split; [apply letter_positions_get|]. split.
  - intros ch ps i H. rewrite letter_positions_get in H.
    destruct (char_in ch (upper w)) eqn:E; [|discriminate].
    injection H as <-. split; [|split].
    + apply positions_of_NoDup. apply NoDup_enumerate.
    + intros Hnil. apply positions_of_nil in Hnil.
      rewrite map_snd_enumerate in Hnil. apply char_in_true in E.
      contradiction.
    + rewrite positions_of_In, in_enumerate. split.
      * intros [k [-> Hk]]. rewrite Nat2Z.id. split; [lia | exact Hk].
      * intros [Hi Hk]. exists (Z.to_nat i). split; [lia | exact Hk].
  - intros ->. reflexivity.
Qed.

Lemma NoDup_map_injective {A B} (f : A -> B) (l : list A) :
  (forall a b, f a = f b -> a = b) -> NoDup l -> NoDup (map f l).
Proof.
  intros Hf. induction 1 as [|x l Hn Hl IH]; simpl; constructor; auto.
  intros Hin. apply in_map_iff in Hin. destruct Hin as [y [E Hy]].
  apply Hf in E. subst. contradiction.
Qed.

Lemma NoDup_flat_map {A B} (f : A -> list B) (l : list A) :
  NoDup l ->
  (forall x, In x l -> NoDup (f x)) ->
  (forall x y b, In x l -> In y l -> In b (f x) -> In b (f y) -> x = y) ->
  NoDup (flat_map f l).
Proof.
  induction l as [|a l IH]; simpl; intros Hl Hf Hd; [constructor|].
  inversion Hl as [|? ? Hn Hl']; subst.
  apply NoDup_app.
  - apply Hf. left. reflexivity.
  - apply IH; [exact Hl' | intros x Hx; apply Hf; right; exact Hx |].
    intros x y b Hx Hy. apply Hd; right; assumption.
  - intros b Hb Hb'. apply in_flat_map in Hb'. destruct Hb' as [y [Hy Hby]].
    assert (a = y) by (apply (Hd a y b); auto; left; reflexivity).
    subst. contradiction.
Qed.

(** X19. [find_common_letters(word1, word2)] lists the triples
    [(letter, p1, p2)] for which the upper-cased [word1] has [letter] at
    index [p1] and the upper-cased [word2] has it at index [p2]: all of
    them, each once. So it is empty exactly when the two upper-cased words
    share no letter, and swapping the words swaps the positions. *)
Theorem find_common_letters_exact :
  forall word1 word2 : str,
    let common := find_common_letters word1 word2 in
    (forall letter p1 p2,
       In (letter, p1, p2) common <->
       In (p1, letter) (enumerate (upper word1)) /\
       In (p2, letter) (enumerate (upper word2))) /\
    NoDup common /\
    (common = [] <->
     forall c, In c (upper word1) -> ~ In c (upper word2)) /\
    (forall letter p1 p2,
       In (letter, p1, p2) common <->
       In (letter, p2, p1) (find_common_letters word2 word1)).
Proof.
  intros word1 word2.
  assert (Hin : forall w1 w2 letter p1 p2,
            In (letter, p1, p2) (find_common_letters w1 w2) <->
            In (p1, letter) (enumerate (upper w1)) /\
            In (p2, letter) (enumerate (upper w2))).
  { intros w1 w2 letter p1 p2. unfold find_common_letters.
    rewrite in_flat_map. split.
    - intros [[k ps1] [Hkv H]]. simpl in H.
      destruct (letter_positions_keys (upper w1)) as [K1 _].
      apply (dict_get_In _ _ _ K1) in Hkv.
      rewrite letter_positions_get, upper_idem in Hkv.
      destruct (char_in k (upper w1)); [|discriminate].
      injection Hkv as <-.
      rewrite letter_positions_get, upper_idem in H.
      destruct (char_in k (upper w2)); [|contradiction].
      apply in_flat_map in H. destruct H as [q1 [Hq1 H]].
      apply in_map_iff in H. destruct H as [q2 [E Hq2]].
      injection E as -> -> ->.
      apply positions_of_In in Hq1. apply positions_of_In in Hq2. auto.
    - intros [H1 H2].
      assert (C1 : char_in letter (upper w1) = true).
      { apply char_in_true. rewrite <- (map_snd_enumerate (upper w1)).
        apply in_map_iff. exists (p1, letter). auto. }
      assert (C2 : char_in letter (upper w2) = true).
      { apply char_in_true. rewrite <- (map_snd_enumerate (upper w2)).
        apply in_map_iff. exists (p2, letter). auto. }
      exists (letter, positions_of (enumerate (upper w1)) letter). split.
      + destruct (letter_positions_keys (upper w1)) as [K1 _].
        apply (dict_get_In _ _ _ K1).
        rewrite letter_positions_get, upper_idem, C1. reflexivity.
      + simpl. rewrite letter_positions_get, upper_idem, C2.
        apply in_flat_map. exists p1.
        split; [apply positions_of_In; exact H1|].
        apply in_map_iff. exists p2.
        split; [reflexivity | apply positions_of_In; exact H2]. }
  intros common. subst common.
  split; [apply Hin|]. split; [|split].
  - unfold find_common_letters.
    destruct (letter_positions_keys (upper word1)) as [K1 _].
    apply NoDup_flat_map.
    + apply (NoDup_map_inv fst). exact K1.
    + intros [k ps1] Hkv. simpl.
      apply (dict_get_In _ _ _ K1) in Hkv.
      rewrite letter_positions_get, upper_idem in Hkv.
      destruct (char_in k (upper word1)); [|discriminate].
      injection Hkv as <-.
      rewrite letter_positions_get, upper_idem.
      destruct (char_in k (upper word2)); [|constructor].
      apply NoDup_flat_map.
      * apply positions_of_NoDup, NoDup_enumerate.
      * intros p1 _. apply NoDup_map_injective.
        -- intros a b E. congruence.
        -- apply positions_of_NoDup, NoDup_enumerate.
      * intros x y b _ _ Hx Hy.
        apply in_map_iff in Hx. destruct Hx as [q [<- _]].
        apply in_map_iff in Hy. destruct Hy as [q' [E _]]. congruence.
    + intros [k ps1] [k' ps1'] b Hx Hy Hbx Hby. simpl in Hbx, Hby.
      assert (Hk : k = k').
      { destruct (dict_get _ k); [|contradiction].
        destruct (dict_get _ k'); [|contradiction].
        apply in_flat_map in Hbx. destruct Hbx as [q [_ Hbx]].
        apply in_map_iff in Hbx. destruct Hbx as [q2 [<- _]].
        apply in_flat_map in Hby. destruct Hby as [q' [_ Hby]].
        apply in_map_iff in Hby. destruct Hby as [q2' [E _]].
        congruence. }
      subst k'.
      apply (dict_get_In _ _ _ K1) in Hx.
      apply (dict_get_In _ _ _ K1) in Hy. congruence.
  - split.
    + intros E c H1 H2.
      apply In_nth_error in H1. destruct H1 as [k1 H1].
      apply In_nth_error in H2. destruct H2 as [k2 H2].
      assert (H : In (c, Z.of_nat k1, Z.of_nat k2)
                     (find_common_letters word1 word2)).
      { apply Hin. rewrite !in_enumerate. split; eauto. }
      rewrite E in H. exact H.
    + intros H.
      destruct (find_common_letters word1 word2) as [|[[c p1] p2] l] eqn:E;
        [reflexivity|].
      exfalso.
      assert (Hc : In (c, p1, p2) (find_common_letters word1 word2))
        by (rewrite E; left; reflexivity).
      apply Hin in Hc. destruct Hc as [H1 H2].
      apply (H c).
      * rewrite <- (map_snd_enumerate (upper word1)).
        apply in_map_iff. exists (p1, c). auto.
      * rewrite <- (map_snd_enumerate (upper word2)).
        apply in_map_iff. exists (p2, c). auto.
  - intros letter p1 p2. rewrite !Hin. tauto.
Qed.

(* ===================================================================== *)
(** * The Generator: the grid of a returned crossword *)
(* ===================================================================== *)

Lemma placer_grid_built words r target_count :
  built (wp_grid (exec (place_remaining_words target_count)
                    (exec place_initial_word
                       (WordPlacer_init (Grid_init DEFAULT_GRID_SIZE)
                                        words r)))).
Proof.
  assert (Hpw : forall g w cl hi row col d,
            built g -> built (exec (place_word w cl hi row col d) g))
    by (intros; apply built_place_word; assumption).
  apply (place_remaining_words_ok built Hpw).
  apply (place_initial_word_ok built Hpw);
    [apply built_init | reflexivity | reflexivity].
Qed.

(** The grid of an attempt that passed the checks. *)
Lemma checked_grid_built words target_count r g r' :
  checked_grid words target_count r = (Returned (Some g), r') ->
  built g /\ grid_wf g /\
  MIN_GRID_SIZE <= grid_height g <= DEFAULT_GRID_SIZE /\
  MIN_GRID_SIZE <= grid_width g <= DEFAULT_GRID_SIZE.
Proof.
  intros E. apply checked_grid_spec in E.
  destruct E as (h & w & Hc & H6h & H6w & _).
  unfold MIN_GRID_SIZE in *.
  destruct (crop_empty_edges_result _ h w g Hc) as (Hwf & Hh & Hw);
    [lia | lia |].
  destruct (placer_grid_square words r target_count) as (Swf & Sh & Sw).
  destruct (crop_empty_edges_inside _ h w g Swf ltac:(rewrite Sh; reflexivity)
              Hc ltac:(lia)) as [Bh Bw].
  rewrite Sh in Bh. rewrite Sw in Bw.
  split; [|split; [exact Hwf | lia]].
  apply (built_crop _ _ _ (placer_grid_built words r target_count) Hc).
Qed.

Lemma read_cell_cell g r c v :
  grid_wf g -> read_cell (grid_cells g) (r, c) = Some v ->
  0 <= r < grid_height g /\ 0 <= c < grid_width g /\ cell g r c = v.
Proof.
  intros [Hh Hw] H. unfold read_cell in H. simpl fst in H. simpl snd in H.
  destruct (Z.leb_spec 0 r); [|discriminate].
  destruct (Z.leb_spec 0 c); [|discriminate]. simpl in H.
  destruct (nth_error (grid_cells g) (Z.to_nat r)) as [row|] eqn:Er;
    [|discriminate].
  assert (Hr : (Z.to_nat r < List.length (grid_cells g))%nat)
    by (apply nth_error_Some; congruence).
  assert (Hc : (Z.to_nat c < List.length row)%nat)
    by (apply nth_error_Some; congruence).
  rewrite Forall_forall in Hw.
  specialize (Hw row (nth_error_In _ _ Er)). unfold len in *.
  assert (Hin : 0 <= r < grid_height g /\ 0 <= c < grid_width g) by lia.
  split; [apply Hin|]. split; [apply Hin|].
  rewrite cell_eq.
  destruct (in_bounds _ _ r c) eqn:Eb;
    [|apply in_bounds_true in Hin; congruence].
  unfold cell_at. rewrite (nth_error_nth _ _ _ Er).
  apply nth_error_nth. exact H.
Qed.

(** A placed word of a built grid with a row lies on the board. *)
Lemma built_word_fits g p :
  built_inv g -> 0 <= grid_height g ->
  In p (placed_words g) -> pw_word p <> [] ->
  fits g (pw_row p) (pw_col p) (pw_direction p) (pw_length p).
Proof.
  intros [[(Hwf & Hc & _) _]|(Hh & _ & _ & Hp)] Hpos Hin Hne;
    [|rewrite Hp in Hin; destruct Hin].
  assert (Hcell : forall k ch, nth_error (pw_word p) k = Some ch ->
            let rc := cell_of (pw_row p) (pw_col p) (pw_direction p)
                              (Z.of_nat k) in
            0 <= fst rc < grid_height g /\ 0 <= snd rc < grid_width g).
  { intros k ch Hk rc. specialize (Hc p Hin k ch Hk). fold rc in Hc.
    unfold cell_p in Hc.
    destruct (Z_le_gt_dec 0 (fst rc)), (Z_lt_le_dec (fst rc) (grid_height g)),
             (Z_le_gt_dec 0 (snd rc)), (Z_lt_le_dec (snd rc) (grid_width g));
      try lia;
      rewrite cell_outside in Hc by lia; discriminate. }
  destruct (pw_word p) as [|c0 rest] eqn:Ew; [congruence|].
  pose proof (Hcell O c0 eq_refl) as H0.
  assert (Hlast : exists ch,
            nth_error (c0 :: rest) (List.length rest) = Some ch).
  { destruct (nth_error (c0 :: rest) (List.length rest)) eqn:E; [eauto|].
    apply nth_error_None in E. simpl in E. lia. }
  destruct Hlast as [ch Hl]. pose proof (Hcell _ ch Hl) as H1.
  unfold fits, pw_length, len. rewrite Ew. cbn [List.length].
  destruct (pw_direction p); simpl in H0, H1; lia.
Qed.

Lemma format_result_grid g :
  cw_grid (eval _format_result g) = grid_cells g /\
  grid_size_md (metadata (eval _format_result g)) =
    (len (grid_cells g),
     match grid_cells g with [] => 0 | row0 :: _ => len row0 end).
Proof.
  unfold _format_result.
  rewrite eval_bind by apply readonly_gets.
  rewrite eval_bind by apply readonly_gets.
  rewrite eval_bind by apply readonly_get_fill_density.
  split; reflexivity.
Qed.

(** X20. The grid of a crossword [generate] returns is a rectangle of
    [h] rows of [w] cells, with [h] and [w] between 6 and 10 and
    [metadata.grid_size] equal to [[h, w]]. Every word lies inside it, so
    no word has more than 10 letters (whatever the difficulty permits).
    Every cell is empty or holds one letter, and that letter is the letter
    a word of the crossword has at this cell: the grid has no letter that
    belongs to no word. *)
Theorem generate_grid_shape :
  forall (category difficulty : str) (seed : option Random)
         (excluded_words : option (list str)) (self : CrosswordGenerator)
         (c : Crossword),
    eval (generate category difficulty seed excluded_words) self
      = Returned (Some c) ->
    exists h w,
      6 <= h <= 10 /\ 6 <= w <= 10 /\
      grid_size_md (metadata c) = (h, w) /\
      len (cw_grid c) = h /\
      Forall (fun row => len row = w) (cw_grid c) /\
      Forall (fun wd =>
                0 <= startRow wd /\ 0 <= startCol wd /\
                match wd_direction wd with
                | horizontal =>
                  startRow wd < h /\ startCol wd + wd_length wd <= w
                | vertical =>
                  startRow wd + wd_length wd <= h /\ startCol wd < w
                end /\
                wd_length wd <= 10)
             (cw_words c) /\
      (forall row col v,
         read_cell (cw_grid c) (row, col) = Some v ->
         v = EMPTY \/
         exists wd k ch,
           In wd (cw_words c) /\
           nth_error (wd_word wd) k = Some ch /\
           cell_of (startRow wd) (startCol wd) (wd_direction wd)
                   (Z.of_nat k) = (row, col) /\
           v = [ch]).
Proof.
  intros category difficulty seed excluded self c H.
  apply generate_single in H.
  destruct H as (ws & t & r0 & r1 & c0 & Hs & ->).
  unfold _generate_single in Hs.
  destruct (checked_grid ws t r0) as [[e|[g|]] r2] eqn:E;
    inversion Hs; subst. clear Hs.
  pose proof E as Ev. apply checked_grid_spec in Ev.
  destruct Ev as (_ & _ & _ & _ & _ & Hv).
  apply validate_crossword_true in Hv.
  destruct Hv as (_ & _ & _ & _ & _ & Hshort).
  apply checked_grid_built in E.
  destruct E as (Hb & Hwf & Hh & Hw).
  unfold MIN_GRID_SIZE, DEFAULT_GRID_SIZE in *.
  pose proof (built_built_inv g Hb) as Hinv.
  destruct (format_result_grid g) as [F1 F2].
  destruct (cw_words_format_result g) as [F3 _].
  exists (grid_height g), (grid_width g).
  split; [exact Hh|]. split; [exact Hw|].
  simpl cw_grid. simpl metadata. simpl cw_words.
  rewrite F1, F2, F3. destruct Hwf as [Wh Ww].
  split.
  { f_equal; [symmetry; exact Wh|].
    destruct (grid_cells g) as [|row0 rest] eqn:Eg.
    - unfold len in Wh. simpl in Wh. lia.
    - inversion Ww; subst. assumption. }
  split; [symmetry; exact Wh|]. split; [exact Ww|]. split.
  - apply Forall_forall. intros wd Hwd.
    apply in_map_iff in Hwd. destruct Hwd as [p [<- Hp]]. simpl.
    assert (Hne : pw_word p <> []).
    { pose proof (short_errors_nil (placed_words g) Hshort p Hp) as Hl.
      intros E0. rewrite E0 in Hl. unfold len in Hl. simpl in Hl. lia. }
    pose proof (built_word_fits g p Hinv ltac:(lia) Hp Hne) as Hf.
    unfold fits in Hf. pose proof (len_nonneg (pw_word p)) as Hl0.
    unfold pw_length in *.
    destruct (pw_direction p); lia.
  - intros row col v Hr.
    apply (read_cell_cell g) in Hr; [|split; assumption].
    destruct Hr as (Hr & Hc & Hcell).
    destruct v as [|v0 vs]; [left; reflexivity | right].
    destruct Hinv as [[(_ & Hcons & _) Hcov]|(Hneg & _)]; [|lia].
    destruct (Hcov row col) as (p & Hp & k & Hk & Hrc);
      [rewrite Hcell; discriminate|].
    destruct (nth_error (pw_word p) (Z.to_nat k)) as [ch|] eqn:En.
    2:{ apply nth_error_None in En. unfold pw_length, len in Hk. lia. }
    exists (to_dict p), (Z.to_nat k), ch. simpl.
    split; [apply in_map; exact Hp|]. split; [exact En|].
    rewrite Z2Nat.id by lia. split; [exact Hrc|].
    specialize (Hcons p Hp _ ch En). rewrite Z2Nat.id in Hcons by lia.
    rewrite Hrc in Hcons. unfold cell_p in Hcons. simpl in Hcons.
    congruence.
Qed.

Lemma generate_grid_shape_witness :
  eval (generate (py "Наука") (py "easy") None None) science_generator
    = Returned (Some science_crossword) /\
  exists h w,
    6 <= h <= 10 /\ 6 <= w <= 10 /\
    grid_size_md (metadata science_crossword) = (h, w) /\
    len (cw_grid science_crossword) = h /\
    Forall (fun row => len row = w) (cw_grid science_crossword) /\
    Forall (fun wd =>
              0 <= startRow wd /\ 0 <= startCol wd /\
              match wd_direction wd with
              | horizontal =>
                startRow wd < h /\ startCol wd + wd_length wd <= w
              | vertical =>
                startRow wd + wd_length wd <= h /\ startCol wd < w
              end /\
              wd_length wd <= 10)
           (cw_words science_crossword) /\
    (forall row col v,
       read_cell (cw_grid science_crossword) (row, col) = Some v ->
       v = EMPTY \/
       exists wd k ch,
         In wd (cw_words science_crossword) /\
         nth_error (wd_word wd) k = Some ch /\
         cell_of (startRow wd) (startCol wd) (wd_direction wd)
                 (Z.of_nat k) = (row, col) /\
         v = [ch]).
Proof.
  assert (H : eval (generate (py "Наука") (py "easy") None None)
                science_generator = Returned (Some science_crossword))
    by (vm_compute; reflexivity).
  split; [exact H|].
  exact (generate_grid_shape (py "Наука") (py "easy") None None
           science_generator science_crossword H).
Defined.

(* ===================================================================== *)
(** * The entries of the dictionary *)
(* ===================================================================== *)

(** ['А' <= c <= 'Я' or c == 'Ё'] *)
Definition is_russian_capital (c : char) : bool :=
  ((1040 <=? c) && (c <=? 1071)) || (c =? 1025).

Example russian_capital_bounds : py "АЯЁ" = [1040; 1071; 1025].
Proof. vm_compute. reflexivity. Qed.

(** utils.py, [is_valid_cyrillic] *)
Definition is_valid_cyrillic (w : str) : bool :=
  forallb is_russian_capital (upper w).

(** A dictionary entry as [validate_word_entry] reads it: the values of the
    keys 'word', 'clue' and 'hint', [None] for a key the entry does not
    have. *)
Record RawEntry := mkRawEntry {
  raw_word : option str;
  raw_clue : option str;
  raw_hint : option str
}.

(** The messages of [validate_word_entry]. *)
Inductive EntryError :=
| MissingField (field : str)
| EntryTooShort (w : str)
| EntryTooLong (w : str)
| BadCharacters (w : str).

Definition missing {A} (field : string) (value : option A)
    : list EntryError :=
  match value with
  | Some _ => []
  | None => [MissingField (py field)]
  end.

(** [Validator.validate_word_entry] *)
Definition validate_word_entry (word_entry : RawEntry)
    : bool * list EntryError :=
  let errors :=
    missing "word" (raw_word word_entry)
    ++ missing "clue" (raw_clue word_entry)
    ++ missing "hint" (raw_hint word_entry) in
  let errors :=
    match raw_word word_entry with
    | Some w =>
      let errors :=
        if len w <? 3 then errors ++ [EntryTooShort w] else errors in
      let errors :=
        if len w >? 12 then errors ++ [EntryTooLong w] else errors in
      if negb (forallb is_russian_capital (upper w))
      then errors ++ [BadCharacters w] else errors
    | None => errors
    end in
  (len errors =? 0, errors).

(** A letter of the Russian alphabet, capital or small. *)
Definition is_russian_letter (c : char) : bool :=
  is_russian_capital c || ((1072 <=? c) && (c <=? 1103)) || (c =? 1105).

Example russian_small_bounds : py "аяё" = [1072; 1103; 1105].
Proof. vm_compute. reflexivity. Qed.

Lemma len_zero {A} (l : list A) : (len l =? 0) = true <-> l = [].
Proof.
  rewrite Z.eqb_eq. unfold len. destruct l; simpl; split; intros H;
    try reflexivity; try discriminate; lia.
Qed.

Lemma russian_letter_upper c :
  is_russian_letter c = true -> is_russian_capital (upper_char c) = true.
Proof.
  unfold is_russian_letter, is_russian_capital, upper_char. intros H.
  destruct (Z.leb_spec 97 c), (Z.leb_spec c 122), (Z.leb_spec 1072 c),
           (Z.leb_spec c 1103), (Z.leb_spec 1104 c), (Z.leb_spec c 1119),
           (Z.leb_spec 1040 c), (Z.leb_spec c 1071), (Z.eqb_spec c 1025),
           (Z.eqb_spec c 1105);
    simpl in *; try discriminate; try lia;
    repeat match goal with
           | |- context [?a <=? ?b] => destruct (Z.leb_spec a b)
           | |- context [?a =? ?b] => destruct (Z.eqb_spec a b)
           end; simpl; try reflexivity; lia.
Qed.

Lemma validate_word_entry_valid word_entry :
  let is_valid := fst (validate_word_entry word_entry) in
  let errors := snd (validate_word_entry word_entry) in
  (is_valid = true <-> errors = []) /\
  (is_valid = true <->
   exists w cl hi,
     word_entry = mkRawEntry (Some w) (Some cl) (Some hi) /\
     3 <= len w <= 12 /\ is_valid_cyrillic w = true).
Proof.
  destruct word_entry as [[w|] cl hi]; intros is_valid errors;
    subst is_valid errors;
    unfold validate_word_entry, is_valid_cyrillic;
    cbn [raw_word raw_clue raw_hint fst snd missing app].
  - destruct (Z.ltb_spec (len w) 3) as [H3|H3];
    destruct (Z.gtb_spec (len w) 12) as [H12|H12]; try lia;
    destruct (forallb is_russian_capital (upper w)) eqn:Ec;
    destruct cl as [cl|], hi as [hi|];
    cbn [negb missing app];
    (split; [rewrite len_zero; tauto|]);
    (rewrite len_zero; split;
     [intros E; try discriminate E;
      exists w, cl, hi; repeat split; auto; lia
     |intros (w0 & c0 & h0 & E & Hl & Hc);
      try discriminate E; injection E as <-; intros;
      try reflexivity; try lia; try congruence]).
  - split; [rewrite len_zero; tauto|].
    rewrite len_zero. split; [discriminate|].
    intros (w0 & c0 & h0 & E & _). discriminate E.
Qed.

Lemma russian_letters_valid w :
  forallb is_russian_letter w = true -> is_valid_cyrillic w = true.
Proof.
  intros Hr. unfold is_valid_cyrillic.
  apply forallb_forall. intros c Hc. unfold upper in Hc.
  apply in_map_iff in Hc. destruct Hc as [c' [<- Hc']].
  apply russian_letter_upper.
  rewrite forallb_forall in Hr. apply Hr. exact Hc'.
Qed.

(** X21. [validate_word_entry] accepts an entry exactly when it reports no
    error, and exactly when the entry has the three keys 'word', 'clue'
    and 'hint', its word has from 3 to 12 characters and
    [is_valid_cyrillic] accepts the word; clue and hint are not looked at.
    It reports at most four errors, and never both that the word is too
    short and that it is too long. A word of 3 to 12 Russian letters,
    capital or small, is accepted, and so is the empty word by
    [is_valid_cyrillic]. *)
Theorem validate_word_entry_exact :
  forall word_entry : RawEntry,
    let is_valid := fst (validate_word_entry word_entry) in
    let errors := snd (validate_word_entry word_entry) in
    (is_valid = true <-> errors = []) /\
    (is_valid = true <->
     exists w cl hi,
       word_entry = mkRawEntry (Some w) (Some cl) (Some hi) /\
       3 <= len w <= 12 /\ is_valid_cyrillic w = true) /\
    len errors <= 4 /\
    (forall w w', ~ (In (EntryTooShort w) errors /\
                     In (EntryTooLong w') errors)) /\
    (forall w cl hi,
       word_entry = mkRawEntry (Some w) (Some cl) (Some hi) ->
       3 <= len w <= 12 -> forallb is_russian_letter w = true ->
       is_valid = true) /\
    is_valid_cyrillic [] = true.
Proof.
  intros word_entry is_valid errors.
  destruct (validate_word_entry_valid word_entry) as [V1 V2].
  fold is_valid errors in V1, V2.
  split; [exact V1|]. split; [exact V2|].
  split; [|split; [|split; [|reflexivity]]].
  - subst errors. unfold validate_word_entry. cbn [snd].
    destruct word_entry as [[w|] [cl|] [hi|]];
      cbn [raw_word raw_clue raw_hint missing app];
      try (unfold len; simpl; lia);
      destruct (len w <? 3) eqn:E3; destruct (len w >? 12) eqn:E12;
      destruct (negb (forallb is_russian_capital (upper w)));
      try (unfold len; simpl; lia);
      apply Z.ltb_lt in E3; apply Z.gtb_lt in E12; lia.
  - intros w1 w2 [A B]. subst errors. unfold validate_word_entry in A, B.
    cbn [snd] in A, B.
    destruct word_entry as [[w|] [cl|] [hi|]];
      cbn [raw_word raw_clue raw_hint missing app] in A, B;
      try (destruct (Z.ltb_spec (len w) 3);
           destruct (Z.gtb_spec (len w) 12); try lia;
           destruct (negb (forallb is_russian_capital (upper w))));
      simpl in A, B;
      repeat match goal with
             | H : _ \/ _ |- _ => destruct H
             | H : False |- _ => destruct H
             | H : _ = _ |- _ => discriminate H
             end.
  - intros w cl hi E Hl Hr. apply V2. exists w, cl, hi.
    split; [exact E|]. split; [exact Hl|].
    apply russian_letters_valid. exact Hr.
Qed.

(** ** The whole dictionary *)

(** The messages of [validate_dictionary]. *)
Inductive DictionaryError :=
| FewWords (category : str) (n : Z)
| EntryInvalid (category : str) (i : Z) (error : EntryError).

(** An entry of the dictionary of the generator, which has the three
    keys. *)
Definition raw_of (e : WordEntry) : RawEntry :=
  mkRawEntry (Some (word e)) (Some (clue e)) (Some (hint e)).

(** What [validate_dictionary] appends for one category. *)
Definition category_errors (category : str) (words : list WordEntry)
    : list DictionaryError :=
  (if len words <? 50 then [FewWords category (len words)] else [])
  ++ flat_map
       (fun iw =>
          let '(is_valid, word_errors) :=
            validate_word_entry (raw_of (snd iw)) in
          if negb is_valid
          then map (EntryInvalid category (fst iw)) word_errors
          else [])
       (enumerate words).

(** [CrosswordGenerator.validate_dictionary] *)
Definition validate_dictionary (self : CrosswordGenerator)
    : bool * list DictionaryError :=
  let errors :=
    flat_map (fun kv => category_errors (fst kv) (snd kv))
             (dictionary self) in
  (len errors =? 0, errors).

(** An entry of [get_categories_info]. *)
Record CategoryInfo := mkCategoryInfo {
  ci_name : str;
  ci_word_count : Z;
  ci_available : bool
}.

(** [CrosswordGenerator.get_categories_info] *)
Definition get_categories_info (self : CrosswordGenerator)
    : list CategoryInfo :=
  map (fun kv =>
         {| ci_name := fst kv; ci_word_count := len (snd kv);
            ci_available := len (snd kv) >=? 50 |})
      (dictionary self).

(** [CrosswordGenerator.get_total_word_count] *)
Definition get_total_word_count (self : CrosswordGenerator) : Z :=
  fold_left Z.add (map (fun kv => len (snd kv)) (dictionary self)) 0.

Lemma flat_map_nil {A B} (f : A -> list B) (l : list A) :
  flat_map f l = [] <-> forall x, In x l -> f x = [].
Proof.
  induction l as [|a l IH]; simpl.
  - split; [intros _ x [] | reflexivity].
  - split.
    + intros H. apply app_eq_nil in H. destruct H as [H1 H2].
      intros x [<-|Hx]; [exact H1 | apply IH; assumption].
    + intros H. rewrite (H a (or_introl eq_refl)).
      apply IH. intros x Hx. apply H. right. exact Hx.
Qed.

Lemma category_errors_nil category words :
  category_errors category words = [] <->
  50 <= len words /\
  forall e, In e words -> fst (validate_word_entry (raw_of e)) = true.
Proof.
  unfold category_errors. split.
  - intros H. apply app_eq_nil in H. destruct H as [H1 H2].
    split; [destruct (Z.ltb_spec (len words) 50); [discriminate | lia]|].
    intros e He. rewrite flat_map_nil in H2.
    apply In_nth_error in He. destruct He as [k Hk].
    specialize (H2 (Z.of_nat k, e)).
    assert (Hin : In (Z.of_nat k, e) (enumerate words))
      by (apply in_enumerate; eauto).
    specialize (H2 Hin). cbn [fst snd] in H2.
    destruct (validate_word_entry_valid (raw_of e)) as [Hv _].
    cbv zeta in Hv.
    destruct (validate_word_entry (raw_of e)) as [ok errs].
    cbn [fst snd] in *. destruct ok; [reflexivity|]. cbn [negb] in H2.
    destruct errs; [|discriminate]. apply Hv. reflexivity.
  - intros [H50 Hall].
    destruct (Z.ltb_spec (len words) 50); [lia|]. cbn [app].
    apply flat_map_nil. intros [i e] Hin. cbn [fst snd].
    assert (He : In e words).
    { apply in_enumerate in Hin. destruct Hin as [k [_ Hk]].
      apply nth_error_In in Hk. exact Hk. }
    specialize (Hall e He).
    destruct (validate_word_entry (raw_of e)) as [ok errs].
    cbn [fst] in Hall. subst ok. reflexivity.
Qed.

Lemma lookup_In category d words :
  lookup category d = Some words -> In (category, words) d.
Proof.
  induction d as [|[k v] d IH]; simpl; [discriminate|].
  destruct (str_eqb k category) eqn:E.
  - apply str_eqb_eq in E. intros H. left. congruence.
  - intros H. right. apply IH. exact H.
Qed.

Lemma lookup_key category d :
  In category (map fst d) -> lookup category d <> None.
Proof.
  induction d as [|[k v] d IH]; simpl; [intros []|].
  intros [<-|H].
  - rewrite str_eqb_refl. discriminate.
  - destruct (str_eqb k category); [discriminate | apply IH; exact H].
Qed.

Lemma fold_left_add_ge (l : list Z) : forall acc,
  Forall (fun n => 50 <= n) l ->
  acc + 50 * len l <= fold_left Z.add l acc.
Proof.
  induction l as [|n l IH]; intros acc H; simpl.
  - unfold len. simpl. lia.
  - inversion H; subst. specialize (IH (acc + n) ltac:(assumption)).
    unfold len in *. cbn [List.length]. lia.
Qed.

(** X22. [validate_dictionary] accepts the dictionary exactly when it
    reports no error, and exactly when every category has at least 50
    entries and [validate_word_entry] accepts every entry. On a dictionary
    it accepts, [get_categories_info] marks every category as available,
    the dictionary has at least 50 words for each of its categories, and
    [generate] with the difficulty "hard" and no excluded words raises
    for no category of the dictionary. *)
Theorem validate_dictionary_exact :
  forall self : CrosswordGenerator,
    let is_valid := fst (validate_dictionary self) in
    let errors := snd (validate_dictionary self) in
    (is_valid = true <-> errors = []) /\
    (is_valid = true <->
     forall category words,
       In (category, words) (dictionary self) ->
       50 <= len words /\
       forall e, In e words ->
                 fst (validate_word_entry (raw_of e)) = true) /\
    (is_valid = true ->
     Forall (fun info => ci_available info = true)
            (get_categories_info self) /\
     50 * len (dictionary self) <= get_total_word_count self /\
     forall category seed e,
       In category (map fst (dictionary self)) ->
       eval (generate category (py "hard") seed None) self <> Raised e).
Proof.
  intros self is_valid errors. subst is_valid errors.
  unfold validate_dictionary. cbn [fst snd].
  assert (Hiff : flat_map (fun kv => category_errors (fst kv) (snd kv))
                          (dictionary self) = [] <->
                 forall category words,
                   In (category, words) (dictionary self) ->
                   50 <= len words /\
                   forall e, In e words ->
                             fst (validate_word_entry (raw_of e)) = true).
  { rewrite flat_map_nil. split.
    - intros H category words Hin.
      apply (proj1 (category_errors_nil category words)).
      apply (H (category, words) Hin).
    - intros H [category words] Hin.
      apply (proj2 (category_errors_nil category words)).
      exact (H category words Hin). }
  split; [apply len_zero|].
  split; [rewrite len_zero; exact Hiff|].
  rewrite len_zero, Hiff. intros Hall. split; [|split].
  - unfold get_categories_info. apply Forall_forall. intros info Hin.
    apply in_map_iff in Hin. destruct Hin as [[category words] [<- Hin]].
    simpl. destruct (Hall category words Hin) as [H50 _].
    apply Z.geb_le. exact H50.
  - unfold get_total_word_count.
    pose proof (fold_left_add_ge
                  (map (fun kv => len (snd kv)) (dictionary self)) 0) as H.
    assert (Hl : len (map (fun kv : str * list WordEntry => len (snd kv))
                          (dictionary self)) = len (dictionary self))
      by (unfold len; rewrite length_map; reflexivity).
    rewrite Hl in H. apply H. apply Forall_forall. intros n Hn.
    apply in_map_iff in Hn. destruct Hn as [[category words] [<- Hin]].
    simpl. apply (Hall category words Hin).
  - intros category seed e Hkey Hraise.
    destruct (generate_cases category (py "hard") seed None self)
      as [_ [(Hfew & _)|(_ & [(c & Ho & _)|(Ho & _)])]];
      [|rewrite Ho in Hraise; discriminate
       |rewrite Ho in Hraise; discriminate].
    unfold too_few in Hfew.
    destruct (lookup category (dictionary self)) as [words|] eqn:El;
      [|apply (lookup_key _ _ Hkey); exact El].
    apply lookup_In in El. destruct (Hall category words El) as [H50 Hv].
    rewrite filter_id in Hfew.
    + change (fst (word_count (settings_of (py "hard")))) with 12 in Hfew.
      lia.
    + intros x Hx. specialize (Hv x Hx).
      destruct (validate_word_entry_valid (raw_of x)) as (_ & Hc).
      cbv zeta in Hc. apply Hc in Hv.
      destruct Hv as (w & cl & hi & E & Hl & _).
      unfold raw_of in E. injection E as <- _ _.
      unfold eligible. simpl str_in. cbn [negb andb].
      change (min_word_length (settings_of (py "hard"))) with 3.
      change (max_word_length (settings_of (py "hard"))) with 12.
      apply andb_true_iff. split; apply Z.leb_le; lia.
Qed.

(* ===================================================================== *)
(** * Grid: the placement predicate on the grids of the class *)
(* ===================================================================== *)

(** On a built grid no placed word runs through an empty cell. *)
Lemma built_empty_not_crossed g r c d :
  built g -> cell g r c = EMPTY -> has_perpendicular g r c d = false.
Proof.
  intros Hb He.
  destruct (has_perpendicular g r c d) eqn:E; [|reflexivity].
  exfalso. apply has_perpendicular_true in E.
  destruct E as (p & Hp & _ & Hr).
  apply runs_through_covers in Hr. destruct Hr as (k & Hk & Hrc).
  destruct (built_built_inv g Hb) as [[(_ & Hc & _) _]|(_ & _ & _ & Hn)];
    [|rewrite Hn in Hp; destruct Hp].
  destruct (nth_error (pw_word p) (Z.to_nat k)) as [ch|] eqn:En.
  2:{ apply nth_error_None in En. unfold pw_length, len in Hk. lia. }
  specialize (Hc p Hp _ ch En). rewrite Z2Nat.id in Hc by lia.
  rewrite Hrc in Hc. unfold cell_p in Hc. simpl in Hc.
  rewrite He in Hc. discriminate.
Qed.

(** X23. On a grid built by [place_word] and [crop_empty_edges],
    [can_place_word] returns True exactly when the upper-cased word stays
    on the board, every cell it goes over holds the letter the word has
    there or is empty with both its neighbours across the word empty (or
    off the board), and the cells before and after the word are empty or
    off the board. At an empty cell of such a grid
    [_has_perpendicular_word] returns False for both directions, so that
    the search of [_check_adjacent_cells] for a crossing word never
    succeeds. *)
Theorem can_place_word_exact :
  forall (g : Grid) (word : str) (row col : Z) (d : Direction),
    built g ->
    (eval (can_place_word word row col d) g = true <->
     fits g row col d (len (upper word)) /\
     (forall k ch,
        nth_error (upper word) k = Some ch ->
        let rc := cell_of row col d (Z.of_nat k) in
        cell_p g rc = [ch] \/
        (cell_p g rc = EMPTY /\
         cell_p g (fst (side_cells (fst rc) (snd rc) d)) = EMPTY /\
         cell_p g (snd (side_cells (fst rc) (snd rc) d)) = EMPTY)) /\
     cell_p g (cell_of row col d (-1)) = EMPTY /\
     cell_p g (cell_of row col d (len (upper word))) = EMPTY) /\
    (forall r c d',
       eval (get_cell r c) g = EMPTY ->
       eval (_has_perpendicular_word r c d') g = false).
Proof.
  intros g word row col d Hb. split.
  - rewrite can_place_word_true.
    assert (Hl : forall k ch,
              letter_ok g row col d (Z.of_nat k) ch <->
              let rc := cell_of row col d (Z.of_nat k) in
              cell_p g rc = [ch] \/
              (cell_p g rc = EMPTY /\
               cell_p g (fst (side_cells (fst rc) (snd rc) d)) = EMPTY /\
               cell_p g (snd (side_cells (fst rc) (snd rc) d)) = EMPTY)).
    { intros k ch. unfold letter_ok.
      destruct (cell_of row col d (Z.of_nat k)) as [r c]. cbv zeta.
      unfold cell_p. cbn [fst snd].
      assert (Ha : cell g r c = EMPTY ->
                (adjacent_ok g r c d = true <->
                 cell g (fst (fst (side_cells r c d)))
                        (snd (fst (side_cells r c d))) = EMPTY /\
                 cell g (fst (snd (side_cells r c d)))
                        (snd (snd (side_cells r c d))) = EMPTY)).
      { intros He. unfold adjacent_ok.
        destruct (side_cells r c d) as [[r1 c1] [r2 c2]]. cbn [fst snd].
        rewrite (built_empty_not_crossed g r c _ Hb He), orb_false_r.
        rewrite andb_true_iff, !is_empty_true. tauto. }
      split.
      - intros [H|[He H]]; [left; exact H | right].
        split; [exact He | apply (Ha He); exact H].
      - intros [H|[He H]]; [left; exact H | right].
        split; [exact He | apply (Ha He); exact H]. }
    split.
    + intros (H1 & H2 & H3 & H4). split; [exact H1|].
      split; [|split; assumption].
      intros k ch Hk. apply Hl. apply H2. exact Hk.
    + intros (H1 & H2 & H3 & H4). split; [exact H1|].
      split; [|split; assumption].
      intros k ch Hk. apply Hl. apply H2. exact Hk.
  - intros r c d' He. apply (built_empty_not_crossed g r c d' Hb He).
Qed.

Lemma can_place_word_exact_witness :
  built grid_atom /\
  (eval (can_place_word (py "ток") 5 1 vertical) grid_atom = true <->
   fits grid_atom 5 1 vertical (len (upper (py "ток"))) /\
   (forall k ch,
      nth_error (upper (py "ток")) k = Some ch ->
      let rc := cell_of 5 1 vertical (Z.of_nat k) in
      cell_p grid_atom rc = [ch] \/
      (cell_p grid_atom rc = EMPTY /\
       cell_p grid_atom (fst (side_cells (fst rc) (snd rc) vertical))
         = EMPTY /\
       cell_p grid_atom (snd (side_cells (fst rc) (snd rc) vertical))
         = EMPTY)) /\
   cell_p grid_atom (cell_of 5 1 vertical (-1)) = EMPTY /\
   cell_p grid_atom (cell_of 5 1 vertical (len (upper (py "ток"))))
     = EMPTY) /\
  eval (can_place_word (py "ток") 5 1 vertical) grid_atom = true.
Proof.
  assert (Hb : built grid_atom) by (apply built_place_word; apply built_init).
  split; [exact Hb|]. split.
  - apply (can_place_word_exact grid_atom (py "ток") 5 1 vertical Hb).
  - vm_compute. reflexivity.
Defined.

(* ===================================================================== *)
(** * Floats between two integers *)
(* ===================================================================== *)

Lemma floor_log2_le (n : Z) (d : positive) (M : Z) :
  0 < n -> n <= M * Z.pos d -> M < 2 ^ 53 ->
  floor_log2 n (Z.pos d) <= 52.
Proof.
  intros Hn Hle HM. unfold floor_log2.
  set (k := Z.log2 n - Z.log2 (Z.pos d)).
  assert (Hd : Z.pos d < 2 ^ (Z.log2 (Z.pos d) + 1)).
  { apply Z.log2_spec. lia. }
  assert (Hld : 0 <= Z.log2 (Z.pos d)) by apply Z.log2_nonneg.
  assert (Hk : k <= 53).
  { assert (Hlt : n < 2 ^ (54 + Z.log2 (Z.pos d))).
    { replace (54 + Z.log2 (Z.pos d)) with (53 + (Z.log2 (Z.pos d) + 1))
        by lia.
      rewrite Z.pow_add_r by lia. nia. }
    apply Z.log2_lt_pow2 in Hlt; [|exact Hn]. unfold k. lia. }
  destruct (Qle_bool 1 (scale2 n (Z.pos d) k)) eqn:E; [|lia].
  destruct (Z.eq_dec k 53) as [Ek|Ek]; [|lia].
  exfalso. apply Qle_bool_iff in E. rewrite Ek in E.
  unfold scale2 in E. change (0 <=? 53) with true in E. cbv iota in E.
  unfold Qle in E. cbn [Qnum Qden] in E.
  rewrite Z2Pos.id in E by lia. nia.
Qed.

(** The float nearest to a quotient between 0 and an integer [M] below
    2^53 lies between 0 and [M]. *)
Lemma binary64_between (n : Z) (d : positive) (M : Z) :
  0 <= n -> n <= M * Z.pos d -> 1 <= M < 2 ^ 53 ->
  (0 <= binary64 (n # d) /\ binary64 (n # d) <= M # 1)%Q.
Proof.
  intros Hn Hle HM. unfold binary64. cbn [Qnum Qden].
  destruct (Z.eqb_spec n 0) as [E0|E0].
  { split; unfold Qle; simpl; lia. }
  assert (Hpos : 0 < n) by lia.
  rewrite Z.abs_eq by lia.
  pose proof (floor_log2_le n d M Hpos Hle ltac:(lia)) as Hfl.
  set (e := Z.max (floor_log2 n (Z.pos d) - 52) (-1074)).
  assert (He : -1074 <= e <= 0) by (unfold e; lia).
  destruct (Z.ltb_spec n 0); [lia|].
  assert (Hp : 0 < 2 ^ (- e)) by (apply Z.pow_pos_nonneg; lia).
  set (m := round_half_even (scale2 n (Z.pos d) e)).
  assert (Hm : 0 <= m <= M * 2 ^ (- e)).
  { unfold m, scale2. destruct (Z.leb_spec 0 e) as [H0|H0].
    - assert (e = 0) by lia. subst e. replace (- Z.max _ _) with 0 by lia.
      replace (Z.max _ _) with 0 by lia. simpl (2 ^ 0).
      split.
      + apply round_half_even_ge. cbn [Qnum Qden]. lia.
      + rewrite Z.mul_1_r. apply round_half_even_le. cbn [Qnum Qden].
        rewrite Z2Pos.id by lia. lia.
    - split.
      + apply round_half_even_ge. cbn [Qnum Qden]. nia.
      + apply round_half_even_le. cbn [Qnum Qden]. nia. }
  destruct (Z.leb_spec 0 e) as [H0|H0].
  - assert (E : e = 0) by lia. rewrite E in *. simpl (2 ^ 0) in *.
    simpl (2 ^ (- 0)) in Hm.
    split; unfold Qle; cbn [Qnum Qden]; lia.
  - split; unfold Qle; cbn [Qnum Qden]; rewrite ?Z2Pos.id by lia; lia.
Qed.

Lemma int_truediv_between (a b : Z) :
  0 <= a <= b -> 0 < b ->
  (0 <= int_truediv a b /\ int_truediv a b <= 1)%Q.
Proof.
  intros Ha Hb. unfold int_truediv.
  apply (binary64_between a (Z.to_pos b) 1); [lia | | simpl; lia].
  rewrite Z2Pos.id by lia. lia.
Qed.

(* ===================================================================== *)
(** * Grid: the fill density *)
(* ===================================================================== *)

Lemma count_cells_any cells :
  0 <= snd (count_cells cells) <= fst (count_cells cells).
Proof.
  unfold count_cells.
  set (inner := fun acc (row : list str) => fold_left _ row acc).
  assert (H : forall t f, 0 <= f <= t ->
            0 <= snd (fold_left inner cells (t, f))
              <= fst (fold_left inner cells (t, f))).
  { induction cells as [|row cells IH]; intros t f Htf; [simpl; lia|].
    cbn [fold_left].
    assert (Hr : let '(t', f') := inner (t, f) row in
                 t' = t + len row /\ f <= f' <= f + len row)
      by apply count_row.
    destruct (inner (t, f) row) as [t1 f1].
    apply IH. pose proof (len_nonneg row). lia. }
  apply H. lia.
Qed.

(** X24. [get_fill_density] changes nothing and returns a float between
    0.0 and 1.0: 0.0 for a grid without a cell (nothing is divided by
    zero), and else the float nearest to the quotient of the number of
    cells that are not empty by the number of cells. When every cell is
    empty it is 0.0. *)
Theorem get_fill_density_bounds :
  forall g : Grid,
    let density := eval get_fill_density g in
    let total_cells := fst (count_cells (grid_cells g)) in
    let filled_cells := snd (count_cells (grid_cells g)) in
    exec get_fill_density g = g /\
    (0 <= density)%Q /\ (density <= 1)%Q /\
    0 <= filled_cells <= total_cells /\
    (total_cells = 0 -> density = 0%Q) /\
    (0 < total_cells ->
     density = binary64 (filled_cells # Z.to_pos total_cells)) /\
    (filled_cells = 0 -> density = 0%Q).
Proof.
  intros g density total filled. subst density total filled.
  rewrite eval_get_fill_density. unfold density_of.
  pose proof (count_cells_any (grid_cells g)) as Hc.
  destruct (count_cells (grid_cells g)) as [t f]. cbn [fst snd] in *.
  split; [apply readonly_get_fill_density|].
  destruct (Z.gtb_spec t 0) as [Ht|Ht].
  - destruct (int_truediv_between f t ltac:(lia) ltac:(lia)) as [H0 H1].
    split; [exact H0|]. split; [exact H1|]. split; [exact Hc|].
    split; [lia|]. split; [reflexivity|].
    intros ->. reflexivity.
  - split; [unfold Qle; simpl; lia|]. split; [unfold Qle; simpl; lia|].
    split; [exact Hc|]. split; [reflexivity|]. split; [lia | reflexivity].
Qed.

(* ===================================================================== *)
(** * The Generator: categories and progress *)
(* ===================================================================== *)

(** [x * y] on floats. *)
Definition float_mul (x y : float) : float := binary64 (x * y).

(** [round(x, 1)]: the decimal of one digit nearest to the value of the
    float [x], ties to the even digit, and then the float nearest to that
    decimal. *)
Definition round1 (x : float) : float :=
  binary64 (round_half_even (x * (10 # 1)) # 10).

(** An entry of [get_categories_info_with_progress]. *)
Record CategoryProgress := mkCategoryProgress {
  cp_name : str;
  cp_word_count : Z;
  cp_available : bool;
  guessed_count : Z;
  guessed_percent : float
}.

(** A Python [set] of strings is held as a list of its elements;
    [len(a & b)] is the number of different elements of [a] that are in
    [b]. *)
Definition len_intersection (a b : list str) : Z :=
  len (nodup (list_eq_dec Z.eq_dec) (filter (fun x => str_in x b) a)).

(** [guessed_words.get(category, set())] *)
Fixpoint guessed_get (guessed_words : list (str * list str))
    (category : str) : list str :=
  match guessed_words with
  | [] => []
  | (k, v) :: rest =>
    if str_eqb k category then v else guessed_get rest category
  end.

(** [CrosswordGenerator.get_categories_info_with_progress] *)
Definition get_categories_info_with_progress
    (guessed_words : option (list (str * list str)))
    (self : CrosswordGenerator) : list CategoryProgress :=
  let guessed_words :=
    match guessed_words with Some d => d | None => [] end in
  map (fun kv =>
         let category := fst kv in
         let words := snd kv in
         let word_count := len words in
         let all_words_in_category := map (fun w => upper (word w)) words in
         let category_guessed := guessed_get guessed_words category in
         let guessed_count :=
           len_intersection category_guessed all_words_in_category in
         let guessed_percent :=
           if word_count >? 0
           then round1 (float_mul (int_truediv guessed_count word_count)
                                  (100 # 1))
           else 0%Q in
         {| cp_name := category; cp_word_count := word_count;
            cp_available := word_count >=? 50;
            guessed_count := guessed_count;
            guessed_percent := guessed_percent |})
      (dictionary self).

Lemma binary64_between_Q (q : Q) (M : Z) :
  (0 <= q)%Q -> (q <= M # 1)%Q -> 1 <= M < 2 ^ 53 ->
  (0 <= binary64 q /\ binary64 q <= M # 1)%Q.
Proof.
  destruct q as [n d]. unfold Qle. cbn [Qnum Qden]. intros H0 H1 HM.
  apply binary64_between; lia.
Qed.

Lemma round1_between (x : float) :
  (0 <= x)%Q -> (x <= 100 # 1)%Q ->
  (0 <= round1 x /\ round1 x <= 100 # 1)%Q.
Proof.
  intros H0 H1. unfold round1.
  assert (H : 0 <= round_half_even (x * (10 # 1)) <= 1000).
  { destruct x as [n d]. unfold Qle in H0, H1. cbn [Qnum Qden] in H0, H1.
    split.
    - apply round_half_even_ge. unfold Qmult. cbn [Qnum Qden]. lia.
    - apply round_half_even_le. unfold Qmult. cbn [Qnum Qden].
      rewrite Pos2Z.inj_mul. lia. }
  apply binary64_between; [lia | lia | simpl; lia].
Qed.

Lemma percent_between (a b : Z) :
  0 <= a <= b -> 0 < b ->
  let percent := round1 (float_mul (int_truediv a b) (100 # 1)) in
  (0 <= percent /\ percent <= 100 # 1)%Q.
Proof.
  intros Ha Hb percent. subst percent.
  destruct (int_truediv_between a b Ha Hb) as [H0 H1].
  assert (H : (0 <= float_mul (int_truediv a b) (100 # 1) /\
               float_mul (int_truediv a b) (100 # 1) <= 100 # 1)%Q).
  { unfold float_mul. apply binary64_between_Q; [| |simpl; lia].
    - apply Qmult_le_0_compat; [exact H0 | unfold Qle; simpl; lia].
    - setoid_replace (100 # 1)%Q with (1 * (100 # 1))%Q at 2 by ring.
      apply Qmult_le_compat_r; [exact H1 | unfold Qle; simpl; lia]. }
  apply round1_between; apply H.
Qed.

Lemma len_intersection_bounds (a b : list str) :
  0 <= len_intersection a b <= len b /\
  len_intersection a b <= len a /\
  ((forall x, In x a -> ~ In x b) -> len_intersection a b = 0).
Proof.
  unfold len_intersection.
  set (i := nodup (list_eq_dec Z.eq_dec) (filter (fun x => str_in x b) a)).
  assert (Hnd : NoDup i) by apply NoDup_nodup.
  assert (Hin : forall x, In x i <-> In x a /\ In x b).
  { intros x. unfold i. rewrite nodup_In, filter_In, str_in_true. tauto. }
  split; [split; [apply len_nonneg|]|split].
  - unfold len. apply inj_le. apply NoDup_incl_length; [exact Hnd|].
    intros x Hx. apply Hin in Hx. tauto.
  - unfold len. apply inj_le. apply NoDup_incl_length; [exact Hnd|].
    intros x Hx. apply Hin in Hx. tauto.
  - intros Hno. destruct i as [|x l] eqn:E; [reflexivity|].
    exfalso. assert (Hx : In x (x :: l)) by (left; reflexivity).
    apply Hin in Hx. destruct Hx as [H1 H2]. apply (Hno x H1 H2).
Qed.

(** X25. [get_categories_info_with_progress] has one entry for each
    category, with the name, the word count and the availability that
    [get_categories_info] gives. The number of guessed words of a category
    is between 0 and the word count and at most the number of strings
    guessed for the category, so it is 0 when no dict of guessed words is
    given. The percentage is a float between 0 and 100, and 0 for a
    category without words (nothing is divided by zero). *)
Theorem categories_progress_bounds :
  forall (guessed_words : option (list (str * list str)))
         (self : CrosswordGenerator),
    let result := get_categories_info_with_progress guessed_words self in
    map (fun p => mkCategoryInfo (cp_name p) (cp_word_count p)
                                 (cp_available p)) result
      = get_categories_info self /\
    Forall (fun p =>
              0 <= guessed_count p <= cp_word_count p /\
              (0 <= guessed_percent p)%Q /\
              (guessed_percent p <= 100 # 1)%Q /\
              (cp_word_count p = 0 -> guessed_percent p = 0%Q) /\
              (forall guessed,
                 guessed_words = Some guessed ->
                 guessed_count p <= len (guessed_get guessed (cp_name p))) /\
              (guessed_words = None -> guessed_count p = 0))
           result.
Proof.
  intros guessed_words self result. subst result.
  unfold get_categories_info_with_progress, get_categories_info.
  split.
  - rewrite map_map. apply map_ext. intros [category words]. reflexivity.
  - apply Forall_forall. intros p Hp. apply in_map_iff in Hp.
    destruct Hp as [[category words] [<- _]]. cbn [fst snd cp_name
      cp_word_count cp_available guessed_count guessed_percent].
    set (g := guessed_get _ category).
    set (all := map (fun w => upper (word w)) words).
    destruct (len_intersection_bounds g all) as ([B0 B1] & B2 & B3).
    assert (Hall : len all = len words)
      by (unfold all, len; rewrite length_map; reflexivity).
    rewrite Hall in B1.
    split; [lia|].
    assert (Hpc : (0 <= (if len words >? 0
                         then round1 (float_mul
                                        (int_truediv (len_intersection g all)
                                                     (len words))
                                        (100 # 1))
                         else 0) /\
                   (if len words >? 0
                    then round1 (float_mul
                                   (int_truediv (len_intersection g all)
                                                (len words))
                                   (100 # 1))
                    else 0) <= 100 # 1)%Q).
    { destruct (Z.gtb_spec (len words) 0) as [Hw|Hw].
      - apply percent_between; lia.
      - split; unfold Qle; simpl; lia. }
    split; [apply Hpc|]. split; [apply Hpc|]. split.
    { intros E. rewrite E. reflexivity. }
    split.
    + intros guessed ->. exact B2.
    + intros ->. apply B3. intros x [].
Qed.
